(** * BridgeClient: the node-host side of the bridge wire protocol

    A shallow embedding of [bridge-client.ts]: the class [BridgeClient] with
    its helpers [normalizeFingerprint] and [extractFingerprint], and the parts
    of the JavaScript runtime the class relies on: strings as sequences of
    UTF-16 code units, [JSON.stringify] and [JSON.parse], [String(...)],
    [Map], timers, promises and socket events.

    The methods are written in a small monad (state, effects in order,
    exceptions).  What reaches the outside (socket writes, timers, settled
    promises, callbacks of the options) is an [Effect]; what comes from the
    outside (calls of the public methods, socket and timer events) is an
    [Event]; [step] runs the code an event triggers and [run] a sequence of
    events.

    What the model leaves out: the UTF-8 coding between strings and socket
    bytes, the double-precision value of numbers (a number is carried as its
    numeral; its truth value is that of the numeral's mantissa), and
    what the callbacks of the options do when called.

    Beside the client, the file embeds the node-host runner, the caller of
    the client (module [NodeHost]): its functions on strings and JSON
    values, the cache of the skill binaries, the environment given to
    commands, the lookup of executables, the run of a child process as its
    callbacks see it, and the handler of invoke frames.  What the runner
    asks of the platform and of the module of the exec approvals is a
    parameter there, as is what an awaited call gives.

    Layout: part I holds every definition; part II the lemmas and the
    theorems about the protocol; part III further properties of the client
    (handshake, timers, lines and chunks, payloads, [close()]); part IV
    those of the runner. *)

From Stdlib Require Import List NArith Bool Ascii String Lia Arith PeanoNat.
Import ListNotations.

Set Implicit Arguments.
Local Open Scope string_scope.
Local Open Scope list_scope.
#[local] Set Warnings "-register-all".

(* ===================================================================== *)
(** * Part I: definitions                                                 *)
(* ===================================================================== *)

(** ** JavaScript strings

    A JavaScript string is a finite sequence of 16-bit code units.  Code units
    are kept as [N]; a literal of the source is written [js "..."]. *)

Definition jsstring := list N.

Definition js (s : string) : jsstring :=
  map N_of_ascii (list_ascii_of_string s).

Fixpoint jseqb (a b : jsstring) : bool :=
  match a, b with
  | [], [] => true
  | x :: a', y :: b' => N.eqb x y && jseqb a' b'
  | _, _ => false
  end.

Definition is_empty (s : jsstring) : bool :=
  match s with [] => true | _ => false end.

(** A code unit fits in 16 bits. *)
Definition code_unit (c : N) : Prop := (c < 65536)%N.

(** [String.prototype.trim] strips WhiteSpace and LineTerminator code points:
    TAB, LF, VT, FF, CR, SP, NBSP, U+1680, U+2000..U+200A, U+2028, U+2029,
    U+202F, U+205F, U+3000 and U+FEFF. *)
Definition is_js_space (c : N) : bool :=
  ((9 <=? c) && (c <=? 13) || (c =? 32) || (c =? 160) || (c =? 5760)
   || (8192 <=? c) && (c <=? 8202) || (c =? 8232) || (c =? 8233)
   || (c =? 8239) || (c =? 8287) || (c =? 12288) || (c =? 65279))%N.

Fixpoint trimStart (s : jsstring) : jsstring :=
  match s with
  | c :: r => if is_js_space c then trimStart r else s
  | [] => []
  end.

Definition trimEnd (s : jsstring) : jsstring := rev (trimStart (rev s)).

Definition trim (s : jsstring) : jsstring := trimEnd (trimStart s).

(** [s.indexOf("\n")]: [None] stands for -1. *)
Fixpoint indexOf (c : N) (s : jsstring) : option nat :=
  match s with
  | [] => None
  | x :: r => if N.eqb x c then Some 0
              else match indexOf c r with Some i => Some (S i) | None => None end
  end.

(** [s.slice(a, b)] and [s.slice(a)] for in-range indexes. *)
Definition slice (a b : nat) (s : jsstring) : jsstring := firstn (b - a) (skipn a s).
Definition sliceFrom (a : nat) (s : jsstring) : jsstring := skipn a s.

(** [toLowerCase] restricted to what the source applies it to: the letters
    A-Z map to a-z, every other code unit is kept.  (The source only lowers
    strings already reduced to hexadecimal digits.) *)
Definition toLowerCase (s : jsstring) : jsstring :=
  map (fun c => if ((65 <=? c) && (c <=? 90))%N then (c + 32)%N else c) s.

Fixpoint join (sep : jsstring) (parts : list jsstring) : jsstring :=
  match parts with
  | [] => []
  | [p] => p
  | p :: rest => p ++ sep ++ join sep rest
  end.

(** ** JSON values

    The values [JSON.parse] can produce and [JSON.stringify] can print.
    A number is carried as its numeral (the text of the JSON number); the
    development never depends on the double-precision value behind it.
    The members of an object are listed in the order they were created;
    where the code enumerates the keys of an object, [NodeHost.enumerated] gives
    the order of the enumeration (array indices first). *)

Inductive JValue : Type :=
| JNull
| JBool (b : bool)
| JNum (numeral : jsstring)
| JStr (s : jsstring)
| JArr (items : list JValue)
| JObj (members : list (jsstring * JValue)).

(** [CreateDataProperty]: an existing key keeps its place and takes the new
    value, a new key goes last. *)
Fixpoint obj_set (k : jsstring) (v : JValue) (ms : list (jsstring * JValue))
  : list (jsstring * JValue) :=
  match ms with
  | [] => [(k, v)]
  | (k', v') :: r => if jseqb k' k then (k, v) :: r else (k', v') :: obj_set k v r
  end.

Fixpoint obj_get (k : jsstring) (ms : list (jsstring * JValue)) : option JValue :=
  match ms with
  | [] => None
  | (k', v) :: r => if jseqb k' k then Some v else obj_get k r
  end.

(** [v.k] for a value [v] that is neither [null] nor [undefined]; [None] is
    [undefined].  None of the property names the client reads exists on the
    prototypes of strings, numbers, booleans or arrays. *)
Definition getField (k : string) (v : JValue) : option JValue :=
  match v with
  | JObj ms => obj_get (js k) ms
  | _ => None
  end.

(** [x ?? d] *)
Definition nullish (x : option JValue) (d : JValue) : JValue :=
  match x with
  | None | Some JNull => d
  | Some v => v
  end.

(** *** Numerals *)

Definition is_digit (c : N) : bool := ((48 <=? c) && (c <=? 57))%N.

Fixpoint span_digits (s : jsstring) : jsstring * jsstring :=
  match s with
  | c :: r => if is_digit c then let (d, r') := span_digits r in (c :: d, r')
              else ([], s)
  | [] => ([], [])
  end.

(** int = "0" | digit1-9 digit* *)
Definition scan_int (s : jsstring) : option (jsstring * jsstring) :=
  match s with
  | c :: r =>
      if (c =? 48)%N then Some ([c], r)
      else if is_digit c then let (d, r') := span_digits r in Some (c :: d, r')
      else None
  | [] => None
  end.

(** frac = "." digit+ (optional) *)
Definition scan_frac (s : jsstring) : option (jsstring * jsstring) :=
  match s with
  | c :: r =>
      if (c =? 46)%N then
        match span_digits r with
        | ([], _) => None
        | (d, r') => Some (c :: d, r')
        end
      else Some ([], s)
  | [] => Some ([], [])
  end.

(** exp = ("e" | "E") ("+" | "-")? digit+ (optional) *)
Definition scan_exp (s : jsstring) : option (jsstring * jsstring) :=
  match s with
  | c :: r =>
      if ((c =? 101) || (c =? 69))%N then
        let (sg, r1) :=
          match r with
          | g :: r0 => if ((g =? 43) || (g =? 45))%N then ([g], r0) else ([], r)
          | [] => ([], r)
          end in
        match span_digits r1 with
        | ([], _) => None
        | (d, r') => Some (c :: sg ++ d, r')
        end
      else Some ([], s)
  | [] => Some ([], [])
  end.

Definition scan_number (s : jsstring) : option (jsstring * jsstring) :=
  let (sg, s0) :=
    match s with
    | c :: r => if (c =? 45)%N then ([c], r) else ([], s)
    | [] => ([], s)
    end in
  match scan_int s0 with
  | None => None
  | Some (i, s1) =>
      match scan_frac s1 with
      | None => None
      | Some (f, s2) =>
          match scan_exp s2 with
          | None => None
          | Some (e, s3) => Some (sg ++ i ++ f ++ e, s3)
          end
      end
  end.

(** The text of a JSON number, whole. *)
Definition is_numeral (t : jsstring) : Prop := scan_number t = Some (t, []).

(** A numeral denotes zero when its mantissa has no digit 1-9 (a value that
    only underflows to zero in double precision is not seen as zero). *)
Fixpoint numeral_is_zero (t : jsstring) : bool :=
  match t with
  | [] => true
  | c :: r => if ((c =? 101) || (c =? 69))%N then true
              else if ((49 <=? c) && (c <=? 57))%N then false
              else numeral_is_zero r
  end.

(** ToBoolean *)
Definition truthy (v : JValue) : bool :=
  match v with
  | JNull => false
  | JBool b => b
  | JNum t => negb (numeral_is_zero t)
  | JStr s => negb (is_empty s)
  | JArr _ | JObj _ => true
  end.

Definition truthy_opt (x : option JValue) : bool :=
  match x with Some v => truthy v | None => false end.

(** *** [JSON.stringify] (no indentation)

    QuoteJSONString: the seven short escapes, [\uXXXX] (lower-case hex) for
    the other control characters and for lone surrogates, everything else
    as it is. *)

Definition hex_digit (n : N) : N := (if n <? 10 then 48 + n else 87 + n)%N.

Definition hex4 (c : N) : jsstring :=
  [hex_digit ((c / 4096) mod 16); hex_digit ((c / 256) mod 16);
   hex_digit ((c / 16) mod 16); hex_digit (c mod 16)]%N.

Definition unicode_escape (c : N) : jsstring := 92%N :: 117%N :: hex4 c.

Definition is_high_surrogate (c : N) : bool := ((55296 <=? c) && (c <=? 56319))%N.
Definition is_low_surrogate (c : N) : bool := ((56320 <=? c) && (c <=? 57343))%N.

(** One code unit that is not the first half of a surrogate pair. *)
Definition quote_unit (c : N) : jsstring :=
  (if c =? 8 then js "\b"
   else if c =? 9 then js "\t"
   else if c =? 10 then js "\n"
   else if c =? 12 then js "\f"
   else if c =? 13 then js "\r"
   else if c =? 34 then [92; 34]
   else if c =? 92 then [92; 92]
   else if (c <? 32) || is_high_surrogate c || is_low_surrogate c
        then unicode_escape c
   else [c])%N.

Fixpoint quote_units (s : jsstring) : jsstring :=
  match s with
  | [] => []
  | c :: r =>
      if is_high_surrogate c then
        match r with
        | d :: r' => if is_low_surrogate d then c :: d :: quote_units r'
                     else quote_unit c ++ quote_units r
        | [] => quote_unit c
        end
      else quote_unit c ++ quote_units r
  end.

Definition quote (s : jsstring) : jsstring := 34%N :: quote_units s ++ [34%N].

Fixpoint stringify (v : JValue) : jsstring :=
  match v with
  | JNull => js "null"
  | JBool true => js "true"
  | JBool false => js "false"
  | JNum t => t
  | JStr s => quote s
  | JArr items =>
      js "[" ++ join (js ",") (map stringify items) ++ js "]"
  | JObj members =>
      js "{" ++
      join (js ",")
        ((fix each (ms : list (jsstring * JValue)) : list jsstring :=
            match ms with
            | [] => []
            | (k, x) :: r => (quote k ++ js ":" ++ stringify x) :: each r
            end) members)
      ++ js "}"
  end.

(** An object literal of the source whose properties may be [undefined]:
    [JSON.stringify] leaves those properties out. *)
Fixpoint props (fields : list (string * option JValue)) : list (jsstring * JValue) :=
  match fields with
  | [] => []
  | (k, Some v) :: r => (js k, v) :: props r
  | (_, None) :: r => props r
  end.

(** What reading property [k] of such a literal gives. *)
Fixpoint field_of (k : jsstring) (fields : list (string * option JValue)) : option JValue :=
  match fields with
  | [] => None
  | (n, ov) :: r => if jseqb (js n) k then ov else field_of k r
  end.

(** *** [JSON.parse]

    Recursive descent over the ECMA-404 grammar.  The three outcomes of a
    parser keep a syntax error apart from an exhausted recursion budget. *)

Inductive PResult (A : Type) : Type :=
| POk (a : A) (rest : jsstring)
| PErr
| PFuel.
Arguments PErr {A}.
Arguments PFuel {A}.

Definition is_json_ws (c : N) : bool :=
  ((c =? 32) || (c =? 9) || (c =? 10) || (c =? 13))%N.

Fixpoint skip_ws (s : jsstring) : jsstring :=
  match s with
  | c :: r => if is_json_ws c then skip_ws r else s
  | [] => []
  end.

Definition unhex (c : N) : option N :=
  (if is_digit c then Some (c - 48)
   else if (97 <=? c) && (c <=? 102) then Some (c - 87)
   else if (65 <=? c) && (c <=? 70) then Some (c - 55)
   else None)%N.

Definition unhex4 (a b c d : N) : option N :=
  match unhex a, unhex b, unhex c, unhex d with
  | Some x, Some y, Some z, Some w => Some (x * 4096 + y * 256 + z * 16 + w)%N
  | _, _, _, _ => None
  end.

Definition simple_escape (e : N) : option N :=
  (if e =? 34 then Some 34          (* quotation mark *)
   else if e =? 92 then Some 92     (* reverse solidus *)
   else if e =? 47 then Some 47     (* solidus *)
   else if e =? 98 then Some 8      (* b *)
   else if e =? 102 then Some 12    (* f *)
   else if e =? 110 then Some 10    (* n *)
   else if e =? 114 then Some 13    (* r *)
   else if e =? 116 then Some 9     (* t *)
   else None)%N.

(** The characters of a string up to and including the closing quote. *)
Fixpoint parse_chars (s : jsstring) : option (jsstring * jsstring) :=
  match s with
  | [] => None
  | c :: r =>
      if (c =? 34)%N then Some ([], r)
      else if (c =? 92)%N then
        match r with
        | e :: r1 =>
            if (e =? 117)%N then
              match r1 with
              | h1 :: h2 :: h3 :: h4 :: r2 =>
                  match unhex4 h1 h2 h3 h4 with
                  | Some u =>
                      match parse_chars r2 with
                      | Some (t, r3) => Some (u :: t, r3)
                      | None => None
                      end
                  | None => None
                  end
              | _ => None
              end
            else
              match simple_escape e with
              | Some x =>
                  match parse_chars r1 with
                  | Some (t, r3) => Some (x :: t, r3)
                  | None => None
                  end
              | None => None
              end
        | [] => None
        end
      else if (c <? 32)%N then None
      else
        match parse_chars r with
        | Some (t, r3) => Some (c :: t, r3)
        | None => None
        end
  end.

Definition parse_string (s : jsstring) : option (jsstring * jsstring) :=
  match s with
  | c :: r => if (c =? 34)%N then parse_chars r else None
  | [] => None
  end.

(** [strip_prefix p s]: the rest of [s] after the literal [p]. *)
Fixpoint strip_prefix (p s : jsstring) : option jsstring :=
  match p, s with
  | [], _ => Some s
  | x :: p', y :: s' => if N.eqb x y then strip_prefix p' s' else None
  | _ :: _, [] => None
  end.

Definition parse_literal (p : string) (v : JValue) (s : jsstring) : PResult JValue :=
  match strip_prefix (js p) s with
  | Some r => POk v r
  | None => PErr
  end.

Fixpoint parse_value (fuel : nat) (s : jsstring) {struct fuel} : PResult JValue :=
  match fuel with
  | O => PFuel
  | S f =>
      match skip_ws s with
      | [] => PErr
      | c :: r =>
          if (c =? 123)%N then                      (* { *)
            match skip_ws r with
            | d :: r1 =>
                if (d =? 125)%N then POk (JObj []) r1
                else
                  match parse_members f (d :: r1) with
                  | POk ms r2 =>
                      POk (JObj (fold_left (fun o kv => obj_set (fst kv) (snd kv) o) ms [])) r2
                  | PErr => PErr
                  | PFuel => PFuel
                  end
            | [] => PErr
            end
          else if (c =? 91)%N then                  (* [ *)
            match skip_ws r with
            | d :: r1 =>
                if (d =? 93)%N then POk (JArr []) r1
                else
                  match parse_elements f (d :: r1) with
                  | POk vs r2 => POk (JArr vs) r2
                  | PErr => PErr
                  | PFuel => PFuel
                  end
            | [] => PErr
            end
          else if (c =? 34)%N then
            match parse_chars r with
            | Some (t, r1) => POk (JStr t) r1
            | None => PErr
            end
          else if (c =? 45)%N || is_digit c then
            match scan_number (c :: r) with
            | Some (t, r1) => POk (JNum t) r1
            | None => PErr
            end
          else if (c =? 116)%N then parse_literal "true" (JBool true) (c :: r)
          else if (c =? 102)%N then parse_literal "false" (JBool false) (c :: r)
          else if (c =? 110)%N then parse_literal "null" JNull (c :: r)
          else PErr
      end
  end

(** One or more values separated by commas, up to and including "]". *)
with parse_elements (fuel : nat) (s : jsstring) {struct fuel} : PResult (list JValue) :=
  match fuel with
  | O => PFuel
  | S f =>
      match parse_value f s with
      | POk v r =>
          match skip_ws r with
          | c :: r1 =>
              if (c =? 44)%N then
                match parse_elements f r1 with
                | POk vs r2 => POk (v :: vs) r2
                | PErr => PErr
                | PFuel => PFuel
                end
              else if (c =? 93)%N then POk [v] r1
              else PErr
          | [] => PErr
          end
      | PErr => PErr
      | PFuel => PFuel
      end
  end

(** One or more [string : value] members separated by commas, up to and
    including "}". *)
with parse_members (fuel : nat) (s : jsstring) {struct fuel}
  : PResult (list (jsstring * JValue)) :=
  match fuel with
  | O => PFuel
  | S f =>
      match parse_string (skip_ws s) with
      | Some (k, r) =>
          match skip_ws r with
          | c :: r1 =>
              if (c =? 58)%N then
                match parse_value f r1 with
                | POk v r2 =>
                    match skip_ws r2 with
                    | d :: r3 =>
                        if (d =? 44)%N then
                          match parse_members f r3 with
                          | POk ms r4 => POk ((k, v) :: ms) r4
                          | PErr => PErr
                          | PFuel => PFuel
                          end
                        else if (d =? 125)%N then POk [(k, v)] r3
                        else PErr
                    | [] => PErr
                    end
                | PErr => PErr
                | PFuel => PFuel
                end
              else PErr
          | [] => PErr
          end
      | None => PErr
      end
  end.

(** The recursion budget [JSON_parse] gives the descent; it is never
    exhausted (lemma [JSON_parse_total]). *)
Definition parse_budget (s : jsstring) : nat := 2 * List.length s + 2.

(** [JSON.parse(text)]: one value, then only white space.  [PErr] is the
    SyntaxError the source catches. *)
Definition JSON_parse (text : jsstring) : PResult JValue :=
  match parse_value (parse_budget text) text with
  | POk v r => match skip_ws r with [] => POk v [] | _ => PErr end
  | PErr => PErr
  | PFuel => PFuel
  end.

(** A JSON text of the examples, written with apostrophes where the text
    has quotation marks. *)
Definition jsq (s : string) : jsstring :=
  map (fun c => if (c =? 39)%N then 34%N else c) (js s).

(** ** [String(v)]

    ToString on a parsed value.  An array joins its elements with commas,
    [null] elements as the empty string.  An object goes through
    OrdinaryToPrimitive: with no own [toString] property the inherited one
    answers "[object Object]"; an own [toString] (never callable in a parsed
    value) leaves only [valueOf], which returns the object itself, and the
    conversion throws a TypeError ([None]). *)

Fixpoint has_key (k : jsstring) (ms : list (jsstring * JValue)) : bool :=
  match ms with
  | [] => false
  | (k', _) :: r => jseqb k' k || has_key k r
  end.

Fixpoint ToString (v : JValue) : option jsstring :=
  match v with
  | JNull => Some (js "null")
  | JBool true => Some (js "true")
  | JBool false => Some (js "false")
  | JNum t => Some t
  | JStr s => Some s
  | JArr items =>
      (fix each (l : list JValue) : option jsstring :=
         match l with
         | [] => Some []
         | x :: r =>
             let sx := match x with JNull => Some [] | _ => ToString x end in
             match sx, r with
             | None, _ => None
             | Some a, [] => Some a
             | Some a, _ :: _ =>
                 match each r with
                 | Some b => Some (a ++ js "," ++ b)
                 | None => None
                 end
             end
         end) items
  | JObj ms => if has_key (js "toString") ms then None else Some (js "[object Object]")
  end.

(** ** Errors, options and the state of a [BridgeClient] *)

Inductive ErrorClass : Type := Error_ | TypeError_ | SyntaxError_.

Record JsError : Type := mkError { err_class : ErrorClass; err_message : jsstring }.

(** [new Error(msg)] for a string [msg] *)
Definition newError (msg : jsstring) : JsError := mkError Error_ msg.

(** [BridgeClientOptions].  An absent optional property is [None] ([tls]:
    [false]).  The callbacks are not fields here: calling one is an
    observable effect (see [Notification]). *)
Record BridgeClientOptions : Type := mkOptions {
  host : jsstring;
  port : N;
  tls : bool;
  tlsFingerprint : option jsstring;
  nodeId : jsstring;
  token : option jsstring;
  displayName : option jsstring;
  platform : option jsstring;
  version : option jsstring;
  deviceFamily : option jsstring;
  modelIdentifier : option jsstring;
  caps : option (list jsstring);
  commands : option (list jsstring);
  permissions : option (list (jsstring * bool))
}.

Definition set_token (t : option jsstring) (o : BridgeClientOptions) : BridgeClientOptions :=
  mkOptions (host o) (port o) (tls o) (tlsFingerprint o) (nodeId o) t
            (displayName o) (platform o) (version o) (deviceFamily o)
            (modelIdentifier o) (caps o) (commands o) (permissions o).

(** [PendingRpc].  [resolve] and [reject] are the two settling functions of
    one promise, the one the [request] call awaits: [promise] names it. *)
Record PendingRpc : Type := mkPending {
  promise : nat;
  timer : option nat
}.

(** ** [Map<string, PendingRpc>]: entries in insertion order *)

Definition RpcMap := list (jsstring * PendingRpc).

Fixpoint Map_get (k : jsstring) (m : RpcMap) : option PendingRpc :=
  match m with
  | [] => None
  | (k', v) :: r => if jseqb k' k then Some v else Map_get k r
  end.

Fixpoint Map_set (k : jsstring) (v : PendingRpc) (m : RpcMap) : RpcMap :=
  match m with
  | [] => [(k, v)]
  | (k', v') :: r => if jseqb k' k then (k, v) :: r else (k', v') :: Map_set k v r
  end.

Definition Map_delete (k : jsstring) (m : RpcMap) : RpcMap :=
  filter (fun kv => negb (jseqb (fst kv) k)) m.

(** The fields of the class. [helloReady] is a promise; [helloResolve] and
    [helloReject] hold its handle while it can still be settled. *)
Record BridgeClient : Type := mkClient {
  opts : BridgeClientOptions;
  socket : option nat;
  buffer : jsstring;
  pendingRpc : RpcMap;
  connected : bool;
  helloResolve : option nat;
  helloReject : option nat
}.

Definition set_opts x (c : BridgeClient) :=
  mkClient x (socket c) (buffer c) (pendingRpc c) (connected c) (helloResolve c) (helloReject c).
Definition set_socket x (c : BridgeClient) :=
  mkClient (opts c) x (buffer c) (pendingRpc c) (connected c) (helloResolve c) (helloReject c).
Definition set_buffer x (c : BridgeClient) :=
  mkClient (opts c) (socket c) x (pendingRpc c) (connected c) (helloResolve c) (helloReject c).
Definition set_pendingRpc x (c : BridgeClient) :=
  mkClient (opts c) (socket c) (buffer c) x (connected c) (helloResolve c) (helloReject c).
Definition set_connected x (c : BridgeClient) :=
  mkClient (opts c) (socket c) (buffer c) (pendingRpc c) x (helloResolve c) (helloReject c).
Definition set_helloResolve x (c : BridgeClient) :=
  mkClient (opts c) (socket c) (buffer c) (pendingRpc c) (connected c) x (helloReject c).
Definition set_helloReject x (c : BridgeClient) :=
  mkClient (opts c) (socket c) (buffer c) (pendingRpc c) (connected c) (helloResolve c) x.

(** [new BridgeClient(opts)] *)
Definition constructor (o : BridgeClientOptions) : BridgeClient :=
  mkClient o None [] [] false None None.

(** ** The runtime around the client

    Handles for sockets, promises and timers come from one counter.  An
    armed timer keeps what its callback closes over.  [listeners] are the
    sockets [connect] has put its four listeners on, [secureOnce] those that
    still carry the [once("secureConnect")] listener. *)

Record Timeout : Type := mkTimeout {
  t_id : jsstring;
  t_method : jsstring;
  t_reject : nat
}.

Record Runtime : Type := mkRuntime {
  handles : nat;
  timers : list (nat * Timeout);
  listeners : list nat;
  secureOnce : list nat
}.

Record World : Type := mkWorld { this : BridgeClient; rt : Runtime }.

Definition boot (o : BridgeClientOptions) : World :=
  mkWorld (constructor o) (mkRuntime 0 [] [] []).

(** [tls.PeerCertificate], as far as the client looks at it. *)
Record PeerCertificate : Type := mkCert { fingerprint256 : option jsstring }.

(** ** What the client does to the outside *)

Inductive Notification : Type :=
| onInvoke (frame : JValue)
| onEvent (frame : JValue)
| onPairToken (tok : jsstring)
| onAuthReset
| onConnected (hello : JValue)
| onDisconnected (err : option JsError).

Inductive Effect : Type :=
| NetConnect (sock : nat) (h : jsstring) (p : N)
| TlsConnect (sock : nat) (h : jsstring) (p : N) (rejectUnauthorized : bool)
| SetNoDelay (sock : nat) (on : bool)
| SocketWrite (sock : nat) (data : jsstring)
| SocketDestroy (sock : nat) (err : option JsError)
| SetTimeout (tm : nat) (ms : N)
| ClearTimeout (tm : nat)
| HelloResolve (p : nat)
| HelloReject (p : nat) (err : JsError)
| RpcResolve (p : nat) (res : JValue)
| RpcReject (p : nat) (err : JsError)
| Notify (n : Notification).      (* [void this.opts.onX?.(...)] *)

(** ** A monad for the methods: state, effects in order, exceptions

    A thrown exception keeps the state and the effects reached so far.
    [Unfinished] marks an exhausted loop budget; no method ends in it
    (lemma [step_finishes]). *)

Inductive Completion (A : Type) : Type :=
| Normal (a : A)
| Throw (e : JsError)
| Unfinished.
Arguments Throw {A} e.
Arguments Unfinished {A}.

Definition M (A : Type) : Type := World -> Completion A * World * list Effect.

Definition ret {A} (a : A) : M A := fun w => (Normal a, w, []).

Definition bind {A B} (m : M A) (k : A -> M B) : M B :=
  fun w =>
    match m w with
    | (Normal a, w1, e1) =>
        match k a w1 with
        | (c, w2, e2) => (c, w2, e1 ++ e2)
        end
    | (Throw e, w1, e1) => (Throw e, w1, e1)
    | (Unfinished, w1, e1) => (Unfinished, w1, e1)
    end.

Declare Scope js_scope.
Delimit Scope js_scope with M.
Notation "x <- m ;; k" := (bind m (fun x => k))
  (at level 61, m at next level, right associativity) : js_scope.
Notation "m ;; k" := (bind m (fun _ => k))
  (at level 61, right associativity) : js_scope.
Local Open Scope js_scope.

Definition throw {A} (e : JsError) : M A := fun w => (Throw e, w, []).
Definition unfinished {A} : M A := fun w => (Unfinished, w, []).
Definition emit (e : Effect) : M unit := fun w => (Normal tt, w, [e]).
Definition self : M BridgeClient := fun w => (Normal (this w), w, []).
Definition assign (f : BridgeClient -> BridgeClient) : M unit :=
  fun w => (Normal tt, mkWorld (f (this w)) (rt w), []).
Definition runtime : M Runtime := fun w => (Normal (rt w), w, []).
Definition set_runtime (r : Runtime) : M unit :=
  fun w => (Normal tt, mkWorld (this w) r, []).

Fixpoint forEach {A} (l : list A) (f : A -> M unit) : M unit :=
  match l with
  | [] => ret tt
  | x :: r => f x ;; forEach r f
  end.

Definition is_some {A} (x : option A) : bool :=
  match x with Some _ => true | None => false end.

Definition mem (n : nat) (l : list nat) : bool := existsb (Nat.eqb n) l.
Definition remove_nat (n : nat) (l : list nat) : list nat :=
  filter (fun x => negb (Nat.eqb n x)) l.

Fixpoint find_timer (t : nat) (l : list (nat * Timeout)) : option Timeout :=
  match l with
  | [] => None
  | (t', cb) :: r => if Nat.eqb t' t then Some cb else find_timer t r
  end.

Definition drop_timer (t : nat) (l : list (nat * Timeout)) : list (nat * Timeout) :=
  filter (fun x => negb (Nat.eqb (fst x) t)) l.

(** A fresh object of the runtime (socket, promise, timer). *)
Definition newHandle : M nat :=
  r <- runtime ;;
  set_runtime (mkRuntime (S (handles r)) (timers r) (listeners r) (secureOnce r)) ;;
  ret (handles r).

Definition setTimeout (cb : Timeout) (ms : N) : M nat :=
  t <- newHandle ;;
  r <- runtime ;;
  set_runtime (mkRuntime (handles r) (timers r ++ [(t, cb)]) (listeners r) (secureOnce r)) ;;
  emit (SetTimeout t ms) ;;
  ret t.

Definition clearTimeout (t : nat) : M unit :=
  r <- runtime ;;
  set_runtime (mkRuntime (handles r) (drop_timer t (timers r)) (listeners r) (secureOnce r)) ;;
  emit (ClearTimeout t).

Definition addListeners (sock : nat) (pin : bool) : M unit :=
  r <- runtime ;;
  set_runtime (mkRuntime (handles r) (timers r) (listeners r ++ [sock])
                 (if pin then secureOnce r ++ [sock] else secureOnce r)).

Definition dropSecureOnce (sock : nat) : M unit :=
  r <- runtime ;;
  set_runtime (mkRuntime (handles r) (timers r) (listeners r) (remove_nat sock (secureOnce r))).

(** [String(v)] inside a method *)
Definition toStr (v : JValue) : M jsstring :=
  match ToString v with
  | Some s => ret s
  | None => throw (mkError TypeError_ (js "Cannot convert object to primitive value"))
  end.

(** [frame.k] where [frame] may be [null] *)
Definition property (k : string) (frame : JValue) : M (option JValue) :=
  match frame with
  | JNull => throw (mkError TypeError_ (js "Cannot read properties of null"))
  | _ => ret (getField k frame)
  end.

(** ** The source, function by function *)

Definition is_hex (c : N) : bool :=
  ((97 <=? c) && (c <=? 102) || (65 <=? c) && (c <=? 70) || (48 <=? c) && (c <=? 57))%N.

(** [input.replace(/[^a-fA-F0-9]/g, "").toLowerCase()] *)
Definition normalizeFingerprint (input : jsstring) : jsstring :=
  toLowerCase (filter is_hex input).

Definition extractFingerprint (raw : PeerCertificate) : option jsstring :=
  match fingerprint256 raw with
  | None => None
  | Some value => if is_empty value then None else Some (normalizeFingerprint value)
  end.

Definition LF : jsstring := [10%N].

Definition strings (l : list jsstring) : JValue := JArr (map JStr l).
Definition flags (l : list (jsstring * bool)) : JValue :=
  JObj (map (fun kv => (fst kv, JBool (snd kv))) l).

(** [private send(frame: object)] *)
Definition send (frame : JValue) : M unit :=
  c <- self ;;
  match socket c with
  | None => ret tt
  | Some sock => emit (SocketWrite sock (stringify frame ++ LF))
  end.

Definition helloFields (o : BridgeClientOptions) : list (string * option JValue) :=
  [("type", Some (JStr (js "hello")));
   ("nodeId", Some (JStr (nodeId o)));
   ("token", option_map JStr (token o));
   ("displayName", option_map JStr (displayName o));
   ("platform", option_map JStr (platform o));
   ("version", option_map JStr (version o));
   ("deviceFamily", option_map JStr (deviceFamily o));
   ("modelIdentifier", option_map JStr (modelIdentifier o));
   ("caps", option_map strings (caps o));
   ("commands", option_map strings (commands o));
   ("permissions", option_map flags (permissions o))].

Definition helloFrame (o : BridgeClientOptions) : JValue := JObj (props (helloFields o)).

Definition sendHello : M unit :=
  c <- self ;;
  send (helloFrame (opts c)).

Definition pairRequestFields (o : BridgeClientOptions) : list (string * option JValue) :=
  [("type", Some (JStr (js "pair-request")));
   ("nodeId", Some (JStr (nodeId o)));
   ("displayName", option_map JStr (displayName o));
   ("platform", option_map JStr (platform o));
   ("version", option_map JStr (version o));
   ("deviceFamily", option_map JStr (deviceFamily o));
   ("modelIdentifier", option_map JStr (modelIdentifier o));
   ("caps", option_map strings (caps o));
   ("commands", option_map strings (commands o));
   ("permissions", option_map flags (permissions o))].

Definition pairRequestFrame (o : BridgeClientOptions) : JValue :=
  JObj (props (pairRequestFields o)).

(** The properties that say who the node is. *)
Definition identityFields : list string :=
  ["nodeId"; "displayName"; "platform"; "version"; "deviceFamily";
   "modelIdentifier"; "caps"; "commands"; "permissions"].

Definition sendPairRequest : M unit :=
  c <- self ;;
  send (pairRequestFrame (opts c)).

Definition or_else (err : option JsError) (msg : string) : JsError :=
  match err with Some e => e | None => newError (js msg) end.

(** The body of both [pendingRpc.forEach] loops. *)
Definition rejectPending (e : JsError) (pending : jsstring * PendingRpc) : M unit :=
  match timer (snd pending) with
  | Some t => clearTimeout t
  | None => ret tt
  end ;;
  emit (RpcReject (promise (snd pending)) e).

(** [private handleDisconnect(err?: Error)] *)
Definition handleDisconnect (err : option JsError) : M unit :=
  c <- self ;;
  match negb (connected c), helloReject c with
  | true, Some h =>
      emit (HelloReject h (or_else err "bridge connection failed")) ;;
      assign (set_helloResolve None) ;;
      assign (set_helloReject None)
  | _, _ => ret tt
  end ;;
  c <- self ;;
  if negb (connected c) && negb (is_some (socket c)) then ret tt
  else
    assign (set_connected false) ;;
    assign (set_socket None) ;;
    forEach (pendingRpc c) (rejectPending (or_else err "bridge connection closed")) ;;
    assign (set_pendingRpc []) ;;
    emit (Notify (onDisconnected err)).

(** [async connect()]: the value is the promise the caller awaits,
    [None] when the method returns at once. *)
Definition connect : M (option nat) :=
  c <- self ;;
  if connected c then ret None
  else
    h <- newHandle ;;
    assign (set_helloResolve (Some h)) ;;
    assign (set_helloReject (Some h)) ;;
    sock <- newHandle ;;
    (if tls (opts c)
     then emit (TlsConnect sock (host (opts c)) (port (opts c)) false)
     else emit (NetConnect sock (host (opts c)) (port (opts c)))) ;;
    assign (set_socket (Some sock)) ;;
    emit (SetNoDelay sock true) ;;
    addListeners sock
      (tls (opts c) &&
       match tlsFingerprint (opts c) with
       | Some f => negb (is_empty f)
       | None => false
       end) ;;
    ret (Some h).

(** [async close()] *)
Definition close : M unit :=
  c <- self ;;
  match socket c with
  | Some sock => emit (SocketDestroy sock None) ;; assign (set_socket None)
  | None => ret tt
  end ;;
  assign (set_connected false) ;;
  c <- self ;;
  forEach (pendingRpc c) (rejectPending (newError (js "bridge client closed"))) ;;
  assign (set_pendingRpc []).

Definition reqFrame (id method : jsstring) (params : option JValue) : JValue :=
  JObj (props
    [("type", Some (JStr (js "req")));
     ("id", Some (JStr id));
     ("method", Some (JStr method));
     ("paramsJSON", Some (match params with
                          | Some p => if truthy p then JStr (stringify p) else JNull
                          | None => JNull
                          end))]).

(** [async request(method, params, timeoutMs)] up to its [await]; [id] is
    what [crypto.randomUUID()] returned.  The value is the promise awaited. *)
Definition request (id method : jsstring) (params : option JValue) (timeoutMs : N)
  : M nat :=
  p <- newHandle ;;
  t <- setTimeout (mkTimeout id method p) timeoutMs ;;
  c <- self ;;
  assign (set_pendingRpc (Map_set id (mkPending p (Some t)) (pendingRpc c))) ;;
  send (reqFrame id method params) ;;
  ret p.

(** The callback [request] hands to [setTimeout]. *)
Definition requestTimedOut (cb : Timeout) : M unit :=
  c <- self ;;
  assign (set_pendingRpc (Map_delete (t_id cb) (pendingRpc c))) ;;
  emit (RpcReject (t_reject cb)
          (newError (js "bridge request timeout (" ++ t_method cb ++ js ")"))).

(** [request] after its [await], once the promise has been resolved with
    [res]: what the caller of [request] gets. *)
Definition requestResult (res : JValue) : Completion JValue :=
  match res with
  | JNull => Throw (mkError TypeError_ (js "Cannot read properties of null"))
  | _ =>
  if negb (truthy_opt (getField "ok" res)) then
    let message :=
      match getField "error" res with
      | None | Some JNull => None
      | Some e => getField "message" e
      end in
    match ToString (nullish message (JStr (js "bridge request failed"))) with
    | Some m => Throw (newError m)
    | None => Throw (mkError TypeError_ (js "Cannot convert object to primitive value"))
    end
  else
    match getField "payloadJSON" res with
    | Some payloadJSON =>
        if truthy payloadJSON then
          match ToString payloadJSON with
          | Some text =>
              match JSON_parse text with
              | POk v _ => Normal v
              | PErr => Throw (mkError SyntaxError_ (js "Unexpected token"))
              | PFuel => Unfinished
              end
          | None => Throw (mkError TypeError_ (js "Cannot convert object to primitive value"))
          end
        else Normal JNull
    | None => Normal JNull
    end
  end.

(** [sendEvent(event, payload?)] *)
Definition sendEvent (event : jsstring) (payload : option JValue) : M unit :=
  send (JObj (props
    [("type", Some (JStr (js "event")));
     ("event", Some (JStr event));
     ("payloadJSON", Some (match payload with
                           | Some p => if truthy p then JStr (stringify p) else JNull
                           | None => JNull
                           end))])).

Definition sendInvokeResponse (frame : JValue) : M unit := send frame.

(** [this.pendingRpc.get(res.id)]: the keys are strings, so only a string
    can find an entry. *)
Definition Map_get_value (key : option JValue) (m : RpcMap) : option PendingRpc :=
  match key with
  | Some (JStr k) => Map_get k m
  | _ => None
  end.

Definition Map_delete_value (key : option JValue) (m : RpcMap) : RpcMap :=
  match key with
  | Some (JStr k) => Map_delete k m
  | _ => m
  end.

(** [private handleFrame(frame)]: the cases of the [switch], then the
    method. *)

Definition case_hello_ok (frame : JValue) : M unit :=
  assign (set_connected true) ;;
  c <- self ;;
  match helloResolve c with
  | Some h => emit (HelloResolve h)
  | None => ret tt
  end ;;
  assign (set_helloResolve None) ;;
  assign (set_helloReject None) ;;
  emit (Notify (onConnected frame)).

Definition case_pair_ok (frame : JValue) : M unit :=
  s <- toStr (nullish (getField "token" frame) (JStr [])) ;;
  let tok := trim s in
  if negb (is_empty tok) then
    c <- self ;;
    assign (set_opts (set_token (Some tok) (opts c))) ;;
    emit (Notify (onPairToken tok))
  else ret tt.

Definition case_error (frame : JValue) : M unit :=
  code <- toStr (nullish (getField "code" frame) (JStr [])) ;;
  if jseqb code (js "NOT_PAIRED") || jseqb code (js "UNAUTHORIZED") then
    c <- self ;;
    assign (set_opts (set_token None (opts c))) ;;
    emit (Notify onAuthReset) ;;
    sendPairRequest
  else
    msg <- toStr (nullish (getField "message" frame) (JStr (js "bridge error"))) ;;
    handleDisconnect (Some (newError msg)).

Definition case_ping (frame : JValue) : M unit :=
  id <- toStr (nullish (getField "id" frame) (JStr [])) ;;
  send (JObj (props [("type", Some (JStr (js "pong"))); ("id", Some (JStr id))])).

Definition case_res (frame : JValue) : M unit :=
  c <- self ;;
  match Map_get_value (getField "id" frame) (pendingRpc c) with
  | Some pending =>
      match timer pending with
      | Some t => clearTimeout t
      | None => ret tt
      end ;;
      c <- self ;;
      assign (set_pendingRpc (Map_delete_value (getField "id" frame) (pendingRpc c))) ;;
      emit (RpcResolve (promise pending) frame)
  | None => ret tt
  end.

Definition dispatch (type : jsstring) (frame : JValue) : M unit :=
  if jseqb type (js "hello-ok") then case_hello_ok frame
  else if jseqb type (js "pair-ok") then case_pair_ok frame
  else if jseqb type (js "error") then case_error frame
  else if jseqb type (js "pong") then ret tt
  else if jseqb type (js "ping") then case_ping frame
  else if jseqb type (js "event") then emit (Notify (onEvent frame))
  else if jseqb type (js "res") then case_res frame
  else if jseqb type (js "invoke") then emit (Notify (onInvoke frame))
  else if jseqb type (js "invoke-res") then ret tt
  else ret tt.

Definition handleFrame (frame : JValue) : M unit :=
  ty <- property "type" frame ;;
  type <- toStr (nullish ty (JStr [])) ;;
  dispatch type frame.

(** [private flush()]: each turn of [while (true)] removes a line from the
    buffer, so a budget of one turn per buffered code unit, plus one, is
    never used up. *)
Fixpoint flush_loop (turns : nat) : M unit :=
  match turns with
  | O => unfinished
  | S n =>
      c <- self ;;
      match indexOf 10%N (buffer c) with
      | None => ret tt
      | Some idx =>
          let line := trim (slice 0 idx (buffer c)) in
          assign (set_buffer (sliceFrom (idx + 1) (buffer c))) ;;
          if is_empty line then flush_loop n
          else
            match JSON_parse line with
            | PErr => flush_loop n
            | PFuel => unfinished
            | POk frame _ => handleFrame frame ;; flush_loop n
            end
      end
  end.

Definition flush : M unit :=
  c <- self ;;
  flush_loop (S (List.length (buffer c))).

(** The listener [socket.once("secureConnect", ...)] of [connect], on the
    socket [sock] it was put on. *)
Definition onSecureConnect (sock : nat) (cert : option PeerCertificate) : M unit :=
  c <- self ;;
  let fingerprint := match cert with
                     | Some raw => extractFingerprint raw
                     | None => None
                     end in
  let pin := normalizeFingerprint
               (match tlsFingerprint (opts c) with Some f => f | None => [] end) in
  let ok := match fingerprint with
            | Some f => negb (is_empty f) && jseqb f pin
            | None => false
            end in
  if ok then ret tt
  else
    let err := newError (js "bridge tls fingerprint mismatch") in
    handleDisconnect (Some err) ;;
    emit (SocketDestroy sock (Some err)).

(** ** Events: calls of the public methods and what the runtime delivers *)

(** [SockData sock chunk] is the [data] event of a socket with the text of
    its Buffer, [chunk.toString("utf8")], as the listener appends it to
    [buffer]; [onData] below is the listener on the bytes. *)

Inductive Event : Type :=
| Connect
| Close
| Request (id method : jsstring) (params : option JValue) (timeoutMs : N)
| SendEvent (event : jsstring) (payload : option JValue)
| SendInvokeResponse (frame : JValue)
| SockConnect (sock : nat)
| SockError (sock : nat) (err : JsError)
| SockClose (sock : nat)
| SockData (sock : nat) (chunk : jsstring)
| SockSecureConnect (sock : nat) (cert : option PeerCertificate)
| TimerFired (tm : nat).

Definition listening (sock : nat) (m : M unit) : M unit :=
  r <- runtime ;;
  if mem sock (listeners r) then m else ret tt.

Definition step (ev : Event) : M unit :=
  match ev with
  | Connect => connect ;; ret tt
  | Close => close
  | Request id method params timeoutMs => request id method params timeoutMs ;; ret tt
  | SendEvent event payload => sendEvent event payload
  | SendInvokeResponse frame => sendInvokeResponse frame
  | SockConnect sock => listening sock sendHello
  | SockError sock err => listening sock (handleDisconnect (Some err))
  | SockClose sock => listening sock (handleDisconnect None)
  | SockData sock chunk =>
      listening sock
        (c <- self ;;
         assign (set_buffer (buffer c ++ chunk)) ;;
         flush)
  | SockSecureConnect sock cert =>
      r <- runtime ;;
      if mem sock (secureOnce r)
      then dropSecureOnce sock ;; onSecureConnect sock cert
      else ret tt
  | TimerFired tm =>
      r <- runtime ;;
      match find_timer tm (timers r) with
      | Some cb =>
          set_runtime (mkRuntime (handles r) (drop_timer tm (timers r))
                         (listeners r) (secureOnce r)) ;;
          requestTimedOut cb
      | None => ret tt
      end
  end.

(** ** Buffers

    The listener [socket.on("data", (chunk: Buffer) => ...)] of [connect]
    decodes each chunk on its own, [this.buffer += chunk.toString("utf8")],
    and then calls [flush]. *)

Definition Buffer := list N.

Section DataListener.

(** [Buffer.prototype.toString("utf8")] *)
Variable toString : Buffer -> jsstring.

Definition onData (sock : nat) (chunk : Buffer) : M unit :=
  step (SockData sock (toString chunk)).

End DataListener.

(** The UTF-8 decoder of [toString("utf8")]: a byte sequence that is not
    well formed gives U+FFFD for each maximal part of it that starts a
    character, and a character above U+FFFF gives two surrogates.  [needed]
    is the number of bytes still to come, [lower] and [upper] bound the next
    one. *)
Record Utf8 : Type := mkUtf8 { codePoint : N; needed : nat; lower : N; upper : N }.

Definition utf16 (cp : N) : jsstring :=
  if (cp <? 65536)%N then [cp]
  else [(55296 + (cp - 65536) / 1024)%N; (56320 + (cp - 65536) mod 1024)%N].

Definition utf8_lead (b : N) : jsstring * option Utf8 :=
  if (b <=? 127)%N then ([b], None)
  else if ((194 <=? b) && (b <=? 223))%N then
    ([], Some (mkUtf8 (N.land b 31) 1 128 191))
  else if ((224 <=? b) && (b <=? 239))%N then
    ([], Some (mkUtf8 (N.land b 15) 2
                      (if (b =? 224)%N then 160%N else 128%N)
                      (if (b =? 237)%N then 159%N else 191%N)))
  else if ((240 <=? b) && (b <=? 244))%N then
    ([], Some (mkUtf8 (N.land b 7) 3
                      (if (b =? 240)%N then 144%N else 128%N)
                      (if (b =? 244)%N then 143%N else 191%N)))
  else ([65533%N], None).

Fixpoint utf8_decode (st : option Utf8) (bytes : Buffer) : jsstring :=
  match bytes with
  | [] => match st with Some _ => [65533%N] | None => [] end
  | b :: rest =>
      match st with
      | None => fst (utf8_lead b) ++ utf8_decode (snd (utf8_lead b)) rest
      | Some s =>
          if ((lower s <=? b) && (b <=? upper s))%N then
            let cp := (codePoint s * 64 + N.land b 63)%N in
            match needed s with
            | S (S n) => utf8_decode (Some (mkUtf8 cp (S n) 128 191)) rest
            | _ => utf16 cp ++ utf8_decode None rest
            end
          else
            65533%N :: fst (utf8_lead b) ++ utf8_decode (snd (utf8_lead b)) rest
      end
  end.

Definition utf8_toString (chunk : Buffer) : jsstring := utf8_decode None chunk.

(** A run: the events in order, each with the effects it caused.  An
    exception that leaves a listener is uncaught; the run ends there. *)
Record Run : Type := mkRun {
  final : World;
  trace : list (Event * list Effect);
  uncaught : option JsError;
  finished : bool
}.

Fixpoint run (evs : list Event) (w : World) : Run :=
  match evs with
  | [] => mkRun w [] None true
  | ev :: rest =>
      match step ev w with
      | (Normal _, w1, effs) =>
          let r := run rest w1 in
          mkRun (final r) ((ev, effs) :: trace r) (uncaught r) (finished r)
      | (Throw e, w1, effs) => mkRun w1 [(ev, effs)] (Some e) true
      | (Unfinished, w1, effs) => mkRun w1 [(ev, effs)] None false
      end
  end.

Definition effects (r : Run) : list Effect := List.concat (map snd (trace r)).


(** The parts of an outcome. *)
Definition completion_of {A} (r : Completion A * World * list Effect) : Completion A :=
  fst (fst r).
Definition world_of {A} (r : Completion A * World * list Effect) : World := snd (fst r).
Definition effects_of {A} (r : Completion A * World * list Effect) : list Effect := snd r.

(** ** Closed forms used in the statements

    What a [pendingRpc.forEach] loop over the table [m] emits and what it
    leaves of the armed timers; the client after a disconnect. *)

Definition rejectEffects (e : JsError) (m : RpcMap) : list Effect :=
  flat_map (fun kv =>
              match timer (snd kv) with
              | Some t => [ClearTimeout t; RpcReject (promise (snd kv)) e]
              | None => [RpcReject (promise (snd kv)) e]
              end) m.

Definition clearTimers (m : RpcMap) (ts : list (nat * Timeout)) : list (nat * Timeout) :=
  fold_left (fun ts kv =>
               match timer (snd kv) with
               | Some t => drop_timer t ts
               | None => ts
               end) m ts.

Definition set_timers (ts : list (nat * Timeout)) (r : Runtime) : Runtime :=
  mkRuntime (handles r) ts (listeners r) (secureOnce r).

(** The hello promise is rejected when the client is not connected and the
    promise can still be settled. *)
Definition helloRejected (c : BridgeClient) : bool :=
  negb (connected c) && is_some (helloReject c).

Definition helloRejectEffects (err : option JsError) (c : BridgeClient) : list Effect :=
  match negb (connected c), helloReject c with
  | true, Some h => [HelloReject h (or_else err "bridge connection failed")]
  | _, _ => []
  end.

Definition forgetHello (c : BridgeClient) : BridgeClient :=
  if helloRejected c then set_helloReject None (set_helloResolve None c) else c.

Definition disconnected (c : BridgeClient) : BridgeClient :=
  set_pendingRpc [] (set_socket None (set_connected false c)).

Definition resolveEffects (pending : PendingRpc) (frame : JValue) : list Effect :=
  match timer pending with
  | Some t => [ClearTimeout t; RpcResolve (promise pending) frame]
  | None => [RpcResolve (promise pending) frame]
  end.


(** A [pair-ok] frame whose token is missing, empty or only white space. *)
Definition blankToken (frame : JValue) : Prop :=
  getField "token" frame = None \/
  exists s, getField "token" frame = Some (JStr s) /\ forallb is_js_space s = true.

(** The discriminants [handleFrame] knows. *)
Definition knownTypes : list jsstring :=
  [js "hello-ok"; js "pair-ok"; js "error"; js "pong"; js "ping"; js "event";
   js "res"; js "invoke"; js "invoke-res"].

(** ** Values for the examples *)

Definition exampleOptions : BridgeClientOptions :=
  mkOptions (js "gateway.local") 18790 false None (js "node-1") None
            (Some (js "workstation")) (Some (js "linux")) (Some (js "1.0.0"))
            None None (Some [js "system"])
            (Some [js "system.run"; js "system.which"]) None.

Definition exampleTlsOptions : BridgeClientOptions :=
  mkOptions (js "gateway.local") 18790 true (Some (js "AB:CD:01")) (js "node-1")
            (Some (js "tok-1")) None None None None None None None None.

Definition examplePairedOptions : BridgeClientOptions :=
  mkOptions (js "gateway.local") 18790 false None (js "node-1") (Some (js "tok-0"))
            (Some (js "workstation")) (Some (js "linux")) (Some (js "1.0.0"))
            None None (Some [js "system"])
            (Some [js "system.run"; js "system.which"]) None.

Definition exampleTlsNoPin : BridgeClientOptions :=
  mkOptions (js "gateway.local") 18790 true None (js "node-1")
            None None None None None None None None None.

(** Two lines in one chunk: the text "null", then a [hello-ok] frame. *)
Definition nullThenHelloOk : jsstring :=
  js "null" ++ LF ++ jsq "{'type':'hello-ok'}" ++ LF.

(** A line whose [type] is an object with a property named [toString]. *)
Definition typeWithToString : jsstring :=
  jsq "{'type':{'toString':0}}" ++ LF.

Definition frameOf (fields : list (string * JValue)) : JValue :=
  JObj (map (fun f => (js (fst f), snd f)) fields).

(** What a disconnect with [err] emits from the client state [c]. *)
Definition disconnectEffects (err : option JsError) (c : BridgeClient) : list Effect :=
  helloRejectEffects err c ++
  (if negb (connected c) && negb (is_some (socket c)) then []
   else rejectEffects (or_else err "bridge connection closed") (pendingRpc c)
        ++ [Notify (onDisconnected err)]).

Definition opens_socket (e : Effect) : bool :=
  match e with
  | NetConnect _ _ _ | TlsConnect _ _ _ _ => true
  | _ => false
  end.

Definition lower_hex (c : N) : bool :=
  is_digit c || ((97 <=? c) && (c <=? 102))%N.

(** ** Invariants

    [stable I m]: the method [m] keeps the invariant [I], a property of the
    state together with the effects emitted so far. *)

Definition stable (I : World -> list Effect -> Prop) {A} (m : M A) : Prop :=
  forall w tr, I w tr -> I (world_of (m w)) (tr ++ effects_of (m w)).

(** The notifications that tell of a change of the stored token. *)
Definition announces_token (e : Effect) : bool :=
  match e with
  | Notify onAuthReset => true
  | Notify (onPairToken _) => true
  | _ => false
  end.

(** The stored token is [t] as long as no change of it has been notified. *)
Definition token_kept (t : option jsstring) (w : World) (tr : list Effect) : Prop :=
  existsb announces_token tr = false -> token (opts (this w)) = t.

(** The part of the runtime that concerns sockets and fresh handles. *)
Definition sockets_of (w : World) : nat * list nat * list nat :=
  (handles (rt w), listeners (rt w), secureOnce (rt w)).

(** Handles in use are below the counter. *)
Definition handles_fresh (w : World) : Prop :=
  (forall s, In s (listeners (rt w)) -> s < handles (rt w)) /\
  (forall s, In s (secureOnce (rt w)) -> s < handles (rt w)).

(** The promises of [request] calls an effect list settles, in order. *)
Fixpoint settled (tr : list Effect) : list nat :=
  match tr with
  | [] => []
  | RpcResolve p _ :: r => p :: settled r
  | RpcReject p _ :: r => p :: settled r
  | _ :: r => settled r
  end.

Definition rejects (ts : list (nat * Timeout)) : list nat :=
  map (fun x => t_reject (snd x)) ts.

(** The table entry [pending] under key [k] has its timer armed, for the
    same key and the same promise. *)
Definition armed_for (ts : list (nat * Timeout)) (k : jsstring) (pending : PendingRpc) : Prop :=
  exists t cb,
    timer pending = Some t /\ In (t, cb) ts /\ t_id cb = k /\ t_reject cb = promise pending.

(** The invariant of the RPC correlator, over the handle counter [h], the
    armed timers [ts], the table [m] and the promises [done] settled so far:
    handles are fresh, armed timers are distinct and reject distinct
    promises, every entry of the table has its timer armed, keys are unique,
    a settled promise is no longer armed, and none is settled twice. *)
Record correlator (h : nat) (ts : list (nat * Timeout)) (m : RpcMap) (done : list nat)
  : Prop := mkCorrelator {
  inv_fresh : forall t cb, In (t, cb) ts -> t < h /\ t_reject cb < h;
  inv_timers : NoDup (map fst ts);
  inv_rejects : NoDup (rejects ts);
  inv_table : forall k pending, In (k, pending) m -> armed_for ts k pending;
  inv_keys : NoDup (map fst m);
  inv_settled : forall p, In p done -> p < h /\ ~ In p (rejects ts);
  inv_once : NoDup done
}.

Definition rpc_invariant (w : World) (tr : list Effect) : Prop :=
  correlator (handles (rt w)) (timers (rt w)) (pendingRpc (this w)) (settled tr).

(** ** Values that [JSON.stringify] prints and [JSON.parse] reads back

    Strings are made of code units, numbers are JSON numerals, and no object
    has two properties of the same name. *)

Fixpoint json_wf (v : JValue) : Prop :=
  match v with
  | JNull => True
  | JBool _ => True
  | JNum t => is_numeral t
  | JStr s => Forall code_unit s
  | JArr items =>
      (fix all (l : list JValue) : Prop :=
         match l with
         | [] => True
         | x :: r => json_wf x /\ all r
         end) items
  | JObj members =>
      NoDup (map fst members) /\
      (fix all (l : list (jsstring * JValue)) : Prop :=
         match l with
         | [] => True
         | (k, x) :: r => Forall code_unit k /\ json_wf x /\ all r
         end) members
  end.

(** What may follow a numeral without being read as part of it. *)
Definition num_stop (rest : jsstring) : bool :=
  match rest with
  | [] => true
  | c :: _ => negb (is_digit c || (c =? 46) || (c =? 101) || (c =? 69))%N
  end.

(** The characters a numeral is made of. *)
Definition numeral_char (c : N) : bool :=
  (is_digit c || (c =? 45) || (c =? 43) || (c =? 46) || (c =? 101) || (c =? 69))%N.

(** The printed members of an object. *)
Definition member_texts (members : list (jsstring * JValue)) : list jsstring :=
  map (fun kv => quote (fst kv) ++ js ":" ++ stringify (snd kv)) members.

(** What the round trip says of one value: printed, followed by anything
    that cannot continue a numeral, it is read back with enough budget. *)
Definition reads_back (v : JValue) : Prop :=
  json_wf v ->
  forall rest f,
    num_stop rest = true ->
    2 * List.length (stringify v ++ rest) + 1 <= f ->
    parse_value f (stringify v ++ rest) = POk v rest.

(** The first character of a printed value: not white space, and none of
    the closing brackets. *)
Definition value_start (c : N) : Prop :=
  is_json_ws c = false /\ (c =? 93)%N = false /\ (c =? 125)%N = false.

(** ** Several calls at once *)

Record Call : Type := mkCall {
  call_id : jsstring;
  call_method : jsstring;
  call_params : option JValue;
  call_timeout : N
}.

Definition requests (calls : list Call) : list Event :=
  map (fun c => Request (call_id c) (call_method c) (call_params c) (call_timeout c)) calls.

(** Incoming frames handled one after the other. *)
Definition deliver (frames : list JValue) : M unit := forEach frames handleFrame.

Fixpoint position (id : jsstring) (ids : list jsstring) : nat :=
  match ids with
  | [] => 0
  | x :: r => if jseqb x id then 0 else S (position id r)
  end.

(** The promise of the call that drew [id], when [calls] are made one after
    the other from handle [h] on: each call takes two handles, the promise
    and then the timer. *)
Definition promiseOf (h : nat) (calls : list Call) (id : jsstring) : nat :=
  h + 2 * position id (map call_id calls).

Definition replyEffects (h : nat) (calls : list Call) (frame : JValue) : list Effect :=
  match getField "id" frame with
  | Some (JStr id) =>
      [ClearTimeout (S (promiseOf h calls id)); RpcResolve (promiseOf h calls id) frame]
  | _ => []
  end.

(** ** The claims that do not hold, as they are worded *)

(** "Disconnection (socket error or close) rejects every PendingCall, clears
    the table, resets the state to Disconnected and fires [onDisconnected]":
    for an [error] or [close] event of a socket the client listens on. *)
Definition disconnect_rejects_every_call : Prop :=
  forall (o : BridgeClientOptions) (evs : list Event) (sock : nat) (ev : Event),
    let w := final (run evs (boot o)) in
    mem sock (listeners (rt w)) = true ->
    (ev = SockClose sock \/ exists err, ev = SockError sock err) ->
    let out := step ev w in
    (forall id pending,
        In (id, pending) (pendingRpc (this w)) ->
        exists e, In (RpcReject (promise pending) e) (effects_of out))
    /\ pendingRpc (this (world_of out)) = []
    /\ connected (this (world_of out)) = false
    /\ socket (this (world_of out)) = None
    /\ exists err, In (Notify (onDisconnected err)) (effects_of out).

(** "On receiving an [error] frame with code NOT_PAIRED or UNAUTHORIZED, the
    client discards the stored pairing token, fires [onAuthReset], and sends
    a [pair-request] frame": for a line holding such a frame that arrives,
    with nothing buffered, on a socket the client listens on. *)
Definition auth_error_sends_pair_request : Prop :=
  forall (o : BridgeClientOptions) (evs : list Event) (sock : nat) (code : jsstring),
    let w := final (run evs (boot o)) in
    mem sock (listeners (rt w)) = true ->
    buffer (this w) = [] ->
    code = js "NOT_PAIRED" \/ code = js "UNAUTHORIZED" ->
    let frame := frameOf [("type", JStr (js "error")); ("code", JStr code)] in
    let out := step (SockData sock (stringify frame ++ LF)) w in
    token (opts (this (world_of out))) = None
    /\ In (Notify onAuthReset) (effects_of out)
    /\ exists (s : nat) (text : jsstring), In (SocketWrite s text) (effects_of out).

(** "No [req] frame reaches the wire before a [hello-ok] is observed":
    whenever [request] writes its frame, a [hello-ok] has been handled
    before ([onConnected] has fired). *)
Definition req_only_after_hello_ok : Prop :=
  forall (o : BridgeClientOptions) (evs : list Event)
         (id method : jsstring) (params : option JValue) (ms : N) (sock : nat),
    let r := run evs (boot o) in
    In (SocketWrite sock (stringify (reqFrame id method params) ++ LF))
       (effects_of (request id method params ms (final r))) ->
    exists hello, In (Notify (onConnected hello)) (effects r).


(** ** More about the client: the promise of [connect], timers, lines *)

(** The [connect] promises an effect list settles, in order. *)
Fixpoint hello_settled (tr : list Effect) : list nat :=
  match tr with
  | [] => []
  | HelloResolve p :: r => p :: hello_settled r
  | HelloReject p _ :: r => p :: hello_settled r
  | _ :: r => hello_settled r
  end.

(** The invariant of the handshake, over the handle counter [h], the client
    [c] and the [connect] promises [done] settled so far: [helloResolve] and
    [helloReject] are set and cleared together, a connected client holds
    neither, the promise they name is not settled yet, and no promise is
    settled twice. *)
Record handshake (h : nat) (c : BridgeClient) (done : list nat) : Prop := mkHandshake {
  hs_same : helloResolve c = helloReject c;
  hs_connected : connected c = true -> helloReject c = None;
  hs_pending : forall p, helloReject c = Some p -> p < h /\ ~ In p done;
  hs_fresh : forall p, In p done -> p < h;
  hs_once : NoDup done
}.

Definition hello_invariant (w : World) (tr : list Effect) : Prop :=
  handshake (handles (rt w)) (this w) (hello_settled tr).

(** The promise [h] exists, the client no longer holds it, and it has not
    been settled. *)
Definition orphaned (h : nat) (w : World) (tr : list Effect) : Prop :=
  h < handles (rt w)
  /\ helloResolve (this w) <> Some h
  /\ helloReject (this w) <> Some h
  /\ ~ In h (hello_settled tr).

(** Every armed timer belongs to the entry of the table filed under the id
    it closes over. *)
Definition timers_owned (w : World) : Prop :=
  forall t cb,
    In (t, cb) (timers (rt w)) ->
    exists pending,
      Map_get (t_id cb) (pendingRpc (this w)) = Some pending /\ timer pending = Some t.

(** The ids [request] is called with are not in the table at the time of the
    call, as with ids drawn by [crypto.randomUUID()]. *)
Fixpoint fresh_ids (evs : list Event) (w : World) : Prop :=
  match evs with
  | [] => True
  | ev :: rest =>
      match ev with
      | Request id _ _ _ => Map_get id (pendingRpc (this w)) = None
      | _ => True
      end
      /\ fresh_ids rest (world_of (step ev w))
  end.

Definition with_buffer (b : jsstring) (w : World) : World :=
  mkWorld (set_buffer b (this w)) (rt w).

(** The data of one write is one line: its only line feed is its last code
    unit. *)
Definition one_line (data : jsstring) : Prop :=
  indexOf 10%N data = Some (List.length data - 1).

Definition writes (effs : list Effect) : list jsstring :=
  flat_map (fun e => match e with SocketWrite _ d => [d] | _ => [] end) effs.

Definition is_destroy (e : Effect) : bool :=
  match e with SocketDestroy _ _ => true | _ => false end.

(** The notification [onDisconnected], with any argument. *)
Definition is_disconnect_notice (e : Effect) : bool :=
  match e with Notify (onDisconnected _) => true | _ => false end.

Definition is_notify (e : Effect) : bool :=
  match e with Notify _ => true | _ => false end.

(** All that has been written went to the socket [held], and the client
    still holds that socket or none. *)
Definition writes_held (held : option nat) (w : World) (tr : list Effect) : Prop :=
  (forall sock d, In (SocketWrite sock d) tr -> held = Some sock)
  /\ (socket (this w) = held \/ socket (this w) = None).

(** The discriminants whose case of the [switch] can change the client. *)
Definition stateful_types : list jsstring :=
  [js "hello-ok"; js "pair-ok"; js "error"; js "res"].

(** ** The node host: the caller of the client

    The functions of the runner around [BridgeClient] that compute on
    strings and JSON values: [truncateOutput], [buildExecEventPayload],
    [formatCommand], [decodeParams], the fetch function the runner gives its
    [SkillBinsCache], and the cache itself.  Clock readings ([Date.now()])
    are natural numbers of milliseconds; what the fetch function returned is
    an argument. *)

Module NodeHost.

Definition OUTPUT_EVENT_TAIL : N := 20000.

Record Truncated : Type := mkTruncated { text : jsstring; truncated : bool }.

(** [raw.length <= maxChars ? raw : "... (truncated) " + raw.slice(raw.length - maxChars)] *)
Definition truncateOutput (raw : jsstring) (maxChars : N) : Truncated :=
  if (N.of_nat (List.length raw) <=? maxChars)%N then mkTruncated raw false
  else mkTruncated
         (js "... (truncated) " ++ sliceFrom (List.length raw - N.to_nat maxChars) raw)
         true.

Record ExecEventPayload : Type := mkExecEvent {
  sessionKey : jsstring;
  runId : jsstring;
  host : jsstring;
  command : option jsstring;
  exitCode : option N;
  timedOut : option bool;
  success : option bool;
  output : option jsstring;
  reason : option jsstring
}.

(** [{ ...payload, output: text }] *)
Definition set_output (o : jsstring) (p : ExecEventPayload) : ExecEventPayload :=
  mkExecEvent (sessionKey p) (runId p) (host p) (command p) (exitCode p)
              (timedOut p) (success p) (Some o) (reason p).

Definition buildExecEventPayload (payload : ExecEventPayload) : ExecEventPayload :=
  match output payload with
  | None => payload
  | Some out =>
      if is_empty out then payload
      else
        let trimmed := trim out in
        if is_empty trimmed then payload
        else set_output (text (truncateOutput trimmed OUTPUT_EVENT_TAIL)) payload
  end.

(** The test of the pattern that matches a white-space character or a
    quotation mark. *)
Definition needsQuotes (s : jsstring) : bool :=
  existsb (fun c => is_js_space c || (c =? 34)%N) s.

(** Every quotation mark gets a reverse solidus in front of it. *)
Definition escapeQuotes (s : jsstring) : jsstring :=
  flat_map (fun c => if (c =? 34)%N then [92%N; 34%N] else [c]) s.

(** The function [formatCommand] maps over [argv]. *)
Definition formatArg (arg : jsstring) : jsstring :=
  let trimmed := trim arg in
  if is_empty trimmed then [34%N; 34%N]
  else if negb (needsQuotes trimmed) then trimmed
  else 34%N :: escapeQuotes trimmed ++ [34%N].

Definition formatCommand (argv : list jsstring) : jsstring :=
  join (js " ") (map formatArg argv).

(** [decodeParams(raw)]: [raw] is [frame.paramsJSON], [None] when the frame
    has no such property. *)
Definition decodeParams (raw : option JValue) : Completion JValue :=
  match raw with
  | Some v =>
      if truthy v then
        match ToString v with
        | Some t =>
            match JSON_parse t with
            | POk p _ => Normal p
            | PErr => Throw (mkError SyntaxError_ (js "Unexpected token"))
            | PFuel => Unfinished
            end
        | None => Throw (mkError TypeError_ (js "Cannot convert object to primitive value"))
        end
      else Throw (newError (js "INVALID_REQUEST: paramsJSON required"))
  | None => Throw (newError (js "INVALID_REQUEST: paramsJSON required"))
  end.

(** [res.bins.map((bin) => String(bin))] *)
Fixpoint mapString (items : list JValue) : Completion (list jsstring) :=
  match items with
  | [] => Normal []
  | x :: r =>
      match ToString x with
      | Some s =>
          match mapString r with
          | Normal l => Normal (s :: l)
          | Throw e => Throw e
          | Unfinished => Unfinished
          end
      | None => Throw (mkError TypeError_ (js "Cannot convert object to primitive value"))
      end
  end.

(** [Array.isArray(res?.bins) ? res.bins.map(String) : []] *)
Definition binsOf (res : JValue) : Completion (list jsstring) :=
  match res with
  | JNull => Normal []
  | _ =>
      match getField "bins" res with
      | Some (JArr items) => mapString items
      | _ => Normal []
      end
  end.

(** The fetch function of the runner: [client.request("skills.bins", {})]
    awaited, then [binsOf].  [reply] is how the promise of [request] was
    settled: resolved with a [res] frame, or rejected. *)
Definition fetchSkillBins (reply : JValue + JsError) : Completion (list jsstring) :=
  match reply with
  | inl frame =>
      match requestResult frame with
      | Normal res => binsOf res
      | Throw e => Throw e
      | Unfinished => Unfinished
      end
  | inr e => Throw e
  end.

(** [new Set(bins)]: the strings in order, each once. *)
Fixpoint Set_has (x : jsstring) (s : list jsstring) : bool :=
  match s with
  | [] => false
  | y :: r => jseqb y x || Set_has x r
  end.

Definition Set_add (x : jsstring) (s : list jsstring) : list jsstring :=
  if Set_has x s then s else s ++ [x].

Definition newSet (l : list jsstring) : list jsstring :=
  fold_left (fun s x => Set_add x s) l [].

Record SkillBinsCache : Type := mkCache {
  bins : list jsstring;
  lastRefresh : N
}.

Definition ttlMs : N := 90000.

(** [new SkillBinsCache(fetch)] *)
Definition newCache : SkillBinsCache := mkCache [] 0.

(** [private async refresh()]: [fetched] is the outcome of [this.fetch()],
    [now] the clock read after it. *)
Definition refresh (fetched : Completion (list jsstring)) (now : N) (c : SkillBinsCache)
  : Completion SkillBinsCache :=
  match fetched with
  | Normal l => Normal (mkCache (newSet l) now)
  | Throw _ => Normal (if (lastRefresh c =? 0)%N then mkCache [] (lastRefresh c) else c)
  | Unfinished => Unfinished
  end.

(** [async current(force)]: the clock read on entry is [now]; the value is
    the set returned, with the cache afterwards and whether [fetch] was
    called.  [Date.now() - this.lastRefresh] is negative when the clock
    went back, and then not above [ttlMs]: the subtraction of [N] gives 0
    there, with the same answer. *)
Definition current (force : bool) (now : N) (fetched : Completion (list jsstring))
           (after : N) (c : SkillBinsCache)
  : Completion (list jsstring * SkillBinsCache * bool) :=
  if force || (ttlMs <? now - lastRefresh c)%N then
    match refresh fetched after c with
    | Normal c' => Normal (bins c', c', true)
    | Throw e => Throw e
    | Unfinished => Unfinished
    end
  else Normal (bins c, c, false).

(** The two closures of [runNodeHost] that let its loop wait for a
    disconnect: [waitForDisconnect] and the [onDisconnected] callback it gives
    the client, over the two variables they share.  A promise is named by
    its handle; the value lists the promises resolved by the call. *)
Record Waiter : Type := mkWaiter {
  disconnectResolve : option nat;
  disconnectSignal : bool
}.

Definition idle : Waiter := mkWaiter None false.

(** [waitForDisconnect()], creating the promise [p] *)
Definition waitForDisconnect (p : nat) (s : Waiter) : Waiter * list nat :=
  if disconnectSignal s then (mkWaiter (disconnectResolve s) false, [p])
  else (mkWaiter (Some p) (disconnectSignal s), []).

(** The [onDisconnected] callback *)
Definition onDisconnected (s : Waiter) : Waiter * list nat :=
  match disconnectResolve s with
  | Some p => (mkWaiter None (disconnectSignal s), [p])
  | None => (mkWaiter None true, [])
  end.

(** The callback called once for every [onDisconnected] notification of
    the client, in order. *)
Fixpoint notified (effs : list Effect) (s : Waiter) : Waiter * list nat :=
  match effs with
  | [] => (s, [])
  | e :: r =>
      if is_disconnect_notice e then
        let (s1, done1) := onDisconnected s in
        let (s2, done2) := notified r s1 in
        (s2, done1 ++ done2)
      else notified r s
  end.

(** ** Objects the runner builds

    An ordinary object that the runner fills by assignment: its own
    properties, in the order the keys are enumerated (the array indices in
    ascending order, then the other keys in the order of their creation),
    and its prototype, which an assignment to [__proto__] can replace. *)

(** The array index a key denotes: a canonical numeral below 2^32 - 1. *)
Definition array_index (k : jsstring) : option N :=
  match k with
  | [] => None
  | c :: r =>
      if forallb is_digit k && (negb (c =? 48)%N || is_empty r)
      then let n := fold_left (fun a d => (a * 10 + (d - 48))%N) k 0%N in
           if (n <? 4294967295)%N then Some n else None
      else None
  end.

Fixpoint insert_index (i : N) (k : jsstring) (v : JValue) (ms : list (jsstring * JValue))
  : list (jsstring * JValue) :=
  match ms with
  | [] => [(k, v)]
  | (k', v') :: r =>
      match array_index k' with
      | Some j => if (j <? i)%N then (k', v') :: insert_index i k v r else (k, v) :: ms
      | None => (k, v) :: ms
      end
  end.

(** [CreateDataProperty] with the place a new key takes. *)
Definition define (k : jsstring) (v : JValue) (ms : list (jsstring * JValue))
  : list (jsstring * JValue) :=
  if has_key k ms then obj_set k v ms
  else match array_index k with
       | Some i => insert_index i k v ms
       | None => ms ++ [(k, v)]
       end.

Inductive Prototype : Type :=
| ObjectPrototype
| NullPrototype
| ValuePrototype (v : JValue).

Record Object_ : Type := mkObject {
  own : list (jsstring * JValue);
  prototype : Prototype
}.

(** Whether a lookup of [__proto__] that starts at the prototype [p] ends
    at the accessor of [Object.prototype]: not below a null prototype, and
    not when a parsed object on the way has an own property of that
    name. *)
Definition reaches_setter (p : Prototype) : bool :=
  match p with
  | ObjectPrototype => true
  | NullPrototype => false
  | ValuePrototype (JObj ms) => negb (has_key (js "__proto__") ms)
  | ValuePrototype _ => true
  end.

(** [o[k] = v].  An own property is overwritten.  Otherwise the key
    [__proto__], when the accessor is reached, sets the prototype to an
    object or to [null] and ignores any other value; every other key, whose
    inherited properties are writable data properties if any, becomes an own
    property. *)
Definition assign (k : jsstring) (v : JValue) (o : Object_) : Object_ :=
  if jseqb k (js "__proto__") && negb (has_key k (own o)) && reaches_setter (prototype o)
  then match v with
       | JObj _ | JArr _ => mkObject (own o) (ValuePrototype v)
       | JNull => mkObject (own o) NullPrototype
       | _ => o
       end
  else mkObject (define k v (own o)) (prototype o).

(** [o.k] for a key that the built-in prototypes do not have and that is
    no array index and not [length]. *)
Definition Object_get (k : jsstring) (o : Object_) : option JValue :=
  match obj_get k (own o) with
  | Some v => Some v
  | None =>
      match prototype o with
      | ValuePrototype (JObj ms) => obj_get k ms
      | _ => None
      end
  end.

(** The decimal numeral of a number. *)
Fixpoint uint_units (d : Decimal.uint) : jsstring :=
  match d with
  | Decimal.Nil => []
  | Decimal.D0 r => 48%N :: uint_units r
  | Decimal.D1 r => 49%N :: uint_units r
  | Decimal.D2 r => 50%N :: uint_units r
  | Decimal.D3 r => 51%N :: uint_units r
  | Decimal.D4 r => 52%N :: uint_units r
  | Decimal.D5 r => 53%N :: uint_units r
  | Decimal.D6 r => 54%N :: uint_units r
  | Decimal.D7 r => 55%N :: uint_units r
  | Decimal.D8 r => 56%N :: uint_units r
  | Decimal.D9 r => 57%N :: uint_units r
  end.

Definition decimal (n : N) : jsstring := uint_units (N.to_uint n).

Fixpoint indexed (i : N) (items : list JValue) : list (jsstring * JValue) :=
  match items with
  | [] => []
  | x :: r => (decimal i, x) :: indexed (i + 1) r
  end.

(** The members of an object in the order its keys are enumerated,
    whatever the order they are listed in: each member is created in
    turn. *)
Definition enumerated (ms : list (jsstring * JValue)) : list (jsstring * JValue) :=
  fold_left (fun acc kv => define (fst kv) (snd kv) acc) ms [].

(** [Object.entries(v)] for a value that is neither [null] nor
    [undefined]. *)
Definition Object_entries (v : JValue) : list (jsstring * JValue) :=
  match v with
  | JObj ms => enumerated ms
  | JArr items => indexed 0 items
  | JStr s => indexed 0 (map (fun c => JStr [c]) s)
  | _ => []
  end.

(** ** Environment overrides

    [sanitizeEnv(overrides)] over [process.env], whose variables are given
    with their values in the order the object lists them.  The case mapping
    of [String.prototype.toUpperCase] is a parameter of the section: the
    function is embedded for whatever the runtime's mapping is. *)

Definition Env := list (jsstring * jsstring).

(** [process.env.NAME] *)
Fixpoint env_get (k : jsstring) (e : Env) : option jsstring :=
  match e with
  | [] => None
  | (k', v) :: r => if jseqb k' k then Some v else env_get k r
  end.

(** [{ ...process.env }] *)
Definition spread (processEnv : Env) : Object_ :=
  mkObject (fold_left (fun ms kv => define (fst kv) (JStr (snd kv)) ms) processEnv [])
           ObjectPrototype.

Definition blockedEnvKeys : list jsstring :=
  [js "PATH"; js "NODE_OPTIONS"; js "PYTHONHOME"; js "PYTHONPATH"; js "PERL5LIB";
   js "PERL5OPT"; js "RUBYOPT"].

Definition blockedEnvPrefixes : list jsstring := [js "DYLD_"; js "LD_"].

Definition startsWith (prefix s : jsstring) : bool := is_some (strip_prefix prefix s).

Section SanitizeEnv.

Variable toUpperCase : jsstring -> jsstring.

(** The two tests that make the loop skip a key. *)
Definition blocked (key : jsstring) : bool :=
  let upper := toUpperCase key in
  Set_has upper blockedEnvKeys
  || existsb (fun prefix => startsWith prefix upper) blockedEnvPrefixes.

(** The loop over [Object.entries(overrides)]. *)
Fixpoint applyOverrides (entries : list (jsstring * JValue)) (merged : Object_) : Object_ :=
  match entries with
  | [] => merged
  | (rawKey, value) :: rest =>
      let key := trim rawKey in
      if is_empty key then applyOverrides rest merged
      else if blocked key then applyOverrides rest merged
      else applyOverrides rest (assign key value merged)
  end.

(** [overrides] is [None] when the argument is [undefined]. *)
Definition sanitizeEnv (processEnv : Env) (overrides : option JValue) : option Object_ :=
  match overrides with
  | None => None
  | Some v =>
      if truthy v then Some (applyOverrides (Object_entries v) (spread processEnv))
      else None
  end.

End SanitizeEnv.

(** The case mapping on the letters a to z, to run [sanitizeEnv] on names
    made of ASCII. *)
Definition asciiUpper (s : jsstring) : jsstring :=
  map (fun c => if (97 <=? c)%N && (c <=? 122)%N then (c - 32)%N else c) s.

(** ** Looking up executables

    [resolveEnvPath], [resolveExecutable] and [handleSystemWhich].  What
    they ask of the platform is a parameter: whether [process.platform] is
    [win32] (which also decides [path.delimiter]), the variables of
    [process.env], [path.join], [fs.existsSync] and the case mapping. *)

(** [s.split(sep)] for a separator of one code unit. *)
Fixpoint split (sep : N) (s : jsstring) : list jsstring :=
  match s with
  | [] => [[]]
  | c :: r =>
      if (c =? sep)%N then [] :: split sep r
      else match split sep r with
           | p :: ps => (c :: p) :: ps
           | [] => [[c]]
           end
  end.

Definition includes (c : N) (s : jsstring) : bool := existsb (fun x => (x =? c)%N) s.

(** [a ?? b] on values that may be [undefined]. *)
Definition orElse (a b : option JValue) : option JValue :=
  match a with
  | None | Some JNull => b
  | Some _ => a
  end.

Section Which.

Variable win32 : bool.
Variable getenv : jsstring -> option jsstring.
Variable path_join : jsstring -> jsstring -> jsstring.
Variable existsSync : jsstring -> bool.
Variable toLowerCase : jsstring -> jsstring.

Definition delimiter : N := if win32 then 59%N else 58%N.

(** [env?.NAME] *)
Definition envField (name : string) (env : option Object_) : option JValue :=
  match env with
  | None => None
  | Some o => Object_get (js name) o
  end.

Definition resolveEnvPath (env : option Object_) : Completion (list jsstring) :=
  let raw :=
      orElse (envField "PATH" env)
        (orElse (envField "Path" env)
           (orElse (option_map JStr (getenv (js "PATH")))
              (orElse (option_map JStr (getenv (js "Path"))) (Some (JStr []))))) in
  match raw with
  | Some (JStr s) => Normal (filter (fun p => negb (is_empty p)) (split delimiter s))
  | _ => Throw (mkError TypeError_ (js "raw.split is not a function"))
  end.

Definition extensions : list jsstring :=
  if win32 then
    map toLowerCase
        (split 59 (match getenv (js "PATHEXT") with
                   | Some s => s
                   | None => match getenv (js "PathExt") with
                             | Some s => s
                             | None => js ".EXE;.CMD;.BAT;.COM"
                             end
                   end))
  else [[]].

(** The two loops: the first candidate that exists. *)
Definition candidates (bin : jsstring) (dirs : list jsstring) : list jsstring :=
  flat_map (fun dir => map (fun ext => path_join dir (bin ++ ext)) extensions) dirs.

Definition resolveExecutable (bin : jsstring) (env : option Object_)
  : Completion (option jsstring) :=
  if includes 47 bin || includes 92 bin then Normal None
  else
    match resolveEnvPath env with
    | Normal dirs => Normal (find existsSync (candidates bin dirs))
    | Throw e => Throw e
    | Unfinished => Unfinished
    end.

(** [params.bins.map((bin) => bin.trim())]: an item that is no string has
    no method [trim]. *)
Fixpoint trimAll (items : list JValue) : Completion (list jsstring) :=
  match items with
  | [] => Normal []
  | JStr s :: r =>
      match trimAll r with
      | Normal l => Normal (trim s :: l)
      | other => other
      end
  | _ :: _ => Throw (mkError TypeError_ (js "bin.trim is not a function"))
  end.

(** The loop that fills [found]. *)
Fixpoint findAll (bins : list jsstring) (env : option Object_) (found : Object_)
  : Completion Object_ :=
  match bins with
  | [] => Normal found
  | bin :: rest =>
      match resolveExecutable bin env with
      | Normal (Some path) =>
          if is_empty path then findAll rest env found
          else findAll rest env (assign bin (JStr path) found)
      | Normal None => findAll rest env found
      | Throw e => Throw e
      | Unfinished => Unfinished
      end
  end.

Definition handleSystemWhich (params : JValue) (env : option Object_) : Completion JValue :=
  match getField "bins" params with
  | Some (JArr items) =>
      match trimAll items with
      | Normal trimmed =>
          let bins := filter (fun b => negb (is_empty b)) trimmed in
          match findAll bins env (mkObject [] ObjectPrototype) with
          | Normal found => Normal (JObj [(js "bins", JObj (own found))])
          | Throw e => Throw e
          | Unfinished => Unfinished
          end
      | Throw e => Throw e
      | Unfinished => Unfinished
      end
  | _ => Throw (mkError TypeError_ (js "Cannot read properties of undefined"))
  end.

End Which.

(** ** Running a command

    [runCommand] starts a child process and returns a promise.  What
    happens next is driven by the child and by the timer: a chunk of bytes
    on one of the two pipes, the timer firing, the child failing to start,
    the child exiting.  The local variables of the call are a record, each
    callback is a function on it, and [resolve] appends to the list of the
    values the promise was resolved with.  The decoding of a buffer as
    UTF-8 is a parameter.  The model is of a call in which [spawn] returns
    a child. *)

Module RunCommand.

Definition OUTPUT_CAP : N := 200000.

Record RunResult : Type := mkRunResult {
  exitCode : option N;
  timedOut : bool;
  success : bool;
  stdout : jsstring;
  stderr : jsstring;
  error : option jsstring;
  truncated : bool
}.

Inductive Target : Type := Stdout | Stderr.

Inductive ChildEvent : Type :=
| Data (target : Target) (chunk : list N)
| TimerFired
| ChildError (message : jsstring)
| ChildExit (code : option N).

Record Locals : Type := mkLocals {
  l_stdout : jsstring;
  l_stderr : jsstring;
  outputLen : N;
  l_truncated : bool;
  l_timedOut : bool;
  settled : bool;
  timer : bool;               (* [timer] is set *)
  pending : bool;             (* the timer has neither fired nor been cleared *)
  kills : nat;                (* calls of [child.kill] *)
  resolved : list RunResult   (* calls of [resolve] *)
}.

(** [timeoutMs && timeoutMs > 0], for a number given by its numeral. *)
Definition positive (timeoutMs : option jsstring) : bool :=
  match timeoutMs with
  | None => false
  | Some t => negb (numeral_is_zero t) && negb (startsWith (js "-") t)
  end.

Definition start (timeoutMs : option jsstring) : Locals :=
  let armed := positive timeoutMs in
  mkLocals [] [] 0 false false false armed armed 0 [].

Section Decode.

Variable utf8 : list N -> jsstring.

Definition onChunk (chunk : list N) (target : Target) (s : Locals) : Locals :=
  if (OUTPUT_CAP <=? outputLen s)%N then
    mkLocals (l_stdout s) (l_stderr s) (outputLen s) true (l_timedOut s) (settled s)
             (timer s) (pending s) (kills s) (resolved s)
  else
    let remaining := (OUTPUT_CAP - outputLen s)%N in
    let over := (remaining <? N.of_nat (List.length chunk))%N in
    let slice := if over then firstn (N.to_nat remaining) chunk else chunk in
    let str := utf8 slice in
    mkLocals (match target with Stdout => l_stdout s ++ str | Stderr => l_stdout s end)
             (match target with Stdout => l_stderr s | Stderr => l_stderr s ++ str end)
             (outputLen s + N.of_nat (List.length slice))
             (if over then true else l_truncated s)
             (l_timedOut s) (settled s) (timer s) (pending s) (kills s) (resolved s).

(** The callback of [setTimeout]. *)
Definition onTimeout (s : Locals) : Locals :=
  mkLocals (l_stdout s) (l_stderr s) (outputLen s) (l_truncated s) true (settled s)
           (timer s) false (S (kills s)) (resolved s).

(** [!error] *)
Definition no_error (err : option jsstring) : bool :=
  match err with None => true | Some m => is_empty m end.

Definition finalize (code : option N) (err : option jsstring) (s : Locals) : Locals :=
  if settled s then s
  else
    mkLocals (l_stdout s) (l_stderr s) (outputLen s) (l_truncated s) (l_timedOut s) true
             (timer s) (if timer s then false else pending s) (kills s)
             (resolved s ++
                [mkRunResult code (l_timedOut s)
                             (match code with Some 0%N => true | _ => false end
                              && negb (l_timedOut s) && no_error err)
                             (l_stdout s) (l_stderr s) err (l_truncated s)]).

(** One callback.  The timer fires only while it is pending. *)
Definition on (e : ChildEvent) (s : Locals) : Locals :=
  match e with
  | Data target chunk => onChunk chunk target s
  | TimerFired => if pending s then onTimeout s else s
  | ChildError message => finalize None (Some message) s
  | ChildExit code => finalize code None s
  end.

Definition runCommand (timeoutMs : option jsstring) (events : list ChildEvent) : Locals :=
  fold_left (fun s e => on e s) events (start timeoutMs).

End Decode.

(** The chunks among the events, and the chunks that fit in [room] bytes:
    whole chunks while there is room and the head of the one that crosses
    the limit. *)
Fixpoint chunks (events : list ChildEvent) : list (Target * list N) :=
  match events with
  | [] => []
  | Data target chunk :: rest => (target, chunk) :: chunks rest
  | _ :: rest => chunks rest
  end.

Fixpoint clip (room : N) (data : list (Target * list N)) : list (Target * list N) :=
  match data with
  | [] => []
  | (target, chunk) :: rest =>
      if (room =? 0)%N then []
      else if (room <? N.of_nat (List.length chunk))%N
           then [(target, firstn (N.to_nat room) chunk)]
           else (target, chunk) :: clip (room - N.of_nat (List.length chunk)) rest
  end.

Definition bytes (data : list (Target * list N)) : list N := List.concat (map snd data).

Definition to (target : Target) (data : list (Target * list N)) : list (list N) :=
  flat_map (fun tc => match fst tc, target with
                      | Stdout, Stdout | Stderr, Stderr => [snd tc]
                      | _, _ => []
                      end) data.

(** The two events that call [finalize], and whether the timer fires among
    some events. *)
Definition finishes (e : ChildEvent) : bool :=
  match e with ChildError _ | ChildExit _ => true | _ => false end.

Definition fires (events : list ChildEvent) : bool :=
  existsb (fun e => match e with TimerFired => true | _ => false end) events.

End RunCommand.

(** ** Handling an invoke frame

    [handleInvoke(frame, client, skillBins)].  The function calls the
    client, the module of the exec approvals, the cache of the skill
    binaries and [runCommand]; the calls are listed in order, and what the
    awaited ones give is a parameter, as is what the functions of the
    approvals module return.  The value is the list of the calls made with
    the way the function ends: it returns, it throws (the promise of the
    call is rejected), or it waits for ever on a promise. *)

(** [String(err)] for an error object. *)
Definition errorName (c : ErrorClass) : jsstring :=
  match c with
  | Error_ => js "Error"
  | TypeError_ => js "TypeError"
  | SyntaxError_ => js "SyntaxError"
  end.

Definition String_error (e : JsError) : jsstring :=
  if is_empty (err_message e) then errorName (err_class e)
  else errorName (err_class e) ++ js ": " ++ err_message e.

(** The object of an [ExecEventPayload]; a property that is [undefined]
    is not listed. *)
Definition payloadValue (p : ExecEventPayload) : JValue :=
  JObj (props
    [("sessionKey", Some (JStr (sessionKey p)));
     ("runId", Some (JStr (runId p)));
     ("host", Some (JStr (host p)));
     ("command", option_map JStr (command p));
     ("exitCode", option_map (fun n => JNum (decimal n)) (exitCode p));
     ("timedOut", option_map JBool (timedOut p));
     ("success", option_map JBool (success p));
     ("output", option_map JStr (output p));
     ("reason", option_map JStr (reason p))]).

(** [x ?? undefined] *)
Definition orUndefined (x : option JValue) : option JValue :=
  match x with
  | Some JNull => None
  | _ => x
  end.

(** [x?.trim()], then what [|| undefined] makes of it: a value that is
    neither a string nor nullish has no method [trim]. *)
Definition trimmed (x : option JValue) : Completion (option jsstring) :=
  match x with
  | None | Some JNull => Normal None
  | Some (JStr s) => Normal (let t := trim s in if is_empty t then None else Some t)
  | Some _ => Throw (mkError TypeError_ (js "trim is not a function"))
  end.

(** [a ?? b] on strings that may be absent. *)
Definition orString (a b : option jsstring) : option jsstring :=
  match a with
  | Some _ => a
  | None => b
  end.

(** The platform, as for [sanitizeEnv] and [handleSystemWhich]. *)
Record Platform : Type := mkPlatform {
  win32 : bool;
  getenv : jsstring -> option jsstring;
  path_join : jsstring -> jsstring -> jsstring;
  existsSync : jsstring -> bool;
  toLowerCase : jsstring -> jsstring;
  toUpperCase : jsstring -> jsstring;
  processEnv : Env
}.

(** The module of the exec approvals: the approvals of an agent with the
    four settings read from them, the resolution of a command with its
    three properties, and the entry of the allowlist that matches. *)
Record ExecApprovals (Approvals Resolution AllowlistEntry : Type) : Type := mkExecApprovals {
  security : Approvals -> jsstring;
  ask : Approvals -> jsstring;
  askFallback : Approvals -> jsstring;
  autoAllowSkills : Approvals -> bool;
  resolvedPath : Resolution -> option jsstring;
  rawExecutable : Resolution -> option jsstring;
  executableName : Resolution -> option jsstring;
  resolveExecApprovals : option jsstring -> Approvals;
  resolveCommandResolution :
    jsstring -> option JValue -> option Object_ -> option Resolution;
  matchAllowlist : Approvals -> option Resolution -> option AllowlistEntry
}.

(** [crypto.randomUUID()] and what the three awaited calls give:
    [skillBins.current()], [requestExecApprovalViaSocket] and
    [runCommand]. *)
Record Awaited : Type := mkAwaited {
  randomUUID : jsstring;
  skillBinsCurrent : Completion (list jsstring);
  decided : Completion (option jsstring);
  ran : Completion RunCommand.RunResult
}.

Section HandleInvoke.

Variables Approvals Resolution AllowlistEntry : Type.
Variable pf : Platform.
Variable xa : ExecApprovals Approvals Resolution AllowlistEntry.
Variable aw : Awaited.

Inductive Action : Type :=
| Client (call : Event)
| SkillBinsCurrent
| RequestExecApproval (approvals : Approvals) (request : JValue)
| AddAllowlistEntry (approvals : Approvals) (agentId : option jsstring) (pattern : jsstring)
| RecordAllowlistUse (approvals : Approvals) (agentId : option jsstring)
                     (entry : AllowlistEntry) (cmdText : jsstring)
                     (path : option jsstring)
| Run (argv : list jsstring) (cwd : option jsstring) (env : option Object_)
      (timeoutMs : option JValue).

Definition H (A : Type) : Type := (list Action * Completion A)%type.

Definition pure {A} (a : A) : H A := ([], Normal a).

Definition andThen {A B} (m : H A) (k : A -> H B) : H B :=
  match m with
  | (acts, Normal a) => let (more, c) := k a in (acts ++ more, c)
  | (acts, Throw e) => (acts, Throw e)
  | (acts, Unfinished) => (acts, Unfinished)
  end.

Definition does (a : Action) : H unit := ([a], Normal tt).

Definition await {A} (c : Completion A) : H A := ([], c).

(** The two shapes of an answer. *)
Definition respond (frame : JValue) (payload : JValue) : H unit :=
  does (Client (SendInvokeResponse (JObj (props
    [("type", Some (JStr (js "invoke-res")));
     ("id", getField "id" frame);
     ("ok", Some (JBool true));
     ("payloadJSON", Some (JStr (stringify payload)))])))).

Definition refuse (frame : JValue) (code message : jsstring) : H unit :=
  does (Client (SendInvokeResponse (JObj (props
    [("type", Some (JStr (js "invoke-res")));
     ("id", getField "id" frame);
     ("ok", Some (JBool false));
     ("error", Some (JObj (props [("code", Some (JStr code));
                                  ("message", Some (JStr message))])))])))).

Definition sendExecEvent (event : jsstring) (payload : ExecEventPayload) : H unit :=
  does (Client (SendEvent event (Some (payloadValue (buildExecEventPayload payload))))).

(** The [exec.denied] event with the answer that follows it. *)
Definition deny (frame : JValue) (key id cmdText why message : jsstring) : H unit :=
  andThen (sendExecEvent (js "exec.denied")
             (mkExecEvent key id (js "node") (Some cmdText) None None None None (Some why)))
          (fun _ => refuse frame (js "UNAVAILABLE") message).

(** The branch of [system.which]. *)
Definition systemWhich (frame : JValue) : H unit :=
  let attempt :=
      match decodeParams (getField "paramsJSON" frame) with
      | Normal JNull =>
          Throw (mkError TypeError_ (js "Cannot read properties of null"))
      | Normal params =>
          match getField "bins" params with
          | Some (JArr _) =>
              handleSystemWhich (win32 pf) (getenv pf) (path_join pf) (existsSync pf)
                                (toLowerCase pf) params
                                (sanitizeEnv (toUpperCase pf) (processEnv pf) None)
          | _ => Throw (newError (js "INVALID_REQUEST: bins required"))
          end
      | Throw e => Throw e
      | Unfinished => Unfinished
      end in
  match attempt with
  | Normal payload => respond frame payload
  | Throw err => refuse frame (js "INVALID_REQUEST") (String_error err)
  | Unfinished => await Unfinished
  end.

(** What [system.run] works with once the parameters are read. *)
Record Prepared : Type := mkPrepared {
  p_argv : list jsstring;
  p_cmdText : jsstring;
  p_agentId : option jsstring;
  p_approvals : Approvals;
  p_sessionKey : jsstring;
  p_env : option Object_;
  p_resolution : option Resolution;
  p_allowlistMatch : option AllowlistEntry;
  p_bins : list jsstring;
  p_skillAllow : bool
}.

(** [resolution?.name] *)
Definition ofResolution (name : Resolution -> option jsstring) (r : option Resolution)
  : option jsstring :=
  match r with
  | Some x => name x
  | None => None
  end.

(** From [params.command.map] to [skillAllow]. *)
Definition prepare (params : JValue) (items : list JValue) : H Prepared :=
  andThen (await (mapString items)) (fun argv =>
  let rawCommand := match getField "rawCommand" params with
                    | Some (JStr s) => trim s
                    | _ => []
                    end in
  let cmdText := if is_empty rawCommand then formatCommand argv else rawCommand in
  andThen (await (trimmed (getField "agentId" params))) (fun agentId =>
  let approvals := resolveExecApprovals xa agentId in
  andThen (await (trimmed (getField "sessionKey" params))) (fun key =>
  let sessionKey := match key with Some k => k | None => js "node" end in
  let env := sanitizeEnv (toUpperCase pf) (processEnv pf) (orUndefined (getField "env" params)) in
  let resolution :=
      resolveCommandResolution xa cmdText (orUndefined (getField "cwd" params)) env in
  let allowlistMatch :=
      if jseqb (security xa approvals) (js "allowlist")
      then matchAllowlist xa approvals resolution else None in
  andThen (if autoAllowSkills xa approvals
           then andThen (does SkillBinsCurrent) (fun _ => await (skillBinsCurrent aw))
           else pure (newSet [])) (fun bins =>
  let skillAllow :=
      autoAllowSkills xa approvals
      && match ofResolution (executableName xa) resolution with
         | Some name => negb (is_empty name) && Set_has name bins
         | None => false
         end in
  pure (mkPrepared argv cmdText agentId approvals sessionKey env resolution
                   allowlistMatch bins skillAllow))))).

Definition requiresAsk (p : Prepared) : bool :=
  jseqb (ask xa (p_approvals p)) (js "always")
  || (jseqb (ask xa (p_approvals p)) (js "on-miss")
      && jseqb (security xa (p_approvals p)) (js "allowlist")
      && negb (is_some (p_allowlistMatch p))
      && negb (p_skillAllow p)).

(** The block under [if (requiresAsk)]: the value is [approvedByAsk], or
    [None] when the block has answered and the function returns. *)
Definition askUser (frame params : JValue) (p : Prepared) : H (option bool) :=
  let a := p_approvals p in
  let path := ofResolution (resolvedPath xa) (p_resolution p) in
  andThen (does (RequestExecApproval a (JObj (props
             [("command", Some (JStr (p_cmdText p)));
              ("cwd", orUndefined (getField "cwd" params));
              ("host", Some (JStr (js "node")));
              ("security", Some (JStr (security xa a)));
              ("ask", Some (JStr (ask xa a)));
              ("agentId", option_map JStr (p_agentId p));
              ("resolvedPath", Some (match path with Some s => JStr s | None => JNull end))]))))
          (fun _ =>
  andThen (await (decided aw)) (fun decision =>
  let required :=
      andThen (deny frame (p_sessionKey p) (randomUUID aw) (p_cmdText p)
                    (js "approval-required") (js "SYSTEM_RUN_DENIED: approval required"))
              (fun _ => pure None) in
  match decision with
  | None => 
      if jseqb (askFallback xa a) (js "full") then pure (Some true)
      else if jseqb (askFallback xa a) (js "allowlist") then
        if is_some (p_allowlistMatch p) || p_skillAllow p then pure (Some true)
        else required
      else required
  | Some d =>
      if jseqb d (js "deny") then
        andThen (deny frame (p_sessionKey p) (randomUUID aw) (p_cmdText p)
                      (js "user-denied") (js "SYSTEM_RUN_DENIED: user denied"))
                (fun _ => pure None)
      else if is_empty d then
        if jseqb (askFallback xa a) (js "full") then pure (Some true)
        else if jseqb (askFallback xa a) (js "allowlist") then
          if is_some (p_allowlistMatch p) || p_skillAllow p then pure (Some true)
          else required
        else required
      else if jseqb d (js "allow-once") then pure (Some true)
      else if jseqb d (js "allow-always") then
        if jseqb (security xa a) (js "allowlist") then
          let pattern :=
              orString path
                (orString (ofResolution (rawExecutable xa) (p_resolution p))
                   (orString (hd_error (p_argv p)) (Some []))) in
          match pattern with
          | Some (c :: t) =>
              andThen (does (AddAllowlistEntry a (p_agentId p) (c :: t)))
                      (fun _ => pure (Some true))
          | _ => pure (Some true)
          end
        else pure (Some true)
      else pure (Some false)
  end)).

(** From [exec.started] to the answer. *)
Definition runIt (frame params : JValue) (p : Prepared) : H unit :=
  andThen (sendExecEvent (js "exec.started")
             (mkExecEvent (p_sessionKey p) (randomUUID aw) (js "node") (Some (p_cmdText p))
                          None None None None None)) (fun _ =>
  andThen (await (trimmed (getField "cwd" params))) (fun cwd =>
  andThen (does (Run (p_argv p) cwd (p_env p) (orUndefined (getField "timeoutMs" params))))
          (fun _ =>
  andThen (await (ran aw)) (fun result =>
  let suffix := js "... (truncated)" in
  let marked := RunCommand.truncated result in
  let onStderr := negb (is_empty (trim (RunCommand.stderr result))) in
  let stderr := if marked && onStderr
                then RunCommand.stderr result ++ LF ++ suffix
                else RunCommand.stderr result in
  let stdout := if marked && negb onStderr
                then RunCommand.stdout result ++ LF ++ suffix
                else RunCommand.stdout result in
  let combined :=
      join LF (filter (fun s => negb (is_empty s))
                      [stdout; stderr;
                       match RunCommand.error result with Some e => e | None => [] end]) in
  andThen (sendExecEvent (js "exec.finished")
             (mkExecEvent (p_sessionKey p) (randomUUID aw) (js "node") (Some (p_cmdText p))
                          (RunCommand.exitCode result)
                          (Some (RunCommand.timedOut result))
                          (Some (RunCommand.success result))
                          (Some combined) None)) (fun _ =>
  respond frame (JObj (props
    [("exitCode", option_map (fun n => JNum (decimal n)) (RunCommand.exitCode result));
     ("timedOut", Some (JBool (RunCommand.timedOut result)));
     ("success", Some (JBool (RunCommand.success result)));
     ("stdout", Some (JStr stdout));
     ("stderr", Some (JStr stderr));
     ("error", Some (match RunCommand.error result with
                     | Some e => JStr e
                     | None => JNull
                     end))]))))))).

(** From the test of [security] to the answer. *)
Definition guard (frame params : JValue) (p : Prepared) : H unit :=
  let a := p_approvals p in
  if jseqb (security xa a) (js "deny") then
    deny frame (p_sessionKey p) (randomUUID aw) (p_cmdText p)
         (js "security=deny") (js "SYSTEM_RUN_DISABLED: security=deny")
  else
    andThen (if requiresAsk p then askUser frame params p else pure (Some false))
            (fun asked =>
    match asked with
    | None => pure tt
    | Some approvedByAsk =>
        if jseqb (security xa a) (js "allowlist")
           && negb (is_some (p_allowlistMatch p))
           && negb (p_skillAllow p)
           && negb approvedByAsk
        then deny frame (p_sessionKey p) (randomUUID aw) (p_cmdText p)
                  (js "allowlist-miss") (js "SYSTEM_RUN_DENIED: allowlist miss")
        else
          andThen (match p_allowlistMatch p with
                   | Some entry =>
                       does (RecordAllowlistUse a (p_agentId p) entry (p_cmdText p)
                               (ofResolution (resolvedPath xa) (p_resolution p)))
                   | None => pure tt
                   end) (fun _ =>
          match getField "needsScreenRecording" params with
          | Some (JBool true) =>
              deny frame (p_sessionKey p) (randomUUID aw) (p_cmdText p)
                   (js "permission:screenRecording")
                   (js "PERMISSION_MISSING: screenRecording")
          | _ => runIt frame params p
          end)
    end).

(** The branch of [system.run], after the parameters were decoded. *)
Definition systemRun (frame params : JValue) : H unit :=
  match params with
  | JNull => await (Throw (mkError TypeError_ (js "Cannot read properties of null")))
  | _ =>
      match getField "command" params with
      | Some (JArr (first :: more)) =>
          andThen (prepare params (first :: more)) (guard frame params)
      | _ => refuse frame (js "INVALID_REQUEST") (js "command required")
      end
  end.

Definition handleInvoke (frame : JValue) : H unit :=
  match frame with
  | JNull => await (Throw (mkError TypeError_ (js "Cannot read properties of null")))
  | _ =>
      match ToString (nullish (getField "command" frame) (JStr [])) with
      | None =>
          await (Throw (mkError TypeError_ (js "Cannot convert object to primitive value")))
      | Some command =>
          if jseqb command (js "system.which") then systemWhich frame
          else if negb (jseqb command (js "system.run")) then
            refuse frame (js "UNAVAILABLE") (js "command not supported")
          else
            match decodeParams (getField "paramsJSON" frame) with
            | Normal params => systemRun frame params
            | Throw err => refuse frame (js "INVALID_REQUEST") (String_error err)
            | Unfinished => await Unfinished
            end
      end
  end.

(** Calls that answer the frame: a list without an answer, a list that
    ends with the one answer it holds, and what a run of the function owes
    the gateway: the answer when it returns, none when it does not. *)
Definition silent (acts : list Action) : Prop :=
  forall res, ~ In (Client (SendInvokeResponse res)) acts.

Definition answered (frame : JValue) (acts : list Action) : Prop :=
  exists before res,
    acts = before ++ [Client (SendInvokeResponse res)]
    /\ silent before
    /\ getField "type" res = Some (JStr (js "invoke-res"))
    /\ getField "id" res = getField "id" frame.

Definition answers (frame : JValue) (m : H unit) : Prop :=
  match snd m with
  | Normal _ => answered frame (fst m)
  | _ => silent (fst m)
  end.

(** The same for the block under [if (requiresAsk)]: the answer when the
    block makes the function return, none when the function goes on. *)
Definition asks (frame : JValue) (m : H (option bool)) : Prop :=
  match snd m with
  | Normal None => answered frame (fst m)
  | _ => silent (fst m)
  end.

(** A list of calls that starts no command. *)
Definition idle_run (acts : list Action) : Prop :=
  forall argv cwd env timeoutMs, ~ In (Run argv cwd env timeoutMs) acts.

End HandleInvoke.

Arguments Client {Approvals AllowlistEntry} call.
Arguments SkillBinsCurrent {Approvals AllowlistEntry}.
Arguments RequestExecApproval {Approvals AllowlistEntry} approvals request.
Arguments AddAllowlistEntry {Approvals AllowlistEntry} approvals agentId pattern.
Arguments RecordAllowlistUse {Approvals AllowlistEntry} approvals agentId entry cmdText path.
Arguments Run {Approvals AllowlistEntry} argv cwd env timeoutMs.
Arguments pure {Approvals AllowlistEntry A} a.
Arguments await {Approvals AllowlistEntry A} c.
Arguments respond {Approvals AllowlistEntry} frame payload.
Arguments refuse {Approvals AllowlistEntry} frame code message.
Arguments sendExecEvent {Approvals AllowlistEntry} event payload.
Arguments deny {Approvals AllowlistEntry} frame key id cmdText why message.
Arguments systemWhich {Approvals AllowlistEntry} pf frame.

End NodeHost.

(* ===================================================================== *)
(** * Part II: lemmas and theorems                                        *)
(* ===================================================================== *)

(** ** Strings *)

Lemma jseqb_eq (a b : jsstring) : jseqb a b = true <-> a = b.
Proof.
  revert b; induction a as [|x a IH]; intros [|y b]; simpl; split; intro H;
    try reflexivity; try discriminate.
  - apply andb_true_iff in H as [Hx Hr]. apply N.eqb_eq in Hx.
    apply IH in Hr. now subst.
  - injection H as -> ->. rewrite N.eqb_refl. simpl. now apply IH.
Qed.

Lemma jseqb_refl (a : jsstring) : jseqb a a = true.
Proof. now apply jseqb_eq. Qed.

Lemma jseqb_neq (a b : jsstring) : a <> b -> jseqb a b = false.
Proof.
  intro H. destruct (jseqb a b) eqn:E; [|reflexivity].
  apply jseqb_eq in E. contradiction.
Qed.

Lemma jseqb_sym (a b : jsstring) : jseqb a b = jseqb b a.
Proof.
  destruct (jseqb a b) eqn:E.
  - apply jseqb_eq in E. subst. symmetry. apply jseqb_refl.
  - symmetry. apply jseqb_neq. intro H. subst. now rewrite jseqb_refl in E.
Qed.

Lemma trimStart_spaces (s : jsstring) :
  forallb is_js_space s = true -> trimStart s = [].
Proof.
  induction s as [|c s IH]; simpl; [reflexivity|].
  intro H. apply andb_true_iff in H as [Hc Hs]. rewrite Hc. auto.
Qed.

Lemma trim_spaces (s : jsstring) : forallb is_js_space s = true -> trim s = [].
Proof. intro H. unfold trim. now rewrite trimStart_spaces. Qed.

Lemma trimStart_id (c : N) (s : jsstring) :
  is_js_space c = false -> trimStart (c :: s) = c :: s.
Proof. intro H. simpl. now rewrite H. Qed.

(** A string that neither starts nor ends with white space is its own trim. *)
Lemma trim_id (c d : N) (s : jsstring) :
  is_js_space c = false -> is_js_space d = false ->
  trim (c :: s ++ [d]) = c :: s ++ [d].
Proof.
  intros Hc Hd. unfold trim, trimEnd. rewrite trimStart_id by assumption.
  assert (E : rev (c :: s ++ [d]) = d :: rev (c :: s)).
  { change (c :: s ++ [d]) with ((c :: s) ++ [d]).
    rewrite rev_app_distr. reflexivity. }
  rewrite E, trimStart_id by assumption. rewrite <- E. apply rev_involutive.
Qed.

(** ** The monad *)

Lemma bind_ret_l {A B} (a : A) (k : A -> M B) (w : World) :
  bind (ret a) k w = k a w.
Proof. unfold bind, ret. destruct (k a w) as [[c w'] e]. reflexivity. Qed.

Lemma bind_ret_r {A} (m : M A) (w : World) :
  bind m (fun a => ret a) w = m w.
Proof.
  unfold bind, ret. destruct (m w) as [[[a| |] w'] e]; try reflexivity.
  now rewrite app_nil_r.
Qed.

Ltac mret :=
  repeat match goal with
         | |- context [@bind ?A ?B (@ret _ ?a) ?k ?w] =>
             rewrite (@bind_ret_l A B a k w)
         end.

(** ** Object literals *)

Lemma obj_get_props_fresh (k : jsstring) (fields : list (string * option JValue)) :
  ~ In k (map (fun f => js (fst f)) fields) -> obj_get k (props fields) = None.
Proof.
  induction fields as [|[n ov] r IH]; simpl; intro H; [reflexivity|].
  assert (Hn : jseqb (js n) k = false) by (apply jseqb_neq; intro; apply H; now left).
  assert (Hr : obj_get k (props r) = None) by (apply IH; intro; apply H; now right).
  destruct ov; simpl; [rewrite Hn|]; exact Hr.
Qed.

Lemma obj_get_props (k : jsstring) (fields : list (string * option JValue)) :
  NoDup (map (fun f => js (fst f)) fields) ->
  obj_get k (props fields) = field_of k fields.
Proof.
  induction fields as [|[n ov] r IH]; simpl; intro H; [reflexivity|].
  inversion H as [|? ? Hn Hr]; subst.
  destruct (jseqb (js n) k) eqn:E.
  - apply jseqb_eq in E. subst k.
    destruct ov; simpl; [now rewrite jseqb_refl|].
    now apply obj_get_props_fresh.
  - destruct ov; simpl; [rewrite E|]; now apply IH.
Qed.

(** ** [handleFrame]: from the frame to the case of the [switch] *)

Lemma handleFrame_typed (frame : JValue) (t : jsstring) (w : World) :
  getField "type" frame = Some (JStr t) ->
  handleFrame frame w = dispatch t frame w.
Proof.
  intro H. destruct frame; try discriminate H.
  unfold handleFrame, property.
  mret. rewrite H. simpl nullish. unfold toStr. simpl ToString. cbv iota.
  now mret.
Qed.

Lemma case_pair_ok_spec (frame : JValue) (w : World) :
  case_pair_ok frame w =
  match ToString (nullish (getField "token" frame) (JStr [])) with
  | None => (Throw (mkError TypeError_ (js "Cannot convert object to primitive value")), w, [])
  | Some s =>
      if is_empty (trim s) then (Normal tt, w, [])
      else (Normal tt,
            mkWorld (set_opts (set_token (Some (trim s)) (opts (this w))) (this w)) (rt w),
            [Notify (onPairToken (trim s))])
  end.
Proof.
  unfold case_pair_ok, toStr.
  destruct (ToString _) as [s|]; [|reflexivity].
  mret. destruct (is_empty (trim s)); reflexivity.
Qed.

(** ** Sending *)

Lemma send_spec (frame : JValue) (w : World) :
  send frame w =
  (Normal tt, w,
   match socket (this w) with
   | Some sock => [SocketWrite sock (stringify frame ++ LF)]
   | None => []
   end).
Proof.
  unfold send, self, bind, emit, ret. destruct (socket (this w)); reflexivity.
Qed.

Lemma sendHello_spec (w : World) :
  sendHello w =
  (Normal tt, w,
   match socket (this w) with
   | Some sock => [SocketWrite sock (stringify (helloFrame (opts (this w))) ++ LF)]
   | None => []
   end).
Proof.
  unfold sendHello, self, bind. rewrite send_spec. reflexivity.
Qed.

Lemma sendPairRequest_spec (w : World) :
  sendPairRequest w =
  (Normal tt, w,
   match socket (this w) with
   | Some sock => [SocketWrite sock (stringify (pairRequestFrame (opts (this w))) ++ LF)]
   | None => []
   end).
Proof.
  unfold sendPairRequest, self, bind. rewrite send_spec. reflexivity.
Qed.

Lemma NoDup_by_compute (l : list jsstring) :
  (fix nodup (l : list jsstring) : bool :=
     match l with
     | [] => true
     | x :: r => negb (existsb (jseqb x) r) && nodup r
     end) l = true -> NoDup l.
Proof.
  induction l as [|x r IH]; intro H; constructor.
  - apply andb_true_iff in H as [H _]. intro Hin.
    apply negb_true_iff in H.
    assert (existsb (jseqb x) r = true).
    { apply existsb_exists. exists x. split; [assumption|apply jseqb_refl]. }
    congruence.
  - apply IH. now apply andb_true_iff in H as [_ H].
Qed.

Lemma getField_hello (k : string) (o : BridgeClientOptions) :
  getField k (helloFrame o) = field_of (js k) (helloFields o).
Proof.
  unfold getField, helloFrame. apply obj_get_props.
  apply NoDup_by_compute. reflexivity.
Qed.

Lemma getField_pairRequest (k : string) (o : BridgeClientOptions) :
  getField k (pairRequestFrame o) = field_of (js k) (pairRequestFields o).
Proof.
  unfold getField, pairRequestFrame. apply obj_get_props.
  apply NoDup_by_compute. reflexivity.
Qed.

Lemma pairRequest_identity (o : BridgeClientOptions) :
  getField "token" (pairRequestFrame o) = None /\
  Forall (fun k => getField k (pairRequestFrame o) = getField k (helloFrame o))
         identityFields.
Proof.
  split.
  - rewrite getField_pairRequest. reflexivity.
  - unfold identityFields.
    repeat (constructor;
            [rewrite getField_pairRequest, getField_hello; reflexivity|]).
    constructor.
Qed.

Lemma pairRequestFrame_set_token (t : option jsstring) (o : BridgeClientOptions) :
  pairRequestFrame (set_token t o) = pairRequestFrame o.
Proof. reflexivity. Qed.

(** ** The [forEach] loops, [handleDisconnect], [close] *)

Lemma forEach_rejectPending (e : JsError) (m : RpcMap) (w : World) :
  forEach m (rejectPending e) w =
  (Normal tt,
   mkWorld (this w) (set_timers (clearTimers m (timers (rt w))) (rt w)),
   rejectEffects e m).
Proof.
  revert w. induction m as [|[k p] m IH]; intro w.
  - destruct w as [c [h ts ls so]]. reflexivity.
  - simpl forEach. unfold bind at 1.
    unfold rejectPending at 1. simpl snd.
    destruct (timer p) as [t|] eqn:Et.
    + unfold clearTimeout, runtime, set_runtime, emit, bind. simpl.
      rewrite IH. simpl. rewrite Et. destruct w as [c [h ts ls so]]. reflexivity.
    + unfold bind, ret, emit. simpl. rewrite IH. simpl. rewrite Et.
      destruct w as [c [h ts ls so]]. reflexivity.
Qed.

Lemma handleDisconnect_spec (err : option JsError) (w : World) :
  handleDisconnect err w =
  let c := this w in
  if negb (connected c) && negb (is_some (socket c))
  then (Normal tt, mkWorld (forgetHello c) (rt w), helloRejectEffects err c)
  else (Normal tt,
        mkWorld (disconnected (forgetHello c))
                (set_timers (clearTimers (pendingRpc c) (timers (rt w))) (rt w)),
        helloRejectEffects err c
        ++ rejectEffects (or_else err "bridge connection closed") (pendingRpc c)
        ++ [Notify (onDisconnected err)]).
Proof.
  destruct w as [[o so bu pe co hr hj] r].
  unfold handleDisconnect, forgetHello, helloRejected, helloRejectEffects, disconnected.
  destruct co, hj as [h|], so as [s|]; cbn -[forEach rejectEffects clearTimers];
    unfold bind, self, assign, emit, ret; cbn -[forEach rejectEffects clearTimers];
    try reflexivity;
    rewrite forEach_rejectPending; cbn -[rejectEffects clearTimers];
    rewrite ?app_nil_r; reflexivity.
Qed.

Lemma close_spec (w : World) :
  close w =
  let c := this w in
  (Normal tt,
   mkWorld (disconnected c)
           (set_timers (clearTimers (pendingRpc c) (timers (rt w))) (rt w)),
   match socket c with Some sock => [SocketDestroy sock None] | None => [] end
   ++ rejectEffects (newError (js "bridge client closed")) (pendingRpc c)).
Proof.
  destruct w as [[o so bu pe co hr hj] r].
  unfold close, disconnected.
  destruct so as [s|]; cbn -[forEach rejectEffects clearTimers];
    unfold bind, self, assign, emit, ret; cbn -[forEach rejectEffects clearTimers];
    rewrite forEach_rejectPending; cbn -[rejectEffects clearTimers];
    rewrite ?app_nil_r; reflexivity.
Qed.

(** ** [request], its timer, and the [res] case *)

Lemma request_spec (id method : jsstring) (params : option JValue) (ms : N) (w : World) :
  request id method params ms w =
  let p := handles (rt w) in
  let t := S p in
  (Normal p,
   mkWorld (set_pendingRpc (Map_set id (mkPending p (Some t)) (pendingRpc (this w))) (this w))
           (mkRuntime (S t) (timers (rt w) ++ [(t, mkTimeout id method p)])
                      (listeners (rt w)) (secureOnce (rt w))),
   SetTimeout t ms ::
   match socket (this w) with
   | Some sock => [SocketWrite sock (stringify (reqFrame id method params) ++ LF)]
   | None => []
   end).
Proof.
  destruct w as [[o so bu pe co hr hj] [h ts ls sc]].
  unfold request, setTimeout, newHandle, send.
  unfold bind, self, assign, emit, ret, runtime, set_runtime.
  destruct so; reflexivity.
Qed.

Lemma requestTimedOut_spec (cb : Timeout) (w : World) :
  requestTimedOut cb w =
  (Normal tt,
   mkWorld (set_pendingRpc (Map_delete (t_id cb) (pendingRpc (this w))) (this w)) (rt w),
   [RpcReject (t_reject cb)
      (newError (js "bridge request timeout (" ++ t_method cb ++ js ")"))]).
Proof. reflexivity. Qed.

Lemma case_res_spec (frame : JValue) (w : World) :
  case_res frame w =
  match Map_get_value (getField "id" frame) (pendingRpc (this w)) with
  | Some pending =>
      (Normal tt,
       mkWorld (set_pendingRpc (Map_delete_value (getField "id" frame) (pendingRpc (this w)))
                               (this w))
               (match timer pending with
                | Some t => set_timers (drop_timer t (timers (rt w))) (rt w)
                | None => rt w
                end),
       resolveEffects pending frame)
  | None => (Normal tt, w, [])
  end.
Proof.
  unfold case_res, resolveEffects. unfold bind at 1. unfold self at 1.
  destruct (Map_get_value (getField "id" frame) (pendingRpc (this w))) as [[p [t|]]|];
    destruct w as [[o so bu pe co hr hj] [h ts ls sc]]; reflexivity.
Qed.

Lemma case_hello_ok_spec (frame : JValue) (w : World) :
  case_hello_ok frame w =
  (Normal tt,
   mkWorld (set_helloReject None (set_helloResolve None (set_connected true (this w)))) (rt w),
   match helloResolve (this w) with
   | Some h => [HelloResolve h; Notify (onConnected frame)]
   | None => [Notify (onConnected frame)]
   end).
Proof.
  destruct w as [[o so bu pe co hr hj] r].
  unfold case_hello_ok, bind, self, assign, emit, ret. simpl.
  destruct hr; reflexivity.
Qed.

Lemma case_error_spec (frame : JValue) (w : World) :
  case_error frame w =
  match ToString (nullish (getField "code" frame) (JStr [])) with
  | None => (Throw (mkError TypeError_ (js "Cannot convert object to primitive value")), w, [])
  | Some code =>
      if jseqb code (js "NOT_PAIRED") || jseqb code (js "UNAUTHORIZED") then
        (Normal tt,
         mkWorld (set_opts (set_token None (opts (this w))) (this w)) (rt w),
         Notify onAuthReset ::
         match socket (this w) with
         | Some sock =>
             [SocketWrite sock (stringify (pairRequestFrame (opts (this w))) ++ LF)]
         | None => []
         end)
      else
        match ToString (nullish (getField "message" frame) (JStr (js "bridge error"))) with
        | None =>
            (Throw (mkError TypeError_ (js "Cannot convert object to primitive value")), w, [])
        | Some msg => handleDisconnect (Some (newError msg)) w
        end
  end.
Proof.
  unfold case_error, toStr.
  destruct (ToString (nullish (getField "code" frame) (JStr []))) as [code|]; [|reflexivity].
  mret.
  destruct (jseqb code (js "NOT_PAIRED") || jseqb code (js "UNAUTHORIZED")).
  - destruct w as [[o so bu pe co hr hj] r].
    unfold bind, self, assign, emit, ret. simpl. rewrite sendPairRequest_spec. simpl.
    destruct so; reflexivity.
  - destruct (ToString (nullish (getField "message" frame) _)) as [msg|]; [|reflexivity].
    now mret.
Qed.

Lemma connect_spec (w : World) :
  connect w =
  let c := this w in
  if connected c then (Normal None, w, [])
  else
    let h := handles (rt w) in
    let sock := S h in
    let pin := tls (opts c) &&
               match tlsFingerprint (opts c) with
               | Some f => negb (is_empty f)
               | None => false
               end in
    (Normal (Some h),
     mkWorld (set_socket (Some sock) (set_helloReject (Some h) (set_helloResolve (Some h) c)))
             (mkRuntime (S sock) (timers (rt w)) (listeners (rt w) ++ [sock])
                        (if pin then secureOnce (rt w) ++ [sock] else secureOnce (rt w))),
     [if tls (opts c)
      then TlsConnect sock (host (opts c)) (port (opts c)) false
      else NetConnect sock (host (opts c)) (port (opts c));
      SetNoDelay sock true]).
Proof.
  destruct w as [[o so bu pe co hr hj] [h ts ls sc]].
  unfold connect. unfold bind at 1. unfold self at 1. simpl.
  destruct co; [reflexivity|].
  unfold newHandle, addListeners, bind, self, assign, emit, ret, runtime, set_runtime.
  simpl. destruct (tls o); reflexivity.
Qed.

Lemma onSecureConnect_spec (sock : nat) (cert : option PeerCertificate) (w : World) :
  onSecureConnect sock cert w =
  let fingerprint := match cert with Some raw => extractFingerprint raw | None => None end in
  let pin := normalizeFingerprint
               (match tlsFingerprint (opts (this w)) with Some f => f | None => [] end) in
  if match fingerprint with
     | Some f => negb (is_empty f) && jseqb f pin
     | None => false
     end
  then (Normal tt, w, [])
  else
    let err := newError (js "bridge tls fingerprint mismatch") in
    match handleDisconnect (Some err) w with
    | (c, w', effs) => (c, w', effs ++ [SocketDestroy sock (Some err)])
    end.
Proof.
  unfold onSecureConnect. unfold bind at 1. unfold self at 1.
  cbv zeta.
  match goal with |- context [if ?b then _ else _] => destruct b end.
  - reflexivity.
  - unfold bind. rewrite handleDisconnect_spec. cbv zeta.
    destruct (negb _ && negb _); reflexivity.
Qed.

(** ** Pairing *)

Lemma dispatch_pair_ok frame : dispatch (js "pair-ok") frame = case_pair_ok frame.
Proof. reflexivity. Qed.
Lemma dispatch_error frame : dispatch (js "error") frame = case_error frame.
Proof. reflexivity. Qed.
Lemma dispatch_hello_ok frame : dispatch (js "hello-ok") frame = case_hello_ok frame.
Proof. reflexivity. Qed.
Lemma dispatch_res frame : dispatch (js "res") frame = case_res frame.
Proof. reflexivity. Qed.

(** C10: a [pair-ok] frame whose token is missing, empty or only white space
    changes nothing and fires no [onPairToken]; whenever a [pair-ok] frame
    does change the stored token or fire [onPairToken], the received token
    was non-blank after trimming (and the trimmed token is what is stored). *)
Theorem pair_ok_blank_token (frame : JValue) (w : World) :
  getField "type" frame = Some (JStr (js "pair-ok")) ->
  (blankToken frame -> handleFrame frame w = (Normal tt, w, []))
  /\
  (forall c w' effs,
      handleFrame frame w = (c, w', effs) ->
      token (opts (this w')) <> token (opts (this w))
      \/ (exists t, In (Notify (onPairToken t)) effs) ->
      exists s,
        ToString (nullish (getField "token" frame) (JStr [])) = Some s
        /\ trim s <> []
        /\ token (opts (this w')) = Some (trim s)
        /\ effs = [Notify (onPairToken (trim s))]).
Proof.
  intro Hty. split.
  - intro Hb. rewrite (handleFrame_typed _ _ Hty), dispatch_pair_ok, case_pair_ok_spec.
    destruct Hb as [Hb | [s [Hb Hs]]]; rewrite Hb; simpl.
    + reflexivity.
    + now rewrite trim_spaces.
  - intros c w' effs Hrun Hch.
    rewrite (handleFrame_typed _ _ Hty), dispatch_pair_ok, case_pair_ok_spec in Hrun.
    destruct (ToString (nullish (getField "token" frame) (JStr []))) as [s|].
    + destruct (trim s) as [|x r] eqn:Et; simpl in Hrun.
      * injection Hrun as <- <- <-.
        destruct Hch as [Hch | [t []]]. now elim Hch.
      * injection Hrun as <- <- <-. exists s. rewrite Et.
        repeat split; try reflexivity. discriminate.
    + injection Hrun as <- <- <-.
      destruct Hch as [Hch | [t []]]. now elim Hch.
Qed.

(** A [pair-ok] frame whose token is three spaces leaves a fresh client as it
    was. *)
Lemma pair_ok_blank_token_witness :
  handleFrame (frameOf [("type", JStr (js "pair-ok")); ("token", JStr (js "   "))])
              (boot exampleOptions)
  = (Normal tt, boot exampleOptions, []).
Proof.
  apply (proj1 (@pair_ok_blank_token
                  (frameOf [("type", JStr (js "pair-ok")); ("token", JStr (js "   "))])
                  (boot exampleOptions) eq_refl)).
  right. exists (js "   "). split; reflexivity.
Defined.

Lemma forgetHello_opts c : opts (forgetHello c) = opts c.
Proof. unfold forgetHello. destruct (helloRejected c); reflexivity. Qed.

Lemma handleDisconnect_opts err w :
  opts (this (world_of (handleDisconnect err w))) = opts (this w).
Proof.
  rewrite handleDisconnect_spec. cbv zeta.
  destruct (negb _ && negb _); unfold world_of; simpl; apply forgetHello_opts.
Qed.

(** Only received data can change the stored token. *)
Lemma step_keeps_token (ev : Event) (w : World) :
  (forall sock chunk, ev <> SockData sock chunk) ->
  token (opts (this (world_of (step ev w)))) = token (opts (this w)).
Proof.
  intro Hev. destruct ev; unfold step.
  - unfold bind. rewrite connect_spec. cbv zeta.
    destruct (connected (this w)); reflexivity.
  - rewrite close_spec. reflexivity.
  - unfold bind. rewrite request_spec. reflexivity.
  - unfold sendEvent. rewrite send_spec. reflexivity.
  - unfold sendInvokeResponse. rewrite send_spec. reflexivity.
  - unfold listening, bind, runtime.
    destruct (mem sock (listeners (rt w))); [|reflexivity].
    rewrite sendHello_spec. reflexivity.
  - unfold listening, bind, runtime.
    destruct (mem sock (listeners (rt w))); [|reflexivity].
    pose proof (handleDisconnect_opts (Some err) w) as H.
    destruct (handleDisconnect (Some err) w) as [[c w'] e].
    unfold world_of in *. simpl in *. now rewrite H.
  - unfold listening, bind, runtime.
    destruct (mem sock (listeners (rt w))); [|reflexivity].
    pose proof (handleDisconnect_opts None w) as H.
    destruct (handleDisconnect None w) as [[c w'] e].
    unfold world_of in *. simpl in *. now rewrite H.
  - now elim (Hev sock chunk).
  - unfold bind, runtime.
    destruct (mem sock (secureOnce (rt w))); [|reflexivity].
    unfold dropSecureOnce, bind, runtime, set_runtime. simpl.
    rewrite onSecureConnect_spec. cbv zeta.
    match goal with |- context [if ?b then _ else _] => destruct b end;
      [reflexivity|].
    match goal with |- context [handleDisconnect ?e ?w0] =>
      pose proof (handleDisconnect_opts e w0) as H;
      destruct (handleDisconnect e w0) as [[c w'] ef] end.
    unfold world_of in *. simpl in *. now rewrite H.
  - unfold bind, runtime.
    destruct (find_timer tm (timers (rt w))); [|reflexivity].
    unfold set_runtime. simpl. reflexivity.
Qed.

(** ** Keeping an invariant through the methods *)

Section Stability.

Variable I : World -> list Effect -> Prop.

Lemma stable_ret {A} (a : A) : stable I (ret a).
Proof. intros w tr H. unfold world_of, effects_of. simpl. now rewrite app_nil_r. Qed.

Lemma stable_throw {A} (e : JsError) : stable I (@throw A e).
Proof. intros w tr H. unfold world_of, effects_of. simpl. now rewrite app_nil_r. Qed.

Lemma stable_unfinished {A} : stable I (@unfinished A).
Proof. intros w tr H. unfold world_of, effects_of. simpl. now rewrite app_nil_r. Qed.

Lemma stable_self : stable I self.
Proof. intros w tr H. unfold world_of, effects_of. simpl. now rewrite app_nil_r. Qed.

Lemma stable_runtime : stable I runtime.
Proof. intros w tr H. unfold world_of, effects_of. simpl. now rewrite app_nil_r. Qed.

Lemma stable_bind {A B} (m : M A) (k : A -> M B) :
  stable I m -> (forall a, stable I (k a)) -> stable I (bind m k).
Proof.
  intros Hm Hk w tr H. specialize (Hm w tr H).
  unfold bind. unfold world_of, effects_of in *.
  destruct (m w) as [[[a| |] w1] e1]; simpl in *; try exact Hm.
  specialize (Hk a w1 _ Hm).
  destruct (k a w1) as [[c w2] e2]. simpl in *. now rewrite app_assoc.
Qed.

Lemma stable_toStr (v : JValue) : stable I (toStr v).
Proof. unfold toStr. destruct (ToString v); [apply stable_ret|apply stable_throw]. Qed.

Lemma stable_property (k : string) (frame : JValue) : stable I (property k frame).
Proof. destruct frame; first [apply stable_ret | apply stable_throw]. Qed.

Lemma stable_ext {A} (m m' : M A) :
  (forall w, m w = m' w) -> stable I m' -> stable I m.
Proof. intros E H w tr Hw. rewrite E. now apply H. Qed.

(** The cases of [handleFrame] that do something. *)
Hypothesis keeps_hello_ok : forall frame, stable I (case_hello_ok frame).
Hypothesis keeps_pair_ok : forall frame, stable I (case_pair_ok frame).
Hypothesis keeps_error : forall frame, stable I (case_error frame).
Hypothesis keeps_ping : forall frame, stable I (case_ping frame).
Hypothesis keeps_res : forall frame, stable I (case_res frame).
Hypothesis keeps_notify : forall n, stable I (emit (Notify n)).

Lemma stable_dispatch (type : jsstring) (frame : JValue) : stable I (dispatch type frame).
Proof.
  unfold dispatch.
  repeat match goal with
         | |- stable I (if ?b then _ else _) => destruct b
         end; first [apply stable_ret | auto].
Qed.

Lemma stable_handleFrame (frame : JValue) : stable I (handleFrame frame).
Proof.
  unfold handleFrame.
  apply stable_bind; [apply stable_property|intro ty].
  apply stable_bind; [apply stable_toStr|intro type].
  apply stable_dispatch.
Qed.

(** The buffer is no part of the invariant. *)
Hypothesis keeps_buffer : forall b, stable I (assign (set_buffer b)).

Lemma stable_flush_loop (turns : nat) : stable I (flush_loop turns).
Proof.
  induction turns as [|n IH]; simpl.
  - apply stable_unfinished.
  - apply stable_bind; [apply stable_self|intro c].
    destruct (indexOf 10%N (buffer c)) as [idx|]; [|apply stable_ret].
    apply stable_bind; [apply keeps_buffer|intros _].
    destruct (is_empty _); [exact IH|].
    destruct (JSON_parse _); [|exact IH|apply stable_unfinished].
    apply stable_bind; [apply stable_handleFrame|intros _; exact IH].
Qed.

Lemma stable_flush : stable I flush.
Proof.
  unfold flush. apply stable_bind; [apply stable_self|intro c].
  apply stable_flush_loop.
Qed.

(** What else an event can run. *)
Hypothesis keeps_connect : stable I connect.
Hypothesis keeps_close : stable I close.
Hypothesis keeps_send : forall frame, stable I (send frame).
Hypothesis keeps_disconnect : forall err, stable I (handleDisconnect err).
Hypothesis keeps_secure :
  forall sock cert, stable I (dropSecureOnce sock ;; onSecureConnect sock cert).
Hypothesis keeps_timeout :
  forall tm, stable I (step (TimerFired tm)).

Lemma stable_step_other (ev : Event) :
  (forall id method params ms, ev <> Request id method params ms) ->
  stable I (step ev).
Proof.
  intro Hev. destruct ev; try apply keeps_timeout; unfold step.
  - apply stable_bind; [apply keeps_connect|intros; apply stable_ret].
  - apply keeps_close.
  - now elim (Hev id method params timeoutMs).
  - apply keeps_send.
  - apply keeps_send.
  - unfold listening. apply stable_bind; [apply stable_runtime|intro r].
    destruct (mem sock (listeners r)); [|apply stable_ret].
    unfold sendHello. apply stable_bind; [apply stable_self|intro; apply keeps_send].
  - unfold listening. apply stable_bind; [apply stable_runtime|intro r].
    destruct (mem sock (listeners r)); [apply keeps_disconnect|apply stable_ret].
  - unfold listening. apply stable_bind; [apply stable_runtime|intro r].
    destruct (mem sock (listeners r)); [apply keeps_disconnect|apply stable_ret].
  - unfold listening. apply stable_bind; [apply stable_runtime|intro r].
    destruct (mem sock (listeners r)); [|apply stable_ret].
    apply stable_bind; [apply stable_self|intro c].
    apply stable_bind; [apply keeps_buffer|intros _; apply stable_flush].
  - apply stable_bind; [apply stable_runtime|intro r].
    destruct (mem sock (secureOnce r)); [apply keeps_secure|apply stable_ret].
Qed.

Hypothesis keeps_request : forall id method params ms, stable I (request id method params ms).

Lemma stable_step (ev : Event) : stable I (step ev).
Proof.
  destruct ev; try (apply stable_step_other; discriminate).
  unfold step. apply stable_bind; [apply keeps_request|intros; apply stable_ret].
Qed.

End Stability.

(** The invariant holds along every run whose events keep it, with the
    effects of the run. *)
Lemma stable_run_where (I : World -> list Effect -> Prop) (ok : Event -> Prop) :
  (forall ev, ok ev -> stable I (step ev)) ->
  forall (evs : list Event) (w : World) (tr : list Effect),
    Forall ok evs ->
    I w tr -> I (final (run evs w)) (tr ++ effects (run evs w)).
Proof.
  intros Hstep evs. induction evs as [|ev evs IH]; intros w tr Hok H; simpl.
  - unfold effects. simpl. now rewrite app_nil_r.
  - inversion Hok as [|? ? Hev Hrest]; subst.
    pose proof (Hstep ev Hev w tr H) as Hs.
    unfold world_of, effects_of in Hs.
    destruct (step ev w) as [[[[]| |] w1] e1]; simpl in *.
    + specialize (IH w1 _ Hrest Hs). unfold effects in *. simpl.
      now rewrite app_assoc.
    + unfold effects. simpl. now rewrite app_nil_r.
    + unfold effects. simpl. now rewrite app_nil_r.
Qed.

Lemma stable_run (I : World -> list Effect -> Prop) :
  (forall ev, stable I (step ev)) ->
  forall (evs : list Event) (w : World) (tr : list Effect),
    I w tr -> I (final (run evs w)) (tr ++ effects (run evs w)).
Proof.
  intros Hstep evs w tr H.
  apply (@stable_run_where I (fun _ => True)); auto.
  clear. induction evs; constructor; auto.
Qed.


(** ** Fresh handles *)

Lemma case_ping_spec (frame : JValue) (w : World) :
  case_ping frame w =
  match ToString (nullish (getField "id" frame) (JStr [])) with
  | None => (Throw (mkError TypeError_ (js "Cannot convert object to primitive value")), w, [])
  | Some id =>
      (Normal tt, w,
       match socket (this w) with
       | Some sock =>
           [SocketWrite sock
              (stringify (JObj (props [("type", Some (JStr (js "pong")));
                                       ("id", Some (JStr id))])) ++ LF)]
       | None => []
       end)
  end.
Proof.
  unfold case_ping, toStr.
  destruct (ToString _) as [id|]; [|reflexivity].
  mret. apply send_spec.
Qed.

Lemma sockets_handleDisconnect err w :
  sockets_of (world_of (handleDisconnect err w)) = sockets_of w.
Proof.
  rewrite handleDisconnect_spec. cbv zeta.
  destruct (negb _ && negb _); reflexivity.
Qed.

Lemma sockets_case_error frame w :
  sockets_of (world_of (case_error frame w)) = sockets_of w.
Proof.
  rewrite case_error_spec.
  destruct (ToString _); [|reflexivity].
  destruct (_ || _); [reflexivity|].
  destruct (ToString _); [|reflexivity].
  apply sockets_handleDisconnect.
Qed.

Lemma sockets_case_res frame w :
  sockets_of (world_of (case_res frame w)) = sockets_of w.
Proof.
  rewrite case_res_spec.
  destruct (Map_get_value _ _) as [[p [t|]]|]; reflexivity.
Qed.

Lemma sockets_case_pair_ok frame w :
  sockets_of (world_of (case_pair_ok frame w)) = sockets_of w.
Proof.
  rewrite case_pair_ok_spec.
  destruct (ToString _); [|reflexivity]. destruct (is_empty _); reflexivity.
Qed.

Lemma sockets_case_ping frame w :
  sockets_of (world_of (case_ping frame w)) = sockets_of w.
Proof. rewrite case_ping_spec. destruct (ToString _); reflexivity. Qed.

Lemma stable_of_sockets (P : nat * list nat * list nat -> Prop) {A} (m : M A) :
  (forall w, sockets_of (world_of (m w)) = sockets_of w) ->
  stable (fun w _ => P (sockets_of w)) m.
Proof. intros E w tr H. now rewrite E. Qed.

Lemma In_remove_nat (x n : nat) (l : list nat) : In x (remove_nat n l) -> In x l.
Proof. unfold remove_nat. intro H. now apply filter_In in H. Qed.

(** An invariant of the socket bookkeeping that survives what [connect],
    [request] and the [secureConnect] listener do to it survives every
    event. *)
Lemma step_keeps_sockets (P : nat * list nat * list nat -> Prop) :
  (forall h l s, P (h, l, s) -> P (S (S h), l ++ [S h], s)) ->
  (forall h l s, P (h, l, s) -> P (S (S h), l ++ [S h], s ++ [S h])) ->
  (forall h l s, P (h, l, s) -> P (S (S h), l, s)) ->
  (forall h l s x, P (h, l, s) -> P (h, l, remove_nat x s)) ->
  forall ev, stable (fun w _ => P (sockets_of w)) (step ev).
Proof.
  intros Hconn Hpin Hreq Hsec ev.
  apply stable_step.
  - intro frame. apply stable_of_sockets. intro w.
    rewrite case_hello_ok_spec. reflexivity.
  - intro frame. apply stable_of_sockets. intro w. apply sockets_case_pair_ok.
  - intro frame. apply stable_of_sockets. intro w. apply sockets_case_error.
  - intro frame. apply stable_of_sockets. intro w. apply sockets_case_ping.
  - intro frame. apply stable_of_sockets. intro w. apply sockets_case_res.
  - intro n. apply stable_of_sockets. intro w. reflexivity.
  - intro b. apply stable_of_sockets. intro w. reflexivity.
  - (* connect *)
    intros w tr H. rewrite connect_spec. cbv zeta.
    destruct (connected (this w)); [exact H|].
    unfold world_of, sockets_of in *. simpl in *.
    destruct (tls _ && _); [now apply Hpin|now apply Hconn].
  - apply stable_of_sockets. intro w. rewrite close_spec. reflexivity.
  - intro frame. apply stable_of_sockets. intro w. rewrite send_spec. reflexivity.
  - intro err. apply stable_of_sockets. intro w. apply sockets_handleDisconnect.
  - (* secureConnect *)
    intros sock cert w tr H.
    unfold bind, dropSecureOnce, runtime, set_runtime. simpl.
    rewrite onSecureConnect_spec. cbv zeta.
    assert (Hq : P (sockets_of
                      (mkWorld (this w)
                         (mkRuntime (handles (rt w)) (timers (rt w)) (listeners (rt w))
                                    (remove_nat sock (secureOnce (rt w))))))).
    { unfold sockets_of in *. simpl in *. now apply Hsec. }
    match goal with |- context [if ?b then _ else _] => destruct b end.
    + exact Hq.
    + match goal with |- context [handleDisconnect ?e ?w0] =>
        pose proof (sockets_handleDisconnect e w0) as E;
        destruct (handleDisconnect e w0) as [[c w'] ef] end.
      unfold world_of in *. simpl in *. now rewrite E.
  - (* timer *)
    intro tm. apply stable_of_sockets. intro w.
    unfold step, bind, runtime.
    destruct (find_timer tm (timers (rt w))); reflexivity.
  - (* request *)
    intros id method params ms w tr H. rewrite request_spec. cbv zeta.
    unfold world_of, sockets_of in *. simpl in *. now apply Hreq.
Qed.

Lemma step_keeps_handles_fresh (ev : Event) :
  stable (fun w _ => handles_fresh w) (step ev).
Proof.
  apply (@step_keeps_sockets
           (fun s => (forall x, In x (snd (fst s)) -> x < fst (fst s)) /\
                     (forall x, In x (snd s) -> x < fst (fst s)))); simpl.
  - intros h l s [Hl Hs]. split; intros x Hx.
    + apply in_app_iff in Hx as [Hx|[<-|[]]]; [apply Hl in Hx|]; lia.
    + apply Hs in Hx. lia.
  - intros h l s [Hl Hs]. split; intros x Hx.
    + apply in_app_iff in Hx as [Hx|[<-|[]]]; [apply Hl in Hx|]; lia.
    + apply in_app_iff in Hx as [Hx|[<-|[]]]; [apply Hs in Hx|]; lia.
  - intros h l s [Hl Hs]. split; intros x Hx; [apply Hl in Hx|apply Hs in Hx]; lia.
  - intros h l s x [Hl Hs]. split; [exact Hl|].
    intros y Hy. apply In_remove_nat in Hy. now apply Hs.
Qed.

Lemma reachable_handles_fresh (o : BridgeClientOptions) (evs : list Event) :
  handles_fresh (final (run evs (boot o))).
Proof.
  apply (@stable_run (fun w _ => handles_fresh w) step_keeps_handles_fresh evs
                    (boot o) []).
  split; intros s [].
Qed.

(** A socket below the counter that carries no [secureConnect] listener
    never gets one. *)
Lemma step_keeps_unpinned (sock : nat) (ev : Event) :
  stable (fun w _ => sock < handles (rt w) /\ ~ In sock (secureOnce (rt w))) (step ev).
Proof.
  apply (@step_keeps_sockets
           (fun s => sock < fst (fst s) /\ ~ In sock (snd s))); simpl.
  - intros h l s [Hl Hs]. split; [lia|exact Hs].
  - intros h l s [Hl Hs]. split; [lia|].
    intro Hx. apply in_app_iff in Hx as [Hx|[Hx|[]]]; [now apply Hs|lia].
  - intros h l s [Hl Hs]. split; [lia|exact Hs].
  - intros h l s x [Hl Hs]. split; [exact Hl|].
    intro Hy. apply In_remove_nat in Hy. now apply Hs.
Qed.

Lemma mem_false (n : nat) (l : list nat) : ~ In n l -> mem n l = false.
Proof.
  intro H. unfold mem. destruct (existsb (Nat.eqb n) l) eqn:E; [|reflexivity].
  apply existsb_exists in E as [x [Hx Hn]]. apply Nat.eqb_eq in Hn. now subst.
Qed.

(** ** The pairing token *)

Lemma token_same (t : option jsstring) {A} (m : M A) :
  (forall w, token (opts (this (world_of (m w)))) = token (opts (this w))) ->
  stable (token_kept t) m.
Proof.
  intros E w tr H Hno. rewrite existsb_app in Hno.
  apply orb_false_iff in Hno. rewrite E. now apply H.
Qed.

Lemma step_keeps_token_kept (t : option jsstring) (ev : Event) :
  stable (token_kept t) (step ev).
Proof.
  apply stable_step.
  - intro frame. apply token_same. intro w. rewrite case_hello_ok_spec. reflexivity.
  - intros frame w tr H Hno. rewrite case_pair_ok_spec in *.
    destruct (ToString _); [destruct (is_empty _)|];
      unfold world_of, effects_of in *; simpl in *.
    + rewrite app_nil_r in Hno. now apply H.
    + rewrite existsb_app in Hno. simpl in Hno. rewrite orb_true_r in Hno. discriminate.
    + rewrite app_nil_r in Hno. now apply H.
  - intros frame w tr H Hno. rewrite case_error_spec in *.
    destruct (ToString _); [destruct (_ || _)|];
      unfold world_of, effects_of in *; simpl in *.
    + rewrite existsb_app in Hno. simpl in Hno. rewrite orb_true_r in Hno. discriminate.
    + destruct (ToString _) as [msg|].
      * rewrite existsb_app in Hno. apply orb_false_iff in Hno.
        pose proof (handleDisconnect_opts (Some (newError msg)) w) as E.
        unfold world_of in E. rewrite E. now apply H.
      * simpl in *. rewrite app_nil_r in Hno. now apply H.
    + rewrite app_nil_r in Hno. now apply H.
  - intro frame. apply token_same. intro w. rewrite case_ping_spec.
    destruct (ToString _); reflexivity.
  - intro frame. apply token_same. intro w. rewrite case_res_spec.
    destruct (Map_get_value _ _) as [[p [tm|]]|]; reflexivity.
  - intros n w tr H Hno. unfold world_of, effects_of in *. simpl in *.
    rewrite existsb_app in Hno. apply orb_false_iff in Hno. now apply H.
  - intro b. apply token_same. intro w. reflexivity.
  - apply token_same. intro w. rewrite connect_spec. cbv zeta.
    destruct (connected (this w)); reflexivity.
  - apply token_same. intro w. rewrite close_spec. reflexivity.
  - intro frame. apply token_same. intro w. rewrite send_spec. reflexivity.
  - intro err. apply token_same. intro w. now rewrite handleDisconnect_opts.
  - intros sock cert. apply token_same. intro w.
    unfold bind, dropSecureOnce, runtime, set_runtime. simpl.
    rewrite onSecureConnect_spec. cbv zeta.
    match goal with |- context [if ?b then _ else _] => destruct b end;
      [reflexivity|].
    match goal with |- context [handleDisconnect ?e ?w0] =>
      pose proof (handleDisconnect_opts e w0) as H;
      destruct (handleDisconnect e w0) as [[c w'] ef] end.
    unfold world_of in *. simpl in *. now rewrite H.
  - intro tm. apply token_same. intro w. apply step_keeps_token. discriminate.
  - intros id method params ms. apply token_same. intro w.
    rewrite request_spec. reflexivity.
Qed.

(** C5 as worded does not hold: a client that has handled an [error] frame
    with another code has given up its socket; a NOT_PAIRED frame that
    arrives after it on the same socket discards the token and fires
    [onAuthReset], but no [pair-request] frame is written. *)
Lemma auth_error_without_pair_request : ~ auth_error_sends_pair_request.
Proof.
  intro H.
  destruct (H examplePairedOptions
              [Connect;
               SockData 1 (jsq "{'type':'error','code':'BUSY','message':'later'}" ++ LF)]
              1 (js "NOT_PAIRED"))
    as [_ [_ [s [text Hin]]]].
  - vm_compute. reflexivity.
  - vm_compute. reflexivity.
  - left. reflexivity.
  - vm_compute in Hin. destruct Hin as [Hin|[]]. discriminate Hin.
Qed.

(** C5, amended: an [error] frame with code NOT_PAIRED or UNAUTHORIZED leaves
    the client without stored token (nothing else of its state changes) and
    fires [onAuthReset]; when the client holds a socket a frame of type
    [pair-request], with the identity fields of the [hello] frame and no
    token, is written to it, and when it holds none nothing is written.  A
    [pair-ok] frame with a non-blank token leaves that token, trimmed, as
    the stored one and fires [onPairToken] with it.  From there on, through
    any events, as long as the client has notified neither [onAuthReset] nor
    [onPairToken] again, this token is the stored one, and the frame written
    on a socket's [connect] event is of type [hello] and carries it.  No
    event but received data changes the stored token. *)
Theorem pairing_fallback (w : World) (frame : JValue) (code : jsstring) :
  getField "type" frame = Some (JStr (js "error")) ->
  getField "code" frame = Some (JStr code) ->
  code = js "NOT_PAIRED" \/ code = js "UNAUTHORIZED" ->
  let o := opts (this w) in
  let out := handleFrame frame w in
  let request := pairRequestFrame (opts (this (world_of out))) in
  completion_of out = Normal tt
  /\ token (opts (this (world_of out))) = None
  /\ world_of out = mkWorld (set_opts (set_token None o) (this w)) (rt w)
  /\ effects_of out
     = Notify onAuthReset ::
       match socket (this w) with
       | Some sock => [SocketWrite sock (stringify request ++ LF)]
       | None => []
       end
  /\ getField "type" request = Some (JStr (js "pair-request"))
  /\ getField "token" request = None
  /\ Forall (fun k => getField k request = getField k (helloFrame o)) identityFields
  /\ (forall (ok : JValue) (tok : jsstring) (w2 : World),
         getField "type" ok = Some (JStr (js "pair-ok")) ->
         getField "token" ok = Some (JStr tok) ->
         trim tok <> [] ->
         let out2 := handleFrame ok w2 in
         completion_of out2 = Normal tt
         /\ token (opts (this (world_of out2))) = Some (trim tok)
         /\ world_of out2
            = mkWorld (set_opts (set_token (Some (trim tok)) (opts (this w2))) (this w2))
                      (rt w2)
         /\ effects_of out2 = [Notify (onPairToken (trim tok))]
         /\ (forall (evs : list Event),
                let r := run evs (world_of out2) in
                existsb announces_token (effects r) = false ->
                token (opts (this (final r))) = Some (trim tok)
                /\ getField "type" (helloFrame (opts (this (final r))))
                   = Some (JStr (js "hello"))
                /\ getField "token" (helloFrame (opts (this (final r))))
                   = Some (JStr (trim tok))
                /\ (forall (s s3 : nat),
                       socket (this (final r)) = Some s3 ->
                       mem s (listeners (rt (final r))) = true ->
                       step (SockConnect s) (final r)
                       = (Normal tt, final r,
                          [SocketWrite s3
                             (stringify (helloFrame (opts (this (final r)))) ++ LF)]))))
  /\ (forall (ev : Event) (w4 : World),
         (forall s chunk, ev <> SockData s chunk) ->
         token (opts (this (world_of (step ev w4)))) = token (opts (this w4))).
Proof.
  intros Hty Hcode Hc o out request.
  assert (Hout : out = (Normal tt,
                        mkWorld (set_opts (set_token None o) (this w)) (rt w),
                        Notify onAuthReset ::
                        match socket (this w) with
                        | Some sock => [SocketWrite sock (stringify (pairRequestFrame o) ++ LF)]
                        | None => []
                        end)).
  { unfold out.
    rewrite (handleFrame_typed _ _ Hty), dispatch_error, case_error_spec, Hcode.
    simpl nullish. simpl ToString. cbv iota.
    replace (jseqb code (js "NOT_PAIRED") || jseqb code (js "UNAUTHORIZED")) with true
      by (destruct Hc; subst code; reflexivity).
    reflexivity. }
  assert (Hreq : request = pairRequestFrame o).
  { unfold request. rewrite Hout. unfold world_of. simpl.
    apply pairRequestFrame_set_token. }
  rewrite Hreq, Hout. unfold completion_of, world_of, effects_of. simpl fst. simpl snd.
  refine (conj eq_refl (conj eq_refl (conj eq_refl (conj eq_refl (conj _ (conj _ (conj _ (conj _ _)))))))).
  - rewrite getField_pairRequest. reflexivity.
  - apply pairRequest_identity.
  - apply pairRequest_identity.
  - intros ok tok w2 Hok Htok Hne.
    assert (Hout2 : handleFrame ok w2 = (Normal tt,
                            mkWorld (set_opts (set_token (Some (trim tok)) (opts (this w2)))
                                              (this w2)) (rt w2),
                            [Notify (onPairToken (trim tok))])).
    { rewrite (handleFrame_typed _ _ Hok), dispatch_pair_ok, case_pair_ok_spec, Htok.
      simpl nullish. simpl ToString. cbv iota.
      destruct (trim tok); [now elim Hne|reflexivity]. }
    rewrite Hout2. simpl fst. simpl snd.
    refine (conj eq_refl (conj eq_refl (conj eq_refl (conj eq_refl _)))).
    intros evs Hno.
    match type of Hno with context [effects ?x] => set (r := x) in * end.
    assert (Ht : token (opts (this (final r))) = Some (trim tok)).
    { apply (@stable_run_where (token_kept (Some (trim tok))) (fun _ => True)
               (fun ev _ => @step_keeps_token_kept (Some (trim tok)) ev)
               evs _ []).
      - clear. induction evs; constructor; auto.
      - intros _. reflexivity.
      - exact Hno. }
    split; [exact Ht|]. split; [|split].
    + rewrite getField_hello. reflexivity.
    + rewrite getField_hello. simpl. now rewrite Ht.
    + intros s s3 Hs Hl.
      unfold step, listening, bind, runtime. rewrite Hl, sendHello_spec, Hs.
      reflexivity.
  - intros ev w4. apply step_keeps_token.
Qed.

(** A client that holds the token "tok-0" and a socket: NOT_PAIRED discards
    the token and the pair-request goes out on the socket; the [pair-ok]
    frame stores "tok-1"; after [close] and a new [connect], the [hello]
    frame on the new socket carries "tok-1". *)
Lemma pairing_fallback_witness :
  let w := world_of (step Connect (boot examplePairedOptions)) in
  let notPaired := frameOf [("type", JStr (js "error")); ("code", JStr (js "NOT_PAIRED"))] in
  let pairOk := frameOf [("type", JStr (js "pair-ok")); ("token", JStr (js " tok-1 "))] in
  let w1 := world_of (handleFrame notPaired w) in
  let w2 := world_of (handleFrame pairOk w1) in
  let w3 := final (run [Close; Connect] w2) in
  token (opts (this w)) = Some (js "tok-0")
  /\ token (opts (this w1)) = None
  /\ effects_of (handleFrame notPaired w)
     = [Notify onAuthReset;
        SocketWrite 1 (stringify (pairRequestFrame (opts (this w1))) ++ LF)]
  /\ token (opts (this w2)) = Some (js "tok-1")
  /\ effects_of (handleFrame pairOk w1) = [Notify (onPairToken (js "tok-1"))]
  /\ getField "token" (helloFrame (opts (this w3))) = Some (JStr (js "tok-1"))
  /\ step (SockConnect 3) w3
     = (Normal tt, w3, [SocketWrite 3 (stringify (helloFrame (opts (this w3))) ++ LF)]).
Proof.
  intros w notPaired pairOk w1 w2 w3.
  destruct (@pairing_fallback w notPaired (js "NOT_PAIRED") eq_refl eq_refl
              (or_introl eq_refl))
    as [_ [Ht [_ [He [_ [_ [_ [Hok _]]]]]]]].
  assert (Hne : trim (js " tok-1 ") <> []) by (vm_compute; discriminate).
  destruct (Hok pairOk (js " tok-1 ") w1 eq_refl eq_refl Hne)
    as [_ [Ht2 [_ [He2 Hrun]]]].
  destruct (Hrun [Close; Connect] eq_refl) as [_ [_ [Htok Hstep]]].
  split; [reflexivity|].
  split; [exact Ht|].
  split; [exact He|].
  split; [exact Ht2|].
  split; [exact He2|].
  split; [exact Htok|].
  exact (Hstep 3 3 eq_refl eq_refl).
Defined.

(** ** TLS *)

(** C3: on a TLS connection [connect] opens the stream with
    [rejectUnauthorized: false]; when no fingerprint is configured (absent or
    empty) it puts no [secureConnect] listener on the socket, and from then
    on, whatever happens, a [secureConnect] event on that socket with any
    certificate is ignored by the client: nothing is checked. *)
Theorem tls_without_pin_verifies_nothing
        (o : BridgeClientOptions) (evs : list Event) :
  let w := final (run evs (boot o)) in
  tls (opts (this w)) = true ->
  connected (this w) = false ->
  let sock := S (handles (rt w)) in
  effects_of (connect w)
  = [TlsConnect sock (host (opts (this w))) (port (opts (this w))) false;
     SetNoDelay sock true]
  /\ socket (this (world_of (connect w))) = Some sock
  /\ (tlsFingerprint (opts (this w)) = None \/ tlsFingerprint (opts (this w)) = Some [] ->
      forall (later : list Event) (cert : option PeerCertificate),
        let w' := final (run later (world_of (connect w))) in
        step (SockSecureConnect sock cert) w' = (Normal tt, w', [])).
Proof.
  intros w Htls Hc sock.
  assert (Hconn : connect w = connect w) by reflexivity.
  rewrite connect_spec in Hconn at 2. cbv zeta in Hconn. rewrite Hc, Htls in Hconn.
  split; [|split].
  - rewrite Hconn. reflexivity.
  - rewrite Hconn. reflexivity.
  - intros Hpin later cert w'.
    assert (Hinv : sock < handles (rt w') /\ ~ In sock (secureOnce (rt w'))).
    { apply (@stable_run _ (@step_keeps_unpinned sock) later (world_of (connect w)) []).
      rewrite Hconn. unfold world_of. simpl.
      split; [unfold sock; lia|].
      replace (match tlsFingerprint (opts (this w)) with
               | Some f => negb (is_empty f) | None => false end) with false
        by (destruct Hpin as [-> | ->]; reflexivity).
      intro Hin.
      destruct (reachable_handles_fresh o evs) as [_ Hs].
      apply Hs in Hin. fold w in Hin. unfold sock in Hin. lia. }
    unfold step, bind, runtime. rewrite (mem_false _ _ (proj2 Hinv)). reflexivity.
Qed.

(** TLS without a pin: the connection asks for no verification, and the
    handshake with any certificate is let through without a check. *)
Lemma tls_without_pin_verifies_nothing_witness :
  effects_of (connect (boot exampleTlsNoPin))
  = [TlsConnect 1 (js "gateway.local") 18790 false; SetNoDelay 1 true]
  /\ step (SockSecureConnect 1 (Some (mkCert (Some (js "00:11")))))
          (world_of (connect (boot exampleTlsNoPin)))
     = (Normal tt, world_of (connect (boot exampleTlsNoPin)), []).
Proof.
  destruct (@tls_without_pin_verifies_nothing exampleTlsNoPin [] eq_refl eq_refl)
    as [H1 [_ H3]].
  split; [exact H1|].
  exact (H3 (or_introl eq_refl) [] (Some (mkCert (Some (js "00:11"))))).
Defined.

Lemma handleDisconnect_effects err w :
  effects_of (handleDisconnect err w) = disconnectEffects err (this w).
Proof.
  rewrite handleDisconnect_spec. cbv zeta. unfold disconnectEffects.
  destruct (negb _ && negb _); unfold effects_of; simpl;
    [now rewrite app_nil_r|reflexivity].
Qed.

Lemma handleDisconnect_normal err w :
  completion_of (handleDisconnect err w) = Normal tt.
Proof.
  rewrite handleDisconnect_spec. cbv zeta. destruct (negb _ && negb _); reflexivity.
Qed.

Lemma handleDisconnect_state err w :
  let c' := this (world_of (handleDisconnect err w)) in
  connected c' = false /\ socket c' = None /\
  (connected (this w) = false -> helloReject c' = None).
Proof.
  rewrite handleDisconnect_spec. cbv zeta.
  destruct w as [[o so bu pe co hr hj] r]. unfold forgetHello, helloRejected. simpl.
  destruct co, so, hj; simpl;
    (split; [reflexivity|split; [reflexivity|
       intro H; try discriminate H; reflexivity]]).
Qed.

Lemma rejectEffects_opens e m :
  forallb (fun x => negb (opens_socket x)) (rejectEffects e m) = true.
Proof.
  induction m as [|[k [p [t|]]] m IH]; simpl; auto.
Qed.

Lemma disconnectEffects_opens err c :
  forallb (fun x => negb (opens_socket x)) (disconnectEffects err c) = true.
Proof.
  unfold disconnectEffects, helloRejectEffects.
  rewrite forallb_app.
  destruct (negb (connected c)), (helloReject c), (socket c); simpl;
    try reflexivity; rewrite forallb_app, rejectEffects_opens; reflexivity.
Qed.

Lemma normalizeFingerprint_lower_hex (s : jsstring) :
  forallb lower_hex (normalizeFingerprint s) = true.
Proof.
  unfold normalizeFingerprint, toLowerCase.
  induction s as [|c s IH]; simpl; [reflexivity|].
  destruct (is_hex c) eqn:Eh; [|exact IH].
  simpl. rewrite IH, andb_true_r.
  unfold is_hex in Eh. unfold lower_hex, is_digit.
  destruct (N.leb_spec 65 c), (N.leb_spec c 90), (N.leb_spec 97 c), (N.leb_spec c 102),
    (N.leb_spec c 70), (N.leb_spec 48 c), (N.leb_spec c 57); simpl in *;
    try discriminate Eh;
    repeat match goal with
           | |- context [(?a <=? ?b)%N] => destruct (N.leb_spec a b)
           end; simpl; try reflexivity; lia.
Qed.

Lemma mem_last (x : nat) (l : list nat) : mem x (l ++ [x]) = true.
Proof.
  unfold mem. rewrite existsb_app. simpl. rewrite Nat.eqb_refl.
  now rewrite orb_true_r.
Qed.

Lemma step_secure_spec (sock : nat) (cert : option PeerCertificate) (w : World) :
  step (SockSecureConnect sock cert) w =
  if mem sock (secureOnce (rt w))
  then onSecureConnect sock cert
         (mkWorld (this w)
            (mkRuntime (handles (rt w)) (timers (rt w)) (listeners (rt w))
                       (remove_nat sock (secureOnce (rt w)))))
  else (Normal tt, w, []).
Proof.
  unfold step, bind at 1, runtime.
  destruct (mem sock (secureOnce (rt w))); [|reflexivity].
  unfold bind, dropSecureOnce, runtime, set_runtime. simpl.
  destruct (onSecureConnect _ _ _) as [[c w'] e]. reflexivity.
Qed.

(** C2: on a socket that carries the [secureConnect] listener ([connect] put
    it there: TLS with a non-empty pin), the [fingerprint256] of the peer's
    certificate and the pin are both normalized (only hexadecimal digits
    kept, lower case) and compared.  When there is no certificate, or it has
    no [fingerprint256], or the normalized values differ, or the normalized
    fingerprint is empty, the client disconnects with the error "bridge tls
    fingerprint mismatch" and destroys the socket with it: a [connect] still
    waiting is rejected with that error, the client ends not connected and
    without socket, and no new socket is opened.  When the normalized values
    agree and are not empty nothing happens. *)
Theorem tls_pin_mismatch_is_fatal
        (w : World) (sock : nat) (cert : option PeerCertificate) (pin : jsstring) :
  mem sock (secureOnce (rt w)) = true ->
  tlsFingerprint (opts (this w)) = Some pin ->
  let presented := match cert with Some raw => fingerprint256 raw | None => None end in
  let err := newError (js "bridge tls fingerprint mismatch") in
  let out := step (SockSecureConnect sock cert) w in
  (presented = None
   \/ (exists v, presented = Some v
                 /\ (normalizeFingerprint v <> normalizeFingerprint pin
                     \/ normalizeFingerprint v = [])) ->
     completion_of out = Normal tt
     /\ effects_of out
        = disconnectEffects (Some err) (this w) ++ [SocketDestroy sock (Some err)]
     /\ connected (this (world_of out)) = false
     /\ socket (this (world_of out)) = None
     /\ (forall h, connected (this w) = false -> helloReject (this w) = Some h ->
                   In (HelloReject h err) (effects_of out)
                   /\ helloReject (this (world_of out)) = None)
     /\ forallb (fun e => negb (opens_socket e)) (effects_of out) = true)
  /\ (forall v, presented = Some v ->
                normalizeFingerprint v <> [] ->
                normalizeFingerprint v = normalizeFingerprint pin ->
                completion_of out = Normal tt /\ effects_of out = []
                /\ this (world_of out) = this w)
  /\ (forall s, normalizeFingerprint s = toLowerCase (filter is_hex s)
                /\ forallb lower_hex (normalizeFingerprint s) = true)
  /\ (forall w0, tls (opts (this w0)) = true -> tlsFingerprint (opts (this w0)) = Some pin ->
                 pin <> [] -> connected (this w0) = false ->
                 let w1 := world_of (connect w0) in
                 mem (S (handles (rt w0))) (secureOnce (rt w1)) = true
                 /\ helloReject (this w1) = Some (handles (rt w0))
                 /\ connected (this w1) = false
                 /\ tlsFingerprint (opts (this w1)) = Some pin).
Proof.
  intros Hmem Hpin presented err out.
  assert (Hout : out = step (SockSecureConnect sock cert) w) by reflexivity.
  rewrite step_secure_spec, Hmem in Hout.
  rewrite onSecureConnect_spec in Hout. cbv zeta in Hout. simpl this in Hout.
  rewrite Hpin in Hout.
  assert (Hfp : match cert with Some raw => extractFingerprint raw | None => None end
                = match presented with
                  | Some v => if is_empty v then None else Some (normalizeFingerprint v)
                  | None => None
                  end).
  { unfold presented. destruct cert as [raw|]; reflexivity. }
  rewrite Hfp in Hout. clear Hfp.
  split; [|split; [|split]].
  - intro Hbad.
    assert (Hcheck : match
                       match presented with
                       | Some v => if is_empty v then None else Some (normalizeFingerprint v)
                       | None => None
                       end
                     with
                     | Some f => negb (is_empty f) && jseqb f (normalizeFingerprint pin)
                     | None => false
                     end = false).
    { destruct Hbad as [Hnone|[v [Hv Hdiff]]]; [now rewrite Hnone|].
      rewrite Hv. destruct (is_empty v); [reflexivity|].
      destruct Hdiff as [Hdiff|Hempty].
      - rewrite (jseqb_neq Hdiff). apply andb_false_r.
      - rewrite Hempty. reflexivity. }
    rewrite Hcheck in Hout.
    match type of Hout with context [handleDisconnect ?e ?w0] =>
      pose proof (handleDisconnect_effects e w0) as He;
      pose proof (handleDisconnect_normal e w0) as Hn;
      pose proof (handleDisconnect_state e w0) as Hs;
      destruct (handleDisconnect e w0) as [[c w'] ef] end.
    rewrite Hout. unfold completion_of, world_of, effects_of in *.
    simpl in *. destruct Hs as [Hs1 [Hs2 Hs3]]. subst ef c.
    refine (conj eq_refl (conj eq_refl (conj Hs1 (conj Hs2 (conj _ _))))).
    + intros h Hc Hh. split; [|auto]. apply in_app_iff. left.
      unfold disconnectEffects, helloRejectEffects. rewrite Hc, Hh. simpl. now left.
    + rewrite forallb_app, disconnectEffects_opens. reflexivity.
  - intros v Hv Hne Heq.
    rewrite Hv in Hout.
    assert (Hv0 : is_empty v = false).
    { destruct v; [now elim Hne|reflexivity]. }
    rewrite Hv0, <- Heq, jseqb_refl in Hout.
    destruct (normalizeFingerprint v); [now elim Hne|]. simpl in Hout. rewrite Hout.
    repeat split.
  - intro s. split; [reflexivity|apply normalizeFingerprint_lower_hex].
  - intros w0 Ht Hp Hne Hc w1. unfold w1. rewrite connect_spec. cbv zeta.
    rewrite Hc, Ht, Hp. unfold world_of. simpl.
    destruct pin; [now elim Hne|]. simpl. repeat split; try assumption.
    apply mem_last.
Qed.

(** The pin is "AB:CD:01".  A peer whose fingerprint differs from it in the
    last byte: the attempt is rejected and the socket destroyed with the
    mismatch error.  A peer whose fingerprint is the pin written in another
    way: nothing happens. *)
Lemma tls_pin_mismatch_is_fatal_witness :
  let w := world_of (connect (boot exampleTlsOptions)) in
  let err := newError (js "bridge tls fingerprint mismatch") in
  effects_of (step (SockSecureConnect 1 (Some (mkCert (Some (js "AB:CD:02"))))) w)
  = [HelloReject 0 err; Notify (onDisconnected (Some err)); SocketDestroy 1 (Some err)]
  /\ effects_of (step (SockSecureConnect 1 (Some (mkCert (Some (js "ab cd 01"))))) w) = [].
Proof.
  intros w err. split.
  - destruct (@tls_pin_mismatch_is_fatal
                w 1 (Some (mkCert (Some (js "AB:CD:02")))) (js "AB:CD:01")
                eq_refl eq_refl) as [H _].
    destruct H as [_ [H _]].
    + right. exists (js "AB:CD:02"). split; [reflexivity|]. left. vm_compute. discriminate.
    + exact H.
  - destruct (@tls_pin_mismatch_is_fatal
                w 1 (Some (mkCert (Some (js "ab cd 01")))) (js "AB:CD:01")
                eq_refl eq_refl) as [_ [H _]].
    destruct (H (js "ab cd 01") eq_refl) as [_ [He _]].
    + vm_compute. discriminate.
    + reflexivity.
    + exact He.
Defined.

(** ** Disconnection *)

(** C8 as worded does not hold: after a socket error has reset the client,
    a call registered by [request] stays in the table when the [close] event
    of the same socket arrives; [handleDisconnect] returns at its guard. *)
Lemma disconnect_can_leave_calls : ~ disconnect_rejects_every_call.
Proof.
  intro H.
  destruct (H exampleOptions
              [Connect; SockError 1 (newError (js "read ECONNRESET"));
               Request (js "id-1") (js "skills.bins") None 5000%N]
              1 (SockClose 1) eq_refl (or_introl eq_refl)) as [_ [Htable _]].
  vm_compute in Htable. discriminate Htable.
Qed.

Lemma step_listening_spec (sock : nat) (m : M unit) (w : World) :
  listening sock m w = if mem sock (listeners (rt w)) then m w else (Normal tt, w, []).
Proof.
  unfold listening, bind, runtime.
  destruct (mem sock (listeners (rt w))); [|reflexivity].
  destruct (m w) as [[c w'] e]. reflexivity.
Qed.

Lemma rejectEffects_In (e : JsError) (m : RpcMap) (id : jsstring) (pending : PendingRpc) :
  In (id, pending) m -> In (RpcReject (promise pending) e) (rejectEffects e m).
Proof.
  induction m as [|[k p] m IH]; simpl; [intros []|intros [H|H]].
  - injection H as -> ->. apply in_app_iff. left.
    destruct (timer pending); simpl; auto.
  - apply in_app_iff. right. auto.
Qed.

(** C8, amended: an [error] or [close] event of a socket the client listens
    on, arriving while the client is connected or holds a socket, rejects
    every entry of the table (with the event's error, or "bridge connection
    closed" when the event has none) after clearing its timer, empties the
    table, leaves the client not connected and without socket, and fires
    [onDisconnected] last.  When the client is not connected and holds no
    socket, the event leaves the table as it is and fires nothing but the
    rejection of a [connect] still waiting. *)
Theorem disconnect_rejects_pending
        (w : World) (sock : nat) (ev : Event) (err : option JsError) :
  mem sock (listeners (rt w)) = true ->
  (ev = SockClose sock /\ err = None) \/ (exists e, ev = SockError sock e /\ err = Some e) ->
  let c := this w in
  let out := step ev w in
  let reason := or_else err "bridge connection closed" in
  completion_of out = Normal tt
  /\ (connected c = true \/ socket c <> None ->
      effects_of out
      = helloRejectEffects err c ++ rejectEffects reason (pendingRpc c)
        ++ [Notify (onDisconnected err)]
      /\ (forall id pending, In (id, pending) (pendingRpc c) ->
                             In (RpcReject (promise pending) reason) (effects_of out))
      /\ pendingRpc (this (world_of out)) = []
      /\ timers (rt (world_of out)) = clearTimers (pendingRpc c) (timers (rt w))
      /\ connected (this (world_of out)) = false
      /\ socket (this (world_of out)) = None)
  /\ (connected c = false -> socket c = None ->
      effects_of out = helloRejectEffects err c
      /\ pendingRpc (this (world_of out)) = pendingRpc c
      /\ timers (rt (world_of out)) = timers (rt w)).
Proof.
  intros Hl Hev c out reason.
  assert (Hout : out = handleDisconnect err w).
  { unfold out. destruct Hev as [[-> ->]|[e [-> ->]]];
      unfold step; now rewrite step_listening_spec, Hl. }
  rewrite Hout, handleDisconnect_spec. cbv zeta. fold c.
  split; [destruct (negb _ && negb _); reflexivity|]. split.
  - intro Hlive.
    assert (Hg : negb (connected c) && negb (is_some (socket c)) = false).
    { destruct Hlive as [->|Hs]; [reflexivity|].
      destruct (socket c); [apply andb_false_r|now elim Hs]. }
    rewrite Hg. unfold effects_of, world_of. simpl.
    repeat split.
    intros id pending Hin. apply in_app_iff. right. apply in_app_iff. left.
    now apply rejectEffects_In with (id := id).
  - intros Hc Hs. rewrite Hc, Hs. unfold effects_of, world_of. simpl.
    repeat split. unfold forgetHello. destruct (helloRejected c); reflexivity.
Qed.

(** One call in flight when the socket closes: its timer is cleared and its
    promise rejected. *)
Lemma disconnect_rejects_pending_witness :
  let w := final (run [Connect; Request (js "id-1") (js "skills.bins") None 5000%N]
                      (boot exampleOptions)) in
  effects_of (step (SockClose 1) w)
  = [HelloReject 0 (newError (js "bridge connection failed"));
     ClearTimeout 3; RpcReject 2 (newError (js "bridge connection closed"));
     Notify (onDisconnected None)].
Proof.
  intro w.
  destruct (@disconnect_rejects_pending w 1 (SockClose 1) None eq_refl
              (or_introl (conj eq_refl eq_refl))) as [_ [H _]].
  destruct H as [H _].
  - right. discriminate.
  - exact H.
Defined.

(** ** Readiness and [request] *)

(** C1 as worded does not hold: after [connect] alone, with nothing received
    from the gateway, [request] writes a [req] frame to the socket although no
    [hello-ok] has been handled. *)
Lemma req_before_hello_ok : ~ req_only_after_hello_ok.
Proof.
  intro H.
  destruct (H exampleOptions [Connect] (js "id-1") (js "skills.bins") None 5000%N 1)
    as [hello Hin].
  - vm_compute. right. left. reflexivity.
  - vm_compute in Hin. destruct Hin as [Hin|[Hin|[]]]; discriminate Hin.
Qed.

(** C1, amended: [request] writes its [req] frame exactly when the client
    holds a socket, to that socket; whether [hello-ok] has been received
    ([connected]) plays no part.  The socket is held from [connect] on, and
    given up by [close] and by a disconnect. *)
Theorem req_written_iff_socket
        (id method : jsstring) (params : option JValue) (ms : N) (w : World) :
  effects_of (request id method params ms w)
  = SetTimeout (S (handles (rt w))) ms ::
    match socket (this w) with
    | Some sock => [SocketWrite sock (stringify (reqFrame id method params) ++ LF)]
    | None => []
    end
  /\ getField "type" (reqFrame id method params) = Some (JStr (js "req"))
  /\ (forall b,
         effects_of (request id method params ms (mkWorld (set_connected b (this w)) (rt w)))
         = effects_of (request id method params ms w))
  /\ (forall o, socket (this (boot o)) = None)
  /\ (connected (this w) = false ->
      socket (this (world_of (connect w))) = Some (S (handles (rt w))))
  /\ socket (this (world_of (close w))) = None
  /\ (forall err, socket (this (world_of (handleDisconnect err w))) = None).
Proof.
  repeat split.
  - rewrite request_spec. reflexivity.
  - intro b. rewrite !request_spec. reflexivity.
  - intro Hc. rewrite connect_spec. cbv zeta. rewrite Hc. reflexivity.
  - rewrite close_spec. reflexivity.
  - intro err. apply handleDisconnect_state.
Qed.

(** The amended form at work: straight after [connect], before any byte has
    been received, [request] already writes its frame to the new socket. *)
Lemma req_written_iff_socket_witness :
  let w := world_of (connect (boot exampleOptions)) in
  connected (this w) = false
  /\ effects_of (request (js "id-1") (js "skills.bins") None 5000%N w)
     = [SetTimeout 3 5000%N;
        SocketWrite 1 (stringify (reqFrame (js "id-1") (js "skills.bins") None) ++ LF)]
  /\ socket (this w) = Some 1.
Proof.
  intro w.
  destruct (req_written_iff_socket (js "id-1") (js "skills.bins") None 5000%N w)
    as [H _].
  destruct (req_written_iff_socket (js "id-1") (js "skills.bins") None 5000%N
              (boot exampleOptions)) as [_ [_ [_ [_ [Hc _]]]]].
  split; [reflexivity|]. split; [exact H|]. exact (Hc eq_refl).
Defined.

(** ** The RPC correlator *)

Lemma NoDup_map_filter {A B} (f : A -> B) (g : A -> bool) (l : list A) :
  NoDup (map f l) -> NoDup (map f (filter g l)).
Proof.
  induction l as [|x l IH]; simpl; intro H; [constructor|].
  inversion H as [|? ? Hx Hl]; subst.
  destruct (g x); simpl; [|auto].
  constructor; [|auto].
  intro Hin. apply Hx. apply in_map_iff in Hin as [y [Hy Hin]].
  apply filter_In in Hin as [Hin _]. apply in_map_iff. eauto.
Qed.

Lemma NoDup_map_inj {A B} (f : A -> B) (l : list A) (x y : A) :
  NoDup (map f l) -> In x l -> In y l -> f x = f y -> x = y.
Proof.
  induction l as [|z l IH]; simpl; intros H Hx Hy E; [contradiction|].
  inversion H as [|? ? Hz Hl]; subst.
  destruct Hx as [->|Hx], Hy as [->|Hy]; auto.
  - elim Hz. rewrite E. now apply in_map.
  - elim Hz. rewrite <- E. now apply in_map.
Qed.

Lemma NoDup_snoc {A} (l : list A) (x : A) : NoDup l -> ~ In x l -> NoDup (l ++ [x]).
Proof.
  induction l as [|y l IH]; simpl; intros H Hx.
  - constructor; [intros []|constructor].
  - inversion H as [|? ? Hy Hl]; subst. constructor.
    + intro Hin. apply in_app_iff in Hin as [Hin|[<-|[]]]; auto.
    + apply IH; auto.
Qed.

Lemma In_drop_timer t x ts : In x (drop_timer t ts) <-> In x ts /\ fst x <> t.
Proof.
  unfold drop_timer. rewrite filter_In. split; intros [H1 H2]; split; auto.
  - apply negb_true_iff in H2. now apply Nat.eqb_neq in H2.
  - apply negb_true_iff. now apply Nat.eqb_neq.
Qed.

Lemma In_Map_delete k x (m : RpcMap) : In x (Map_delete k m) <-> In x m /\ fst x <> k.
Proof.
  unfold Map_delete. rewrite filter_In. split; intros [H1 H2]; split; auto.
  - apply negb_true_iff in H2. intro E. rewrite E, jseqb_refl in H2. discriminate.
  - apply negb_true_iff. now apply jseqb_neq.
Qed.

Lemma find_timer_In t cb ts : find_timer t ts = Some cb -> In (t, cb) ts.
Proof.
  induction ts as [|[t' cb'] ts IH]; simpl; [discriminate|].
  destruct (Nat.eqb_spec t' t) as [->|Hne].
  - intro H. injection H as ->. now left.
  - intro H. right. auto.
Qed.

Lemma Map_get_In k v (m : RpcMap) : Map_get k m = Some v -> In (k, v) m.
Proof.
  induction m as [|[k' v'] m IH]; simpl; [discriminate|].
  destruct (jseqb k' k) eqn:E.
  - apply jseqb_eq in E. subst. intro H. injection H as ->. now left.
  - intro H. right. auto.
Qed.

Lemma In_Map_set k v x (m : RpcMap) :
  NoDup (map fst m) ->
  In x (Map_set k v m) -> x = (k, v) \/ (In x m /\ fst x <> k).
Proof.
  induction m as [|[k' v'] m IH]; simpl; intros Hnd.
  - intros [<-|[]]. now left.
  - inversion Hnd as [|? ? Hk Hm]; subst.
    destruct (jseqb k' k) eqn:E.
    + apply jseqb_eq in E. subst k'. intros [<-|H]; [now left|].
      right. split; [now right|].
      intro Ex. apply Hk. rewrite <- Ex. now apply in_map.
    + intros [<-|H].
      * right. split; [now left|]. simpl. intro Ex. subst.
        now rewrite jseqb_refl in E.
      * destruct (IH Hm H) as [->|[Hin Hne]]; [now left|].
        right. split; [now right|assumption].
Qed.

Lemma Map_set_keys k v (m : RpcMap) :
  NoDup (map fst m) -> NoDup (map fst (Map_set k v m)).
Proof.
  induction m as [|[k' v'] m IH]; simpl; intro Hnd.
  - constructor; [intros []|constructor].
  - inversion Hnd as [|? ? Hk Hm]; subst.
    destruct (jseqb k' k) eqn:E.
    + apply jseqb_eq in E. subst k'. simpl. now constructor.
    + simpl. constructor; [|auto].
      intro Hin. apply in_map_iff in Hin as [x [Ex Hin]].
      apply In_Map_set in Hin; [|exact Hm]. destruct Hin as [->|[Hin' _]].
      * simpl in Ex. subst. now rewrite jseqb_refl in E.
      * apply Hk. rewrite <- Ex. now apply in_map.
Qed.

Lemma settled_app (a b : list Effect) : settled (a ++ b) = settled a ++ settled b.
Proof.
  induction a as [|e a IH]; simpl; [reflexivity|].
  destruct e; simpl; now rewrite ?IH.
Qed.

(** A timer fires or is cleared, its promise is settled, its key leaves the
    table. *)
Lemma correlator_settle h ts m done t cb :
  correlator h ts m done ->
  In (t, cb) ts ->
  correlator h (drop_timer t ts) (Map_delete (t_id cb) m) (done ++ [t_reject cb]).
Proof.
  intros [Hf Ht Hr Htab Hk Hs Ho] Hin.
  assert (Hsame : forall t' cb', In (t', cb') ts -> t' = t -> cb' = cb).
  { intros t' cb' Hin' ->.
    assert (E : (t, cb') = (t, cb)) by (apply (@NoDup_map_inj _ _ fst ts); auto).
    now injection E. }
  constructor.
  - intros t' cb' H. apply In_drop_timer in H as [H _]. eauto.
  - now apply NoDup_map_filter.
  - unfold rejects, drop_timer. now apply NoDup_map_filter.
  - intros k pending H. apply In_Map_delete in H as [H Hne]. simpl in Hne.
    destruct (Htab _ _ H) as [t' [cb' [E1 [E2 [E3 E4]]]]].
    exists t', cb'. repeat split; auto.
    apply In_drop_timer. split; [assumption|]. simpl. intro E.
    apply Hne. rewrite <- E3. now rewrite (Hsame _ _ E2 E).
  - unfold Map_delete. now apply NoDup_map_filter.
  - intros p Hp. apply in_app_iff in Hp as [Hp|[<-|[]]].
    + destruct (Hs _ Hp) as [H1 H2]. split; [assumption|].
      intro H. apply H2. unfold rejects in *.
      apply in_map_iff in H as [x [Ex Hx]]. apply In_drop_timer in Hx as [Hx _].
      apply in_map_iff. eauto.
    + split; [apply (Hf _ _ Hin)|].
      intro H. unfold rejects in H.
      apply in_map_iff in H as [[t' cb'] [Ex Hx]]. simpl in Ex.
      apply In_drop_timer in Hx as [Hx Hne]. simpl in Hne.
      assert (E : (t', cb') = (t, cb))
        by (apply (@NoDup_map_inj _ _ (fun x => t_reject (snd x)) ts); auto).
      injection E as -> ->. now elim Hne.
  - apply NoDup_snoc; [assumption|].
    intro Hp. apply (Hs _ Hp). unfold rejects.
    apply in_map_iff. exists (t, cb). auto.
Qed.

(** [request] registers a call under fresh handles. *)
Lemma correlator_request h ts m done id method :
  correlator h ts m done ->
  correlator (S (S h)) (ts ++ [(S h, mkTimeout id method h)])
             (Map_set id (mkPending h (Some (S h))) m) done.
Proof.
  intros [Hf Ht Hr Htab Hk Hs Ho].
  constructor.
  - intros t cb H. apply in_app_iff in H as [H|[H|[]]].
    + destruct (Hf _ _ H). lia.
    + injection H as <- <-. simpl. lia.
  - rewrite map_app. simpl. apply NoDup_snoc; [assumption|].
    intro H. apply in_map_iff in H as [[t cb] [E H]]. simpl in E. subst.
    destruct (Hf _ _ H). lia.
  - unfold rejects in *. rewrite map_app. simpl. apply NoDup_snoc; [assumption|].
    intro H. apply in_map_iff in H as [[t cb] [E H]]. simpl in E.
    destruct (Hf _ _ H). lia.
  - intros k pending H.
    apply In_Map_set in H; [|exact Hk]. destruct H as [E|[Hin _]].
    + injection E as -> ->. exists (S h), (mkTimeout id method h).
      repeat split. apply in_app_iff. right. now left.
    + destruct (Htab _ _ Hin) as [t [cb [E1 [E2 [E3 E4]]]]].
      exists t, cb. repeat split; auto. apply in_app_iff. now left.
  - now apply Map_set_keys.
  - intros p Hp. destruct (Hs _ Hp) as [H1 H2]. split; [lia|].
    unfold rejects in *. rewrite map_app. simpl.
    intro H. apply in_app_iff in H as [H|[H|[]]]; [auto|lia].
  - assumption.
Qed.

Lemma correlator_handles h h' ts m done :
  correlator h ts m done -> h <= h' -> correlator h' ts m done.
Proof.
  intros [Hf Ht Hr Htab Hk Hs Ho] Hle.
  constructor; auto.
  - intros t cb H. destruct (Hf _ _ H). lia.
  - intros p Hp. destruct (Hs _ Hp). split; [lia|assumption].
Qed.

(** Every entry of the table is rejected and the table emptied. *)
Lemma correlator_reject_all e h ts m done :
  correlator h ts m done ->
  correlator h (clearTimers m ts) [] (done ++ settled (rejectEffects e m)).
Proof.
  revert ts done. induction m as [|[k pending] m IH]; intros ts done H.
  - simpl. rewrite app_nil_r. exact H.
  - destruct (inv_table H k pending (or_introl eq_refl)) as [t [cb [E1 [E2 [E3 E4]]]]].
    pose proof (correlator_settle t cb H E2) as H1.
    assert (Hdel : Map_delete (t_id cb) ((k, pending) :: m) = m).
    { rewrite E3. unfold Map_delete. simpl. rewrite jseqb_refl. simpl.
      pose proof (inv_keys H) as Hk. simpl in Hk.
      inversion Hk as [|? ? Hnk Hm]; subst.
      clear -Hnk. induction m as [|[k' p'] m IHm]; simpl; [reflexivity|].
      rewrite jseqb_neq.
      - simpl. f_equal. apply IHm. intro Hin. apply Hnk. now right.
      - intro Ek. apply Hnk. left. now rewrite Ek. }
    rewrite Hdel in H1.
    specialize (IH _ _ H1).
    simpl. rewrite E1. simpl. rewrite E4 in IH.
    now rewrite <- app_assoc in IH.
Qed.

Lemma rpc_same {A} (m : M A) :
  (forall w,
      handles (rt (world_of (m w))) = handles (rt w)
      /\ timers (rt (world_of (m w))) = timers (rt w)
      /\ pendingRpc (this (world_of (m w))) = pendingRpc (this w)
      /\ settled (effects_of (m w)) = []) ->
  stable rpc_invariant m.
Proof.
  intros E w tr H. destruct (E w) as [E1 [E2 [E3 E4]]].
  unfold rpc_invariant in *. now rewrite E1, E2, E3, settled_app, E4, app_nil_r.
Qed.

Lemma settled_helloRejectEffects err c : settled (helloRejectEffects err c) = [].
Proof.
  unfold helloRejectEffects. destruct (negb (connected c)), (helloReject c); reflexivity.
Qed.

Lemma rpc_handleDisconnect err : stable rpc_invariant (handleDisconnect err).
Proof.
  intros w tr H. rewrite handleDisconnect_spec. cbv zeta.
  destruct (negb _ && negb _); unfold world_of, effects_of, rpc_invariant in *; simpl.
  - rewrite settled_app, settled_helloRejectEffects, app_nil_r.
    unfold forgetHello. destruct (helloRejected (this w)); exact H.
  - rewrite !settled_app, settled_helloRejectEffects. simpl. rewrite app_nil_r.
    now apply correlator_reject_all.
Qed.

Lemma rpc_close : stable rpc_invariant close.
Proof.
  intros w tr H. rewrite close_spec. cbv zeta.
  unfold world_of, effects_of, rpc_invariant in *; simpl.
  rewrite !settled_app.
  replace (settled match socket (this w) with
                   | Some sock => [SocketDestroy sock None]
                   | None => []
                   end) with (@nil nat) by (destruct (socket (this w)); reflexivity).
  now apply correlator_reject_all.
Qed.

Lemma rpc_case_res frame : stable rpc_invariant (case_res frame).
Proof.
  intros w tr H. rewrite case_res_spec.
  destruct (Map_get_value (getField "id" frame) (pendingRpc (this w)))
    as [pending|] eqn:Eg.
  - unfold Map_get_value in Eg.
    destruct (getField "id" frame) as [[| | |k| |]|]; try discriminate Eg.
    apply Map_get_In in Eg.
    destruct (inv_table H k pending Eg) as [t [cb [E1 [E2 [E3 E4]]]]].
    pose proof (correlator_settle t cb H E2) as H1.
    unfold world_of, effects_of, rpc_invariant, resolveEffects in *. simpl.
    rewrite E1. simpl. rewrite settled_app. simpl.
    now rewrite E3, E4 in H1.
  - unfold world_of, effects_of. simpl. now rewrite app_nil_r.
Qed.

Lemma rpc_case_error frame : stable rpc_invariant (case_error frame).
Proof.
  intros w tr H. rewrite case_error_spec.
  destruct (ToString _).
  2:{ unfold world_of, effects_of. simpl. now rewrite app_nil_r. }
  destruct (_ || _).
  - unfold world_of, effects_of, rpc_invariant in *. simpl.
    rewrite settled_app. destruct (socket (this w)); simpl; now rewrite app_nil_r.
  - destruct (ToString _).
    + now apply rpc_handleDisconnect.
    + unfold world_of, effects_of. simpl. now rewrite app_nil_r.
Qed.

Lemma rpc_send frame : stable rpc_invariant (send frame).
Proof.
  apply rpc_same. intro w. rewrite send_spec.
  unfold world_of, effects_of. simpl. destruct (socket (this w)); auto.
Qed.

Lemma rpc_timeout tm : stable rpc_invariant (step (TimerFired tm)).
Proof.
  intros w tr H. unfold step, bind, runtime.
  destruct (find_timer tm (timers (rt w))) as [cb|] eqn:Ef.
  - apply find_timer_In in Ef.
    pose proof (correlator_settle tm cb H Ef) as H1.
    unfold world_of, effects_of, rpc_invariant in *. simpl.
    now rewrite settled_app.
  - unfold world_of, effects_of. simpl. now rewrite app_nil_r.
Qed.

(** The invariant of the correlator holds in every state of every run. *)
Lemma step_keeps_rpc_invariant (ev : Event) : stable rpc_invariant (step ev).
Proof.
  apply stable_step.
  - intro frame. apply rpc_same. intro w. rewrite case_hello_ok_spec.
    unfold world_of, effects_of. simpl. destruct (helloResolve (this w)); auto.
  - intro frame. apply rpc_same. intro w. rewrite case_pair_ok_spec.
    destruct (ToString _); [destruct (is_empty _)|]; auto.
  - apply rpc_case_error.
  - intro frame. apply rpc_same. intro w. rewrite case_ping_spec.
    destruct (ToString _); unfold world_of, effects_of; simpl; auto.
    destruct (socket (this w)); auto.
  - apply rpc_case_res.
  - intro n. apply rpc_same. intro w. auto.
  - intro b. apply rpc_same. intro w. auto.
  - intros w tr H. rewrite connect_spec. cbv zeta.
    destruct (connected (this w)); unfold world_of, effects_of, rpc_invariant in *; simpl.
    + now rewrite app_nil_r.
    + rewrite settled_app.
      destruct (tls (opts (this w))); simpl; rewrite app_nil_r;
        apply (correlator_handles H); lia.
  - apply rpc_close.
  - apply rpc_send.
  - apply rpc_handleDisconnect.
  - intros sock cert w tr H.
    change ((dropSecureOnce sock;; onSecureConnect sock cert) w)
      with ((dropSecureOnce sock;; onSecureConnect sock cert) w).
    unfold bind, dropSecureOnce, runtime, set_runtime. simpl.
    rewrite onSecureConnect_spec. cbv zeta.
    match goal with |- context [if ?b then _ else _] => destruct b end.
    + unfold world_of, effects_of. simpl. rewrite app_nil_r. exact H.
    + match goal with |- context [handleDisconnect ?e ?w0] =>
        pose proof (@rpc_handleDisconnect e w0 tr H) as H1;
        destruct (handleDisconnect e w0) as [[c w'] ef] end.
      unfold world_of, effects_of, rpc_invariant in *. simpl in *.
      rewrite settled_app in *. simpl. now rewrite settled_app, app_nil_r.
  - apply rpc_timeout.
  - intros id method params ms w tr H. rewrite request_spec. cbv zeta.
    unfold world_of, effects_of, rpc_invariant in *; simpl.
    rewrite settled_app.
    destruct (socket (this w)); simpl; rewrite app_nil_r; now apply correlator_request.
Qed.

Lemma reachable_rpc_invariant (o : BridgeClientOptions) (evs : list Event) :
  rpc_invariant (final (run evs (boot o))) (effects (run evs (boot o))).
Proof.
  apply (@stable_run rpc_invariant step_keeps_rpc_invariant evs (boot o) []).
  constructor; simpl; try constructor; intros; contradiction.
Qed.

(** ** The table *)

Lemma Map_get_delete_same k (m : RpcMap) : Map_get k (Map_delete k m) = None.
Proof.
  induction m as [|[k' v] m IH]; simpl; [reflexivity|].
  destruct (jseqb k' k) eqn:E; simpl; [exact IH|]. now rewrite E.
Qed.

Lemma Map_get_delete_other k k' (m : RpcMap) :
  k' <> k -> Map_get k' (Map_delete k m) = Map_get k' m.
Proof.
  intro Hne. induction m as [|[k0 v] m IH]; simpl; [reflexivity|].
  destruct (jseqb k0 k) eqn:E; simpl.
  - apply jseqb_eq in E. subst k0. rewrite (jseqb_neq (not_eq_sym Hne)). exact IH.
  - destruct (jseqb k0 k'); [reflexivity|exact IH].
Qed.


Lemma Map_get_set_same k v (m : RpcMap) : Map_get k (Map_set k v m) = Some v.
Proof.
  induction m as [|[k' v'] m IH]; simpl.
  - now rewrite jseqb_refl.
  - destruct (jseqb k' k) eqn:E; simpl; [now rewrite jseqb_refl|now rewrite E].
Qed.

Lemma Map_get_set_other k k' v (m : RpcMap) :
  k' <> k -> Map_get k' (Map_set k v m) = Map_get k' m.
Proof.
  intro Hne. induction m as [|[k0 v0] m IH]; simpl.
  - now rewrite (jseqb_neq (not_eq_sym Hne)).
  - destruct (jseqb k0 k) eqn:E; simpl.
    + apply jseqb_eq in E. subst k0. now rewrite (jseqb_neq (not_eq_sym Hne)).
    + destruct (jseqb k0 k'); [reflexivity|exact IH].
Qed.






Lemma res_without_entry (frame : JValue) (w : World) :
  getField "type" frame = Some (JStr (js "res")) ->
  Map_get_value (getField "id" frame) (pendingRpc (this w)) = None ->
  handleFrame frame w = (Normal tt, w, []).
Proof.
  intros Hty Hid.
  now rewrite (handleFrame_typed _ _ Hty), dispatch_res, case_res_spec, Hid.
Qed.

Lemma res_with_entry (frame : JValue) (id : jsstring) (pending : PendingRpc) (w : World) :
  getField "type" frame = Some (JStr (js "res")) ->
  getField "id" frame = Some (JStr id) ->
  Map_get id (pendingRpc (this w)) = Some pending ->
  handleFrame frame w
  = (Normal tt,
     mkWorld (set_pendingRpc (Map_delete id (pendingRpc (this w))) (this w))
             (match timer pending with
              | Some t => set_timers (drop_timer t (timers (rt w))) (rt w)
              | None => rt w
              end),
     resolveEffects pending frame).
Proof.
  intros Hty Hid Hget.
  rewrite (handleFrame_typed _ _ Hty), dispatch_res, case_res_spec, Hid.
  simpl. now rewrite Hget.
Qed.

Lemma timer_fired_spec (tm : nat) (w : World) :
  step (TimerFired tm) w =
  match find_timer tm (timers (rt w)) with
  | Some cb =>
      (Normal tt,
       mkWorld (set_pendingRpc (Map_delete (t_id cb) (pendingRpc (this w))) (this w))
               (set_timers (drop_timer tm (timers (rt w))) (rt w)),
       [RpcReject (t_reject cb)
          (newError (js "bridge request timeout (" ++ t_method cb ++ js ")"))])
  | None => (Normal tt, w, [])
  end.
Proof.
  unfold step, bind, runtime.
  destruct (find_timer tm (timers (rt w))); reflexivity.
Qed.



(** ** Correlation *)

Lemma run_requests_step (c : Call) (calls : list Call) (w : World) :
  final (run (requests (c :: calls)) w)
  = final (run (requests calls)
               (world_of (request (call_id c) (call_method c) (call_params c)
                                  (call_timeout c) w))).
Proof.
  simpl. unfold bind. rewrite request_spec. reflexivity.
Qed.

Lemma requests_keep_entry (calls : list Call) (w : World) (id : jsstring) :
  ~ In id (map call_id calls) ->
  Map_get id (pendingRpc (this (final (run (requests calls) w))))
  = Map_get id (pendingRpc (this w)).
Proof.
  revert w. induction calls as [|c calls IH]; intros w Hn; [reflexivity|].
  rewrite run_requests_step, IH by (intro; apply Hn; now right).
  rewrite request_spec. unfold world_of. simpl.
  apply Map_get_set_other. intro E. apply Hn. left. now symmetry.
Qed.

Lemma requests_register (calls : list Call) (w : World) (id : jsstring) :
  NoDup (map call_id calls) ->
  In id (map call_id calls) ->
  Map_get id (pendingRpc (this (final (run (requests calls) w))))
  = Some (mkPending (promiseOf (handles (rt w)) calls id)
                    (Some (S (promiseOf (handles (rt w)) calls id)))).
Proof.
  revert w. induction calls as [|c calls IH]; intros w Hnd Hin; [contradiction|].
  simpl in Hnd. inversion Hnd as [|? ? Hc Hrest]; subst.
  rewrite run_requests_step. unfold promiseOf. simpl map. simpl position.
  destruct (jseqb (call_id c) id) eqn:E.
  - apply jseqb_eq in E. subst id.
    rewrite requests_keep_entry by assumption.
    rewrite request_spec. unfold world_of. simpl.
    rewrite Map_get_set_same. now rewrite Nat.add_0_r.
  - destruct Hin as [Hin|Hin]; [subst; now rewrite jseqb_refl in E|].
    rewrite (IH _ Hrest Hin). unfold promiseOf.
    rewrite request_spec. unfold world_of. simpl.
    repeat f_equal; lia.
Qed.

Lemma flat_map_ext_in {A B} (f g : A -> list B) (l : list A) :
  (forall x, In x l -> f x = g x) -> flat_map f l = flat_map g l.
Proof.
  induction l as [|x l IH]; simpl; intro H; [reflexivity|].
  rewrite (H x (or_introl eq_refl)), IH; auto.
Qed.

Lemma Map_get_value_delete (key key' : option JValue) (m : RpcMap) :
  key' <> key ->
  Map_get_value key' (Map_delete_value key m) = Map_get_value key' m.
Proof.
  intro Hne. unfold Map_get_value, Map_delete_value.
  destruct key' as [[| | |k'| |]|]; try reflexivity.
  destruct key as [[| | |k| |]|]; try reflexivity.
  apply Map_get_delete_other. congruence.
Qed.

(** Replies with distinct ids, in any order: each resolves the promise the
    table held under its id before the first of them arrived. *)
Lemma deliver_spec (replies : list JValue) (w : World) :
  (forall f, In f replies -> getField "type" f = Some (JStr (js "res"))) ->
  NoDup (map (getField "id") replies) ->
  completion_of (deliver replies w) = Normal tt
  /\ effects_of (deliver replies w)
     = flat_map (fun f =>
                   match Map_get_value (getField "id" f) (pendingRpc (this w)) with
                   | Some pending => resolveEffects pending f
                   | None => []
                   end) replies.
Proof.
  revert w. induction replies as [|f replies IH]; intros w Hty Hnd.
  - split; reflexivity.
  - simpl in Hnd. inversion Hnd as [|? ? Hf Hrest]; subst.
    assert (Hty' : forall g, In g replies -> getField "type" g = Some (JStr (js "res")))
      by (intros; apply Hty; now right).
    unfold deliver. simpl forEach. unfold bind.
    rewrite (handleFrame_typed _ _ (Hty f (or_introl eq_refl))), dispatch_res, case_res_spec.
    simpl flat_map.
    destruct (Map_get_value (getField "id" f) (pendingRpc (this w))) as [pending|] eqn:Eg.
    + match goal with |- context [forEach replies handleFrame ?w1] =>
        destruct (IH w1 Hty' Hrest) as [Hc He];
        unfold deliver in Hc, He;
        destruct (forEach replies handleFrame w1) as [[c w2] e2] end.
      unfold completion_of, effects_of in *. simpl in *. subst c e2.
      split; [reflexivity|]. f_equal.
      apply flat_map_ext_in. intros g Hg.
      rewrite Map_get_value_delete; [reflexivity|].
      intro E. apply Hf. rewrite <- E. now apply in_map.
    + destruct (IH w Hty' Hrest) as [Hc He].
      unfold deliver in Hc, He.
      destruct (forEach replies handleFrame w) as [[c w2] e2].
      unfold completion_of, effects_of in *. simpl in *. now subst c e2.
Qed.

Lemma requests_handles (calls : list Call) (w : World) :
  handles (rt (final (run (requests calls) w))) = handles (rt w) + 2 * List.length calls.
Proof.
  revert w. induction calls as [|c calls IH]; intro w; [simpl; lia|].
  rewrite run_requests_step, IH, request_spec. unfold world_of. simpl. lia.
Qed.

Lemma position_app (before after : list Call) (c : Call) :
  ~ In (call_id c) (map call_id before) ->
  position (call_id c) (map call_id (before ++ c :: after)) = List.length before.
Proof.
  induction before as [|b before IH]; simpl; intro Hn.
  - now rewrite jseqb_refl.
  - rewrite jseqb_neq by (intro E; apply Hn; now left).
    f_equal. apply IH. intro; apply Hn; now right.
Qed.

Lemma requestResult_not_ok (res e : JValue) (message : jsstring) :
  getField "ok" res = Some (JBool false) ->
  getField "error" res = Some e ->
  getField "message" e = Some (JStr message) ->
  requestResult res = Throw (newError message).
Proof.
  intros Hok He Hm. unfold requestResult.
  destruct res; try discriminate Hok. rewrite Hok, He. simpl.
  destruct e; try discriminate Hm. now rewrite Hm.
Qed.

(** C6: [request] registers the promise it returns under its id.  A [res]
    frame whose id is in the table clears that entry's timer, removes the
    entry and resolves its promise with the frame, leaving every other entry
    as it is; a [res] frame whose id is not in the table changes nothing.
    Along any run no promise of a call is settled twice.  A [res] with
    [ok: false] makes the call throw the carried error message.  For calls
    with distinct ids, replies with distinct ids in any order resolve, each,
    the promise of the call that drew its id. *)
Theorem rpc_correlation (o : BridgeClientOptions) (evs : list Event) :
  let w := final (run evs (boot o)) in
  let h := handles (rt w) in
  (forall id method params ms,
      completion_of (request id method params ms w) = Normal h
      /\ Map_get id (pendingRpc (this (world_of (request id method params ms w))))
         = Some (mkPending h (Some (S h))))
  /\ (forall frame id pending,
         getField "type" frame = Some (JStr (js "res")) ->
         getField "id" frame = Some (JStr id) ->
         Map_get id (pendingRpc (this w)) = Some pending ->
         let out := handleFrame frame w in
         completion_of out = Normal tt
         /\ effects_of out = resolveEffects pending frame
         /\ Map_get id (pendingRpc (this (world_of out))) = None
         /\ (forall id', id' <> id ->
                         Map_get id' (pendingRpc (this (world_of out)))
                         = Map_get id' (pendingRpc (this w))))
  /\ (forall frame,
         getField "type" frame = Some (JStr (js "res")) ->
         Map_get_value (getField "id" frame) (pendingRpc (this w)) = None ->
         handleFrame frame w = (Normal tt, w, []))
  /\ NoDup (settled (effects (run evs (boot o))))
  /\ (forall res e message,
         getField "ok" res = Some (JBool false) ->
         getField "error" res = Some e ->
         getField "message" e = Some (JStr message) ->
         requestResult res = Throw (newError message))
  /\ (forall (calls : list Call) (replies : list JValue),
         NoDup (map call_id calls) ->
         (forall f, In f replies ->
                    getField "type" f = Some (JStr (js "res"))
                    /\ exists id, getField "id" f = Some (JStr id)
                                  /\ In id (map call_id calls)) ->
         NoDup (map (getField "id") replies) ->
         let w1 := final (run (requests calls) w) in
         completion_of (deliver replies w1) = Normal tt
         /\ effects_of (deliver replies w1) = flat_map (replyEffects h calls) replies
         /\ (forall before c after,
                calls = before ++ c :: after ->
                completion_of (request (call_id c) (call_method c) (call_params c)
                                       (call_timeout c)
                                       (final (run (requests before) w)))
                = Normal (promiseOf h calls (call_id c)))).
Proof.
  intros w h. repeat apply conj.
  - intros id method params ms. rewrite request_spec. cbv zeta.
    unfold completion_of, world_of. simpl. split; [reflexivity|].
    apply Map_get_set_same.
  - intros frame id pending Hty Hid Hget out. unfold out.
    rewrite (res_with_entry frame w Hty Hid Hget).
    unfold completion_of, world_of, effects_of. simpl.
    repeat apply conj; try reflexivity.
    + apply Map_get_delete_same.
    + intros id' Hne. now apply Map_get_delete_other.
  - intros frame. apply res_without_entry.
  - apply (inv_once (reachable_rpc_invariant o evs)).
  - apply requestResult_not_ok.
  - intros calls replies Hnd Hrep Hids w1.
    destruct (@deliver_spec replies w1) as [Hc He]; [intros f Hf; apply Hrep, Hf|assumption|].
    split; [assumption|]. split.
    + rewrite He. apply flat_map_ext_in. intros f Hf.
      destruct (Hrep f Hf) as [_ [id [Hid Hin]]].
      unfold replyEffects. rewrite Hid. simpl. unfold w1.
      rewrite (requests_register calls w id Hnd Hin). reflexivity.
    + intros before c after Ecalls.
      rewrite request_spec. cbv zeta. unfold completion_of. simpl.
      rewrite requests_handles. unfold promiseOf. subst calls.
      rewrite position_app; [reflexivity|].
      rewrite map_app in Hnd. simpl in Hnd.
      apply NoDup_remove_2 in Hnd. intro Hin. apply Hnd.
      apply in_app_iff. now left.
Qed.

(** Two calls answered in the opposite order: each answer resolves the
    promise of the call that carries its id. *)
Lemma rpc_correlation_witness :
  let a := mkCall (js "id-a") (js "skills.bins") None 5000%N in
  let b := mkCall (js "id-b") (js "skills.list") None 5000%N in
  let res_a := frameOf [("type", JStr (js "res")); ("id", JStr (js "id-a"));
                        ("ok", JBool true)] in
  let res_b := frameOf [("type", JStr (js "res")); ("id", JStr (js "id-b"));
                        ("ok", JBool true)] in
  let w := final (run [Connect] (boot exampleOptions)) in
  effects_of (deliver [res_b; res_a] (final (run (requests [a; b]) w)))
  = [ClearTimeout 5; RpcResolve 4 res_b; ClearTimeout 3; RpcResolve 2 res_a].
Proof.
  intros a b res_a res_b w.
  destruct (@rpc_correlation exampleOptions [Connect]) as [_ [_ [_ [_ [_ H]]]]].
  destruct (H [a; b] [res_b; res_a]) as [_ [He _]].
  - repeat constructor; simpl; intuition discriminate.
  - intros f [<-|[<-|[]]]; (split; [reflexivity|]).
    + exists (js "id-b"). split; [reflexivity|]. right. now left.
    + exists (js "id-a"). split; [reflexivity|]. now left.
  - repeat constructor; simpl; intuition discriminate.
  - exact He.
Defined.

(** ** [JSON.parse] always finishes *)

Lemma skip_ws_length (s : jsstring) : List.length (skip_ws s) <= List.length s.
Proof.
  induction s as [|c s IH]; simpl; [lia|].
  destruct (is_json_ws c); simpl; lia.
Qed.

Lemma parse_chars_shorter (n : nat) :
  forall s t r, List.length s <= n -> parse_chars s = Some (t, r) ->
                List.length r < List.length s.
Proof.
  induction n as [|n IH]; intros s t r Hn H.
  - destruct s; [discriminate H|simpl in Hn; lia].
  - destruct s as [|c s]; [discriminate H|]. simpl in H, Hn.
    destruct (c =? 34)%N; [injection H as <- <-; simpl; lia|].
    destruct (c =? 92)%N.
    + destruct s as [|e s]; [discriminate|].
      destruct (e =? 117)%N.
      * destruct s as [|h1 [|h2 [|h3 [|h4 s]]]]; try discriminate.
        destruct (unhex4 h1 h2 h3 h4); [|discriminate].
        destruct (parse_chars s) as [[t' r']|] eqn:E; [|discriminate].
        injection H as <- <-. apply IH in E; simpl in *; lia.
      * destruct (simple_escape e); [|discriminate].
        destruct (parse_chars s) as [[t' r']|] eqn:E; [|discriminate].
        injection H as <- <-. apply IH in E; simpl in *; lia.
    + destruct (c <? 32)%N; [discriminate|].
      destruct (parse_chars s) as [[t' r']|] eqn:E; [|discriminate].
      injection H as <- <-. apply IH in E; simpl in *; lia.
Qed.

Lemma parse_string_shorter (s t r : jsstring) :
  parse_string s = Some (t, r) -> List.length r < List.length s.
Proof.
  unfold parse_string. destruct s as [|c s]; [discriminate|].
  destruct (c =? 34)%N; [|discriminate].
  intro H. apply (@parse_chars_shorter (List.length s)) in H; simpl; lia.
Qed.

Lemma span_digits_app (s : jsstring) :
  s = fst (span_digits s) ++ snd (span_digits s).
Proof.
  induction s as [|c s IH]; simpl; [reflexivity|].
  destruct (is_digit c); [|reflexivity].
  destruct (span_digits s) as [d r]. simpl in *. now f_equal.
Qed.

Lemma span_digits_length (s d r : jsstring) :
  span_digits s = (d, r) -> List.length s = List.length d + List.length r.
Proof.
  intro H. rewrite (span_digits_app s) at 1. rewrite H. simpl. apply length_app.
Qed.

Lemma scan_int_length s i r :
  scan_int s = Some (i, r) -> List.length s = List.length i + List.length r /\ i <> [].
Proof.
  unfold scan_int. destruct s as [|c s]; [discriminate|].
  destruct (c =? 48)%N.
  - intro H. injection H as <- <-. split; [reflexivity|discriminate].
  - destruct (is_digit c); [|discriminate].
    destruct (span_digits s) as [d r'] eqn:E. intro H. injection H as <- <-.
    apply span_digits_length in E. simpl. split; [lia|discriminate].
Qed.

Lemma scan_frac_length s f r :
  scan_frac s = Some (f, r) -> List.length s = List.length f + List.length r.
Proof.
  unfold scan_frac. destruct s as [|c s]; [intro H; now injection H as <- <-|].
  destruct (c =? 46)%N.
  - destruct (span_digits s) as [[|d0 d] r'] eqn:E; [discriminate|].
    intro H. injection H as <- <-. apply span_digits_length in E. simpl in *. lia.
  - intro H. now injection H as <- <-.
Qed.

Lemma scan_exp_length s e r :
  scan_exp s = Some (e, r) -> List.length s = List.length e + List.length r.
Proof.
  unfold scan_exp. destruct s as [|c s]; [intro H; now injection H as <- <-|].
  destruct ((c =? 101) || (c =? 69))%N.
  - destruct s as [|g s].
    + simpl. discriminate.
    + destruct ((g =? 43) || (g =? 45))%N.
      * destruct (span_digits s) as [[|d0 d] r'] eqn:E; [discriminate|].
        intro H. injection H as <- <-. apply span_digits_length in E.
        simpl in *. lia.
      * destruct (span_digits (g :: s)) as [[|d0 d] r'] eqn:E; [discriminate|].
        intro H. injection H as <- <-. apply span_digits_length in E.
        simpl in *. lia.
  - intro H. now injection H as <- <-.
Qed.

Lemma scan_number_shorter s t r :
  scan_number s = Some (t, r) -> List.length r < List.length s.
Proof.
  unfold scan_number.
  set (p := match s with
            | c :: r0 => if (c =? 45)%N then ([c], r0) else ([], s)
            | [] => ([], s)
            end).
  assert (Hp : List.length (snd p) <= List.length s).
  { unfold p. destruct s as [|c s0]; simpl; [lia|].
    destruct (c =? 45)%N; simpl; lia. }
  destruct p as [sg s0]. simpl in Hp.
  destruct (scan_int s0) as [[i s1]|] eqn:Ei; [|discriminate].
  destruct (scan_frac s1) as [[f s2]|] eqn:Ef; [|discriminate].
  destruct (scan_exp s2) as [[e s3]|] eqn:Ee; [|discriminate].
  intro H. injection H as <- <-.
  apply scan_int_length in Ei as [Ei Hi]. apply scan_frac_length in Ef.
  apply scan_exp_length in Ee.
  destruct i; [now elim Hi|]. simpl in *. lia.
Qed.

Lemma strip_prefix_length p s r :
  strip_prefix p s = Some r -> List.length s = List.length p + List.length r.
Proof.
  revert s. induction p as [|x p IH]; intros s H.
  - simpl in H. now injection H as <-.
  - destruct s as [|y s]; [discriminate|]. simpl in H.
    destruct (N.eqb x y); [|discriminate]. apply IH in H. simpl. lia.
Qed.

Lemma parse_literal_shorter p v s v' r :
  p <> "" -> parse_literal p v s = POk v' r -> List.length r < List.length s.
Proof.
  unfold parse_literal. intros Hp H.
  destruct (strip_prefix (js p) s) as [r'|] eqn:E; [|discriminate].
  injection H as <- <-. apply strip_prefix_length in E.
  destruct p; [now elim Hp|]. simpl in E. lia.
Qed.

Lemma parse_shorter (fuel : nat) :
  (forall s v r, parse_value fuel s = POk v r -> List.length r < List.length s)
  /\ (forall s vs r, parse_elements fuel s = POk vs r -> List.length r < List.length s)
  /\ (forall s ms r, parse_members fuel s = POk ms r -> List.length r < List.length s).
Proof.
  induction fuel as [|f [IHv [IHe IHm]]]; [repeat split; intros; discriminate|].
  repeat split.
  - intros s v r H. simpl in H.
    pose proof (skip_ws_length s) as Hs.
    destruct (skip_ws s) as [|c s0]; [discriminate|]. simpl in Hs.
    destruct (c =? 123)%N.
    { pose proof (skip_ws_length s0) as Hs0.
      destruct (skip_ws s0) as [|d s1]; [discriminate|]. simpl in Hs0.
      destruct (d =? 125)%N; [injection H as <- <-; lia|].
      destruct (parse_members f (d :: s1)) as [ms r2| |] eqn:E; try discriminate.
      injection H as <- <-. apply IHm in E. simpl in E. lia. }
    destruct (c =? 91)%N.
    { pose proof (skip_ws_length s0) as Hs0.
      destruct (skip_ws s0) as [|d s1]; [discriminate|]. simpl in Hs0.
      destruct (d =? 93)%N; [injection H as <- <-; lia|].
      destruct (parse_elements f (d :: s1)) as [vs r2| |] eqn:E; try discriminate.
      injection H as <- <-. apply IHe in E. simpl in E. lia. }
    destruct (c =? 34)%N.
    { destruct (parse_chars s0) as [[t r1]|] eqn:E; [|discriminate].
      injection H as <- <-. apply (@parse_chars_shorter (List.length s0)) in E; lia. }
    destruct ((c =? 45)%N || is_digit c).
    { destruct (scan_number (c :: s0)) as [[t r1]|] eqn:E; [|discriminate].
      injection H as <- <-. apply scan_number_shorter in E. simpl in E. lia. }
    destruct (c =? 116)%N.
    { apply parse_literal_shorter in H; [simpl in H; lia|discriminate]. }
    destruct (c =? 102)%N.
    { apply parse_literal_shorter in H; [simpl in H; lia|discriminate]. }
    destruct (c =? 110)%N.
    { apply parse_literal_shorter in H; [simpl in H; lia|discriminate]. }
    discriminate.
  - intros s vs r H. simpl in H.
    destruct (parse_value f s) as [v r1| |] eqn:E; try discriminate.
    apply IHv in E. pose proof (skip_ws_length r1) as Hs.
    destruct (skip_ws r1) as [|c r2]; [discriminate|]. simpl in Hs.
    destruct (c =? 44)%N.
    + destruct (parse_elements f r2) as [vs' r3| |] eqn:E2; try discriminate.
      injection H as <- <-. apply IHe in E2. lia.
    + destruct (c =? 93)%N; [|discriminate]. injection H as <- <-. lia.
  - intros s ms r H. simpl in H.
    pose proof (skip_ws_length s) as Hs.
    destruct (parse_string (skip_ws s)) as [[k r0]|] eqn:Ek; [|discriminate].
    apply parse_string_shorter in Ek.
    pose proof (skip_ws_length r0) as Hs0.
    destruct (skip_ws r0) as [|c r1]; [discriminate|]. simpl in Hs0.
    destruct (c =? 58)%N; [|discriminate].
    destruct (parse_value f r1) as [v r2| |] eqn:E; try discriminate.
    apply IHv in E. pose proof (skip_ws_length r2) as Hs2.
    destruct (skip_ws r2) as [|d r3]; [discriminate|]. simpl in Hs2.
    destruct (d =? 44)%N.
    + destruct (parse_members f r3) as [ms' r4| |] eqn:E2; try discriminate.
      injection H as <- <-. apply IHm in E2. lia.
    + destruct (d =? 125)%N; [|discriminate]. injection H as <- <-. lia.
Qed.

Lemma parse_fuel (fuel : nat) :
  (forall s, 2 * List.length s + 1 <= fuel -> parse_value fuel s <> PFuel)
  /\ (forall s, 2 * List.length s + 2 <= fuel -> parse_elements fuel s <> PFuel)
  /\ (forall s, 2 * List.length s + 2 <= fuel -> parse_members fuel s <> PFuel).
Proof.
  induction fuel as [|f [IHv [IHe IHm]]]; [repeat split; intros; lia|].
  repeat split.
  - intros s Hf. simpl.
    pose proof (skip_ws_length s) as Hs.
    destruct (skip_ws s) as [|c s0]; [discriminate|]. simpl in Hs.
    destruct (c =? 123)%N.
    { pose proof (skip_ws_length s0) as Hs0.
      destruct (skip_ws s0) as [|d s1]; [discriminate|]. simpl in Hs0.
      destruct (d =? 125)%N; [discriminate|].
      destruct (parse_members f (d :: s1)) eqn:E; try discriminate.
      exfalso. revert E. apply IHm. simpl. lia. }
    destruct (c =? 91)%N.
    { pose proof (skip_ws_length s0) as Hs0.
      destruct (skip_ws s0) as [|d s1]; [discriminate|]. simpl in Hs0.
      destruct (d =? 93)%N; [discriminate|].
      destruct (parse_elements f (d :: s1)) eqn:E; try discriminate.
      exfalso. revert E. apply IHe. simpl. lia. }
    destruct (c =? 34)%N; [destruct (parse_chars s0) as [[? ?]|]; discriminate|].
    destruct ((c =? 45)%N || is_digit c);
      [destruct (scan_number (c :: s0)) as [[? ?]|]; discriminate|].
    unfold parse_literal.
    destruct (c =? 116)%N; [destruct (strip_prefix _ _); discriminate|].
    destruct (c =? 102)%N; [destruct (strip_prefix _ _); discriminate|].
    destruct (c =? 110)%N; [destruct (strip_prefix _ _); discriminate|].
    discriminate.
  - intros s Hf. simpl.
    destruct (parse_value f s) as [v r1| |] eqn:E; try discriminate.
    + apply (proj1 (parse_shorter f)) in E. pose proof (skip_ws_length r1) as Hs.
      destruct (skip_ws r1) as [|c r2]; [discriminate|]. simpl in Hs.
      destruct (c =? 44)%N.
      * destruct (parse_elements f r2) eqn:E2; try discriminate.
        exfalso. revert E2. apply IHe. lia.
      * destruct (c =? 93)%N; discriminate.
    + exfalso. revert E. apply IHv. lia.
  - intros s Hf. simpl.
    pose proof (skip_ws_length s) as Hs.
    destruct (parse_string (skip_ws s)) as [[k r0]|] eqn:Ek; [|discriminate].
    apply parse_string_shorter in Ek.
    pose proof (skip_ws_length r0) as Hs0.
    destruct (skip_ws r0) as [|c r1]; [discriminate|]. simpl in Hs0.
    destruct (c =? 58)%N; [|discriminate].
    destruct (parse_value f r1) as [v r2| |] eqn:E; try discriminate.
    + apply (proj1 (parse_shorter f)) in E. pose proof (skip_ws_length r2) as Hs2.
      destruct (skip_ws r2) as [|d r3]; [discriminate|]. simpl in Hs2.
      destruct (d =? 44)%N.
      * destruct (parse_members f r3) eqn:E2; try discriminate.
        exfalso. revert E2. apply IHm. lia.
      * destruct (d =? 125)%N; discriminate.
    + exfalso. revert E. apply IHv. lia.
Qed.

(** [JSON.parse] returns a value or throws its SyntaxError. *)
Lemma JSON_parse_total (text : jsstring) : JSON_parse text <> PFuel.
Proof.
  unfold JSON_parse, parse_budget.
  destruct (parse_value _ text) as [v r| |] eqn:E.
  - destruct (skip_ws r); discriminate.
  - discriminate.
  - exfalso. revert E. apply (proj1 (parse_fuel _)). lia.
Qed.

(** ** Every method finishes *)

Lemma handleFrame_buffer (frame : JValue) (w : World) :
  buffer (this (world_of (handleFrame frame w))) = buffer (this w).
Proof.
  assert (Hd : forall err w0,
             buffer (this (world_of (handleDisconnect err w0))) = buffer (this w0)).
  { intros err w0. rewrite handleDisconnect_spec. cbv zeta.
    destruct (negb _ && negb _); unfold world_of; simpl;
      unfold forgetHello; destruct (helloRejected (this w0)); reflexivity. }
  pose proof (@stable_handleFrame (fun w0 _ => buffer (this w0) = buffer (this w))) as H.
  apply (H) with (tr := []); try reflexivity; clear H.
  - intros f w0 tr H. rewrite case_hello_ok_spec. exact H.
  - intros f w0 tr H. rewrite case_pair_ok_spec.
    destruct (ToString _); [destruct (is_empty _)|]; exact H.
  - intros f w0 tr H. rewrite case_error_spec.
    destruct (ToString _); [|exact H].
    destruct (_ || _); [exact H|].
    destruct (ToString _); [|exact H]. now rewrite Hd.
  - intros f w0 tr H. rewrite case_ping_spec. destruct (ToString _); exact H.
  - intros f w0 tr H. rewrite case_res_spec.
    destruct (Map_get_value _ _); exact H.
  - intros n w0 tr H. exact H.
Qed.

Lemma handleFrame_finishes (frame : JValue) (w : World) :
  completion_of (handleFrame frame w) <> Unfinished.
Proof.
  unfold handleFrame, property, toStr.
  destruct frame; try discriminate; mret;
    (destruct (ToString _) as [type|]; [|discriminate]); mret;
    unfold dispatch;
    repeat match goal with
           | |- context [if ?b then _ else _] => destruct b
           end;
    try discriminate;
    first [ rewrite case_hello_ok_spec; discriminate
          | rewrite case_pair_ok_spec;
            destruct (ToString _); [destruct (is_empty _)|]; discriminate
          | rewrite case_error_spec;
            destruct (ToString _); [|discriminate];
            destruct (_ || _); [discriminate|];
            destruct (ToString _); [|discriminate];
            rewrite handleDisconnect_normal; discriminate
          | rewrite case_ping_spec; destruct (ToString _); discriminate
          | rewrite case_res_spec; destruct (Map_get_value _ _); discriminate ].
Qed.

Lemma indexOf_lt c s idx : indexOf c s = Some idx -> idx < List.length s.
Proof.
  revert idx. induction s as [|x s IH]; simpl; intros idx H; [discriminate|].
  destruct (N.eqb x c); [injection H as <-; lia|].
  destruct (indexOf c s) as [i|]; [|discriminate].
  injection H as <-. specialize (IH i eq_refl). lia.
Qed.

Lemma sliceFrom_length a s :
  a <= List.length s -> List.length (sliceFrom a s) = List.length s - a.
Proof. intro H. unfold sliceFrom. apply length_skipn. Qed.

Lemma flush_loop_finishes (turns : nat) (w : World) :
  List.length (buffer (this w)) < turns ->
  completion_of (flush_loop turns w) <> Unfinished.
Proof.
  revert w. induction turns as [|n IH]; intros w Hn; [lia|].
  simpl. unfold bind at 1, self at 1.
  destruct (indexOf 10%N (buffer (this w))) as [idx|] eqn:Ei; [|discriminate].
  apply indexOf_lt in Ei.
  set (w1 := mkWorld (set_buffer (sliceFrom (idx + 1) (buffer (this w))) (this w)) (rt w)).
  assert (Hw1 : List.length (buffer (this w1)) < n).
  { unfold w1. simpl. rewrite sliceFrom_length; lia. }
  unfold bind at 1, assign at 1. fold w1.
  assert (Hrec : completion_of (flush_loop n w1) <> Unfinished) by now apply IH.
  destruct (is_empty _).
  { destruct (flush_loop n w1) as [[c w2] e2]. exact Hrec. }
  pose proof (JSON_parse_total (trim (slice 0 idx (buffer (this w))))) as Hp.
  destruct (JSON_parse _) as [frame r| |]; [| |now elim Hp].
  - unfold bind.
    pose proof (handleFrame_finishes frame w1) as Hf.
    pose proof (handleFrame_buffer frame w1) as Hb.
    destruct (handleFrame frame w1) as [[[[]| |] w2] e2];
      unfold completion_of, world_of in *; simpl in *; try discriminate.
    + assert (H2 : List.length (buffer (this w2)) < n) by now rewrite Hb.
      specialize (IH w2 H2).
      destruct (flush_loop n w2) as [[c w3] e3]. exact IH.
    + now elim Hf.
  - destruct (flush_loop n w1) as [[c w2] e2]. exact Hrec.
Qed.

Lemma step_finishes (ev : Event) (w : World) :
  completion_of (step ev w) <> Unfinished.
Proof.
  destruct ev; unfold step.
  - unfold bind. rewrite connect_spec. cbv zeta.
    destruct (connected (this w)); discriminate.
  - rewrite close_spec. discriminate.
  - unfold bind. rewrite request_spec. discriminate.
  - unfold sendEvent. rewrite send_spec. discriminate.
  - unfold sendInvokeResponse. rewrite send_spec. discriminate.
  - rewrite step_listening_spec. destruct (mem _ _); [|discriminate].
    rewrite sendHello_spec. discriminate.
  - rewrite step_listening_spec. destruct (mem _ _); [|discriminate].
    rewrite handleDisconnect_normal. discriminate.
  - rewrite step_listening_spec. destruct (mem _ _); [|discriminate].
    rewrite handleDisconnect_normal. discriminate.
  - rewrite step_listening_spec. destruct (mem _ _); [|discriminate].
    unfold bind at 1, self at 1. unfold bind at 1, assign at 1.
    unfold flush. unfold bind at 1, self at 1.
    match goal with |- context [flush_loop ?n ?w0] =>
      pose proof (@flush_loop_finishes n w0) as H;
      destruct (flush_loop n w0) as [[c w1] e1] end.
    apply H. simpl. lia.
  - change (completion_of (step (SockSecureConnect sock cert) w) <> Unfinished).
    rewrite step_secure_spec. destruct (mem _ _); [|discriminate].
    rewrite onSecureConnect_spec. cbv zeta.
    match goal with |- context [if ?b then _ else _] => destruct b end;
      [discriminate|].
    match goal with |- context [handleDisconnect ?e ?w0] =>
      pose proof (handleDisconnect_normal e w0) as H;
      destruct (handleDisconnect e w0) as [[c w1] e1] end.
    unfold completion_of in *. simpl in *. rewrite H. discriminate.
  - change (completion_of (step (TimerFired tm) w) <> Unfinished).
    rewrite timer_fired_spec. destruct (find_timer _ _); discriminate.
Qed.

(** A run never stops for lack of loop budget. *)
Lemma run_finished (evs : list Event) (w : World) : finished (run evs w) = true.
Proof.
  revert w. induction evs as [|ev evs IH]; intro w; simpl; [reflexivity|].
  pose proof (step_finishes ev w) as H.
  destruct (step ev w) as [[[[]| |] w1] e1]; simpl; auto.
Qed.

(** What [request] gives its caller never stops for lack of budget either. *)
Lemma requestResult_finishes (res : JValue) : requestResult res <> Unfinished.
Proof.
  assert (Hrest : forall o : option JValue,
    match o with
    | Some payloadJSON =>
        if truthy payloadJSON then
          match ToString payloadJSON with
          | Some text =>
              match JSON_parse text with
              | POk v _ => Normal v
              | PErr => Throw (mkError SyntaxError_ (js "Unexpected token"))
              | PFuel => Unfinished
              end
          | None => Throw (mkError TypeError_ (js "Cannot convert object to primitive value"))
          end
        else Normal JNull
    | None => Normal JNull
    end <> Unfinished).
  { intros [v|]; [|discriminate].
    destruct (truthy v); [|discriminate].
    destruct (ToString v) as [text|]; [|discriminate].
    pose proof (JSON_parse_total text) as H.
    destruct (JSON_parse text); try discriminate. now elim H. }
  unfold requestResult. destruct res; try discriminate.
  all: destruct (negb _); [destruct (ToString _); discriminate|apply Hrest].
Qed.

(** ** [JSON.parse] reads back what [JSON.stringify] prints *)

Lemma unhex_hex_digit (n : N) : (n < 16)%N -> unhex (hex_digit n) = Some n.
Proof.
  intro H. destruct n as [|p]; [reflexivity|].
  do 4 (try destruct p as [p|p|]); try reflexivity; lia.
Qed.

Lemma unhex4_hex4 (c : N) :
  code_unit c ->
  unhex4 (hex_digit ((c / 4096) mod 16)) (hex_digit ((c / 256) mod 16))
         (hex_digit ((c / 16) mod 16)) (hex_digit (c mod 16)) = Some c.
Proof.
  unfold code_unit. intro H. unfold unhex4.
  rewrite !unhex_hex_digit by (apply N.mod_lt; discriminate).
  f_equal.
  pose proof (N.div_mod c 16). pose proof (N.div_mod (c / 16) 16).
  pose proof (N.div_mod (c / 256) 16).
  assert (E1 : (c / 16 / 16 = c / 256)%N) by (now rewrite N.Div0.div_div).
  assert (E2 : (c / 256 / 16 = c / 4096)%N) by (now rewrite N.Div0.div_div).
  assert (E3 : (c / 4096 < 16)%N) by (apply N.Div0.div_lt_upper_bound; lia).
  rewrite (N.mod_small (c / 4096) 16) by assumption.
  rewrite E1 in *. rewrite E2 in *.
  pose proof (N.mod_lt c 16). pose proof (N.mod_lt (c / 16) 16).
  pose proof (N.mod_lt (c / 256) 16).
  lia.
Qed.

(** One quoted code unit, read back. *)
Lemma parse_quote_unit (c : N) (tail t r : jsstring) :
  code_unit c ->
  parse_chars tail = Some (t, r) ->
  parse_chars (quote_unit c ++ tail) = Some (c :: t, r).
Proof.
  intros Hc Ht. unfold quote_unit.
  destruct (N.eqb_spec c 8) as [->|H8]; [simpl; now rewrite Ht|].
  destruct (N.eqb_spec c 9) as [->|H9]; [simpl; now rewrite Ht|].
  destruct (N.eqb_spec c 10) as [->|H10]; [simpl; now rewrite Ht|].
  destruct (N.eqb_spec c 12) as [->|H12]; [simpl; now rewrite Ht|].
  destruct (N.eqb_spec c 13) as [->|H13]; [simpl; now rewrite Ht|].
  destruct (N.eqb_spec c 34) as [->|H34]; [simpl; now rewrite Ht|].
  destruct (N.eqb_spec c 92) as [->|H92]; [simpl; now rewrite Ht|].
  destruct ((c <? 32)%N || is_high_surrogate c || is_low_surrogate c) eqn:E.
  - unfold unicode_escape, hex4.
    change (parse_chars (92%N :: 117%N :: hex_digit ((c / 4096) mod 16)
                          :: hex_digit ((c / 256) mod 16)
                          :: hex_digit ((c / 16) mod 16)
                          :: hex_digit (c mod 16) :: tail) = Some (c :: t, r)).
    cbn [parse_chars]. change (92 =? 34)%N with false. change (92 =? 92)%N with true.
    change (117 =? 117)%N with true. cbv iota.
    rewrite unhex4_hex4 by assumption. now rewrite Ht.
  - apply orb_false_iff in E as [E _]. apply orb_false_iff in E as [E _].
    cbn [app parse_chars].
    destruct (N.eqb_spec c 34); [contradiction|].
    destruct (N.eqb_spec c 92); [contradiction|].
    rewrite E. now rewrite Ht.
Qed.

Lemma parse_raw_unit (c : N) (tail t r : jsstring) :
  (32 <= c)%N -> c <> 34%N -> c <> 92%N ->
  parse_chars tail = Some (t, r) ->
  parse_chars (c :: tail) = Some (c :: t, r).
Proof.
  intros H32 H34 H92 Ht. cbn [parse_chars].
  destruct (N.eqb_spec c 34); [contradiction|].
  destruct (N.eqb_spec c 92); [contradiction|].
  destruct (N.ltb_spec c 32); [lia|]. now rewrite Ht.
Qed.

Lemma parse_quote_units (n : nat) :
  forall s rest, List.length s <= n -> Forall code_unit s ->
                 parse_chars (quote_units s ++ 34%N :: rest) = Some (s, rest).
Proof.
  induction n as [|n IH]; intros s rest Hn Hs.
  - destruct s; [reflexivity|simpl in Hn; lia].
  - destruct s as [|c s]; [reflexivity|].
    inversion Hs as [|? ? Hc Hs']; subst. simpl in Hn.
    cbn [quote_units].
    destruct (is_high_surrogate c) eqn:Eh.
    + destruct s as [|d s].
      * apply parse_quote_unit; [assumption|reflexivity].
      * destruct (is_low_surrogate d) eqn:El.
        -- inversion Hs' as [|? ? Hd Hs'']; subst. simpl in Hn.
           unfold is_high_surrogate in Eh. unfold is_low_surrogate in El.
           apply andb_true_iff in Eh as [Eh1 Eh2]. apply andb_true_iff in El as [El1 El2].
           apply N.leb_le in Eh1, Eh2, El1, El2.
           cbn [app].
           apply parse_raw_unit; try lia.
           apply parse_raw_unit; try lia.
           apply IH; [lia|assumption].
        -- rewrite <- app_assoc. apply parse_quote_unit; [assumption|].
           apply IH; [simpl in *; lia|assumption].
    + rewrite <- app_assoc. apply parse_quote_unit; [assumption|].
      apply IH; [lia|assumption].
Qed.

Lemma parse_quote (s rest : jsstring) :
  Forall code_unit s -> parse_string (quote s ++ rest) = Some (s, rest).
Proof.
  intro Hs. unfold quote, parse_string. cbn [app].
  change (34 =? 34)%N with true. cbv iota.
  rewrite <- app_assoc. cbn [app].
  now apply (@parse_quote_units (List.length s)).
Qed.

Lemma num_stop_digit (rest : jsstring) :
  num_stop rest = true ->
  match rest with
  | [] => True
  | c :: _ => is_digit c = false /\ (c =? 46)%N = false
              /\ ((c =? 101) || (c =? 69))%N = false
  end.
Proof.
  destruct rest as [|c r]; [trivial|]. unfold num_stop. intro H.
  apply negb_true_iff in H.
  apply orb_false_iff in H as [H H69]. apply orb_false_iff in H as [H H101].
  apply orb_false_iff in H as [Hd H46].
  now rewrite Hd, H46, H101, H69.
Qed.

Lemma span_digits_more (s rest : jsstring) :
  num_stop rest = true ->
  span_digits (s ++ rest) = (fst (span_digits s), snd (span_digits s) ++ rest).
Proof.
  intro Hr. induction s as [|c s IH]; simpl.
  - apply num_stop_digit in Hr. destruct rest as [|c r]; [reflexivity|].
    simpl. destruct Hr as [-> _]. reflexivity.
  - destruct (is_digit c); [|reflexivity].
    rewrite IH. destruct (span_digits s). reflexivity.
Qed.

Lemma scan_int_more (s rest i r : jsstring) :
  num_stop rest = true ->
  scan_int s = Some (i, r) -> scan_int (s ++ rest) = Some (i, r ++ rest).
Proof.
  intros Hr. unfold scan_int. destruct s as [|c s]; [discriminate|]. simpl.
  destruct (c =? 48)%N; [intro H; now injection H as <- <-|].
  destruct (is_digit c); [|discriminate].
  rewrite span_digits_more by assumption.
  destruct (span_digits s) as [d r']. simpl. intro H. now injection H as <- <-.
Qed.

Lemma scan_frac_more (s rest f r : jsstring) :
  num_stop rest = true ->
  scan_frac s = Some (f, r) -> scan_frac (s ++ rest) = Some (f, r ++ rest).
Proof.
  intros Hr. unfold scan_frac. destruct s as [|c s]; simpl.
  - intro H. injection H as <- <-.
    apply num_stop_digit in Hr. destruct rest as [|c r]; [reflexivity|].
    destruct Hr as [_ [-> _]]. reflexivity.
  - destruct (c =? 46)%N; [|intro H; now injection H as <- <-].
    rewrite span_digits_more by assumption.
    destruct (span_digits s) as [[|d0 d] r']; simpl; [discriminate|].
    intro H. now injection H as <- <-.
Qed.

Lemma scan_exp_more (s rest e r : jsstring) :
  num_stop rest = true ->
  scan_exp s = Some (e, r) -> scan_exp (s ++ rest) = Some (e, r ++ rest).
Proof.
  intros Hr. unfold scan_exp. destruct s as [|c s]; cbn [app].
  - intro H. injection H as <- <-.
    apply num_stop_digit in Hr. destruct rest as [|c r]; [reflexivity|].
    destruct Hr as [_ [_ ->]]. reflexivity.
  - destruct ((c =? 101) || (c =? 69))%N; [|intro H; now injection H as <- <-].
    destruct s as [|g s]; [simpl; discriminate|]. cbn [app].
    destruct ((g =? 43) || (g =? 45))%N.
    + rewrite span_digits_more by assumption.
      destruct (span_digits s) as [[|d0 d] r']; simpl; [discriminate|].
      intro H. now injection H as <- <-.
    + change (g :: s ++ rest) with ((g :: s) ++ rest).
      rewrite span_digits_more by assumption.
      destruct (span_digits (g :: s)) as [[|d0 d] r']; simpl; [discriminate|].
      intro H. now injection H as <- <-.
Qed.

Lemma scan_number_more (s rest t r : jsstring) :
  num_stop rest = true ->
  scan_number s = Some (t, r) -> scan_number (s ++ rest) = Some (t, r ++ rest).
Proof.
  intros Hr. unfold scan_number.
  destruct s as [|c s].
  - simpl. discriminate.
  - cbn [app].
    assert (Hgen : forall sg s0,
               match scan_int s0 with
               | Some (i, s1) =>
                   match scan_frac s1 with
                   | Some (f, s2) =>
                       match scan_exp s2 with
                       | Some (e, s3) => Some (sg ++ i ++ f ++ e, s3)
                       | None => None
                       end
                   | None => None
                   end
               | None => None
               end = Some (t, r) ->
               match scan_int (s0 ++ rest) with
               | Some (i, s1) =>
                   match scan_frac s1 with
                   | Some (f, s2) =>
                       match scan_exp s2 with
                       | Some (e, s3) => Some (sg ++ i ++ f ++ e, s3)
                       | None => None
                       end
                   | None => None
                   end
               | None => None
               end = Some (t, r ++ rest)).
    { intros sg s0.
      destruct (scan_int s0) as [[i s1]|] eqn:Ei; [|discriminate].
      destruct (scan_frac s1) as [[f s2]|] eqn:Ef; [|discriminate].
      destruct (scan_exp s2) as [[e s3]|] eqn:Ee; [|discriminate].
      intro H. injection H as <- <-.
      rewrite (scan_int_more _ _ Hr Ei), (scan_frac_more _ _ Hr Ef),
        (scan_exp_more _ _ Hr Ee). reflexivity. }
    destruct (c =? 45)%N; cbv beta iota zeta.
    + apply Hgen.
    + apply (Hgen [] (c :: s)).
Qed.

(** A numeral followed by something that cannot continue it is read back
    whole. *)
Lemma scan_numeral (t rest : jsstring) :
  is_numeral t -> num_stop rest = true -> scan_number (t ++ rest) = Some (t, rest).
Proof.
  intros Ht Hr. now rewrite (scan_number_more _ _ Hr Ht).
Qed.

Lemma numeral_head (t : jsstring) :
  is_numeral t ->
  exists c t', t = c :: t' /\ ((c =? 45)%N || is_digit c) = true.
Proof.
  unfold is_numeral, scan_number. destruct t as [|c t']; [simpl; discriminate|].
  intro H. exists c, t'. split; [reflexivity|].
  destruct (c =? 45)%N; [reflexivity|]. simpl.
  unfold scan_int in H. destruct (c =? 48)%N eqn:E48.
  - apply N.eqb_eq in E48. now subst.
  - destruct (is_digit c); [reflexivity|discriminate].
Qed.

Lemma JValue_induction (P : JValue -> Prop) :
  P JNull -> (forall b, P (JBool b)) -> (forall t, P (JNum t)) ->
  (forall s, P (JStr s)) ->
  (forall items, Forall P items -> P (JArr items)) ->
  (forall members, Forall (fun kv => P (snd kv)) members -> P (JObj members)) ->
  forall v, P v.
Proof.
  intros Hn Hb Hnum Hs Ha Ho.
  fix IH 1. intros [ | b | t | s | items | members ].
  - exact Hn.
  - apply Hb.
  - apply Hnum.
  - apply Hs.
  - apply Ha. revert items. fix IHl 1. intros [|x r]; constructor; [apply IH|apply IHl].
  - apply Ho. revert members. fix IHl 1.
    intros [|[k x] r]; constructor; [apply IH|apply IHl].
Qed.

Lemma json_wf_items (items : list JValue) :
  json_wf (JArr items) <-> Forall json_wf items.
Proof.
  induction items as [|x r IH].
  - split; intro; [constructor|exact I].
  - split.
    + intros [Hx Hr]. constructor; [exact Hx|apply IH; exact Hr].
    + intro H. inversion H; subst. split; [assumption|apply IH; assumption].
Qed.

Lemma json_wf_members (members : list (jsstring * JValue)) :
  json_wf (JObj members) <->
  NoDup (map fst members)
  /\ Forall (fun kv => Forall code_unit (fst kv) /\ json_wf (snd kv)) members.
Proof.
  assert (E : forall l : list (jsstring * JValue),
             (fix all (l : list (jsstring * JValue)) : Prop :=
                match l with
                | [] => True
                | (k, x) :: r => Forall code_unit k /\ json_wf x /\ all r
                end) l
             <-> Forall (fun kv => Forall code_unit (fst kv) /\ json_wf (snd kv)) l).
  { induction l as [|[k x] r IH].
    - split; intro; [constructor|exact I].
    - split.
      + intros [Hk [Hx Hr]]. constructor; [split; assumption|apply IH; exact Hr].
      + intro H. inversion H as [|? ? [H1 H2] H3]; subst.
        split; [assumption|]. split; [assumption|apply IH; assumption]. }
  simpl. rewrite E. reflexivity.
Qed.

Lemma skip_ws_start (c : N) (r : jsstring) :
  is_json_ws c = false -> skip_ws (c :: r) = c :: r.
Proof. intro H. simpl. now rewrite H. Qed.

Lemma digit_or_minus_start (c : N) :
  ((c =? 45)%N || is_digit c) = true ->
  value_start c /\ (c =? 123)%N = false /\ (c =? 91)%N = false /\ (c =? 34)%N = false.
Proof.
  intro H. apply orb_true_iff in H.
  assert (Hr : (c = 45 \/ 48 <= c <= 57)%N).
  { destruct H as [H|H]; [left; now apply N.eqb_eq|right].
    unfold is_digit in H. apply andb_true_iff in H as [H1 H2].
    apply N.leb_le in H1, H2. lia. }
  unfold value_start, is_json_ws.
  repeat match goal with
         | |- context [(c =? ?k)%N] => destruct (N.eqb_spec c k)
         end; simpl; try lia; repeat split; reflexivity.
Qed.

Lemma stringify_head (v : JValue) :
  json_wf v -> exists c r, stringify v = c :: r /\ value_start c.
Proof.
  destruct v as [ | [|] | t | s | items | members ]; intro H;
    try (eexists; eexists; split; [reflexivity|repeat split; reflexivity]).
  destruct (numeral_head H) as [c [t' [-> Hc]]].
  exists c, t'. split; [reflexivity|]. now apply digit_or_minus_start.
Qed.

Lemma parse_value_eq (f : nat) (s : jsstring) :
  parse_value (S f) s =
  match skip_ws s with
  | [] => PErr
  | c :: r =>
      if (c =? 123)%N then
        match skip_ws r with
        | d :: r1 =>
            if (d =? 125)%N then POk (JObj []) r1
            else
              match parse_members f (d :: r1) with
              | POk ms r2 =>
                  POk (JObj (fold_left (fun o kv => obj_set (fst kv) (snd kv) o) ms [])) r2
              | PErr => PErr
              | PFuel => PFuel
              end
        | [] => PErr
        end
      else if (c =? 91)%N then
        match skip_ws r with
        | d :: r1 =>
            if (d =? 93)%N then POk (JArr []) r1
            else
              match parse_elements f (d :: r1) with
              | POk vs r2 => POk (JArr vs) r2
              | PErr => PErr
              | PFuel => PFuel
              end
        | [] => PErr
        end
      else if (c =? 34)%N then
        match parse_chars r with
        | Some (t, r1) => POk (JStr t) r1
        | None => PErr
        end
      else if (c =? 45)%N || is_digit c then
        match scan_number (c :: r) with
        | Some (t, r1) => POk (JNum t) r1
        | None => PErr
        end
      else if (c =? 116)%N then parse_literal "true" (JBool true) (c :: r)
      else if (c =? 102)%N then parse_literal "false" (JBool false) (c :: r)
      else if (c =? 110)%N then parse_literal "null" JNull (c :: r)
      else PErr
  end.
Proof. reflexivity. Qed.

Lemma parse_elements_eq (f : nat) (s : jsstring) :
  parse_elements (S f) s =
  match parse_value f s with
  | POk v r =>
      match skip_ws r with
      | c :: r1 =>
          if (c =? 44)%N then
            match parse_elements f r1 with
            | POk vs r2 => POk (v :: vs) r2
            | PErr => PErr
            | PFuel => PFuel
            end
          else if (c =? 93)%N then POk [v] r1
          else PErr
      | [] => PErr
      end
  | PErr => PErr
  | PFuel => PFuel
  end.
Proof. reflexivity. Qed.

Lemma parse_members_eq (f : nat) (s : jsstring) :
  parse_members (S f) s =
  match parse_string (skip_ws s) with
  | Some (k, r) =>
      match skip_ws r with
      | c :: r1 =>
          if (c =? 58)%N then
            match parse_value f r1 with
            | POk v r2 =>
                match skip_ws r2 with
                | d :: r3 =>
                    if (d =? 44)%N then
                      match parse_members f r3 with
                      | POk ms r4 => POk ((k, v) :: ms) r4
                      | PErr => PErr
                      | PFuel => PFuel
                      end
                    else if (d =? 125)%N then POk [(k, v)] r3
                    else PErr
                | [] => PErr
                end
            | PErr => PErr
            | PFuel => PFuel
            end
          else PErr
      | [] => PErr
      end
  | None => PErr
  end.
Proof. reflexivity. Qed.

Lemma parse_elements_stringify (items : list JValue) :
  items <> [] ->
  Forall reads_back items ->
  Forall json_wf items ->
  forall rest f,
    2 * List.length (join (js ",") (map stringify items) ++ 93%N :: rest) + 2 <= f ->
    parse_elements f (join (js ",") (map stringify items) ++ 93%N :: rest)
    = POk items rest.
Proof.
  induction items as [|x items IH]; intros Hne HP Hwf rest f Hf; [now elim Hne|].
  inversion HP as [|? ? Hx HP']; subst. inversion Hwf as [|? ? Wx Wf']; subst.
  destruct f as [|f]; [lia|]. rewrite parse_elements_eq.
  destruct items as [|y items].
  - simpl join in *.
    rewrite (Hx Wx (93%N :: rest) f); [reflexivity|reflexivity|lia].
  - change (join (js ",") (map stringify (x :: y :: items)))
      with (stringify x ++ js "," ++ join (js ",") (map stringify (y :: items))) in *.
    rewrite <- !app_assoc in *.
    change (js "," ++ ?a) with (44%N :: a) in *.
    rewrite (Hx Wx _ f); [|reflexivity|lia].
    rewrite skip_ws_start by reflexivity.
    change (44 =? 44)%N with true. cbv iota.
    rewrite IH; try assumption; [reflexivity|discriminate|].
    rewrite length_app, length_cons in Hf. lia.
Qed.

Lemma stringify_obj (members : list (jsstring * JValue)) :
  stringify (JObj members) = 123%N :: join (js ",") (member_texts members) ++ [125%N].
Proof.
  simpl. do 3 f_equal. unfold member_texts.
  induction members as [|[k x] r IH]; simpl; [reflexivity|now rewrite IH].
Qed.

Lemma stringify_arr (items : list JValue) :
  stringify (JArr items) = 91%N :: join (js ",") (map stringify items) ++ [93%N].
Proof. reflexivity. Qed.

Lemma skip_ws_quote (k r : jsstring) : skip_ws (quote k ++ r) = quote k ++ r.
Proof. reflexivity. Qed.

Lemma parse_members_stringify (members : list (jsstring * JValue)) :
  members <> [] ->
  Forall (fun kv => reads_back (snd kv)) members ->
  Forall (fun kv => Forall code_unit (fst kv) /\ json_wf (snd kv)) members ->
  forall rest f,
    2 * List.length (join (js ",") (member_texts members) ++ 125%N :: rest) + 2 <= f ->
    parse_members f (join (js ",") (member_texts members) ++ 125%N :: rest)
    = POk members rest.
Proof.
  induction members as [|[k x] members IH]; intros Hne HP Hwf rest f Hf; [now elim Hne|].
  inversion HP as [|? ? Hx HP']; subst. inversion Hwf as [|? ? [Wk Wx] Wf']; subst.
  simpl in Hx, Wk, Wx.
  destruct f as [|f]; [lia|]. rewrite parse_members_eq.
  destruct members as [|y members].
  - change (join (js ",") (member_texts [(k, x)]))
      with (quote k ++ js ":" ++ stringify x) in *.
    rewrite <- !app_assoc in *.
    change (js ":" ++ ?a) with (58%N :: a) in *.
    rewrite skip_ws_quote, (parse_quote _ Wk).
    rewrite skip_ws_start by reflexivity.
    change (58 =? 58)%N with true. cbv iota.
    rewrite length_app, length_cons in Hf.
    rewrite (Hx Wx (125%N :: rest) f); [reflexivity|reflexivity|lia].
  - change (join (js ",") (member_texts ((k, x) :: y :: members)))
      with ((quote k ++ js ":" ++ stringify x) ++ js ","
            ++ join (js ",") (member_texts (y :: members))) in *.
    rewrite <- !app_assoc in *.
    change (js ":" ++ ?a) with (58%N :: a) in *.
    change (js "," ++ ?a) with (44%N :: a) in *.
    rewrite skip_ws_quote, (parse_quote _ Wk).
    rewrite skip_ws_start by reflexivity.
    change (58 =? 58)%N with true. cbv iota.
    rewrite length_app, length_cons, length_app, length_cons in Hf.
    rewrite (Hx Wx _ f); [|reflexivity|rewrite length_app, length_cons; lia].
    rewrite skip_ws_start by reflexivity.
    change (44 =? 44)%N with true. cbv iota.
    rewrite IH; try assumption; [reflexivity|discriminate|lia].
Qed.

Lemma obj_set_fresh (k : jsstring) (v : JValue) (ms : list (jsstring * JValue)) :
  ~ In k (map fst ms) -> obj_set k v ms = ms ++ [(k, v)].
Proof.
  induction ms as [|[k' v'] ms IH]; simpl; intro H; [reflexivity|].
  rewrite jseqb_neq by (intro E; apply H; now left).
  f_equal. apply IH. intro; apply H; now right.
Qed.

Lemma fold_obj_set (ms acc : list (jsstring * JValue)) :
  NoDup (map fst (acc ++ ms)) ->
  fold_left (fun o kv => obj_set (fst kv) (snd kv) o) ms acc = acc ++ ms.
Proof.
  revert acc. induction ms as [|[k v] ms IH]; intros acc H; simpl.
  - now rewrite app_nil_r.
  - rewrite obj_set_fresh.
    + rewrite IH; rewrite <- app_assoc; [reflexivity|exact H].
    + rewrite map_app in H. simpl in H. apply NoDup_remove_2 in H.
      intro Hin. apply H. apply in_app_iff. now left.
Qed.

(** [JSON.parse] reads back what [JSON.stringify] printed. *)
Lemma parse_stringify_value (v : JValue) : reads_back v.
Proof.
  induction v as [ | b | t | s | items IH | members IH ] using JValue_induction;
    intros Hwf rest f Hstop Hf; (destruct f as [|f]; [lia|]); rewrite parse_value_eq.
  - reflexivity.
  - destruct b; reflexivity.
  - destruct (numeral_head Hwf) as [c [t' [-> Hc]]].
    destruct (digit_or_minus_start _ Hc) as [[Hws _] [H1 [H2 H3]]].
    cbn [stringify app]. rewrite skip_ws_start by assumption.
    rewrite H1, H2, H3, Hc.
    change (c :: t' ++ rest) with ((c :: t') ++ rest).
    now rewrite (scan_numeral _ Hwf Hstop).
  - cbn [stringify]. unfold quote. cbn [app].
    rewrite skip_ws_start by reflexivity.
    change (34 =? 123)%N with false. change (34 =? 91)%N with false.
    change (34 =? 34)%N with true. cbv iota.
    rewrite <- app_assoc. cbn [app].
    now rewrite (@parse_quote_units (List.length s)).
  - rewrite stringify_arr in *. cbn [app] in *. rewrite <- app_assoc in *. cbn [app] in *.
    rewrite skip_ws_start by reflexivity.
    change (91 =? 123)%N with false. change (91 =? 91)%N with true. cbv iota.
    apply json_wf_items in Hwf.
    destruct items as [|x items]; [reflexivity|].
    inversion Hwf as [|? ? Wx _]; subst.
    destruct (stringify_head _ Wx) as [c [r [Ec [Hws [H93 _]]]]].
    assert (Et : exists r1, join (js ",") (map stringify (x :: items)) ++ 93%N :: rest
                            = c :: r1).
    { destruct items; cbn [map join]; rewrite Ec; eexists; reflexivity. }
    destruct Et as [r1 Et].
    rewrite Et, skip_ws_start, H93 by assumption. rewrite <- Et.
    rewrite parse_elements_stringify; try assumption; [reflexivity|discriminate|].
    cbn [List.length] in Hf. lia.
  - rewrite stringify_obj in *. cbn [app] in *. rewrite <- app_assoc in *. cbn [app] in *.
    rewrite skip_ws_start by reflexivity.
    change (123 =? 123)%N with true. cbv iota.
    apply json_wf_members in Hwf. destruct Hwf as [Hk Hwf].
    destruct members as [|[k x] members]; [reflexivity|].
    assert (Et : exists r1, join (js ",") (member_texts ((k, x) :: members))
                              ++ 125%N :: rest = 34%N :: r1).
    { destruct members; cbn [member_texts map join fst]; unfold quote;
        eexists; reflexivity. }
    destruct Et as [r1 Et].
    rewrite Et, skip_ws_start by reflexivity.
    change (34 =? 125)%N with false. cbv iota. rewrite <- Et.
    rewrite parse_members_stringify; try assumption; [|discriminate|].
    + now rewrite (fold_obj_set _ [] Hk).
    + cbn [List.length] in Hf. lia.
Qed.

(** The whole text of a printed value parses to that value. *)
Lemma JSON_parse_stringify (v : JValue) :
  json_wf v -> JSON_parse (stringify v) = POk v [].
Proof.
  intro Hwf. unfold JSON_parse, parse_budget.
  pose proof (@parse_stringify_value v Hwf [] (2 * List.length (stringify v) + 2) eq_refl) as H.
  rewrite app_nil_r in H. rewrite H; [reflexivity|lia].
Qed.

(** ** Lines *)

Lemma indexOf_first (c : N) (s rest : jsstring) :
  ~ In c s -> indexOf c (s ++ c :: rest) = Some (List.length s).
Proof.
  induction s as [|x s IH]; simpl; intro H.
  - now rewrite N.eqb_refl.
  - rewrite (proj2 (N.eqb_neq x c)) by (intro E; apply H; now left).
    rewrite IH; [reflexivity|]. intro; apply H; now right.
Qed.

Lemma indexOf_none (c : N) (s : jsstring) : ~ In c s -> indexOf c s = None.
Proof.
  induction s as [|x s IH]; simpl; intro H; [reflexivity|].
  rewrite (proj2 (N.eqb_neq x c)) by (intro E; apply H; now left).
  rewrite IH; [reflexivity|]. intro; apply H; now right.
Qed.

Lemma slice_line (s rest : jsstring) (c : N) :
  slice 0 (List.length s) (s ++ c :: rest) = s.
Proof.
  unfold slice. rewrite Nat.sub_0_r. simpl skipn.
  rewrite firstn_app, Nat.sub_diag, firstn_all. simpl. apply app_nil_r.
Qed.

Lemma sliceFrom_line (s rest : jsstring) (c : N) :
  sliceFrom (List.length s + 1) (s ++ c :: rest) = rest.
Proof.
  unfold sliceFrom. rewrite skipn_app.
  rewrite skipn_all2 by lia.
  replace (List.length s + 1 - List.length s) with 1 by lia. reflexivity.
Qed.

(** One turn of the loop of [flush] on a buffer that starts with a whole
    line. *)
Lemma flush_loop_line (n : nat) (w : World) (text more : jsstring) :
  ~ In 10%N text ->
  buffer (this w) = text ++ 10%N :: more ->
  flush_loop (S n) w =
  let w1 := mkWorld (set_buffer more (this w)) (rt w) in
  if is_empty (trim text) then flush_loop n w1
  else match JSON_parse (trim text) with
       | PErr => flush_loop n w1
       | PFuel => (Unfinished, w1, [])
       | POk frame _ => (handleFrame frame ;; flush_loop n) w1
       end.
Proof.
  intros Hno Hbuf. cbn [flush_loop]. unfold bind at 1, self at 1.
  rewrite Hbuf, indexOf_first by exact Hno. rewrite slice_line, sliceFrom_line.
  unfold bind at 1, assign at 1. cbv zeta.
  destruct (is_empty (trim text)).
  - destruct (flush_loop n _) as [[c w2] e2]. reflexivity.
  - destruct (JSON_parse (trim text)) as [frame r| |].
    + destruct ((handleFrame frame ;; flush_loop n) _) as [[c w2] e2]. reflexivity.
    + destruct (flush_loop n _) as [[c w2] e2]. reflexivity.
    + reflexivity.
Qed.

Lemma flush_loop_no_line (n : nat) (w : World) :
  ~ In 10%N (buffer (this w)) -> flush_loop (S n) w = (Normal tt, w, []).
Proof.
  intro H. cbn [flush_loop]. unfold bind, self. now rewrite indexOf_none by exact H.
Qed.

Lemma handleFrame_then_done (frame : JValue) (n : nat) (w : World) :
  buffer (this w) = [] ->
  (handleFrame frame ;; flush_loop (S n)) w = handleFrame frame w.
Proof.
  intro Hb. unfold bind.
  pose proof (handleFrame_buffer frame w) as Hk.
  destruct (handleFrame frame w) as [[[[]| |] w2] e2]; try reflexivity.
  unfold world_of in Hk. simpl in Hk.
  rewrite flush_loop_no_line by (rewrite Hk, Hb; intros []).
  now rewrite app_nil_r.
Qed.

(** ** No line feed inside a printed value *)

Lemma span_digits_chars (s : jsstring) :
  forallb numeral_char (fst (span_digits s)) = true.
Proof.
  induction s as [|c s IH]; simpl; [reflexivity|].
  destruct (is_digit c) eqn:E; [|reflexivity].
  destruct (span_digits s) as [d r]. simpl in *. rewrite IH.
  unfold numeral_char. now rewrite E.
Qed.

Lemma scan_number_chars (s t r : jsstring) :
  scan_number s = Some (t, r) -> forallb numeral_char t = true.
Proof.
  unfold scan_number.
  assert (Hsg : forall (sg s0 : jsstring),
             (sg = [] \/ sg = [45%N]) ->
             match scan_int s0 with
             | Some (i, s1) =>
                 match scan_frac s1 with
                 | Some (f, s2) =>
                     match scan_exp s2 with
                     | Some (e, s3) => Some (sg ++ i ++ f ++ e, s3)
                     | None => None
                     end
                 | None => None
                 end
             | None => None
             end = Some (t, r) -> forallb numeral_char t = true).
  { intros sg s0 Hsg.
    destruct (scan_int s0) as [[i s1]|] eqn:Ei; [|discriminate].
    destruct (scan_frac s1) as [[f s2]|] eqn:Ef; [|discriminate].
    destruct (scan_exp s2) as [[e s3]|] eqn:Ee; [|discriminate].
    intro H. injection H as <- <-.
    rewrite !forallb_app.
    assert (H1 : forallb numeral_char sg = true)
      by (destruct Hsg as [-> | ->]; reflexivity).
    assert (H2 : forallb numeral_char i = true).
    { unfold scan_int in Ei. destruct s0 as [|c s0]; [discriminate|].
      destruct (N.eqb_spec c 48) as [->|_]; [now injection Ei as <- <-|].
      destruct (is_digit c) eqn:Ed; [|discriminate].
      pose proof (span_digits_chars s0) as Hd.
      destruct (span_digits s0) as [d r']. injection Ei as <- <-.
      simpl in *. rewrite Hd. unfold numeral_char. now rewrite Ed. }
    assert (H3 : forallb numeral_char f = true).
    { unfold scan_frac in Ef. destruct s1 as [|c s1]; [now injection Ef as <- <-|].
      destruct (N.eqb_spec c 46) as [->|_]; [|now injection Ef as <- <-].
      pose proof (span_digits_chars s1) as Hd.
      destruct (span_digits s1) as [[|d0 d] r']; [discriminate|].
      injection Ef as <- <-. simpl in *. exact Hd. }
    assert (H4 : forallb numeral_char e = true).
    { unfold scan_exp in Ee. destruct s2 as [|c s2]; [now injection Ee as <- <-|].
      destruct ((c =? 101) || (c =? 69))%N eqn:Ec; [|now injection Ee as <- <-].
      assert (Hc : numeral_char c = true).
      { unfold numeral_char. apply orb_true_iff in Ec as [-> | ->];
          now rewrite ?orb_true_r. }
      destruct s2 as [|g s2]; [simpl in Ee; discriminate|].
      destruct ((g =? 43) || (g =? 45))%N eqn:Eg.
      - pose proof (span_digits_chars s2) as Hd.
        destruct (span_digits s2) as [[|d0 d] r']; [discriminate|].
        injection Ee as <- <-. simpl in *. rewrite Hc, Hd.
        unfold numeral_char. apply orb_true_iff in Eg as [-> | ->];
          now rewrite ?orb_true_r.
      - pose proof (span_digits_chars (g :: s2)) as Hd.
        destruct (span_digits (g :: s2)) as [[|d0 d] r']; [discriminate|].
        injection Ee as <- <-. simpl in *. now rewrite Hc, Hd. }
    now rewrite H1, H2, H3, H4. }
  destruct s as [|c s]; [apply (Hsg [] []); now left|].
  destruct (c =? 45)%N eqn:E.
  - apply N.eqb_eq in E. subst. apply Hsg. now right.
  - apply Hsg. now left.
Qed.

Lemma numeral_no_LF (t : jsstring) : is_numeral t -> ~ In 10%N t.
Proof.
  intros H Hin. apply scan_number_chars in H.
  rewrite forallb_forall in H. specialize (H _ Hin). discriminate H.
Qed.

Lemma hex_digit_no_LF (n : N) : hex_digit n <> 10%N.
Proof. unfold hex_digit. destruct (N.ltb_spec n 10); lia. Qed.

Lemma quote_unit_no_LF (c : N) : ~ In 10%N (quote_unit c).
Proof.
  unfold quote_unit.
  repeat match goal with
         | |- context [(c =? ?k)%N] => destruct (N.eqb_spec c k)
         end;
    try (simpl; intuition discriminate).
  destruct (_ || _).
  - unfold unicode_escape, hex4. simpl.
    intros [H|[H|[H|[H|[H|[H|[]]]]]]]; try discriminate H;
      now apply hex_digit_no_LF in H.
  - simpl. intros [H|[]]. now subst.
Qed.

Lemma quote_units_no_LF (n : nat) :
  forall s, List.length s <= n -> ~ In 10%N (quote_units s).
Proof.
  induction n as [|n IH]; intros s Hn.
  - destruct s; [intros []|simpl in Hn; lia].
  - destruct s as [|c s]; [intros []|]. simpl in Hn. cbn [quote_units].
    destruct (is_high_surrogate c) eqn:Eh.
    + destruct s as [|d s]; [apply quote_unit_no_LF|].
      destruct (is_low_surrogate d) eqn:El.
      * unfold is_high_surrogate in Eh. unfold is_low_surrogate in El.
        apply andb_true_iff in Eh as [Eh _]. apply andb_true_iff in El as [El _].
        apply N.leb_le in Eh, El. simpl in Hn.
        intros [H|[H|H]]; try lia. revert H. apply IH. lia.
      * intro H. apply in_app_iff in H as [H|H].
        -- now apply quote_unit_no_LF in H.
        -- revert H. apply IH. simpl in *. lia.
    + intro H. apply in_app_iff in H as [H|H].
      * now apply quote_unit_no_LF in H.
      * revert H. apply IH. lia.
Qed.

Lemma quote_no_LF (s : jsstring) : ~ In 10%N (quote s).
Proof.
  unfold quote. intros [H|H]; [discriminate|].
  apply in_app_iff in H as [H|[H|[]]]; [|discriminate].
  now apply (@quote_units_no_LF (List.length s)) in H.
Qed.

Lemma In_join (c : N) (sep : jsstring) (parts : list jsstring) :
  In c (join sep parts) -> In c sep \/ exists p, In p parts /\ In c p.
Proof.
  induction parts as [|p parts IH]; [intros []|].
  destruct parts as [|q parts].
  - intro H. right. exists p. split; [now left|exact H].
  - change (join sep (p :: q :: parts)) with (p ++ sep ++ join sep (q :: parts)).
    intro H. apply in_app_iff in H as [H|H].
    + right. exists p. split; [now left|exact H].
    + apply in_app_iff in H as [H|H]; [now left|].
      destruct (IH H) as [Hs|[p' [Hp Hc]]]; [now left|].
      right. exists p'. split; [now right|exact Hc].
Qed.

Lemma stringify_no_LF (v : JValue) : json_wf v -> ~ In 10%N (stringify v).
Proof.
  induction v as [ | b | t | s | items IH | members IH ] using JValue_induction;
    intro Hwf.
  - simpl. intuition discriminate.
  - destruct b; simpl; intuition discriminate.
  - now apply numeral_no_LF.
  - apply quote_no_LF.
  - rewrite stringify_arr. apply json_wf_items in Hwf.
    intros [H|H]; [discriminate|].
    apply in_app_iff in H as [H|[H|[]]]; [|discriminate].
    apply In_join in H as [[H|[]]|[p [Hp Hc]]]; [discriminate|].
    apply in_map_iff in Hp as [x [<- Hx]].
    rewrite Forall_forall in IH, Hwf. now apply (IH x Hx (Hwf x Hx)).
  - rewrite stringify_obj. apply json_wf_members in Hwf as [_ Hwf].
    intros [H|H]; [discriminate|].
    apply in_app_iff in H as [H|[H|[]]]; [|discriminate].
    apply In_join in H as [[H|[]]|[p [Hp Hc]]]; [discriminate|].
    unfold member_texts in Hp. apply in_map_iff in Hp as [[k x] [<- Hx]].
    cbn [fst snd] in Hc. apply in_app_iff in Hc as [Hc|Hc]; [|destruct Hc as [Hc|Hc]].
    + now apply quote_no_LF in Hc.
    + discriminate.
    + rewrite Forall_forall in IH, Hwf.
      now apply (IH (k, x) Hx (proj2 (Hwf (k, x) Hx))).
Qed.

(** ** The frame codec *)

Lemma trim_stringify_obj (members : list (jsstring * JValue)) :
  trim (stringify (JObj members)) = stringify (JObj members).
Proof. rewrite stringify_obj. now apply trim_id. Qed.

Lemma data_listening_spec (sock : nat) (chunk : jsstring) (w : World) :
  mem sock (listeners (rt w)) = true ->
  step (SockData sock chunk) w
  = flush_loop (S (List.length (buffer (this w) ++ chunk)))
               (mkWorld (set_buffer (buffer (this w) ++ chunk) (this w)) (rt w)).
Proof.
  intro Hl. unfold step. rewrite step_listening_spec, Hl.
  unfold bind at 1, self at 1. unfold bind at 1, assign at 1.
  unfold flush. unfold bind at 1, self at 1.
  cbn [this buffer set_buffer].
  destruct (flush_loop _ _) as [[c w1] e1]. reflexivity.
Qed.

Lemma set_buffer_same (w : World) :
  mkWorld (set_buffer (buffer (this w)) (this w)) (rt w) = w.
Proof. destruct w as [[o so bu pe co hr hj] r]. reflexivity. Qed.

Lemma set_buffer_twice (b b' : jsstring) (w : World) :
  mkWorld (set_buffer b (this (mkWorld (set_buffer b' (this w)) (rt w))))
          (rt (mkWorld (set_buffer b' (this w)) (rt w)))
  = mkWorld (set_buffer b (this w)) (rt w).
Proof. reflexivity. Qed.

(** A whole line holding a printed object, in a buffer that held [before]
    (no line feed in it, and nothing but white space before the object):
    the object is handled, nothing else. *)
Lemma flush_printed_object (members : list (jsstring * JValue)) (w : World) :
  json_wf (JObj members) ->
  buffer (this w) = stringify (JObj members) ++ LF ->
  flush_loop (S (List.length (buffer (this w)))) w
  = handleFrame (JObj members) (mkWorld (set_buffer [] (this w)) (rt w)).
Proof.
  intros Hwf Hb.
  rewrite Hb at 1. unfold LF at 1. rewrite length_app. cbn [List.length].
  rewrite Nat.add_1_r.
  rewrite (@flush_loop_line _ w (stringify (JObj members)) []);
    [|now apply stringify_no_LF|exact Hb].
  cbv zeta. rewrite trim_stringify_obj, (JSON_parse_stringify _ Hwf).
  rewrite stringify_obj at 1. cbn [is_empty].
  now apply handleFrame_then_done.
Qed.

(** C9: a frame that is a JSON object (strings made of code units, numbers
    as numerals, no property twice), encoded as [send] does
    ([JSON.stringify] and a line feed) and received as [flush] does (split at
    the line feed, trim, [JSON.parse]) by a client with an empty buffer,
    reaches [handleFrame] as the very same value: same [type], same fields.
    This also holds when the line arrives in two chunks. *)
Theorem frame_codec_round_trip
        (members : list (jsstring * JValue)) (sender receiver : World)
        (out_sock in_sock : nat) :
  let frame := JObj members in
  let data := stringify frame ++ LF in
  json_wf frame ->
  socket (this sender) = Some out_sock ->
  mem in_sock (listeners (rt receiver)) = true ->
  buffer (this receiver) = [] ->
  send frame sender = (Normal tt, sender, [SocketWrite out_sock data])
  /\ JSON_parse (trim (stringify frame)) = POk frame []
  /\ step (SockData in_sock data) receiver = handleFrame frame receiver
  /\ (forall d1 d2,
         data = d1 ++ d2 -> d2 <> [] ->
         let partial := mkWorld (set_buffer d1 (this receiver)) (rt receiver) in
         step (SockData in_sock d1) receiver = (Normal tt, partial, [])
         /\ step (SockData in_sock d2) partial = handleFrame frame receiver).
Proof.
  intros frame data Hwf Hs Hl Hb.
  assert (Hrecv : mkWorld (set_buffer [] (this receiver)) (rt receiver) = receiver)
    by (rewrite <- Hb; apply set_buffer_same).
  split; [rewrite send_spec, Hs; reflexivity|].
  split; [unfold frame; rewrite trim_stringify_obj; now apply JSON_parse_stringify|].
  split.
  - rewrite (data_listening_spec _ _ _ Hl), Hb. cbn [app].
    match goal with |- flush_loop _ ?w0 = _ =>
      pose proof (@flush_printed_object members w0 Hwf eq_refl) as H end.
    cbn [this buffer set_buffer] in H. rewrite H.
    f_equal. clear -Hb. destruct receiver as [[o so bu pe co hr hj] r].
    simpl in *. now subst.
  - intros d1 d2 Hd Hne partial.
    assert (Hd1 : ~ In 10%N d1).
    { destruct (exists_last Hne) as [d2' [c Ed2]]. subst d2.
      unfold data, LF in Hd. rewrite app_assoc in Hd.
      apply app_inj_tail in Hd as [Hd _].
      intro Hin. apply (stringify_no_LF _ Hwf). fold frame. rewrite Hd.
      apply in_app_iff. now left. }
    split.
    + rewrite (data_listening_spec _ _ _ Hl), Hb. cbn [app].
      now rewrite flush_loop_no_line.
    + assert (Hl' : mem in_sock (listeners (rt partial)) = true) by exact Hl.
      rewrite (data_listening_spec _ _ _ Hl').
      cbn [partial this buffer set_buffer]. rewrite <- Hd.
      match goal with |- flush_loop _ ?w0 = _ =>
        pose proof (@flush_printed_object members w0 Hwf eq_refl) as H end.
      cbn [this buffer set_buffer] in H. rewrite H.
      f_equal. clear -Hb. destruct receiver as [[o so bu pe co hr hj] r].
      simpl in *. now subst.
Qed.

(** The hello frame of the example options, as written on a socket, is
    handled by a reader as the frame itself. *)
Lemma frame_codec_round_trip_witness :
  let w := world_of (connect (boot exampleOptions)) in
  step (SockData 1 (stringify (helloFrame exampleOptions) ++ LF)) w
  = handleFrame (helloFrame exampleOptions) w.
Proof.
  intro w.
  refine (proj1 (proj2 (proj2 (@frame_codec_round_trip
                                 (props (helloFields exampleOptions)) w w 1 1
                                 _ eq_refl eq_refl eq_refl)))).
  apply json_wf_members. split.
  - apply NoDup_by_compute. reflexivity.
  - repeat constructor; simpl; unfold code_unit; try lia.
Defined.

(** ** Lines that are not frames *)

Lemma dispatch_unknown (t : jsstring) (frame : JValue) (w : World) :
  ~ In t knownTypes -> dispatch t frame w = (Normal tt, w, []).
Proof.
  intro H.
  assert (Hk : forall k, In k knownTypes -> jseqb t k = false).
  { intros k Hin. apply jseqb_neq. intro E. subst. contradiction. }
  unfold dispatch.
  rewrite !Hk by (unfold knownTypes; simpl; tauto).
  reflexivity.
Qed.

(** C4, as the code has it.  A blank line and a line that is not JSON are
    skipped, and so is a parsed value other than [null] that has no [type]
    or whose [type] is a string [handleFrame] does not know.  But the line
    "null" is not skipped: [JSON.parse] returns [null], reading [frame.type]
    throws a TypeError that leaves the data listener uncaught, and the
    [hello-ok] frame that follows in the same chunk is left in the buffer,
    unhandled.  A [type] that is an object with a [toString] property throws
    as well. *)
Theorem malformed_lines
        (n : nat) (w : World) (text more : jsstring) :
  let w1 := mkWorld (set_buffer more (this w)) (rt w) in
  (~ In 10%N text ->
   buffer (this w) = text ++ 10%N :: more ->
   is_empty (trim text) = true \/ JSON_parse (trim text) = PErr ->
   flush_loop (S n) w = flush_loop n w1)
  /\ (forall frame, frame <> JNull -> getField "type" frame = None ->
                    handleFrame frame w = (Normal tt, w, []))
  /\ (forall frame t, getField "type" frame = Some (JStr t) -> ~ In t knownTypes ->
                      handleFrame frame w = (Normal tt, w, []))
  /\ (let ready := world_of (connect (boot exampleOptions)) in
      let out := step (SockData 1 nullThenHelloOk) ready in
      JSON_parse (js "null") = POk JNull []
      /\ completion_of out
         = Throw (mkError TypeError_ (js "Cannot read properties of null"))
      /\ effects_of out = []
      /\ connected (this (world_of out)) = false
      /\ buffer (this (world_of out)) = jsq "{'type':'hello-ok'}" ++ LF
      /\ uncaught (run [Connect; SockData 1 nullThenHelloOk] (boot exampleOptions))
         = Some (mkError TypeError_ (js "Cannot read properties of null"))
      /\ completion_of (step (SockData 1 typeWithToString) ready)
         = Throw (mkError TypeError_ (js "Cannot convert object to primitive value"))).
Proof.
  intro w1. split; [|split; [|split]].
  - intros Hno Hb Hskip. rewrite (@flush_loop_line n w text more Hno Hb). cbv zeta.
    destruct (is_empty (trim text)); [reflexivity|].
    destruct Hskip as [Hskip|Hskip]; [discriminate|]. now rewrite Hskip.
  - intros frame Hnn Hty. unfold handleFrame, property.
    destruct frame; try (now elim Hnn); mret; rewrite Hty; simpl nullish;
      unfold toStr; simpl ToString; cbv iota; mret; reflexivity.
  - intros frame t Hty Hun. rewrite (handleFrame_typed _ _ Hty).
    now apply dispatch_unknown.
  - vm_compute. repeat split.
Qed.

(* ===================================================================== *)
(** * Part III: more about the code                                       *)
(* ===================================================================== *)

(** ** Fingerprints *)

Lemma is_hex_lower (c : N) :
  is_hex c = true ->
  is_hex (if ((65 <=? c) && (c <=? 90))%N then (c + 32)%N else c) = true
  /\ ((65 <=? (if ((65 <=? c) && (c <=? 90))%N then (c + 32)%N else c))
      && ((if ((65 <=? c) && (c <=? 90))%N then (c + 32)%N else c) <=? 90))%N = false.
Proof.
  unfold is_hex. intro H.
  destruct (N.leb_spec 65 c), (N.leb_spec c 90); cbn [andb];
    repeat match goal with
           | |- context [(?a <=? ?b)%N] => destruct (N.leb_spec a b)
           | H : context [(?a <=? ?b)%N] |- _ => destruct (N.leb_spec a b)
           end; cbn in *; try discriminate; try (split; reflexivity); lia.
Qed.

Lemma normalizeFingerprint_app (a b : jsstring) :
  normalizeFingerprint (a ++ b) = normalizeFingerprint a ++ normalizeFingerprint b.
Proof. unfold normalizeFingerprint, toLowerCase. now rewrite filter_app, map_app. Qed.

Lemma normalizeFingerprint_fixed (s : jsstring) :
  normalizeFingerprint (normalizeFingerprint s) = normalizeFingerprint s.
Proof.
  unfold normalizeFingerprint, toLowerCase.
  induction s as [|c s IH]; [reflexivity|].
  cbn [filter]. destruct (is_hex c) eqn:Eh; [|exact IH].
  cbn [map filter]. destruct (is_hex_lower c Eh) as [H1 H2].
  rewrite H1. cbn [map]. rewrite H2. f_equal. exact IH.
Qed.

(** X1: [normalizeFingerprint] gives a canonical form.  Normalizing twice is
    normalizing once; the result of a concatenation is the concatenation of
    the results; a code unit that is no hexadecimal digit (a colon, a blank)
    may stand anywhere without changing the result; the result is never
    longer than the input. *)
Theorem normalizeFingerprint_canonical (a b : jsstring) :
  normalizeFingerprint (normalizeFingerprint a) = normalizeFingerprint a
  /\ normalizeFingerprint (a ++ b) = normalizeFingerprint a ++ normalizeFingerprint b
  /\ (forall c, is_hex c = false ->
                normalizeFingerprint (a ++ c :: b) = normalizeFingerprint (a ++ b))
  /\ List.length (normalizeFingerprint a) <= List.length a.
Proof.
  split; [apply normalizeFingerprint_fixed|].
  split; [apply normalizeFingerprint_app|].
  split.
  - intros c Hc. rewrite !normalizeFingerprint_app. f_equal.
    unfold normalizeFingerprint. cbn [filter]. now rewrite Hc.
  - unfold normalizeFingerprint, toLowerCase. rewrite length_map. apply filter_length_le.
Qed.

Lemma normalizeFingerprint_nil (s : jsstring) :
  filter is_hex s = [] -> normalizeFingerprint s = [].
Proof. unfold normalizeFingerprint. now intros ->. Qed.

Lemma is_empty_true (s : jsstring) : is_empty s = true <-> s = [].
Proof. destruct s; simpl; split; intro H; try reflexivity; discriminate. Qed.

(** X2: a fingerprint without any hexadecimal digit never passes the pin
    check, on either side.  When the pin holds no hexadecimal digit, or the
    peer's [fingerprint256] holds none, the [secureConnect] listener
    disconnects and destroys the socket with the mismatch error, whatever
    the other side is: two empty normal forms are not a match. *)
Theorem tls_empty_fingerprint_never_matches
        (w : World) (sock : nat) (cert : option PeerCertificate) (pin : jsstring) :
  mem sock (secureOnce (rt w)) = true ->
  tlsFingerprint (opts (this w)) = Some pin ->
  filter is_hex pin = []
  \/ (exists raw v, cert = Some raw /\ fingerprint256 raw = Some v /\ filter is_hex v = []) ->
  let err := newError (js "bridge tls fingerprint mismatch") in
  let out := step (SockSecureConnect sock cert) w in
  completion_of out = Normal tt
  /\ effects_of out = disconnectEffects (Some err) (this w) ++ [SocketDestroy sock (Some err)]
  /\ socket (this (world_of out)) = None
  /\ connected (this (world_of out)) = false.
Proof.
  intros Hm Hpin Hempty err out. unfold out.
  rewrite step_secure_spec, Hm, onSecureConnect_spec. cbv zeta.
  cbn [this opts]. rewrite Hpin.
  assert (Hno : match
                  match cert with Some raw => extractFingerprint raw | None => None end
                with
                | Some f => negb (is_empty f) && jseqb f (normalizeFingerprint pin)
                | None => false
                end = false).
  { destruct cert as [raw|]; [|reflexivity].
    unfold extractFingerprint.
    destruct (fingerprint256 raw) as [v|] eqn:Ev; [|reflexivity].
    destruct (is_empty v); [reflexivity|].
    destruct Hempty as [Hp|[raw' [v' [Hc [Hv Hf]]]]].
    - rewrite (normalizeFingerprint_nil _ Hp).
      destruct (normalizeFingerprint v); reflexivity.
    - injection Hc as <-. rewrite Ev in Hv. injection Hv as <-.
      now rewrite (normalizeFingerprint_nil _ Hf). }
  rewrite Hno.
  match goal with |- context [handleDisconnect ?e ?w0] =>
    pose proof (handleDisconnect_effects e w0) as He;
    pose proof (handleDisconnect_normal e w0) as Hn;
    pose proof (handleDisconnect_state e w0) as Hs;
    destruct (handleDisconnect e w0) as [[c w'] ef] end.
  unfold completion_of, effects_of, world_of in *. cbn in *.
  destruct Hs as [Hc [Hso _]]. subst ef. now rewrite Hn.
Qed.

(** A pin written without a single hexadecimal digit: the peer's
    certificate, whatever its fingerprint, is turned away. *)
Lemma tls_empty_fingerprint_never_matches_witness :
  let o := mkOptions (js "gateway.local") 18790 true (Some (js "??")) (js "node-1")
                     None None None None None None None None None in
  let w := world_of (connect (boot o)) in
  let err := newError (js "bridge tls fingerprint mismatch") in
  effects_of (step (SockSecureConnect 1 (Some (mkCert (Some (js "AB:CD"))))) w)
  = [HelloReject 0 err; Notify (onDisconnected (Some err)); SocketDestroy 1 (Some err)].
Proof.
  intros o w err.
  destruct (@tls_empty_fingerprint_never_matches
              w 1 (Some (mkCert (Some (js "AB:CD")))) (js "??")
              eq_refl eq_refl (or_introl eq_refl)) as [_ [H _]].
  exact H.
Defined.

(** ** The promise of [connect] is settled at most once *)

Lemma hello_settled_app (a b : list Effect) :
  hello_settled (a ++ b) = hello_settled a ++ hello_settled b.
Proof.
  induction a as [|e a IH]; [reflexivity|].
  destruct e; simpl; rewrite ?IH; reflexivity.
Qed.

Lemma hello_settled_rejectEffects (e : JsError) (m : RpcMap) :
  hello_settled (rejectEffects e m) = [].
Proof.
  induction m as [|[k p] m IH]; [reflexivity|].
  simpl. destruct (timer p); simpl; exact IH.
Qed.

Lemma hello_settled_helloRejectEffects (err : option JsError) (c : BridgeClient) :
  hello_settled (helloRejectEffects err c)
  = if helloRejected c then match helloReject c with Some h => [h] | None => [] end else [].
Proof.
  unfold helloRejectEffects, helloRejected.
  destruct (negb (connected c)), (helloReject c); reflexivity.
Qed.

Lemma handshake_weaken (h h' : nat) (c c' : BridgeClient) (done : list nat) :
  handshake h c done ->
  h <= h' ->
  helloResolve c' = helloResolve c ->
  helloReject c' = helloReject c ->
  (connected c' = true -> connected c = true) ->
  handshake h' c' done.
Proof.
  intros [H1 H2 H3 H4 H5] Hle Er Ej Hc. constructor.
  - now rewrite Er, Ej.
  - intro H. rewrite Ej. apply H2, Hc, H.
  - intros p Hp. rewrite Ej in Hp. destruct (H3 p Hp). split; [lia|assumption].
  - intros p Hp. apply H4 in Hp. lia.
  - exact H5.
Qed.

(** A method that leaves the handshake fields alone keeps the invariant. *)
Lemma hello_same {A} (m : M A) :
  (forall w,
      handles (rt w) <= handles (rt (world_of (m w)))
      /\ helloResolve (this (world_of (m w))) = helloResolve (this w)
      /\ helloReject (this (world_of (m w))) = helloReject (this w)
      /\ (connected (this (world_of (m w))) = true -> connected (this w) = true)
      /\ hello_settled (effects_of (m w)) = []) ->
  stable hello_invariant m.
Proof.
  intros E w tr H. destruct (E w) as [E1 [E2 [E3 [E4 E5]]]].
  unfold hello_invariant in *. rewrite hello_settled_app, E5, app_nil_r.
  eapply handshake_weaken; [exact H|..]; assumption.
Qed.

Lemma handshake_settle (h : nat) (c c' : BridgeClient) (done : list nat) :
  handshake h c done ->
  helloResolve c' = None ->
  helloReject c' = None ->
  handshake h c'
    (done ++ match helloReject c with Some p => [p] | None => [] end).
Proof.
  intros [H1 H2 H3 H4 H5] Er Ej. constructor.
  - now rewrite Er, Ej.
  - intros _. exact Ej.
  - intros p Hp. rewrite Ej in Hp. discriminate.
  - intros p Hp. apply in_app_iff in Hp as [Hp|Hp]; [now apply H4|].
    destruct (helloReject c) as [q|] eqn:Eq; [|contradiction].
    destruct Hp as [<-|[]]. now apply H3.
  - destruct (helloReject c) as [q|] eqn:Eq; [|now rewrite app_nil_r].
    apply NoDup_snoc; [exact H5|]. now apply H3.
Qed.

Lemma hello_handleDisconnect (err : option JsError) :
  stable hello_invariant (handleDisconnect err).
Proof.
  intros w tr H. unfold hello_invariant in *.
  rewrite handleDisconnect_spec. cbv zeta.
  assert (Hgen : forall c',
             helloResolve c' = helloResolve (forgetHello (this w)) ->
             helloReject c' = helloReject (forgetHello (this w)) ->
             connected c' = false ->
             handshake (handles (rt w)) c'
               (hello_settled tr ++ hello_settled (helloRejectEffects err (this w)))).
  { intros c' Er Ej Ec. rewrite hello_settled_helloRejectEffects.
    unfold forgetHello in Er, Ej.
    destruct (helloRejected (this w)) eqn:Eh.
    - eapply handshake_settle; [exact H|..]; assumption.
    - rewrite app_nil_r. eapply handshake_weaken; [exact H|..]; auto.
      intro Hc. rewrite Ec in Hc. discriminate. }
  destruct (negb (connected (this w)) && negb (is_some (socket (this w)))) eqn:Eg;
    unfold world_of, effects_of; cbn [fst snd this rt handles set_timers].
  - rewrite hello_settled_app. apply Hgen; try reflexivity.
    apply andb_true_iff in Eg as [Eg _]. apply negb_true_iff in Eg.
    unfold forgetHello. destruct (helloRejected (this w)); exact Eg.
  - rewrite !hello_settled_app, hello_settled_rejectEffects. cbn [hello_settled].
    rewrite !app_nil_r. apply Hgen; reflexivity.
Qed.

Lemma step_keeps_hello_invariant (ev : Event) : stable hello_invariant (step ev).
Proof.
  apply stable_step.
  - (* hello-ok *)
    intros frame w tr H. unfold hello_invariant in *.
    rewrite case_hello_ok_spec. unfold world_of, effects_of. cbn [fst snd this rt].
    rewrite hello_settled_app.
    replace (hello_settled (match helloResolve (this w) with
                            | Some h => [HelloResolve h; Notify (onConnected frame)]
                            | None => [Notify (onConnected frame)]
                            end))
      with (match helloReject (this w) with Some p => [p] | None => [] end)
      by (rewrite <- (hs_same H); destruct (helloResolve (this w)); reflexivity).
    eapply handshake_settle; [exact H|..]; reflexivity.
  - (* pair-ok *)
    intro frame. apply hello_same. intro w. rewrite case_pair_ok_spec.
    destruct (ToString _); [destruct (is_empty _)|]; unfold world_of, effects_of; cbn; auto.
  - (* error *)
    intros frame w tr H. rewrite case_error_spec.
    destruct (ToString _); [|unfold world_of, effects_of, hello_invariant in *; cbn;
                              now rewrite app_nil_r].
    destruct (_ || _).
    + unfold world_of, effects_of, hello_invariant in *. cbn [fst snd this rt].
      rewrite hello_settled_app.
      replace (hello_settled (Notify onAuthReset :: _)) with (@nil nat)
        by (cbn; destruct (socket (this w)); reflexivity).
      rewrite app_nil_r. eapply handshake_weaken; [exact H|..]; auto.
    + destruct (ToString _); [now apply hello_handleDisconnect|].
      unfold world_of, effects_of, hello_invariant in *; cbn. now rewrite app_nil_r.
  - (* ping *)
    intro frame. apply hello_same. intro w. rewrite case_ping_spec.
    destruct (ToString _); unfold world_of, effects_of; cbn; auto.
    destruct (socket (this w)); auto.
  - (* res *)
    intro frame. apply hello_same. intro w. rewrite case_res_spec.
    destruct (Map_get_value _ _) as [[p [t|]]|]; unfold world_of, effects_of; cbn; auto.
  - intro n. apply hello_same. intro w. cbn. auto.
  - intro b. apply hello_same. intro w. cbn. auto.
  - (* connect *)
    intros w tr H. rewrite connect_spec. cbv zeta.
    destruct (connected (this w)) eqn:Ec; unfold world_of, effects_of, hello_invariant in *;
      cbn [fst snd this rt handles].
    + now rewrite app_nil_r.
    + rewrite hello_settled_app.
      replace (hello_settled [_; _]) with (@nil nat)
        by (destruct (tls (opts (this w))); reflexivity).
      rewrite app_nil_r. destruct H as [H1 H2 H3 H4 H5]. constructor; cbn.
      * reflexivity.
      * rewrite Ec. discriminate.
      * intros p Hp. injection Hp as <-. split; [lia|].
        intro Hin. apply H4 in Hin. lia.
      * intros p Hp. apply H4 in Hp. lia.
      * exact H5.
  - (* close *)
    apply hello_same. intro w. rewrite close_spec. cbv zeta.
    unfold world_of, effects_of. cbn.
    repeat split; auto; try discriminate.
    rewrite hello_settled_app, hello_settled_rejectEffects.
    destruct (socket (this w)); reflexivity.
  - (* send *)
    intro frame. apply hello_same. intro w. rewrite send_spec.
    unfold world_of, effects_of. cbn. destruct (socket (this w)); auto.
  - apply hello_handleDisconnect.
  - (* secureConnect *)
    intros sock cert w tr H.
    unfold bind, dropSecureOnce, runtime, set_runtime. simpl.
    rewrite onSecureConnect_spec. cbv zeta.
    match goal with |- context [if ?b then _ else _] => destruct b end.
    + unfold world_of, effects_of, hello_invariant in *. cbn. now rewrite app_nil_r.
    + match goal with |- context [handleDisconnect ?e ?w0] =>
        pose proof (@hello_handleDisconnect e w0 tr H) as H1;
        destruct (handleDisconnect e w0) as [[c w'] ef] end.
      unfold world_of, effects_of, hello_invariant in *. cbn in *.
      rewrite hello_settled_app in *. cbn. now rewrite hello_settled_app, app_nil_r.
  - (* timer *)
    intro tm. apply hello_same. intro w. rewrite timer_fired_spec.
    destruct (find_timer _ _); unfold world_of, effects_of; cbn; auto.
  - (* request *)
    intros id method params ms. apply hello_same. intro w. rewrite request_spec. cbv zeta.
    unfold world_of, effects_of. cbn. repeat split; auto.
    destruct (socket (this w)); reflexivity.
Qed.

Lemma reachable_hello_invariant (o : BridgeClientOptions) (evs : list Event) :
  hello_invariant (final (run evs (boot o))) (effects (run evs (boot o))).
Proof.
  apply (@stable_run hello_invariant step_keeps_hello_invariant evs (boot o) []).
  constructor; cbn; try reflexivity; try discriminate; try constructor; intros; contradiction.
Qed.

(** X3: along every run of a client, no [connect] promise is settled twice:
    once resolved by a [hello-ok] frame or rejected by a disconnect, it is
    given up.  In every state reached, [helloResolve] and [helloReject] name
    the same promise or are both empty, a connected client holds neither,
    the promise they name has not been settled, and the promise a call of
    [connect] would create has not been settled either. *)
Theorem connect_promise_settled_once (o : BridgeClientOptions) (evs : list Event) :
  let r := run evs (boot o) in
  let w := final r in
  NoDup (hello_settled (effects r))
  /\ helloResolve (this w) = helloReject (this w)
  /\ (connected (this w) = true -> helloReject (this w) = None)
  /\ (forall h, helloReject (this w) = Some h -> ~ In h (hello_settled (effects r)))
  /\ (forall h, completion_of (connect w) = Normal (Some h) ->
                ~ In h (hello_settled (effects r))).
Proof.
  intros r w.
  pose proof (reachable_hello_invariant o evs) as H. fold r in H. fold w in H.
  destruct H as [H1 H2 H3 H4 H5].
  split; [exact H5|]. split; [exact H1|]. split; [exact H2|].
  split.
  - intros h Hh. now apply H3.
  - intros h Hh. rewrite connect_spec in Hh. cbv zeta in Hh.
    destruct (connected (this w)); [discriminate Hh|].
    unfold completion_of in Hh. cbn in Hh. injection Hh as <-.
    intro Hin. apply H4 in Hin. lia.
Qed.

(** X4: the handshake.  On a client that is not connected, [connect] returns
    a new promise; the [hello-ok] frame that follows resolves exactly that
    promise, calls [onConnected] with the frame and leaves the client
    connected.  From then on [connect] returns at once, opens no socket and
    changes nothing, and one more [hello-ok] frame only calls [onConnected]
    again. *)
Theorem hello_ok_completes_connect (w : World) (frame : JValue) :
  connected (this w) = false ->
  getField "type" frame = Some (JStr (js "hello-ok")) ->
  let h := handles (rt w) in
  let w1 := world_of (connect w) in
  let w2 := world_of (handleFrame frame w1) in
  completion_of (connect w) = Normal (Some h)
  /\ handleFrame frame w1
     = (Normal tt, w2, [HelloResolve h; Notify (onConnected frame)])
  /\ connected (this w2) = true
  /\ helloResolve (this w2) = None /\ helloReject (this w2) = None
  /\ connect w2 = (Normal None, w2, [])
  /\ handleFrame frame w2 = (Normal tt, w2, [Notify (onConnected frame)]).
Proof.
  intros Hc Hty h w1 w2. unfold w2, w1.
  rewrite !(handleFrame_typed _ _ Hty), !dispatch_hello_ok.
  rewrite connect_spec. cbv zeta. rewrite Hc.
  unfold world_of, completion_of. cbn [fst snd].
  rewrite !case_hello_ok_spec. cbn [fst snd this rt helloResolve set_socket set_helloReject
                                     set_helloResolve set_connected].
  repeat split.
Qed.

(** A fresh client: [connect], then the gateway's [hello-ok]. *)
Lemma hello_ok_completes_connect_witness :
  let frame := frameOf [("type", JStr (js "hello-ok")); ("serverName", JStr (js "gw"))] in
  let w1 := world_of (connect (boot exampleOptions)) in
  effects_of (handleFrame frame w1) = [HelloResolve 0; Notify (onConnected frame)]
  /\ connect (world_of (handleFrame frame w1))
     = (Normal None, world_of (handleFrame frame w1), []).
Proof.
  intros frame w1.
  destruct (@hello_ok_completes_connect (boot exampleOptions) frame eq_refl eq_refl)
    as [_ [H [_ [_ [_ [Hc _]]]]]].
  split; [|exact Hc].
  unfold w1. now rewrite H.
Defined.

Lemma handleDisconnect_settles (err : option JsError) (w : World) :
  (connected (this w) = true -> helloReject (this w) = None) ->
  let w1 := world_of (handleDisconnect err w) in
  connected (this w1) = false /\ socket (this w1) = None /\ helloReject (this w1) = None.
Proof.
  intros Hinv w1. unfold w1.
  destruct (handleDisconnect_state err w) as [Hc [Hs Hh]].
  split; [exact Hc|]. split; [exact Hs|].
  destruct (connected (this w)) eqn:Ec; [|now apply Hh].
  rewrite handleDisconnect_spec. cbv zeta. rewrite Ec. cbn [negb andb].
  unfold world_of. cbn. unfold forgetHello, helloRejected. rewrite Ec. cbn.
  now apply Hinv.
Qed.

Lemma handleDisconnect_nothing (err : option JsError) (w : World) :
  connected (this w) = false -> socket (this w) = None -> helloReject (this w) = None ->
  handleDisconnect err w = (Normal tt, w, []).
Proof.
  intros Hc Hs Hh. rewrite handleDisconnect_spec. cbv zeta.
  rewrite Hc, Hs. cbn [negb is_some andb].
  unfold helloRejectEffects, forgetHello, helloRejected. rewrite Hc, Hh. cbn.
  destruct w. reflexivity.
Qed.

(** X5: one disconnect is reported once.  In every state a run reaches, after
    the [error] event of a socket the [close] event of that socket (Node
    emits both) does nothing at all: no promise is rejected a second time
    and [onDisconnected] is not called again.  More generally a second
    [handleDisconnect] right after a first one is a no-op. *)
Theorem disconnect_reported_once
        (o : BridgeClientOptions) (evs : list Event) (sock : nat) (err : JsError) :
  let w := final (run evs (boot o)) in
  let w1 := world_of (step (SockError sock err) w) in
  step (SockClose sock) w1 = (Normal tt, w1, [])
  /\ (forall e1 e2,
         let w' := world_of (handleDisconnect e1 w) in
         handleDisconnect e2 w' = (Normal tt, w', [])).
Proof.
  intros w w1.
  pose proof (reachable_hello_invariant o evs) as H. fold w in H.
  pose proof (hs_connected H) as Hinv.
  assert (Hsecond : forall e1 e2,
             handleDisconnect e2 (world_of (handleDisconnect e1 w))
             = (Normal tt, world_of (handleDisconnect e1 w), [])).
  { intros e1 e2. destruct (@handleDisconnect_settles e1 w Hinv) as [Hc [Hs Hh]].
    now apply handleDisconnect_nothing. }
  split; [|exact Hsecond].
  unfold w1, step. rewrite !step_listening_spec.
  destruct (mem sock (listeners (rt w))) eqn:Hm.
  - pose proof (sockets_handleDisconnect (Some err) w) as Hsk.
    unfold sockets_of in Hsk. injection Hsk as _ Hl _.
    rewrite Hl, Hm. apply Hsecond.
  - unfold world_of. cbn [fst snd]. now rewrite Hm.
Qed.

(** ** A second [connect] while the first is pending *)

Lemma orphaned_same (h : nat) {A} (m : M A) :
  (forall w,
      handles (rt w) <= handles (rt (world_of (m w)))
      /\ helloResolve (this (world_of (m w))) = helloResolve (this w)
      /\ helloReject (this (world_of (m w))) = helloReject (this w)
      /\ hello_settled (effects_of (m w)) = []) ->
  stable (orphaned h) m.
Proof.
  intros E w tr [H1 [H2 [H3 H4]]]. destruct (E w) as [E1 [E2 [E3 E4]]].
  unfold orphaned. rewrite E2, E3, hello_settled_app, E4, app_nil_r.
  repeat split; try assumption. lia.
Qed.

Lemma orphaned_handleDisconnect (h : nat) (err : option JsError) :
  stable (orphaned h) (handleDisconnect err).
Proof.
  intros w tr [H1 [H2 [H3 H4]]]. rewrite handleDisconnect_spec. cbv zeta.
  assert (Hf : helloResolve (forgetHello (this w)) <> Some h
               /\ helloReject (forgetHello (this w)) <> Some h).
  { unfold forgetHello. destruct (helloRejected (this w)); cbn; split;
      try assumption; discriminate. }
  assert (Hs : ~ In h (hello_settled tr ++ hello_settled (helloRejectEffects err (this w)))).
  { rewrite hello_settled_helloRejectEffects. intro Hin.
    apply in_app_iff in Hin as [Hin|Hin]; [now apply H4|].
    destruct (helloRejected (this w)); [|contradiction].
    destruct (helloReject (this w)) as [q|]; [|contradiction].
    destruct Hin as [->|[]]. now apply H3. }
  destruct Hf as [Hf1 Hf2].
  destruct (negb _ && negb _); unfold orphaned, world_of, effects_of; cbn.
  - rewrite hello_settled_app. repeat split; assumption.
  - rewrite !hello_settled_app, hello_settled_rejectEffects. cbn. rewrite app_nil_r.
    repeat split; assumption.
Qed.

Lemma step_keeps_orphaned (h : nat) (ev : Event) : stable (orphaned h) (step ev).
Proof.
  apply stable_step.
  - (* hello-ok *)
    intros frame w tr [H1 [H2 [H3 H4]]]. rewrite case_hello_ok_spec.
    unfold orphaned, world_of, effects_of. cbn.
    rewrite hello_settled_app.
    repeat split; try assumption; try discriminate.
    intro Hin. apply in_app_iff in Hin as [Hin|Hin]; [now apply H4|].
    destruct (helloResolve (this w)) as [q|]; cbn in Hin; [|contradiction].
    destruct Hin as [->|[]]. now apply H2.
  - intro frame. apply orphaned_same. intro w. rewrite case_pair_ok_spec.
    destruct (ToString _); [destruct (is_empty _)|]; unfold world_of, effects_of; cbn; auto.
  - (* error *)
    intros frame w tr H. rewrite case_error_spec.
    destruct (ToString _);
      [|unfold world_of, effects_of; cbn; now rewrite app_nil_r].
    destruct (_ || _).
    + destruct H as [H1 [H2 [H3 H4]]].
      unfold orphaned, world_of, effects_of. cbn [fst snd this rt].
      rewrite hello_settled_app.
      replace (hello_settled (Notify onAuthReset :: _)) with (@nil nat)
        by (cbn; destruct (socket (this w)); reflexivity).
      rewrite app_nil_r. repeat split; assumption.
    + destruct (ToString _); [now apply orphaned_handleDisconnect|].
      unfold world_of, effects_of; cbn. now rewrite app_nil_r.
  - intro frame. apply orphaned_same. intro w. rewrite case_ping_spec.
    destruct (ToString _); unfold world_of, effects_of; cbn; auto.
    destruct (socket (this w)); auto.
  - intro frame. apply orphaned_same. intro w. rewrite case_res_spec.
    destruct (Map_get_value _ _) as [[p [t|]]|]; unfold world_of, effects_of; cbn; auto.
  - intro n. apply orphaned_same. intro w. cbn. auto.
  - intro b. apply orphaned_same. intro w. cbn. auto.
  - (* connect *)
    intros w tr [H1 [H2 [H3 H4]]]. rewrite connect_spec. cbv zeta.
    destruct (connected (this w)); unfold orphaned, world_of, effects_of; cbn.
    + rewrite app_nil_r. repeat split; assumption.
    + rewrite hello_settled_app.
      replace (hello_settled [_; _]) with (@nil nat)
        by (destruct (tls (opts (this w))); reflexivity).
      rewrite app_nil_r. repeat split; try assumption; try lia.
      * intro E. injection E as E. lia.
      * intro E. injection E as E. lia.
  - apply orphaned_same. intro w. rewrite close_spec. cbv zeta.
    unfold world_of, effects_of. cbn. repeat split; auto.
    rewrite hello_settled_app, hello_settled_rejectEffects.
    destruct (socket (this w)); reflexivity.
  - intro frame. apply orphaned_same. intro w. rewrite send_spec.
    unfold world_of, effects_of. cbn. destruct (socket (this w)); auto.
  - apply orphaned_handleDisconnect.
  - intros sock cert w tr H.
    unfold bind, dropSecureOnce, runtime, set_runtime. simpl.
    rewrite onSecureConnect_spec. cbv zeta.
    match goal with |- context [if ?b then _ else _] => destruct b end.
    + unfold world_of, effects_of. cbn. now rewrite app_nil_r.
    + match goal with |- context [handleDisconnect ?e ?w0] =>
        pose proof (@orphaned_handleDisconnect h e w0 tr H) as H1;
        destruct (handleDisconnect e w0) as [[c w'] ef] end.
      unfold orphaned, world_of, effects_of in *. cbn in *.
      rewrite hello_settled_app in *. cbn. now rewrite hello_settled_app, app_nil_r.
  - intro tm. apply orphaned_same. intro w. rewrite timer_fired_spec.
    destruct (find_timer _ _); unfold world_of, effects_of; cbn; auto.
  - intros id method params ms. apply orphaned_same. intro w. rewrite request_spec. cbv zeta.
    unfold world_of, effects_of. cbn. repeat split; auto.
    destruct (socket (this w)); reflexivity.
Qed.

(** X6: a second [connect] before the first attempt has ended.  On a client
    that is not connected, two calls of [connect] in a row create two
    promises and open two sockets; the second call does not destroy the
    first socket, and after it the first promise is out of the client's
    hands: whatever happens afterwards, it is neither resolved nor
    rejected. *)
Theorem second_connect_orphans_first (w : World) (evs : list Event) :
  connected (this w) = false ->
  let h1 := handles (rt w) in
  let w1 := world_of (connect w) in
  let w2 := world_of (connect w1) in
  completion_of (connect w) = Normal (Some h1)
  /\ completion_of (connect w1) = Normal (Some (S (S h1)))
  /\ socket (this w1) = Some (S h1)
  /\ socket (this w2) = Some (S (S (S h1)))
  /\ forallb (fun e => negb (is_destroy e)) (effects_of (connect w1)) = true
  /\ mem (S h1) (listeners (rt w2)) = true
  /\ ~ In h1 (hello_settled (effects (run evs w2))).
Proof.
  intros Hc h1 w1 w2.
  assert (E1 : connect w = (Normal (Some h1), w1,
                            effects_of (connect w))).
  { unfold w1, world_of, effects_of. rewrite connect_spec. cbv zeta. rewrite Hc.
    reflexivity. }
  assert (Hw1 : connected (this w1) = false /\ handles (rt w1) = S (S h1)
                /\ socket (this w1) = Some (S h1)
                /\ mem (S h1) (listeners (rt w1)) = true).
  { unfold w1, world_of. rewrite connect_spec. cbv zeta. rewrite Hc.
    cbn [fst snd this rt connected handles socket listeners
         set_socket set_helloReject set_helloResolve].
    repeat split; try assumption. apply mem_last. }
  destruct Hw1 as [Hc1 [Hh1 [Hs1 Hl1]]].
  assert (Hw2 : handles (rt w2) = S (S (S (S h1)))
                /\ socket (this w2) = Some (S (S (S h1)))
                /\ helloResolve (this w2) = Some (S (S h1))
                /\ helloReject (this w2) = Some (S (S h1))
                /\ listeners (rt w2) = listeners (rt w1) ++ [S (S (S h1))]).
  { unfold w2, world_of. rewrite (connect_spec w1). cbv zeta. rewrite Hc1, Hh1. cbn.
    repeat split. }
  destruct Hw2 as [Hh2 [Hs2 [Hr2 [Hj2 Hl2]]]].
  split; [now rewrite E1|].
  split; [rewrite (connect_spec w1); cbv zeta; rewrite Hc1, Hh1; reflexivity|].
  split; [exact Hs1|]. split; [exact Hs2|].
  split; [rewrite (connect_spec w1); cbv zeta; rewrite Hc1;
          unfold effects_of; cbn; destruct (tls (opts (this w1))); reflexivity|].
  split.
  { rewrite Hl2. unfold mem in *. rewrite existsb_app, Hl1. reflexivity. }
  assert (Ho : orphaned h1 w2 []).
  { unfold orphaned. rewrite Hh2, Hr2, Hj2. repeat split; try lia.
    - intro E. injection E as E. lia.
    - intro E. injection E as E. lia.
    - intros []. }
  pose proof (@stable_run (orphaned h1) (fun ev => @step_keeps_orphaned h1 ev) evs w2 [] Ho) as H.
  destruct H as [_ [_ [_ H]]]. exact H.
Qed.

(** Two calls of [connect] on a fresh client; then the gateway greets and
    later the socket fails: promise 0 is left alone. *)
Lemma second_connect_orphans_first_witness :
  let w2 := world_of (connect (world_of (connect (boot exampleOptions)))) in
  let evs := [SockData 3 (jsq "{'type':'hello-ok'}" ++ LF);
              SockError 1 (newError (js "read ECONNRESET")); SockClose 1] in
  hello_settled (effects (run evs w2)) = [2]
  /\ ~ In 0 (hello_settled (effects (run evs w2))).
Proof.
  intros w2 evs. split; [reflexivity|].
  destruct (@second_connect_orphans_first (boot exampleOptions) evs eq_refl)
    as [_ [_ [_ [_ [_ [_ H]]]]]].
  exact H.
Defined.

(** ** Timers and table entries go together *)

Lemma In_clearTimers (x : nat * Timeout) (m : RpcMap) (ts : list (nat * Timeout)) :
  In x (clearTimers m ts) ->
  In x ts /\ forall k p, In (k, p) m -> timer p <> Some (fst x).
Proof.
  revert ts. induction m as [|[k0 p0] m IH]; intros ts H; simpl in H.
  - split; [exact H|]. intros k p [].
  - destruct (timer p0) as [t0|] eqn:Et.
    + apply IH in H as [H1 H2]. apply In_drop_timer in H1 as [H1 Hne].
      split; [exact H1|]. intros k p [E|Hin]; [|exact (H2 k p Hin)].
      injection E as <- <-. rewrite Et. intro E. injection E as E. now apply Hne.
    + apply IH in H as [H1 H2]. split; [exact H1|].
      intros k p [E|Hin]; [|exact (H2 k p Hin)].
      injection E as <- <-. rewrite Et. discriminate.
Qed.

Lemma owned_cleared (w : World) (c : BridgeClient) (r : Runtime) :
  timers_owned w ->
  pendingRpc c = [] ->
  timers r = clearTimers (pendingRpc (this w)) (timers (rt w)) ->
  timers_owned (mkWorld c r).
Proof.
  intros H Ec Er t cb Hin. cbn in Hin. rewrite Er in Hin.
  apply In_clearTimers in Hin as [Hin Hno].
  destruct (H t cb Hin) as [p [Hp Ht]].
  apply Map_get_In in Hp. now elim (Hno _ _ Hp).
Qed.

Lemma owned_same {A} (m : M A) :
  (forall w,
      timers (rt (world_of (m w))) = timers (rt w)
      /\ pendingRpc (this (world_of (m w))) = pendingRpc (this w)) ->
  stable (fun w _ => timers_owned w) m.
Proof.
  intros E w tr H t cb Hin. destruct (E w) as [E1 E2].
  rewrite E1 in Hin. rewrite E2. now apply H.
Qed.

Lemma owned_handleDisconnect (err : option JsError) :
  stable (fun w _ => timers_owned w) (handleDisconnect err).
Proof.
  intros w tr H. rewrite handleDisconnect_spec. cbv zeta.
  destruct (negb _ && negb _); unfold world_of; cbn [fst snd].
  - intros t cb Hin. cbn in Hin.
    replace (pendingRpc (this (mkWorld (forgetHello (this w)) (rt w))))
      with (pendingRpc (this w))
      by (cbn; unfold forgetHello; destruct (helloRejected (this w)); reflexivity).
    now apply H.
  - eapply owned_cleared; [exact H|reflexivity|reflexivity].
Qed.

Lemma owned_delete (w : World) (k : jsstring) (pending : PendingRpc) :
  timers_owned w ->
  Map_get k (pendingRpc (this w)) = Some pending ->
  timers_owned
    (mkWorld (set_pendingRpc (Map_delete k (pendingRpc (this w))) (this w))
             (match timer pending with
              | Some t => set_timers (drop_timer t (timers (rt w))) (rt w)
              | None => rt w
              end)).
Proof.
  intros H Hk t cb Hin. cbn [this rt pendingRpc set_pendingRpc].
  assert (Hold : In (t, cb) (timers (rt w)) /\ timer pending <> Some t).
  { destruct (timer pending) as [t0|]; cbn in Hin.
    - apply In_drop_timer in Hin as [Hin Hne]. split; [exact Hin|].
      intro E. injection E as E. now apply Hne.
    - split; [exact Hin|discriminate]. }
  destruct Hold as [Hold Hne].
  destruct (H t cb Hold) as [p [Hp Ht]].
  exists p. split; [|exact Ht].
  rewrite Map_get_delete_other; [exact Hp|].
  intro E. rewrite E, Hk in Hp. injection Hp as <-. now apply Hne.
Qed.

Lemma owned_timer_fired (tm : nat) : stable (fun w _ => timers_owned w) (step (TimerFired tm)).
Proof.
  intros w tr H. rewrite timer_fired_spec.
  destruct (find_timer tm (timers (rt w))) as [cb|] eqn:Ef; [|exact H].
  apply find_timer_In in Ef.
  destruct (H tm cb Ef) as [p [Hp Ht]].
  pose proof (@owned_delete w (t_id cb) p H Hp) as Hd. rewrite Ht in Hd. exact Hd.
Qed.

Lemma owned_request (id method : jsstring) (params : option JValue) (ms : N) (w : World) :
  timers_owned w ->
  Map_get id (pendingRpc (this w)) = None ->
  timers_owned (world_of (request id method params ms w)).
Proof.
  intros H Hid. rewrite request_spec. cbv zeta. unfold world_of. cbn [fst snd].
  intros t cb Hin. cbn in Hin. cbn [this pendingRpc set_pendingRpc].
  apply in_app_iff in Hin as [Hin|[E|[]]].
  - destruct (H t cb Hin) as [p [Hp Ht]]. exists p. split; [|exact Ht].
    rewrite Map_get_set_other; [exact Hp|].
    intro E. rewrite E, Hid in Hp. discriminate.
  - injection E as <- <-. cbn [t_id]. rewrite Map_get_set_same.
    eexists. split; reflexivity.
Qed.

Lemma owned_step_other (ev : Event) :
  (forall id method params ms, ev <> Request id method params ms) ->
  stable (fun w _ => timers_owned w) (step ev).
Proof.
  apply stable_step_other.
  - intro frame. apply owned_same. intro w. rewrite case_hello_ok_spec. cbn. auto.
  - intro frame. apply owned_same. intro w. rewrite case_pair_ok_spec.
    destruct (ToString _); [destruct (is_empty _)|]; cbn; auto.
  - intros frame w tr H. rewrite case_error_spec.
    destruct (ToString _); [|exact H].
    destruct (_ || _); [exact H|].
    destruct (ToString _); [now apply owned_handleDisconnect|exact H].
  - intro frame. apply owned_same. intro w. rewrite case_ping_spec.
    destruct (ToString _); cbn; auto.
  - intros frame w tr H. rewrite case_res_spec.
    destruct (getField "id" frame) as [[| | |k| |]|]; cbn [Map_get_value]; try exact H.
    destruct (Map_get k (pendingRpc (this w))) as [pending|] eqn:Ek; [|exact H].
    unfold world_of. cbn [fst snd Map_delete_value]. now apply (@owned_delete w k pending H Ek).
  - intro n. apply owned_same. intro w. cbn. auto.
  - intro b. apply owned_same. intro w. cbn. auto.
  - apply owned_same. intro w. rewrite connect_spec. cbv zeta.
    destruct (connected (this w)); cbn; auto.
  - intros w tr H. rewrite close_spec. cbv zeta. unfold world_of. cbn [fst snd].
    eapply owned_cleared; [exact H|reflexivity|reflexivity].
  - intro frame. apply owned_same. intro w. rewrite send_spec. cbn. auto.
  - apply owned_handleDisconnect.
  - intros sock cert w tr H.
    unfold bind, dropSecureOnce, runtime, set_runtime. simpl.
    rewrite onSecureConnect_spec. cbv zeta.
    match goal with |- context [if ?b then _ else _] => destruct b end.
    + exact H.
    + match goal with |- context [handleDisconnect ?e ?w0] =>
        pose proof (@owned_handleDisconnect e w0 tr H) as H1;
        destruct (handleDisconnect e w0) as [[c w'] ef] end.
      exact H1.
  - apply owned_timer_fired.
Qed.

Lemma reachable_timers_owned (evs : list Event) (w : World) :
  timers_owned w -> fresh_ids evs w -> timers_owned (final (run evs w)).
Proof.
  revert w. induction evs as [|ev evs IH]; intros w H Hf; [exact H|].
  destruct Hf as [Hid Hf]. cbn [run].
  assert (Hs : timers_owned (world_of (step ev w))).
  { assert (Hother : (forall id method params ms, ev <> Request id method params ms) ->
                      timers_owned (world_of (step ev w))).
    { intro Hne. exact (@owned_step_other ev Hne w [] H). }
    destruct ev as [ | |id method params ms| | | | | | | | ];
      try (apply Hother; discriminate).
    unfold step, bind.
    pose proof (@owned_request id method params ms w H Hid) as Hr.
    destruct (request id method params ms w) as [[[p| |] w1] e1]; exact Hr. }
  destruct (step ev w) as [[[[]| |] w1] e1]; cbn [final]; unfold world_of in *; cbn in *.
  - now apply IH.
  - exact Hs.
  - exact Hs.
Qed.

Lemma nil_of_no_member {A} (l : list A) : (forall x, ~ In x l) -> l = [].
Proof. destruct l as [|a l]; [reflexivity|]. intro H. elim (H a). now left. Qed.

Lemma owned_clearTimers (w : World) :
  timers_owned w -> clearTimers (pendingRpc (this w)) (timers (rt w)) = [].
Proof.
  intro H. apply nil_of_no_member. intros [t cb] Hin.
  apply In_clearTimers in Hin as [Hin Hno].
  destruct (H t cb Hin) as [p [Hp Ht]].
  apply Map_get_In in Hp. now elim (Hno _ _ Hp).
Qed.

(** X7: no timer outlives its call.  Along a run in which [request] is never
    called with an id that is still in the table (ids are drawn by
    [crypto.randomUUID()]), every armed timer belongs to the table entry
    filed under its id.  So an empty table means that no timer is armed,
    and after [close()], or after a disconnect of a client that was
    connected or held a socket, no timer of the client is left armed. *)
Theorem no_timer_outlives_its_call (o : BridgeClientOptions) (evs : list Event) :
  fresh_ids evs (boot o) ->
  let w := final (run evs (boot o)) in
  (forall t cb,
      In (t, cb) (timers (rt w)) ->
      exists pending,
        Map_get (t_id cb) (pendingRpc (this w)) = Some pending /\ timer pending = Some t)
  /\ (pendingRpc (this w) = [] -> timers (rt w) = [])
  /\ timers (rt (world_of (close w))) = []
  /\ (forall err,
         connected (this w) = true \/ socket (this w) <> None ->
         timers (rt (world_of (handleDisconnect err w))) = []).
Proof.
  intros Hf w.
  assert (H : timers_owned w).
  { apply reachable_timers_owned; [|exact Hf]. intros t cb []. }
  split; [exact H|].
  split.
  { intro He. pose proof (owned_clearTimers H) as Hc. now rewrite He in Hc. }
  split.
  { rewrite close_spec. cbv zeta. unfold world_of. cbn. now apply owned_clearTimers. }
  intros err Hor. rewrite handleDisconnect_spec. cbv zeta.
  replace (negb (connected (this w)) && negb (is_some (socket (this w)))) with false.
  - unfold world_of. cbn. now apply owned_clearTimers.
  - destruct Hor as [Hc|Hs]; [now rewrite Hc|].
    destruct (socket (this w)); [now rewrite andb_false_r|now elim Hs].
Qed.

(** Two calls, one answered, then [close()]: the timer of the answered call
    was cleared by the answer, the other one by [close()]. *)
Lemma no_timer_outlives_its_call_witness :
  let evs := [Connect;
              Request (js "id-1") (js "skills.bins") None 5000%N;
              Request (js "id-2") (js "skills.bins") None 5000%N;
              SockData 1 (jsq "{'type':'res','id':'id-1','ok':true}" ++ LF)] in
  let w := final (run evs (boot exampleOptions)) in
  map fst (timers (rt w)) = [5]
  /\ timers (rt (world_of (close w))) = [].
Proof.
  intros evs w. split; [reflexivity|].
  assert (Hf : fresh_ids evs (boot exampleOptions)).
  { repeat split; reflexivity. }
  destruct (@no_timer_outlives_its_call exampleOptions evs Hf) as [_ [_ [H _]]].
  exact H.
Defined.

(** ** Lines and chunks *)

Lemma indexOf_split (c : N) (s : jsstring) (idx : nat) :
  indexOf c s = Some idx ->
  exists text more, s = text ++ c :: more /\ ~ In c text /\ List.length text = idx.
Proof.
  revert idx. induction s as [|x s IH]; simpl; intros idx H; [discriminate|].
  destruct (N.eqb_spec x c) as [->|Hne].
  - injection H as <-. exists [], s. repeat split. intros [].
  - destruct (indexOf c s) as [i|]; [|discriminate]. injection H as <-.
    destruct (IH i eq_refl) as [text [more [-> [Hno Hlen]]]].
    exists (x :: text), more. repeat split.
    + intros [E|Hin]; [now apply Hne|now apply Hno].
    + simpl. now rewrite Hlen.
Qed.

Lemma indexOf_None_notin (c : N) (s : jsstring) : indexOf c s = None -> ~ In c s.
Proof.
  induction s as [|x s IH]; simpl; intro H; [intros []|].
  destruct (N.eqb_spec x c) as [->|Hne]; [discriminate|].
  destruct (indexOf c s); [discriminate|].
  intros [E|Hin]; [now apply Hne|now apply IH].
Qed.

(** When the loop of [flush] ends normally, no whole line is left. *)
Lemma flush_loop_leaves_no_line (n : nat) (w w' : World) (e : list Effect) :
  flush_loop n w = (Normal tt, w', e) -> ~ In 10%N (buffer (this w')).
Proof.
  revert w w' e. induction n as [|n IH]; intros w w' e H; [discriminate H|].
  cbn [flush_loop] in H. unfold bind at 1, self at 1 in H.
  destruct (indexOf 10%N (buffer (this w))) as [idx|] eqn:Ei.
  - unfold bind at 1, assign at 1 in H.
    set (w1 := mkWorld (set_buffer (sliceFrom (idx + 1) (buffer (this w))) (this w)) (rt w))
      in H.
    destruct (is_empty _).
    { destruct (flush_loop n w1) as [[c w2] e2] eqn:E2.
      injection H as Hc Hw He. subst. eapply IH. exact E2. }
    destruct (JSON_parse _) as [frame r| |].
    + unfold bind in H.
      destruct (handleFrame frame w1) as [[[[]| |] w2] e2]; try discriminate H.
      destruct (flush_loop n w2) as [[c w3] e3] eqn:E3.
      injection H as Hc Hw He. subst. eapply IH. exact E3.
    + destruct (flush_loop n w1) as [[c w2] e2] eqn:E2.
      injection H as Hc Hw He. subst. eapply IH. exact E2.
    + discriminate H.
  - injection H as <- <-. now apply indexOf_None_notin.
Qed.

(** Only received data changes the buffer. *)
Lemma step_keeps_buffer (ev : Event) (w : World) :
  (forall sock chunk, ev <> SockData sock chunk) ->
  buffer (this (world_of (step ev w))) = buffer (this w).
Proof.
  intro Hev.
  assert (Hd : forall err w0,
             buffer (this (world_of (handleDisconnect err w0))) = buffer (this w0)).
  { intros err w0. rewrite handleDisconnect_spec. cbv zeta.
    destruct (negb _ && negb _); unfold world_of; simpl;
      unfold forgetHello; destruct (helloRejected (this w0)); reflexivity. }
  destruct ev; unfold step.
  - unfold bind. rewrite connect_spec. cbv zeta.
    destruct (connected (this w)); reflexivity.
  - rewrite close_spec. reflexivity.
  - unfold bind. rewrite request_spec. reflexivity.
  - unfold sendEvent. rewrite send_spec. reflexivity.
  - unfold sendInvokeResponse. rewrite send_spec. reflexivity.
  - rewrite step_listening_spec.
    destruct (mem sock (listeners (rt w))); [|reflexivity].
    rewrite sendHello_spec. reflexivity.
  - rewrite step_listening_spec.
    destruct (mem sock (listeners (rt w))); [apply Hd|reflexivity].
  - rewrite step_listening_spec.
    destruct (mem sock (listeners (rt w))); [apply Hd|reflexivity].
  - now elim (Hev sock chunk).
  - unfold bind, runtime.
    destruct (mem sock (secureOnce (rt w))); [|reflexivity].
    unfold dropSecureOnce, bind, runtime, set_runtime. simpl.
    rewrite onSecureConnect_spec. cbv zeta.
    match goal with |- context [if ?b then _ else _] => destruct b end;
      [reflexivity|].
    match goal with |- context [handleDisconnect ?e ?w0] =>
      pose proof (Hd e w0) as H;
      destruct (handleDisconnect e w0) as [[c w'] ef] end.
    unfold world_of in *. simpl in *. exact H.
  - unfold bind, runtime.
    destruct (find_timer tm (timers (rt w))); reflexivity.
Qed.

(** X8: between two events the buffer never holds a whole line.  Along a
    run that no exception has ended, the buffer of the client contains no
    line feed: every data event consumes all the lines it completes and
    keeps only the unfinished rest, and no other event touches the buffer. *)
Theorem buffer_holds_no_whole_line (o : BridgeClientOptions) (evs : list Event) :
  let r := run evs (boot o) in
  uncaught r = None ->
  ~ In 10%N (buffer (this (final r)))
  /\ (forall ev, (forall sock chunk, ev <> SockData sock chunk) ->
                 buffer (this (world_of (step ev (final r)))) = buffer (this (final r))).
Proof.
  intros r Hu. split; [|intros ev Hev; now apply step_keeps_buffer].
  unfold r in *. clear r.
  assert (Hgen : forall w, ~ In 10%N (buffer (this w)) ->
                           uncaught (run evs w) = None ->
                           ~ In 10%N (buffer (this (final (run evs w))))).
  { clear. induction evs as [|ev evs IH]; intros w Hw Hu; [exact Hw|].
    cbn [run] in *.
    assert (Hs : forall w1 e1, step ev w = (Normal tt, w1, e1) ->
                               ~ In 10%N (buffer (this w1))).
    { intros w1 e1 E.
      assert (Hother : (forall sock chunk, ev <> SockData sock chunk) ->
                       ~ In 10%N (buffer (this w1))).
      { intro Hne. pose proof (@step_keeps_buffer ev w Hne) as Hb.
        rewrite E in Hb. unfold world_of in Hb. cbn in Hb. now rewrite Hb. }
      destruct ev as [ | | | | | | | |sock chunk| | ]; try (apply Hother; discriminate).
      unfold step in E. rewrite step_listening_spec in E.
      destruct (mem sock (listeners (rt w))); [|now injection E as <- _].
      unfold bind at 1, self at 1 in E. unfold bind at 1, assign at 1 in E.
      unfold flush in E. unfold bind at 1, self at 1 in E.
      destruct (flush_loop _ _) as [[c w2] e2] eqn:E2.
      cbn in E. injection E as Ec Ew Ee. subst.
      eapply flush_loop_leaves_no_line. exact E2. }
    pose proof (step_finishes ev w) as Hfin.
    destruct (step ev w) as [[[[]| |] w1] e1]; cbn in *.
    - apply IH; [now apply (Hs w1 e1)|exact Hu].
    - discriminate Hu.
    - now elim Hfin. }
  apply Hgen; [intros []|exact Hu].
Qed.

(** One frame and the beginning of the next in a single chunk: the frame is
    handled, the beginning is kept. *)
Lemma buffer_holds_no_whole_line_witness :
  let evs := [Connect; SockData 1 (jsq "{'type':'pong'}" ++ LF ++ jsq "{'type':'hel")] in
  buffer (this (final (run evs (boot exampleOptions)))) = jsq "{'type':'hel"
  /\ ~ In 10%N (buffer (this (final (run evs (boot exampleOptions))))).
Proof.
  intro evs. split; [reflexivity|].
  destruct (@buffer_holds_no_whole_line exampleOptions evs eq_refl) as [H _].
  exact H.
Defined.

(** [handleFrame] neither reads nor writes the buffer. *)
Lemma handleDisconnect_blind (err : option JsError) (b : jsstring) (w : World) :
  handleDisconnect err (with_buffer b w)
  = (completion_of (handleDisconnect err w),
     with_buffer b (world_of (handleDisconnect err w)),
     effects_of (handleDisconnect err w)).
Proof.
  rewrite !handleDisconnect_spec. cbv zeta.
  destruct w as [[o so bu pe co hr hj] r].
  unfold with_buffer, forgetHello, helloRejected, helloRejectEffects, disconnected.
  cbn [this rt connected socket helloReject pendingRpc set_buffer opts buffer helloResolve].
  destruct co, so, hj; reflexivity.
Qed.

Lemma handleFrame_blind (frame : JValue) (b : jsstring) (w : World) :
  handleFrame frame (with_buffer b w)
  = (completion_of (handleFrame frame w),
     with_buffer b (world_of (handleFrame frame w)),
     effects_of (handleFrame frame w)).
Proof.
  unfold handleFrame, property, toStr.
  destruct frame; try reflexivity; mret;
    (destruct (ToString _) as [type|]; [|reflexivity]); mret;
    unfold dispatch;
    repeat match goal with
           | |- context [if ?c then _ else _] => destruct c
           end;
    try reflexivity;
    first [ rewrite !case_hello_ok_spec; reflexivity
          | rewrite !case_pair_ok_spec;
            destruct (ToString _); [destruct (is_empty _)|]; reflexivity
          | rewrite !case_error_spec;
            destruct (ToString _); [|reflexivity];
            destruct (_ || _); [reflexivity|];
            destruct (ToString _); [|reflexivity];
            apply handleDisconnect_blind
          | rewrite !case_ping_spec; destruct (ToString _); reflexivity
          | rewrite !case_res_spec;
            cbn [with_buffer this pendingRpc set_buffer];
            destruct (Map_get_value _ _) as [[p [t|]]|]; reflexivity ].
Qed.

(** One turn of the loop of [flush]. *)
Lemma flush_loop_turn (n : nat) (w : World) :
  flush_loop (S n) w =
  match indexOf 10%N (buffer (this w)) with
  | None => (Normal tt, w, [])
  | Some idx =>
      let line := trim (slice 0 idx (buffer (this w))) in
      let w1 := mkWorld (set_buffer (sliceFrom (idx + 1) (buffer (this w))) (this w)) (rt w) in
      if is_empty line then flush_loop n w1
      else match JSON_parse line with
           | PErr => flush_loop n w1
           | PFuel => (Unfinished, w1, [])
           | POk frame _ => (handleFrame frame ;; flush_loop n) w1
           end
  end.
Proof.
  cbn [flush_loop]. unfold bind at 1, self at 1.
  destruct (indexOf 10%N (buffer (this w))) as [idx|]; [|reflexivity].
  unfold bind at 1, assign at 1. cbv zeta.
  destruct (is_empty _).
  - destruct (flush_loop n _) as [[c w2] e2]. reflexivity.
  - destruct (JSON_parse _) as [frame r| |].
    + destruct ((handleFrame frame ;; flush_loop n) _) as [[c w2] e2]. reflexivity.
    + destruct (flush_loop n _) as [[c w2] e2]. reflexivity.
    + reflexivity.
Qed.

(** More turns than needed change nothing. *)
Lemma flush_loop_more_turns (n k : nat) (w : World) :
  completion_of (flush_loop n w) <> Unfinished ->
  flush_loop (n + k) w = flush_loop n w.
Proof.
  revert w. induction n as [|n IH]; intros w H; [now elim H|].
  cbn [Nat.add]. rewrite !flush_loop_turn. rewrite flush_loop_turn in H.
  destruct (indexOf 10%N (buffer (this w))) as [idx|]; [|reflexivity].
  cbv zeta in *.
  set (w1 := mkWorld (set_buffer (sliceFrom (idx + 1) (buffer (this w))) (this w)) (rt w))
    in *.
  destruct (is_empty _); [now apply IH|].
  destruct (JSON_parse _) as [frame r| |]; [|now apply IH|reflexivity].
  unfold bind in *.
  destruct (handleFrame frame w1) as [[[[]| |] w2] e2]; try reflexivity.
  rewrite IH; [reflexivity|].
  destruct (flush_loop n w2) as [[c w3] e3]. exact H.
Qed.

(** The loop on a buffer followed by more data: first what the loop does on
    the buffer alone, then the loop on what that left, followed by the
    data. *)
Lemma flush_loop_append (n m : nat) (b : jsstring) :
  forall (w w' : World) (e : list Effect),
    flush_loop n w = (Normal tt, w', e) ->
    List.length (buffer (this w') ++ b) < m ->
    flush_loop (n + m) (with_buffer (buffer (this w) ++ b) w)
    = (completion_of (flush_loop m (with_buffer (buffer (this w') ++ b) w')),
       world_of (flush_loop m (with_buffer (buffer (this w') ++ b) w')),
       e ++ effects_of (flush_loop m (with_buffer (buffer (this w') ++ b) w'))).
Proof.
  induction n as [|n IH]; intros w w' e H Hm; [discriminate H|].
  destruct (indexOf 10%N (buffer (this w))) as [idx|] eqn:Ei.
  - destruct (indexOf_split _ _ Ei) as [text [more [Eb [Hno Hlen]]]].
    rewrite (@flush_loop_line n w text more Hno Eb) in H. cbv zeta in H.
    assert (Eb' : buffer (this (with_buffer (buffer (this w) ++ b) w))
                  = text ++ 10%N :: (more ++ b)).
    { cbn. rewrite Eb, <- app_assoc. reflexivity. }
    cbn [Nat.add].
    rewrite (@flush_loop_line (n + m) _ text (more ++ b) Hno Eb'). cbv zeta.
    change (mkWorld (set_buffer (more ++ b) (this (with_buffer (buffer (this w) ++ b) w)))
                    (rt (with_buffer (buffer (this w) ++ b) w)))
      with (with_buffer (more ++ b) w).
    set (w1 := mkWorld (set_buffer more (this w)) (rt w)) in *.
    assert (Ew1 : with_buffer (more ++ b) w = with_buffer (buffer (this w1) ++ b) w1)
      by reflexivity.
    destruct (is_empty (trim text)).
    { rewrite Ew1. now apply IH. }
    destruct (JSON_parse (trim text)) as [frame r| |].
    + unfold bind in H.
      pose proof (handleFrame_buffer frame w1) as Hb.
      destruct (handleFrame frame w1) as [[[[]| |] w2] e2] eqn:Eh; try discriminate H.
      destruct (flush_loop n w2) as [[c w3] e3] eqn:E3.
      injection H as Hc Hw He. subst c w3 e.
      unfold bind.
      replace (with_buffer (more ++ b) w) with (with_buffer (more ++ b) w1) by reflexivity.
      rewrite handleFrame_blind, Eh.
      unfold completion_of, world_of, effects_of. cbn [fst snd].
      unfold world_of in Hb. cbn in Hb.
      replace (with_buffer (more ++ b) w2) with (with_buffer (buffer (this w2) ++ b) w2)
        by (rewrite Hb; reflexivity).
      rewrite (IH w2 w' e3 E3 Hm).
      unfold completion_of, world_of, effects_of. cbn [fst snd].
      now rewrite app_assoc.
    + rewrite Ew1. now apply IH.
    + discriminate H.
  - rewrite (@flush_loop_no_line n w) in H by now apply indexOf_None_notin.
    injection H as <- <-. cbn [app].
    replace (S n + m) with (m + S n) by lia.
    rewrite flush_loop_more_turns.
    + destruct (flush_loop m _) as [[c w2] e2]. reflexivity.
    + apply flush_loop_finishes. exact Hm.
Qed.

Lemma step_keeps_listening (sock : nat) (ev : Event) (w : World) :
  mem sock (listeners (rt w)) = true ->
  mem sock (listeners (rt (world_of (step ev w)))) = true.
Proof.
  intro H.
  apply (@step_keeps_sockets (fun s => mem sock (snd (fst s)) = true)) with (tr := []);
    cbn; try (intros; assumption); try exact H.
  - intros h l s Hl. unfold mem in *. now rewrite existsb_app, Hl.
  - intros h l s Hl. unfold mem in *. now rewrite existsb_app, Hl.
Qed.

(** Text that arrives in two data events is handled as the same text
    arriving in one. *)
Lemma data_in_two_pieces
      (sock : nat) (a b : jsstring) (w w1 : World) (e1 : list Effect) :
  step (SockData sock a) w = (Normal tt, w1, e1) ->
  step (SockData sock (a ++ b)) w
  = (completion_of (step (SockData sock b) w1),
     world_of (step (SockData sock b) w1),
     e1 ++ effects_of (step (SockData sock b) w1)).
Proof.
  intro Ha.
  destruct (mem sock (listeners (rt w))) eqn:Hm.
  - assert (Hm1 : mem sock (listeners (rt w1)) = true).
    { pose proof (@step_keeps_listening sock (SockData sock a) w Hm) as H.
      now rewrite Ha in H. }
    rewrite data_listening_spec in Ha by exact Hm.
    rewrite !data_listening_spec by assumption.
    set (w0 := mkWorld (set_buffer (buffer (this w) ++ a) (this w)) (rt w)) in *.
    set (n := S (List.length (buffer (this w) ++ a))) in *.
    set (m := S (List.length (buffer (this w1) ++ b))).
    change (mkWorld (set_buffer (buffer (this w1) ++ b) (this w1)) (rt w1))
      with (with_buffer (buffer (this w1) ++ b) w1).
    assert (Hm' : List.length (buffer (this w1) ++ b) < m) by (unfold m; lia).
    pose proof (@flush_loop_append n m b w0 w1 e1 Ha Hm') as Happ.
    replace (with_buffer (buffer (this w0) ++ b) w0)
      with (mkWorld (set_buffer (buffer (this w) ++ a ++ b) (this w)) (rt w)) in Happ
      by (unfold w0, with_buffer; cbn; now rewrite app_assoc).
    rewrite <- Happ.
    set (x := mkWorld (set_buffer (buffer (this w) ++ a ++ b) (this w)) (rt w)).
    replace (n + m)
      with (S (List.length (buffer (this w) ++ a ++ b))
            + (n + m - S (List.length (buffer (this w) ++ a ++ b)))).
    + symmetry. apply flush_loop_more_turns.
      apply flush_loop_finishes. unfold x. cbn. lia.
    + unfold n, m. rewrite !length_app. lia.
  - unfold step in Ha. rewrite step_listening_spec, Hm in Ha.
    injection Ha as Ew Ee. subst w1 e1.
    unfold step. rewrite !step_listening_spec, Hm. reflexivity.
Qed.

(** X9: each chunk is decoded on its own.  When the data event for a Buffer
    [c1] ends normally, the events for [c1] and then for [c2] do what one
    data event with the text [toString c1 ++ toString c2] does: the same
    frames are handled in the same order, with the same effects and the same
    final state.  So they do what the one event for the Buffer [c1 ++ c2]
    does whenever decoding the whole gives the two decoded parts one after
    the other, which a chunk boundary inside a character of several bytes
    breaks. *)
Theorem chunks_are_decoded_one_by_one
        (toString : Buffer -> jsstring)
        (sock : nat) (c1 c2 : Buffer) (w w1 : World) (e1 : list Effect) :
  onData toString sock c1 w = (Normal tt, w1, e1) ->
  let second := onData toString sock c2 w1 in
  let both := (completion_of second, world_of second, e1 ++ effects_of second) in
  step (SockData sock (toString c1 ++ toString c2)) w = both
  /\ (toString (c1 ++ c2) = toString c1 ++ toString c2 ->
      onData toString sock (c1 ++ c2) w = both)
  /\ (mem sock (listeners (rt w)) = true ->
      indexOf 10%N (buffer (this w) ++ toString c1) = None ->
      w1 = with_buffer (buffer (this w) ++ toString c1) w /\ e1 = []).
Proof.
  intros Ha second both. unfold both, second, onData in *. clear second both.
  split; [exact (@data_in_two_pieces _ _ _ _ _ _ Ha)|]. split.
  - intro E. rewrite E. exact (@data_in_two_pieces _ _ _ _ _ _ Ha).
  - intros Hl Hno. rewrite (data_listening_spec _ _ _ Hl) in Ha.
    cbn [flush_loop] in Ha. unfold bind at 1, self at 1 in Ha.
    cbn [this buffer set_buffer] in Ha. rewrite Hno in Ha.
    injection Ha as <- <-. split; reflexivity.
Qed.

(** An [event] frame whose text holds U+00E9, two bytes in UTF-8.  Cut
    between the two bytes, the frame arrives with two U+FFFD in its place;
    in one Buffer it arrives as sent. *)
Lemma chunks_are_decoded_one_by_one_witness :
  let w := world_of (connect (boot exampleOptions)) in
  let c1 := jsq "{'type':'event','event':'" ++ [195%N] in
  let c2 := [169%N] ++ jsq "'}" ++ LF in
  let w1 := world_of (onData utf8_toString 1 c1 w) in
  let arrived (text : jsstring) :=
    [Notify (onEvent (frameOf [("type", JStr (js "event")); ("event", JStr text)]))] in
  step (SockData 1 (utf8_toString c1 ++ utf8_toString c2)) w
  = (Normal tt, world_of (onData utf8_toString 1 c2 w1), arrived [65533%N; 65533%N])
  /\ effects_of (onData utf8_toString 1 (c1 ++ c2) w) = arrived [233%N].
Proof.
  intros w c1 c2 w1 arrived.
  split; [|reflexivity].
  exact (proj1 (@chunks_are_decoded_one_by_one utf8_toString 1 c1 c2 w w1 [] eq_refl)).
Defined.

(** ** What is written is made of code units *)

Lemma hex_digit_code_unit (n : N) : (n < 16)%N -> code_unit (hex_digit n).
Proof. unfold hex_digit, code_unit. destruct (N.ltb_spec n 10); lia. Qed.

Lemma quote_unit_code_units (c x : N) : code_unit c -> In x (quote_unit c) -> code_unit x.
Proof.
  unfold quote_unit, code_unit. intro Hc.
  repeat match goal with
         | |- context [(c =? ?k)%N] => destruct (N.eqb_spec c k)
         end;
    try (cbn; intros H; repeat (destruct H as [<-|H]; [lia|]); contradiction).
  destruct (_ || _).
  - unfold unicode_escape, hex4. cbn.
    intros H. repeat (destruct H as [<-|H];
                      [first [lia | apply hex_digit_code_unit; apply N.mod_lt; lia]|]).
    contradiction.
  - cbn. intros [<-|[]]. exact Hc.
Qed.

Lemma quote_units_code_units (n : nat) :
  forall s, List.length s <= n -> Forall code_unit s ->
            forall x, In x (quote_units s) -> code_unit x.
Proof.
  induction n as [|n IH]; intros s Hn Hs x.
  - destruct s; [intros []|simpl in Hn; lia].
  - destruct s as [|c s]; [intros []|]. simpl in Hn. cbn [quote_units].
    inversion Hs as [|? ? Hc Hr]; subst.
    destruct (is_high_surrogate c).
    + destruct s as [|d s]; [now apply (@quote_unit_code_units c x Hc)|].
      inversion Hr as [|? ? Hd Hr']; subst.
      destruct (is_low_surrogate d).
      * simpl in Hn. intros [<-|[<-|H]]; try assumption.
        revert H. apply IH; [lia|exact Hr'].
      * intro H. apply in_app_iff in H as [H|H].
        -- now apply (@quote_unit_code_units c x Hc).
        -- revert H. apply IH; [simpl in *; lia|exact Hr].
    + intro H. apply in_app_iff in H as [H|H].
      * now apply (@quote_unit_code_units c x Hc).
      * revert H. apply IH; [lia|exact Hr].
Qed.

Lemma quote_code_units (s : jsstring) (x : N) :
  Forall code_unit s -> In x (quote s) -> code_unit x.
Proof.
  intros Hs. unfold quote. intros [<-|H]; [unfold code_unit; lia|].
  apply in_app_iff in H as [H|[<-|[]]]; [|unfold code_unit; lia].
  now apply (@quote_units_code_units (List.length s) s (le_n _) Hs).
Qed.

Lemma numeral_char_code_unit (c : N) : numeral_char c = true -> code_unit c.
Proof.
  unfold numeral_char, is_digit, code_unit. intro H.
  repeat match type of H with
         | (_ || _) = true => apply orb_true_iff in H as [H|H]
         end;
    try (apply N.eqb_eq in H; lia).
  apply andb_true_iff in H as [_ H]. apply N.leb_le in H. lia.
Qed.

Lemma stringify_code_units (v : JValue) :
  json_wf v -> forall x, In x (stringify v) -> code_unit x.
Proof.
  induction v as [ | b | t | s | items IH | members IH ] using JValue_induction;
    intros Hwf x.
  - intro H. vm_compute in H. unfold code_unit.
    repeat (destruct H as [<-|H]; [lia|]). contradiction.
  - destruct b; intro H; vm_compute in H; unfold code_unit;
      repeat (destruct H as [<-|H]; [lia|]); contradiction.
  - intro H. apply numeral_char_code_unit.
    apply scan_number_chars in Hwf. rewrite forallb_forall in Hwf. now apply Hwf.
  - now apply quote_code_units.
  - rewrite stringify_arr. apply json_wf_items in Hwf.
    intros [<-|H]; [unfold code_unit; lia|].
    apply in_app_iff in H as [H|[<-|[]]]; [|unfold code_unit; lia].
    apply In_join in H as [H|[p [Hp Hc]]];
      [vm_compute in H; destruct H as [<-|[]]; unfold code_unit; lia|].
    apply in_map_iff in Hp as [y [<- Hy]].
    rewrite Forall_forall in IH, Hwf. now apply (IH y Hy (Hwf y Hy)).
  - rewrite stringify_obj. apply json_wf_members in Hwf as [_ Hwf].
    intros [<-|H]; [unfold code_unit; lia|].
    apply in_app_iff in H as [H|[<-|[]]]; [|unfold code_unit; lia].
    apply In_join in H as [H|[p [Hp Hc]]];
      [vm_compute in H; destruct H as [<-|[]]; unfold code_unit; lia|].
    unfold member_texts in Hp. apply in_map_iff in Hp as [[k y] [<- Hy]].
    cbn [fst snd] in Hc. rewrite Forall_forall in IH, Hwf.
    apply in_app_iff in Hc as [Hc|Hc]; [|destruct Hc as [Hc|Hc]].
    + apply (@quote_code_units k x (proj1 (Hwf (k, y) Hy)) Hc).
    + vm_compute in Hc. subst x. unfold code_unit; lia.
    + now apply (IH (k, y) Hy (proj2 (Hwf (k, y) Hy))).
Qed.

Lemma stringify_wf_string (v : JValue) : json_wf v -> json_wf (JStr (stringify v)).
Proof.
  intro H. cbn. apply Forall_forall. now apply stringify_code_units.
Qed.

(** ** One frame, one line *)

Lemma one_line_stringify (frame : JValue) : json_wf frame -> one_line (stringify frame ++ LF).
Proof.
  intro H. unfold one_line, LF.
  rewrite indexOf_first by now apply stringify_no_LF.
  rewrite length_app. cbn. f_equal. lia.
Qed.

Lemma js_code_units (s : string) : Forall code_unit (js s).
Proof.
  unfold js. apply Forall_forall. intros x Hx.
  apply in_map_iff in Hx as [a [<- _]]. unfold code_unit.
  pose proof (N_ascii_bounded a). lia.
Qed.

Lemma json_wf_reqFrame (id method : jsstring) (params : option JValue) :
  Forall code_unit id -> Forall code_unit method ->
  match params with Some p => json_wf p | None => True end ->
  json_wf (reqFrame id method params).
Proof.
  intros Hi Hm Hp. unfold reqFrame. apply json_wf_members. split.
  - cbn [props map fst]. apply NoDup_by_compute. reflexivity.
  - cbn [props]. repeat constructor; cbn [fst snd]; try apply js_code_units;
      try assumption; try exact I.
    destruct params as [p|]; [|exact I].
    destruct (truthy p); [now apply stringify_wf_string|exact I].
Qed.

Lemma json_wf_eventFrame (event : jsstring) (payload : option JValue) :
  Forall code_unit event ->
  match payload with Some p => json_wf p | None => True end ->
  json_wf (JObj (props
    [("type", Some (JStr (js "event")));
     ("event", Some (JStr event));
     ("payloadJSON", Some (match payload with
                           | Some p => if truthy p then JStr (stringify p) else JNull
                           | None => JNull
                           end))])).
Proof.
  intros He Hp. apply json_wf_members. split.
  - cbn [props map fst]. apply NoDup_by_compute. reflexivity.
  - cbn [props]. repeat constructor; cbn [fst snd]; try apply js_code_units;
      try assumption; try exact I.
    destruct payload as [p|]; [|exact I].
    destruct (truthy p); [now apply stringify_wf_string|exact I].
Qed.

(** X10: one frame, one line.  Whatever [request], [sendEvent] and
    [sendInvokeResponse] write is a single line: the text of the frame
    holds no line feed ([JSON.stringify] escapes the line feeds of strings,
    also inside a method name or a payload), and one line feed ends it. *)
Theorem writes_are_single_lines
        (w : World) (id method event : jsstring) (params payload : option JValue)
        (frame : JValue) (ms : N) :
  Forall code_unit id -> Forall code_unit method -> Forall code_unit event ->
  match params with Some p => json_wf p | None => True end ->
  match payload with Some p => json_wf p | None => True end ->
  json_wf frame ->
  Forall one_line (writes (effects_of (request id method params ms w)))
  /\ Forall one_line (writes (effects_of (sendEvent event payload w)))
  /\ Forall one_line (writes (effects_of (sendInvokeResponse frame w))).
Proof.
  intros Hi Hm He Hp Hq Hf.
  rewrite request_spec. cbv zeta. unfold sendEvent, sendInvokeResponse.
  rewrite !send_spec. unfold effects_of. cbn [snd writes flat_map app].
  destruct (socket (this w)) as [sock|]; cbn [writes flat_map app].
  - repeat split; repeat constructor; apply one_line_stringify.
    + now apply json_wf_reqFrame.
    + now apply json_wf_eventFrame.
    + exact Hf.
  - repeat split; constructor.
Qed.

(** A method name with a line feed in it: the frame still is one line. *)
Lemma writes_are_single_lines_witness :
  let w := world_of (connect (boot exampleOptions)) in
  let method := js "skills" ++ LF ++ js "bins" in
  writes (effects_of (request (js "id-1") method None 5000%N w))
  = [jsq "{'type':'req','id':'id-1','method':'skills\nbins','paramsJSON':null}" ++ LF]
  /\ Forall one_line (writes (effects_of (request (js "id-1") method None 5000%N w))).
Proof.
  intros w method. split; [reflexivity|].
  assert (Hcu : forall s, Forall code_unit (js s)) by apply js_code_units.
  assert (Hm : Forall code_unit method).
  { unfold method. repeat (apply Forall_app; split); try apply Hcu.
    repeat constructor. }
  destruct (@writes_are_single_lines w (js "id-1") method (js "exec.started") None None
              (JObj []) 5000%N (Hcu _) Hm (Hcu _) I I (conj (NoDup_nil _) I)) as [H _].
  exact H.
Defined.

(** ** Frames as they arrive *)

(** A printed object, received whole by a client with an empty buffer, is
    handled as the object. *)
Lemma data_printed_object (members : list (jsstring * JValue)) (sock : nat) (w : World) :
  json_wf (JObj members) ->
  mem sock (listeners (rt w)) = true ->
  buffer (this w) = [] ->
  step (SockData sock (stringify (JObj members) ++ LF)) w = handleFrame (JObj members) w.
Proof.
  intros Hwf Hl Hb.
  rewrite (data_listening_spec _ _ _ Hl), Hb. cbn [app].
  match goal with |- flush_loop _ ?w0 = _ =>
    pose proof (@flush_printed_object members w0 Hwf eq_refl) as H end.
  cbn [this buffer set_buffer] in H. rewrite H.
  f_equal. clear -Hb. destruct w as [[o so bu pe co hr hj] r].
  simpl in *. now subst.
Qed.

Lemma getField_wf (k : string) (frame v : JValue) :
  json_wf frame -> getField k frame = Some v -> json_wf v.
Proof.
  destruct frame as [ | | | | |members]; try discriminate.
  intros Hwf. apply json_wf_members in Hwf as [_ Hwf]. unfold getField.
  induction members as [|[k' x] ms IH]; [discriminate|].
  inversion Hwf as [|? ? [_ Hx] Hr]; subst. cbn [obj_get].
  destruct (jseqb k' (js k)).
  - intro E. injection E as <-. exact Hx.
  - now apply IH.
Qed.

Lemma dispatch_ping frame : dispatch (js "ping") frame = case_ping frame.
Proof. reflexivity. Qed.

(** X11: a [ping] is answered by a [pong] with the same id.  A [ping] frame
    with a string id (or none: the empty string then), received as a line
    on a socket the client listens on, makes the client write one line on
    the socket it holds, and nothing else; read back as [flush] reads, that
    line is a [pong] frame carrying the id of the [ping].  A client without
    a socket answers nothing. *)
Theorem ping_is_answered
        (members : list (jsstring * JValue)) (id : option jsstring)
        (in_sock : nat) (w : World) :
  let frame := JObj members in
  let s := match id with Some s => s | None => [] end in
  let pong := JObj [(js "type", JStr (js "pong")); (js "id", JStr s)] in
  json_wf frame ->
  getField "type" frame = Some (JStr (js "ping")) ->
  getField "id" frame = option_map JStr id ->
  mem in_sock (listeners (rt w)) = true ->
  buffer (this w) = [] ->
  step (SockData in_sock (stringify frame ++ LF)) w
  = (Normal tt, w,
     match socket (this w) with
     | Some sock => [SocketWrite sock (stringify pong ++ LF)]
     | None => []
     end)
  /\ JSON_parse (trim (stringify pong)) = POk pong [].
Proof.
  intros frame s pong Hwf Hty Hid Hl Hb.
  assert (Hs : Forall code_unit s).
  { unfold s. destruct id as [x|]; [|constructor].
    exact (@getField_wf "id" frame (JStr x) Hwf Hid). }
  assert (Hpong : json_wf pong).
  { apply json_wf_members. split.
    - apply NoDup_by_compute. reflexivity.
    - repeat constructor; cbn [fst snd]; try apply js_code_units; exact Hs. }
  split.
  - unfold frame. rewrite (@data_printed_object members in_sock w Hwf Hl Hb).
    rewrite (handleFrame_typed _ _ Hty), dispatch_ping, case_ping_spec.
    fold frame. rewrite Hid.
    replace (ToString (nullish (option_map JStr id) (JStr []))) with (Some s)
      by (destruct id; reflexivity).
    reflexivity.
  - unfold pong. rewrite trim_stringify_obj. now apply JSON_parse_stringify.
Qed.

(** The gateway pings with id 42 (a string). *)
Lemma ping_is_answered_witness :
  let w := world_of (connect (boot exampleOptions)) in
  step (SockData 1 (jsq "{'type':'ping','id':'42'}" ++ LF)) w
  = (Normal tt, w, [SocketWrite 1 (jsq "{'type':'pong','id':'42'}" ++ LF)]).
Proof.
  intro w.
  assert (Hwf : json_wf (JObj [(js "type", JStr (js "ping")); (js "id", JStr (js "42"))])).
  { cbn. repeat split; repeat constructor; cbn; intuition discriminate. }
  destruct (@ping_is_answered
              [(js "type", JStr (js "ping")); (js "id", JStr (js "42"))]
              (Some (js "42")) 1 w Hwf eq_refl eq_refl eq_refl eq_refl) as [H _].
  exact H.
Defined.

(** ** Payloads: JSON inside JSON *)

Lemma stringify_not_empty (v : JValue) : json_wf v -> is_empty (stringify v) = false.
Proof.
  intro H. destruct (stringify_head v H) as [c [r [-> _]]]. reflexivity.
Qed.

(** X12: the payload of [sendEvent].  On a client that holds a socket the
    frame written reads back as an [event] frame with the event name given.
    A payload that is truthy travels as a string, [JSON.stringify] of the
    payload, and parsing that string gives the payload back.  A payload that
    is falsy (absent, [null], [false], [0], the empty string) travels as
    [null]: on the wire it cannot be told from no payload. *)
Theorem sendEvent_payload
        (w : World) (sock : nat) (event : jsstring) (payload : option JValue) :
  socket (this w) = Some sock ->
  Forall code_unit event ->
  match payload with Some p => json_wf p | None => True end ->
  exists frame,
    sendEvent event payload w = (Normal tt, w, [SocketWrite sock (stringify frame ++ LF)])
    /\ JSON_parse (trim (stringify frame)) = POk frame []
    /\ getField "type" frame = Some (JStr (js "event"))
    /\ getField "event" frame = Some (JStr event)
    /\ match payload with
       | Some p =>
           if truthy p then
             getField "payloadJSON" frame = Some (JStr (stringify p))
             /\ JSON_parse (stringify p) = POk p []
           else
             getField "payloadJSON" frame = Some JNull
             /\ sendEvent event payload w = sendEvent event None w
       | None => getField "payloadJSON" frame = Some JNull
       end.
Proof.
  intros Hs He Hp.
  pose proof (@json_wf_eventFrame event payload He Hp) as Hwf.
  eexists. split; [unfold sendEvent; rewrite send_spec, Hs; reflexivity|].
  split; [rewrite trim_stringify_obj; now apply JSON_parse_stringify|].
  split; [reflexivity|]. split; [reflexivity|].
  destruct payload as [p|]; [|reflexivity].
  destruct (truthy p) eqn:Et.
  - split; [reflexivity|now apply JSON_parse_stringify].
  - split; [reflexivity|]. unfold sendEvent. now rewrite Et.
Qed.

(** An event with an object as payload, and one with the number 0. *)
Lemma sendEvent_payload_witness :
  let w := world_of (connect (boot exampleOptions)) in
  effects_of (sendEvent (js "exec.denied")
                        (Some (JObj [(js "reason", JStr (js "security=deny"))])) w)
  = [SocketWrite 1
       (jsq "{'type':'event','event':'exec.denied','payloadJSON':'{\'reason\':\'security=deny\'}'}"
        ++ LF)]
  /\ sendEvent (js "tick") (Some (JNum (js "0"))) w = sendEvent (js "tick") None w.
Proof.
  intro w. split; [reflexivity|].
  destruct (@sendEvent_payload w 1 (js "tick") (Some (JNum (js "0"))) eq_refl
              (js_code_units "tick") eq_refl) as [frame [_ [_ [_ [_ [_ H]]]]]].
  exact H.
Defined.

(** X13: what [request] returns to its caller once a [res] frame has
    resolved the call.  With a truthy [ok], a [payloadJSON] that holds the
    [JSON.stringify] text of a value gives that value back; a [payloadJSON]
    that is absent, [null] or empty gives [null]; one that is a string but
    no JSON makes the call throw a SyntaxError.  With a falsy or missing
    [ok] and no error message in the frame, the call throws "bridge request
    failed". *)
Theorem request_result (res : JValue) :
  res <> JNull ->
  (truthy_opt (getField "ok" res) = true ->
   (forall v, json_wf v ->
              getField "payloadJSON" res = Some (JStr (stringify v)) ->
              requestResult res = Normal v)
   /\ (truthy_opt (getField "payloadJSON" res) = false -> requestResult res = Normal JNull)
   /\ (forall t, getField "payloadJSON" res = Some (JStr t) -> t <> [] ->
                 JSON_parse t = PErr ->
                 requestResult res = Throw (mkError SyntaxError_ (js "Unexpected token"))))
  /\ (truthy_opt (getField "ok" res) = false ->
      (getField "error" res = None \/ getField "error" res = Some JNull
       \/ exists e, getField "error" res = Some e /\ getField "message" e = None) ->
      requestResult res = Throw (newError (js "bridge request failed"))).
Proof.
  intro Hres. split.
  - intro Hok. unfold requestResult.
    destruct res; try contradiction; rewrite Hok; cbn [negb]; repeat split.
    all: try (intros v Hv Hp; rewrite Hp; cbn [truthy ToString];
              rewrite (stringify_not_empty v Hv); cbn [negb];
              now rewrite (JSON_parse_stringify v Hv)).
    all: try (intro Hp; destruct (getField "payloadJSON" _) as [p|]; [|reflexivity];
              cbn in Hp; now rewrite Hp).
    all: intros t Hp Ht Hperr; rewrite Hp; cbn [truthy ToString];
      destruct t; [now elim Ht|]; cbn [is_empty negb]; now rewrite Hperr.
  - intros Hok Herr. unfold requestResult.
    destruct res; try contradiction; rewrite Hok; cbn [negb].
    all: destruct Herr as [->|[->|[e [-> He]]]]; try reflexivity.
    all: destruct e; try reflexivity; now rewrite He.
Qed.

(** The gateway answers with a list of names; and an answer without [ok]. *)
Lemma request_result_witness :
  requestResult (frameOf [("type", JStr (js "res")); ("id", JStr (js "id-1"));
                          ("ok", JBool true);
                          ("payloadJSON", JStr (jsq "{'bins':['git','rg']}"))])
  = Normal (JObj [(js "bins", JArr [JStr (js "git"); JStr (js "rg")])])
  /\ requestResult (frameOf [("type", JStr (js "res")); ("id", JStr (js "id-1"))])
     = Throw (newError (js "bridge request failed")).
Proof.
  split.
  - assert (Hwf : json_wf (JObj [(js "bins", JArr [JStr (js "git"); JStr (js "rg")])])).
    { cbn. repeat split; repeat constructor; cbn; intuition discriminate. }
    assert (Hne : frameOf [("type", JStr (js "res")); ("id", JStr (js "id-1"));
                           ("ok", JBool true);
                           ("payloadJSON", JStr (jsq "{'bins':['git','rg']}"))] <> JNull)
      by discriminate.
    destruct (request_result Hne) as [H _].
    destruct (H eq_refl) as [H1 _].
    exact (H1 _ Hwf eq_refl).
  - assert (Hne : frameOf [("type", JStr (js "res")); ("id", JStr (js "id-1"))] <> JNull)
      by discriminate.
    destruct (request_result Hne) as [_ H].
    exact (H eq_refl (or_introl eq_refl)).
Defined.

(** X14: parameters travel as JSON inside JSON.  The [req] frame of a
    [request] reads back from its line as the frame.  Parameters that are
    truthy travel as their JSON text in [paramsJSON], and [decodeParams] of
    it gives them back.  Parameters that are falsy ([null], [false], [0],
    the empty string) travel as [null], like absent ones, and
    [decodeParams] refuses that like a missing or empty [paramsJSON]:
    "INVALID_REQUEST: paramsJSON required". *)
Theorem request_params_round_trip (id method : jsstring) (p : JValue) :
  Forall code_unit id -> Forall code_unit method -> json_wf p ->
  let frame := reqFrame id method (Some p) in
  let refused := Throw (newError (js "INVALID_REQUEST: paramsJSON required")) in
  JSON_parse (trim (stringify frame)) = POk frame []
  /\ (truthy p = true ->
      getField "paramsJSON" frame = Some (JStr (stringify p))
      /\ NodeHost.decodeParams (getField "paramsJSON" frame) = Normal p)
  /\ (truthy p = false ->
      getField "paramsJSON" frame = Some JNull
      /\ NodeHost.decodeParams (getField "paramsJSON" frame) = refused)
  /\ getField "paramsJSON" (reqFrame id method None) = Some JNull
  /\ NodeHost.decodeParams (getField "paramsJSON" (reqFrame id method None)) = refused
  /\ NodeHost.decodeParams None = refused
  /\ NodeHost.decodeParams (Some (JStr [])) = refused.
Proof.
  intros Hi Hm Hp frame refused.
  split.
  { unfold frame, reqFrame. rewrite trim_stringify_obj.
    apply JSON_parse_stringify. now apply (@json_wf_reqFrame id method (Some p)). }
  assert (E : getField "paramsJSON" frame
              = Some (if truthy p then JStr (stringify p) else JNull)) by reflexivity.
  split.
  { intro Ht. rewrite E, Ht. split; [reflexivity|].
    unfold NodeHost.decodeParams.
    cbn [truthy ToString]. rewrite (stringify_not_empty p Hp). cbn [negb].
    now rewrite (JSON_parse_stringify p Hp). }
  split.
  { intro Hf. rewrite E, Hf. split; reflexivity. }
  repeat split.
Qed.

(** The parameters of a [system.which] call. *)
Lemma request_params_round_trip_witness :
  let p := JObj [(js "bins", JArr [JStr (js "git")])] in
  NodeHost.decodeParams
    (getField "paramsJSON" (reqFrame (js "id-1") (js "system.which") (Some p)))
  = Normal p.
Proof.
  intro p.
  assert (Hwf : json_wf p).
  { cbn. repeat split; repeat constructor; cbn; intuition discriminate. }
  destruct (@request_params_round_trip (js "id-1") (js "system.which") p
              (js_code_units "id-1") (js_code_units "system.which") Hwf) as [_ [H _]].
  exact (proj2 (H eq_refl)).
Defined.

(** ** [close()] *)

Lemma rejectEffects_no_notify (e : JsError) (m : RpcMap) :
  forallb (fun x => negb (is_notify x)) (rejectEffects e m) = true.
Proof.
  induction m as [|[k p] m IH]; [reflexivity|].
  cbn [rejectEffects flat_map]. rewrite forallb_app. fold (rejectEffects e m).
  rewrite IH. destruct (timer (snd (k, p))); reflexivity.
Qed.

(** X15: what [close()] does and does not do.  It rejects every pending call
    with "bridge client closed" and leaves the client without socket, not
    connected, with an empty table; a second [close()] does nothing.  It
    calls no callback ([onDisconnected] in particular) and does not settle
    the promise of a [connect] still waiting: that promise is rejected, with
    "bridge connection failed", only when the close event of the socket
    arrives, and that event then calls [onDisconnected] no more. *)
Theorem close_is_quiet (w : World) (sock : nat) :
  let out := close w in
  let w' := world_of out in
  completion_of out = Normal tt
  /\ (forall id pending,
         In (id, pending) (pendingRpc (this w)) ->
         In (RpcReject (promise pending) (newError (js "bridge client closed")))
            (effects_of out))
  /\ forallb (fun e => negb (is_notify e)) (effects_of out) = true
  /\ hello_settled (effects_of out) = []
  /\ helloReject (this w') = helloReject (this w)
  /\ socket (this w') = None /\ connected (this w') = false /\ pendingRpc (this w') = []
  /\ close w' = (Normal tt, w', [])
  /\ (mem sock (listeners (rt w)) = true ->
      effects_of (step (SockClose sock) w')
      = match helloReject (this w) with
        | Some h => [HelloReject h (newError (js "bridge connection failed"))]
        | None => []
        end).
Proof.
  intros out w'. unfold w', out. rewrite close_spec. cbv zeta.
  unfold completion_of, world_of, effects_of. cbn [fst snd].
  split; [reflexivity|].
  split.
  { intros id pending Hin. apply in_app_iff. right.
    now apply (rejectEffects_In _ _ _ _ Hin). }
  split.
  { rewrite forallb_app, rejectEffects_no_notify.
    destruct (socket (this w)); reflexivity. }
  split.
  { rewrite hello_settled_app, hello_settled_rejectEffects.
    destruct (socket (this w)); reflexivity. }
  split; [reflexivity|]. split; [reflexivity|]. split; [reflexivity|].
  split; [reflexivity|].
  split.
  { rewrite close_spec. cbv zeta. cbn. reflexivity. }
  intro Hl. unfold step. rewrite step_listening_spec. cbn [rt listeners set_timers].
  rewrite Hl, handleDisconnect_spec. cbv zeta. cbn.
  unfold helloRejectEffects. cbn. destruct (helloReject (this w)); reflexivity.
Qed.

(** [close()] while the handshake is still going on, with one call
    waiting. *)
Lemma close_is_quiet_witness :
  let w := final (run [Connect; Request (js "id-1") (js "skills.bins") None 5000%N]
                      (boot exampleOptions)) in
  effects_of (close w)
  = [SocketDestroy 1 None; ClearTimeout 3;
     RpcReject 2 (newError (js "bridge client closed"))]
  /\ effects_of (step (SockClose 1) (world_of (close w)))
     = [HelloReject 0 (newError (js "bridge connection failed"))].
Proof.
  intro w. split; [reflexivity|].
  destruct (close_is_quiet w 1) as [_ [_ [_ [_ [_ [_ [_ [_ [_ H]]]]]]]]].
  exact (H eq_refl).
Defined.

(** ** Frames that end the session, frames that change nothing *)

Lemma rejectEffects_no_destroy (e : JsError) (m : RpcMap) :
  forallb (fun x => negb (is_destroy x)) (rejectEffects e m) = true.
Proof.
  induction m as [|[k p] m IH]; [reflexivity|].
  cbn [rejectEffects flat_map]. rewrite forallb_app. fold (rejectEffects e m).
  rewrite IH. destruct (timer (snd (k, p))); reflexivity.
Qed.

Lemma disconnectEffects_no_destroy (err : option JsError) (c : BridgeClient) :
  forallb (fun x => negb (is_destroy x)) (disconnectEffects err c) = true.
Proof.
  unfold disconnectEffects, helloRejectEffects. rewrite forallb_app.
  destruct (negb (connected c)), (helloReject c), (is_some (socket c));
    cbn [andb negb forallb is_destroy app];
    rewrite ?forallb_app, ?rejectEffects_no_destroy; reflexivity.
Qed.

(** X16: an [error] frame with any other code than NOT_PAIRED and
    UNAUTHORIZED ends the session as a disconnect does, with the frame's
    [message] as the error ("bridge error" when the frame has none): the
    client ends not connected and without socket.  But the socket is only
    forgotten, never destroyed: nothing is written or destroyed, and the
    client keeps listening on it. *)
Theorem error_frame_forgets_socket
        (frame : JValue) (code msg : jsstring) (w : World) :
  getField "type" frame = Some (JStr (js "error")) ->
  ToString (nullish (getField "code" frame) (JStr [])) = Some code ->
  code <> js "NOT_PAIRED" -> code <> js "UNAUTHORIZED" ->
  ToString (nullish (getField "message" frame) (JStr (js "bridge error"))) = Some msg ->
  let err := newError msg in
  let out := handleFrame frame w in
  completion_of out = Normal tt
  /\ effects_of out = disconnectEffects (Some err) (this w)
  /\ forallb (fun e => negb (is_destroy e)) (effects_of out) = true
  /\ writes (effects_of out) = []
  /\ socket (this (world_of out)) = None
  /\ connected (this (world_of out)) = false
  /\ listeners (rt (world_of out)) = listeners (rt w).
Proof.
  intros Hty Hcode Hn1 Hn2 Hmsg err out. unfold out.
  rewrite (handleFrame_typed _ _ Hty), dispatch_error, case_error_spec, Hcode.
  rewrite (jseqb_neq Hn1), (jseqb_neq Hn2). cbn [orb]. rewrite Hmsg. fold err.
  pose proof (handleDisconnect_effects (Some err) w) as He.
  pose proof (handleDisconnect_normal (Some err) w) as Hn.
  pose proof (handleDisconnect_state (Some err) w) as Hs.
  pose proof (sockets_handleDisconnect (Some err) w) as Hk.
  cbv zeta in Hs. destruct Hs as [Hc [Hso _]].
  unfold sockets_of in Hk. injection Hk as _ Hl _.
  split; [exact Hn|]. split; [exact He|].
  split; [rewrite He; apply disconnectEffects_no_destroy|].
  split.
  { rewrite He. unfold disconnectEffects, helloRejectEffects, writes.
    rewrite flat_map_app.
    assert (Hr : forall e m, flat_map (fun e0 => match e0 with
                                                 | SocketWrite _ d => [d]
                                                 | _ => []
                                                 end) (rejectEffects e m) = []).
    { intros e m. induction m as [|[k p] m IH]; [reflexivity|].
      cbn [rejectEffects flat_map]. rewrite flat_map_app. fold (rejectEffects e m).
      rewrite IH. destruct (timer (snd (k, p))); reflexivity. }
    destruct (negb (connected (this w))), (helloReject (this w)),
      (is_some (socket (this w)));
      cbn [andb negb flat_map app]; rewrite ?flat_map_app, ?Hr; reflexivity. }
  repeat split; assumption.
Qed.

(** The gateway refuses a connected client with a call waiting. *)
Lemma error_frame_forgets_socket_witness :
  let w := final (run [Connect; SockData 1 (jsq "{'type':'hello-ok'}" ++ LF);
                       Request (js "id-1") (js "skills.bins") None 5000%N]
                      (boot exampleOptions)) in
  let frame := frameOf [("type", JStr (js "error")); ("code", JStr (js "BAD_VERSION"));
                        ("message", JStr (js "upgrade"))] in
  effects_of (handleFrame frame w)
  = [ClearTimeout 3; RpcReject 2 (newError (js "upgrade"));
     Notify (onDisconnected (Some (newError (js "upgrade"))))]
  /\ socket (this (world_of (handleFrame frame w))) = None
  /\ listeners (rt (world_of (handleFrame frame w))) = [1].
Proof.
  intros w frame.
  assert (Hn1 : js "BAD_VERSION" <> js "NOT_PAIRED") by discriminate.
  assert (Hn2 : js "BAD_VERSION" <> js "UNAUTHORIZED") by discriminate.
  destruct (@error_frame_forgets_socket frame (js "BAD_VERSION") (js "upgrade") w
              eq_refl eq_refl Hn1 Hn2 eq_refl) as [_ [He [_ [_ [Hs [_ Hl]]]]]].
  split; [exact He|]. split; [exact Hs|exact Hl].
Defined.

Lemma handleFrame_coerced (frame : JValue) (t : jsstring) (w : World) :
  frame <> JNull ->
  ToString (nullish (getField "type" frame) (JStr [])) = Some t ->
  handleFrame frame w = dispatch t frame w.
Proof.
  intros Hne Ht. unfold handleFrame, property, toStr.
  destruct frame; try (now elim Hne); mret; rewrite Ht; now mret.
Qed.

(** X17: the discriminant is [String(frame.type)], and four cases only can
    change the client.  A frame other than [null] is handled by the case
    that the text of its [type] names, whether [type] is a string or, say,
    an array holding one string.  When that text is none of [hello-ok],
    [pair-ok], [error] and [res], handling the frame leaves the client and
    its timers exactly as they were and settles no promise: [ping] only
    writes, [event] and [invoke] only call their callback, everything else
    is dropped. *)
Theorem other_frames_change_nothing (frame : JValue) (t : jsstring) (w : World) :
  frame <> JNull ->
  ToString (nullish (getField "type" frame) (JStr [])) = Some t ->
  handleFrame frame w = dispatch t frame w
  /\ (~ In t stateful_types ->
      world_of (handleFrame frame w) = w
      /\ settled (effects_of (handleFrame frame w)) = []
      /\ hello_settled (effects_of (handleFrame frame w)) = []
      /\ forallb (fun e => negb (is_destroy e)) (effects_of (handleFrame frame w)) = true).
Proof.
  intros Hne Ht. split; [now apply handleFrame_coerced|].
  intro Hin. rewrite (handleFrame_coerced w Hne Ht).
  assert (Hk : forall k, In k stateful_types -> jseqb t k = false).
  { intros k Hk. apply jseqb_neq. intro E. subst. contradiction. }
  unfold dispatch.
  rewrite (Hk (js "hello-ok")), (Hk (js "pair-ok")), (Hk (js "error")), (Hk (js "res"))
    by (unfold stateful_types; cbn; tauto).
  repeat match goal with
         | |- context [if ?c then _ else _] => destruct c
         end;
    try (repeat split; reflexivity).
  rewrite case_ping_spec.
  destruct (ToString (nullish (getField "id" frame) (JStr [])));
    [|repeat split; reflexivity].
  unfold world_of, effects_of. cbn [fst snd].
  destruct (socket (this w)); repeat split; reflexivity.
Qed.

(** A [ping] whose [type] is an array holding the name: it is answered. *)
Lemma other_frames_change_nothing_witness :
  let w := world_of (connect (boot exampleOptions)) in
  let frame := frameOf [("type", JArr [JStr (js "ping")]); ("id", JStr (js "7"))] in
  handleFrame frame w
  = (Normal tt, w, [SocketWrite 1 (jsq "{'type':'pong','id':'7'}" ++ LF)])
  /\ world_of (handleFrame frame w) = w.
Proof.
  intros w frame.
  assert (Hne : frame <> JNull) by discriminate.
  assert (Hin : ~ In (js "ping") stateful_types).
  { cbn. intuition discriminate. }
  destruct (@other_frames_change_nothing frame (js "ping") w Hne eq_refl) as [H1 H2].
  split; [rewrite H1; reflexivity|exact (proj1 (H2 Hin))].
Defined.

(** * Part IV: the node host around the client *)

(** ** Output of commands *)

Lemma truncateOutput_cases (raw : jsstring) (maxChars : N) :
  ((N.of_nat (List.length raw) <= maxChars)%N
   /\ NodeHost.truncateOutput raw maxChars = NodeHost.mkTruncated raw false)
  \/ ((maxChars < N.of_nat (List.length raw))%N
      /\ exists head tail,
          raw = head ++ tail /\ head <> [] /\ N.of_nat (List.length tail) = maxChars
          /\ NodeHost.truncateOutput raw maxChars
             = NodeHost.mkTruncated (js "... (truncated) " ++ tail) true).
Proof.
  unfold NodeHost.truncateOutput.
  destruct (N.leb_spec (N.of_nat (List.length raw)) maxChars) as [Hle|Hgt];
    [left; now split|right].
  split; [exact Hgt|].
  set (k := List.length raw - N.to_nat maxChars).
  exists (firstn k raw), (sliceFrom k raw).
  split; [unfold sliceFrom; now rewrite firstn_skipn|].
  split.
  - intro E. apply (f_equal (@List.length N)) in E.
    rewrite length_firstn in E. cbn in E. unfold k in E. lia.
  - split; [|reflexivity]. unfold sliceFrom. rewrite length_skipn. unfold k. lia.
Qed.

(** X18: [truncateOutput] keeps the end of the text.  A text of at most
    [maxChars] code units is returned as it is, not marked as truncated.  A
    longer one is marked, and the text returned is the marker
    "... (truncated) " followed by exactly the last [maxChars] code units of
    the input; so the result never has more than [maxChars + 16] code
    units. *)
Theorem truncateOutput_keeps_the_tail (raw : jsstring) (maxChars : N) :
  let r := NodeHost.truncateOutput raw maxChars in
  (NodeHost.truncated r = false <-> (N.of_nat (List.length raw) <= maxChars)%N)
  /\ (NodeHost.truncated r = false -> NodeHost.text r = raw)
  /\ (NodeHost.truncated r = true ->
      exists head tail,
        raw = head ++ tail /\ head <> [] /\ N.of_nat (List.length tail) = maxChars
        /\ NodeHost.text r = js "... (truncated) " ++ tail)
  /\ (N.of_nat (List.length (NodeHost.text r)) <= maxChars + 16)%N.
Proof.
  intro r. unfold r.
  destruct (truncateOutput_cases raw maxChars)
    as [[Hle ->]|[Hgt [head [tail [E1 [E2 [E3 ->]]]]]]];
    cbn [NodeHost.truncated NodeHost.text].
  - split; [split; [intros _; exact Hle|reflexivity]|].
    split; [reflexivity|]. split; [discriminate|]. lia.
  - split; [split; [discriminate|lia]|].
    split; [discriminate|].
    split; [intros _; now exists head, tail|].
    rewrite length_app. change (List.length (js "... (truncated) ")) with 16. lia.
Qed.

Lemma trimStart_head (s : jsstring) :
  trimStart s = [] \/ exists c r, trimStart s = c :: r /\ is_js_space c = false.
Proof.
  induction s as [|c s IH]; [now left|].
  cbn [trimStart]. destruct (is_js_space c) eqn:E; [exact IH|].
  right. now exists c, s.
Qed.

Lemma trimStart_fixed (s : jsstring) : trimStart (trimStart s) = trimStart s.
Proof.
  destruct (trimStart_head s) as [->|[c [r [-> Hc]]]]; [reflexivity|].
  now apply trimStart_id.
Qed.

Lemma trimStart_snoc (l : jsstring) (c : N) :
  is_js_space c = false -> exists l', trimStart (l ++ [c]) = l' ++ [c].
Proof.
  intro Hc. induction l as [|x l IH].
  - exists []. cbn. now rewrite Hc.
  - cbn [app trimStart]. destruct (is_js_space x); [exact IH|].
    now exists (x :: l).
Qed.

Lemma trim_fixed (s : jsstring) : trim (trim s) = trim s.
Proof.
  assert (Hshape : trim s = []
                   \/ exists c l', is_js_space c = false /\ trim s = c :: rev l'
                                   /\ trimStart (l' ++ [c]) = l' ++ [c]).
  { unfold trim, trimEnd.
    destruct (trimStart_head s) as [->|[c [r [-> Hc]]]]; [now left|].
    right. cbn [rev]. destruct (@trimStart_snoc (rev r) c Hc) as [l' El].
    exists c, l'. pose proof (trimStart_fixed (rev r ++ [c])) as Hf.
    rewrite El in *. rewrite rev_app_distr. cbn. auto. }
  destruct Hshape as [->|[c [l' [Hc [-> Hf]]]]]; [reflexivity|].
  unfold trim, trimEnd. rewrite trimStart_id by exact Hc.
  replace (rev (c :: rev l')) with (l' ++ [c])
    by (cbn [rev]; now rewrite rev_involutive).
  rewrite Hf, rev_app_distr. reflexivity.
Qed.

Lemma trim_clean (s : jsstring) : existsb is_js_space s = false -> trim s = s.
Proof.
  intro H. unfold trim, trimEnd.
  assert (Hall : forall x, In x s -> is_js_space x = false).
  { intros x Hx. destruct (is_js_space x) eqn:E; [|reflexivity].
    assert (existsb is_js_space s = true) by (apply existsb_exists; now exists x).
    congruence. }
  assert (Hs : trimStart s = s).
  { destruct s as [|c r]; [reflexivity|]. apply trimStart_id, Hall. now left. }
  rewrite Hs.
  assert (Hr : trimStart (rev s) = rev s).
  { destruct (rev s) as [|c r] eqn:E; [reflexivity|].
    apply trimStart_id, Hall. apply in_rev. rewrite E. now left. }
  rewrite Hr. apply rev_involutive.
Qed.

Lemma trim_length (s : jsstring) : List.length (trim s) <= List.length s.
Proof.
  assert (Hs : forall x, List.length (trimStart x) <= List.length x).
  { induction x as [|c x IH]; [apply le_n|].
    cbn [trimStart]. destruct (is_js_space c); cbn; lia. }
  unfold trim, trimEnd. rewrite length_rev.
  etransitivity; [apply Hs|]. rewrite length_rev. apply Hs.
Qed.

(** X19: the output in an exec event.  [buildExecEventPayload] changes no
    field but [output].  An output that is absent, empty or only white space
    is passed on as it is.  Any other output is trimmed, and cut by
    [truncateOutput] to its last 20000 code units when it is longer: what is
    passed on then has at most 20016 code units, and is the trimmed output
    itself when that has no more than 20000. *)
Theorem buildExecEventPayload_bounds_output (p : NodeHost.ExecEventPayload) :
  let p' := NodeHost.buildExecEventPayload p in
  NodeHost.sessionKey p' = NodeHost.sessionKey p
  /\ NodeHost.runId p' = NodeHost.runId p
  /\ NodeHost.host p' = NodeHost.host p
  /\ NodeHost.command p' = NodeHost.command p
  /\ NodeHost.exitCode p' = NodeHost.exitCode p
  /\ NodeHost.timedOut p' = NodeHost.timedOut p
  /\ NodeHost.success p' = NodeHost.success p
  /\ NodeHost.reason p' = NodeHost.reason p
  /\ match NodeHost.output p with
     | None => p' = p
     | Some out =>
         if is_empty (trim out) then p' = p
         else exists t,
             NodeHost.output p' = Some t
             /\ (N.of_nat (List.length t) <= 20016)%N
             /\ ((N.of_nat (List.length (trim out)) <= 20000)%N -> t = trim out)
             /\ ((20000 < N.of_nat (List.length (trim out)))%N ->
                 exists head tail,
                   trim out = head ++ tail /\ N.of_nat (List.length tail) = 20000%N
                   /\ t = js "... (truncated) " ++ tail)
     end.
Proof.
  intro p'. unfold p', NodeHost.buildExecEventPayload.
  destruct (NodeHost.output p) as [out|] eqn:Eo; [|repeat split].
  destruct (is_empty out) eqn:Ee.
  { apply is_empty_true in Ee. subst out. repeat split. }
  cbv zeta. destruct (is_empty (trim out)) eqn:Et; [repeat split|].
  cbn [NodeHost.set_output NodeHost.sessionKey NodeHost.runId NodeHost.host NodeHost.command
       NodeHost.exitCode NodeHost.timedOut NodeHost.success NodeHost.reason NodeHost.output].
  do 8 (split; [reflexivity|]).
  unfold NodeHost.OUTPUT_EVENT_TAIL.
  destruct (truncateOutput_cases (trim out) 20000)
    as [[Hle ->]|[Hgt [head [tail [E1 [E2 [E3 ->]]]]]]]; cbn [NodeHost.text].
  - exists (trim out). split; [reflexivity|]. split; [lia|].
    split; [reflexivity|]. intro Hgt. lia.
  - exists (js "... (truncated) " ++ tail). split; [reflexivity|].
    split.
    { rewrite length_app. change (List.length (js "... (truncated) ")) with 16. lia. }
    split; [intro Hle; lia|].
    intros _. now exists head, tail.
Qed.

(** ** The text of a command *)

Lemma formatArg_trim (arg : jsstring) : NodeHost.formatArg (trim arg) = NodeHost.formatArg arg.
Proof. unfold NodeHost.formatArg. now rewrite trim_fixed. Qed.

Lemma needsQuotes_space (s : jsstring) :
  NodeHost.needsQuotes s = false -> existsb is_js_space s = false.
Proof.
  unfold NodeHost.needsQuotes. induction s as [|c s IH]; [reflexivity|].
  cbn [existsb]. intro H. apply orb_false_iff in H as [H1 H2].
  apply orb_false_iff in H1 as [H1 _]. rewrite H1. now apply IH.
Qed.

Lemma formatArg_plain (arg : jsstring) :
  arg <> [] -> NodeHost.needsQuotes arg = false -> NodeHost.formatArg arg = arg.
Proof.
  intros Hne Hq. unfold NodeHost.formatArg.
  rewrite (trim_clean arg (needsQuotes_space arg Hq)). cbv zeta.
  destruct arg; [now elim Hne|]. cbn [is_empty]. now rewrite Hq.
Qed.

(** X20: the text [formatCommand] makes of an argument list.  White space
    around an argument never shows: the text is that of the trimmed
    arguments.  An argument that is empty or blank shows as two quotation
    marks, so no argument shows as nothing.  When no argument is empty or
    holds white space or a quotation mark, the text is the arguments joined
    by single spaces. *)
Theorem formatCommand_text (argv : list jsstring) :
  NodeHost.formatCommand (map trim argv) = NodeHost.formatCommand argv
  /\ (forall arg, NodeHost.formatArg arg <> [])
  /\ (forall arg, trim arg = [] -> NodeHost.formatArg arg = [34%N; 34%N])
  /\ ((forall arg, In arg argv -> arg <> [] /\ NodeHost.needsQuotes arg = false) ->
      NodeHost.formatCommand argv = join (js " ") argv).
Proof.
  split.
  { unfold NodeHost.formatCommand. rewrite map_map. f_equal.
    apply map_ext. intro a. apply formatArg_trim. }
  split.
  { intro arg. unfold NodeHost.formatArg. cbv zeta.
    destruct (is_empty (trim arg)) eqn:E; [discriminate|].
    destruct (negb _); [|discriminate].
    intro H. rewrite H in E. discriminate. }
  split.
  { intros arg H. unfold NodeHost.formatArg. now rewrite H. }
  intro H. unfold NodeHost.formatCommand. f_equal.
  rewrite <- (map_id argv) at 2. apply map_ext_in.
  intros a Ha. destruct (H a Ha) as [Hne Hq]. now apply formatArg_plain.
Qed.

(** A command with a blank argument and one that needs quoting. *)
Lemma formatCommand_text_witness :
  NodeHost.formatCommand [js "git"; js " "; js "  commit "; jsq "say 'hi'"]
  = js "git " ++ jsq "'' commit 'say \'hi\''"
  /\ NodeHost.formatCommand [js "ls"; js "-la"] = js "ls -la".
Proof.
  split; [reflexivity|].
  assert (H : forall arg, In arg [js "ls"; js "-la"] ->
                          arg <> [] /\ NodeHost.needsQuotes arg = false).
  { intros arg [<-|[<-|[]]]; (split; [discriminate|reflexivity]). }
  destruct (formatCommand_text [js "ls"; js "-la"]) as [_ [_ [_ Hp]]].
  exact (Hp H).
Defined.

(** ** The skill bins: fetching and caching *)

Lemma mapString_strings (names : list jsstring) :
  NodeHost.mapString (map JStr names) = Normal names.
Proof.
  induction names as [|s names IH]; [reflexivity|].
  cbn [map NodeHost.mapString ToString]. now rewrite IH.
Qed.

Lemma mapString_all (items : list JValue) (l : list jsstring) :
  Forall2 (fun v s => ToString v = Some s) items l -> NodeHost.mapString items = Normal l.
Proof.
  induction 1 as [|v s items l Hv _ IH]; [reflexivity|].
  cbn [NodeHost.mapString]. now rewrite Hv, IH.
Qed.

Lemma mapString_throws (items : list JValue) :
  (exists v, In v items /\ ToString v = None) ->
  NodeHost.mapString items
  = Throw (mkError TypeError_ (js "Cannot convert object to primitive value")).
Proof.
  intros [v [Hin Hv]]. induction items as [|x items IH]; [contradiction|].
  cbn [NodeHost.mapString]. destruct (ToString x) eqn:Ex; [|reflexivity].
  destruct Hin as [->|Hin]; [congruence|]. now rewrite (IH Hin).
Qed.

Lemma json_wf_strings (names : list jsstring) :
  Forall (Forall code_unit) names -> json_wf (JArr (map JStr names)).
Proof.
  intro H. apply json_wf_items. apply Forall_forall. intros v Hv.
  apply in_map_iff in Hv as [s [<- Hs]]. rewrite Forall_forall in H. now apply H.
Qed.

Lemma requestResult_payload (res v : JValue) :
  res <> JNull -> truthy_opt (getField "ok" res) = true -> json_wf v ->
  getField "payloadJSON" res = Some (JStr (stringify v)) ->
  requestResult res = Normal v.
Proof.
  intros Hne Hok Hv Hp. unfold requestResult.
  destruct res; try contradiction; rewrite Hok, Hp; cbn [negb truthy ToString];
    rewrite (stringify_not_empty v Hv); cbn [negb];
    now rewrite (JSON_parse_stringify v Hv).
Qed.

(** X21: what the runner makes of the answer to [skills.bins].  When the
    call is resolved by a [res] frame with a truthy [ok] whose payload is
    the JSON text of an object with a [bins] array of strings, the fetch
    function returns those strings, in order.  A payload that is [null], or
    has no [bins], or whose [bins] is no array, gives the empty list.  The
    elements of [bins] are turned into strings by [String], whatever they
    are; one that [String] cannot convert makes the function throw.  A
    rejected call makes the fetch function throw the error of the
    rejection. *)
Theorem fetchSkillBins_decodes (frame : JValue) (names : list jsstring) :
  frame <> JNull ->
  truthy_opt (getField "ok" frame) = true ->
  Forall (Forall code_unit) names ->
  (getField "payloadJSON" frame
   = Some (JStr (stringify (JObj [(js "bins", JArr (map JStr names))]))) ->
   NodeHost.fetchSkillBins (inl frame) = Normal names)
  /\ (truthy_opt (getField "payloadJSON" frame) = false ->
      NodeHost.fetchSkillBins (inl frame) = Normal [])
  /\ (forall res, getField "bins" res = None -> NodeHost.binsOf res = Normal [])
  /\ (forall res v,
         getField "bins" res = Some v -> (forall items, v <> JArr items) ->
         NodeHost.binsOf res = Normal [])
  /\ (forall res items l,
         getField "bins" res = Some (JArr items) ->
         Forall2 (fun v s => ToString v = Some s) items l ->
         NodeHost.binsOf res = Normal l)
  /\ (forall res items,
         getField "bins" res = Some (JArr items) ->
         (exists v, In v items /\ ToString v = None) ->
         NodeHost.binsOf res
         = Throw (mkError TypeError_ (js "Cannot convert object to primitive value")))
  /\ (forall e, NodeHost.fetchSkillBins (inr e) = Throw e).
Proof.
  intros Hne Hok Hn.
  split.
  { intro Hp. unfold NodeHost.fetchSkillBins.
    rewrite (@requestResult_payload frame (JObj [(js "bins", JArr (map JStr names))])
               Hne Hok); [|  |exact Hp].
    - unfold NodeHost.binsOf.
      change (getField "bins" (JObj [(js "bins", JArr (map JStr names))]))
        with (Some (JArr (map JStr names))).
      apply mapString_strings.
    - apply json_wf_members. split.
      + apply NoDup_by_compute. reflexivity.
      + apply Forall_cons; [|apply Forall_nil]. cbn [fst snd].
        split; [apply js_code_units|now apply json_wf_strings]. }
  split.
  { intro Hp. unfold NodeHost.fetchSkillBins, requestResult.
    destruct frame; try contradiction; rewrite Hok; cbn [negb];
      (destruct (getField "payloadJSON" _) as [p|]; [cbn in Hp; rewrite Hp|]);
      reflexivity. }
  split.
  { intros res H. unfold NodeHost.binsOf. rewrite H. destruct res; reflexivity. }
  split.
  { intros res v H Hv. unfold NodeHost.binsOf. rewrite H.
    destruct v as [|b|n|s|items|ms]; try (destruct res; reflexivity).
    now elim (Hv items). }
  split.
  { intros res items l H Hl. unfold NodeHost.binsOf. rewrite H.
    destruct res; try discriminate H. now apply mapString_all. }
  split; [|reflexivity].
  intros res items H Hv. unfold NodeHost.binsOf. rewrite H.
  destruct res; try discriminate H. now apply mapString_throws.
Qed.

(** The gateway lists two names. *)
Lemma fetchSkillBins_decodes_witness :
  NodeHost.fetchSkillBins
    (inl (frameOf [("type", JStr (js "res")); ("id", JStr (js "id-1")); ("ok", JBool true);
                   ("payloadJSON", JStr (jsq "{'bins':['git','rg']}"))]))
  = Normal [js "git"; js "rg"].
Proof.
  assert (Hne : frameOf [("type", JStr (js "res")); ("id", JStr (js "id-1"));
                         ("ok", JBool true);
                         ("payloadJSON", JStr (jsq "{'bins':['git','rg']}"))] <> JNull)
    by discriminate.
  assert (Hn : Forall (Forall code_unit) [js "git"; js "rg"])
    by (repeat constructor).
  destruct (@fetchSkillBins_decodes _ [js "git"; js "rg"] Hne eq_refl Hn) as [H _].
  exact (H eq_refl).
Defined.

Lemma Set_has_In (x : jsstring) (s : list jsstring) : NodeHost.Set_has x s = true <-> In x s.
Proof.
  induction s as [|y s IH]; cbn [NodeHost.Set_has In]; [split; [discriminate|contradiction]|].
  rewrite orb_true_iff, IH, jseqb_eq. reflexivity.
Qed.

Lemma newSet_from (l acc : list jsstring) :
  NoDup acc ->
  NoDup (fold_left (fun s x => NodeHost.Set_add x s) l acc)
  /\ forall x, In x (fold_left (fun s x => NodeHost.Set_add x s) l acc) <-> In x acc \/ In x l.
Proof.
  revert acc. induction l as [|y l IH]; intros acc Hnd; cbn [fold_left].
  - split; [exact Hnd|]. intro x. cbn. tauto.
  - assert (Hadd : NoDup (NodeHost.Set_add y acc)
                   /\ forall x, In x (NodeHost.Set_add y acc) <-> In x acc \/ x = y).
    { unfold NodeHost.Set_add. destruct (NodeHost.Set_has y acc) eqn:E.
      - apply Set_has_In in E. split; [exact Hnd|].
        intro x. split; [tauto|]. intros [H| ->]; assumption.
      - split.
        + apply NoDup_snoc; [exact Hnd|]. intro Hin. apply Set_has_In in Hin. congruence.
        + intro x. rewrite in_app_iff. cbn. intuition. }
    destruct Hadd as [Hnd' Hin'].
    destruct (IH _ Hnd') as [H1 H2]. split; [exact H1|].
    intro x. rewrite H2, Hin'. cbn. intuition.
Qed.

(** X22: the cache of skill bins.  Within 90 seconds of the last refresh
    that worked, a call of [current()] that is not forced returns the cached
    set without calling the fetch function.  A refresh that works stores
    the names fetched, each once, with the time read after the fetch.  A
    refresh that fails is swallowed: [current()] never throws; a cache that
    has been filled keeps its names and its refresh time, so that the stale
    names are returned and a later call finds the cache due again; a cache
    that was never filled stays empty. *)
Theorem skill_bins_cache
        (c : NodeHost.SkillBinsCache) (force : bool) (now after : N)
        (fetched : Completion (list jsstring)) :
  let due := force || (NodeHost.ttlMs <? now - NodeHost.lastRefresh c)%N in
  (due = false ->
   NodeHost.current force now fetched after c = Normal (NodeHost.bins c, c, false))
  /\ (forall l, due = true -> fetched = Normal l ->
                let c' := NodeHost.mkCache (NodeHost.newSet l) after in
                NodeHost.current force now fetched after c = Normal (NodeHost.bins c', c', true)
                /\ NoDup (NodeHost.bins c')
                /\ forall x, NodeHost.Set_has x (NodeHost.bins c') = true <-> In x l)
  /\ (forall e, due = true -> fetched = Throw e ->
                NodeHost.lastRefresh c <> 0%N ->
                NodeHost.current force now fetched after c = Normal (NodeHost.bins c, c, true)
                /\ forall later,
                    (NodeHost.ttlMs <? now - NodeHost.lastRefresh c)%N = true ->
                    (now <= later)%N ->
                    (NodeHost.ttlMs <? later - NodeHost.lastRefresh c)%N = true)
  /\ (forall e, due = true -> fetched = Throw e ->
                NodeHost.lastRefresh c = 0%N ->
                NodeHost.current force now fetched after c
                = Normal ([], NodeHost.mkCache [] 0, true))
  /\ (fetched <> Unfinished ->
      exists result, NodeHost.current force now fetched after c = Normal result).
Proof.
  intro due. unfold due, NodeHost.current.
  split; [intros ->; reflexivity|].
  split.
  { intros l Hd Hfe. rewrite Hd, Hfe. cbv zeta. cbn [NodeHost.refresh].
    split; [reflexivity|].
    cbn [NodeHost.bins]. unfold NodeHost.newSet.
    destruct (@newSet_from l [] (NoDup_nil _)) as [H1 H2].
    split; [exact H1|]. intro x. rewrite Set_has_In, H2. cbn. tauto. }
  split.
  { intros e Hd Hfe Hl. rewrite Hd, Hfe. cbn [NodeHost.refresh].
    rewrite (proj2 (N.eqb_neq _ _) Hl). split; [reflexivity|].
    intros later Hex Hle. apply N.ltb_lt in Hex. apply N.ltb_lt. lia. }
  split.
  { intros e Hd Hfe Hl. rewrite Hd, Hfe. cbn [NodeHost.refresh]. rewrite Hl. reflexivity. }
  intro Hf. destruct (force || _); [|eexists; reflexivity].
  destruct fetched as [l|e|]; [| |now elim Hf]; cbn [NodeHost.refresh];
    eexists; reflexivity.
Qed.

(** A cache filled at 100 s; a call at 150 s is served from it; at 200 s the
    gateway is gone and the old names are served. *)
Lemma skill_bins_cache_witness :
  let c := NodeHost.mkCache [js "git"; js "rg"] 100050 in
  NodeHost.current false 100000 (Normal [js "git"; js "git"; js "rg"]) 100050 NodeHost.newCache
  = Normal ([js "git"; js "rg"], c, true)
  /\ NodeHost.current false 150000 (Normal []) 150001 c = Normal ([js "git"; js "rg"], c, false)
  /\ NodeHost.current false 200000 (Throw (newError (js "bridge connection closed"))) 200001 c
     = Normal ([js "git"; js "rg"], c, true).
Proof.
  intro c. split; [reflexivity|].
  split.
  - destruct (skill_bins_cache c false 150000 150001 (Normal [])) as [H _].
    exact (H eq_refl).
  - destruct (skill_bins_cache c false 200000 200001
                (Throw (newError (js "bridge connection closed")))) as [_ [_ [H _]]].
    assert (Hl : NodeHost.lastRefresh c <> 0%N) by discriminate.
    exact (proj1 (H _ eq_refl eq_refl Hl)).
Defined.

(** ** The buffer across connections *)

Lemma run_keeps_buffer (evs : list Event) (w : World) :
  Forall (fun ev => forall sock chunk, ev <> SockData sock chunk) evs ->
  buffer (this (final (run evs w))) = buffer (this w).
Proof.
  revert w. induction evs as [|ev evs IH]; intros w H; [reflexivity|].
  inversion H as [|? ? Hev Hrest]; subst.
  pose proof (@step_keeps_buffer ev w Hev) as Hb.
  cbn [run]. destruct (step ev w) as [[[[]| |] w1] e1]; unfold world_of in Hb; cbn in *.
  - rewrite IH by exact Hrest. exact Hb.
  - exact Hb.
  - exact Hb.
Qed.

(** X23: the buffer outlives the connection.  No disconnect, [close()] or
    [connect()] clears the buffer: after any events other than received data
    it holds what it held.  So the unfinished line a lost connection left
    behind is put in front of the first line the next connection receives;
    when the two together are no JSON, that line, the gateway's [hello-ok]
    for instance, is dropped without a trace. *)
Theorem buffer_outlives_connection
        (evs : list Event) (w : World) (sock : nat) (line : jsstring) :
  Forall (fun ev => forall s chunk, ev <> SockData s chunk) evs ->
  let w1 := final (run evs w) in
  buffer (this w1) = buffer (this w)
  /\ (mem sock (listeners (rt w1)) = true ->
      ~ In 10%N (buffer (this w)) -> ~ In 10%N line ->
      JSON_parse (trim (buffer (this w) ++ line)) = PErr ->
      step (SockData sock (line ++ LF)) w1 = (Normal tt, with_buffer [] w1, [])).
Proof.
  intros Hev w1.
  assert (Hb : buffer (this w1) = buffer (this w)) by now apply run_keeps_buffer.
  split; [exact Hb|].
  intros Hl Hno1 Hno2 Hperr.
  rewrite (data_listening_spec _ _ _ Hl), Hb.
  assert (Hno : ~ In 10%N (buffer (this w) ++ line)).
  { intro H. apply in_app_iff in H as [H|H]; [now apply Hno1|now apply Hno2]. }
  rewrite (@flush_loop_line _ _ (buffer (this w) ++ line) [] Hno)
    by (cbn; unfold LF; now rewrite <- app_assoc).
  cbv zeta. rewrite Hperr.
  replace (if is_empty (trim (buffer (this w) ++ line)) then _ else _)
    with (flush_loop (List.length (buffer (this w) ++ line ++ LF))
            (mkWorld (set_buffer [] (this (mkWorld (set_buffer (buffer (this w) ++ line ++ LF)
                                                               (this w1)) (rt w1))))
                     (rt (mkWorld (set_buffer (buffer (this w) ++ line ++ LF) (this w1))
                                  (rt w1)))))
    by (destruct (is_empty _); reflexivity).
  rewrite !length_app. unfold LF at 1. cbn [List.length]. rewrite Nat.add_1_r, Nat.add_succ_r.
  rewrite flush_loop_no_line by (cbn; intros []).
  reflexivity.
Qed.

(** The connection is lost in the middle of a frame; the client connects
    again, and the greeting of the new connection is lost. *)
Lemma buffer_outlives_connection_witness :
  let w := final (run [Connect; SockData 1 (jsq "{'type':'pin")] (boot exampleOptions)) in
  let evs := [SockError 1 (newError (js "read ECONNRESET")); SockClose 1; Connect] in
  let w1 := final (run evs w) in
  step (SockData 3 (jsq "{'type':'hello-ok'}" ++ LF)) w1 = (Normal tt, with_buffer [] w1, [])
  /\ connected (this (world_of (step (SockData 3 (jsq "{'type':'hello-ok'}" ++ LF)) w1)))
     = false.
Proof.
  intros w evs w1.
  assert (Hev : Forall (fun ev => forall s chunk, ev <> SockData s chunk) evs).
  { repeat constructor; discriminate. }
  assert (Hno1 : ~ In 10%N (buffer (this w))).
  { cbn. intuition discriminate. }
  assert (Hno2 : ~ In 10%N (jsq "{'type':'hello-ok'}")).
  { cbn. intuition discriminate. }
  destruct (@buffer_outlives_connection evs w 3 (jsq "{'type':'hello-ok'}") Hev) as [_ H].
  specialize (H eq_refl Hno1 Hno2 eq_refl).
  split; [exact H|]. fold w1 in H. rewrite H. reflexivity.
Defined.

(** ** Writes go to the socket the client holds *)

Lemma In_writes (sock : nat) (d : jsstring) (effs : list Effect) :
  In (SocketWrite sock d) effs -> In d (writes effs).
Proof.
  intro H. unfold writes. apply in_flat_map. exists (SocketWrite sock d).
  split; [exact H|now left].
Qed.

Lemma writes_rejectEffects (e : JsError) (m : RpcMap) : writes (rejectEffects e m) = [].
Proof.
  unfold writes. induction m as [|[k p] m IH]; [reflexivity|].
  cbn [rejectEffects flat_map]. rewrite flat_map_app. fold (rejectEffects e m).
  rewrite IH. destruct (timer (snd (k, p))); reflexivity.
Qed.

Lemma writes_disconnectEffects (err : option JsError) (c : BridgeClient) :
  writes (disconnectEffects err c) = [].
Proof.
  unfold disconnectEffects, helloRejectEffects.
  pose proof (writes_rejectEffects (or_else err "bridge connection closed") (pendingRpc c))
    as Hr.
  unfold writes in *. rewrite flat_map_app.
  destruct (negb (connected c)), (helloReject c), (is_some (socket c));
    cbn [andb negb flat_map app]; rewrite ?flat_map_app, ?Hr; reflexivity.
Qed.

Lemma handleDisconnect_no_write (err : option JsError) (w : World) (sock : nat) (d : jsstring) :
  ~ In (SocketWrite sock d) (effects_of (handleDisconnect err w)).
Proof.
  intro H. apply In_writes in H.
  now rewrite handleDisconnect_effects, writes_disconnectEffects in H.
Qed.

Lemma held_stable (held : option nat) {A} (m : M A) :
  (forall w,
      (forall sock d, In (SocketWrite sock d) (effects_of (m w)) ->
                      socket (this w) = Some sock)
      /\ (socket (this (world_of (m w))) = socket (this w)
          \/ socket (this (world_of (m w))) = None)) ->
  stable (writes_held held) m.
Proof.
  intros E w tr [H1 H2]. destruct (E w) as [E1 E2]. split.
  - intros sock d Hin. apply in_app_iff in Hin as [Hin|Hin]; [now apply (H1 sock d)|].
    specialize (E1 sock d Hin). destruct H2 as [H2|H2]; congruence.
  - destruct E2 as [E2|E2]; [rewrite E2; exact H2|now right].
Qed.

Lemma held_handleDisconnect (held : option nat) (err : option JsError) :
  stable (writes_held held) (handleDisconnect err).
Proof.
  apply held_stable. intro w. split.
  - intros sock d H. now apply handleDisconnect_no_write in H.
  - right. apply handleDisconnect_state.
Qed.

Lemma held_flush_loop (held : option nat) (turns : nat) :
  stable (writes_held held) (flush_loop turns).
Proof.
  apply stable_flush_loop.
  - intro frame. apply held_stable. intro w. rewrite case_hello_ok_spec.
    unfold effects_of, world_of. cbn [fst snd]. split; [|now left].
    intros sock d H. destruct (helloResolve (this w)); cbn in H; intuition discriminate.
  - intro frame. apply held_stable. intro w. rewrite case_pair_ok_spec.
    destruct (ToString _); [destruct (is_empty _)|];
      unfold effects_of, world_of; cbn [fst snd]; (split; [|now left]);
      intros sock d H; cbn in H; intuition discriminate.
  - intros frame w tr H. rewrite case_error_spec.
    destruct (ToString _);
      [|unfold world_of, effects_of; cbn [fst snd]; now rewrite app_nil_r].
    destruct (_ || _).
    + revert w tr H. apply held_stable. intro w.
      unfold effects_of, world_of. cbn [fst snd]. split; [|now left].
      intros sock d H. destruct H as [H|H]; [discriminate H|].
      destruct (socket (this w)) as [s|]; cbn in H; [|contradiction].
      destruct H as [H|[]]. now injection H as <- _.
    + destruct (ToString _); [now apply held_handleDisconnect|].
      unfold world_of, effects_of; cbn [fst snd]. now rewrite app_nil_r.
  - intro frame. apply held_stable. intro w. rewrite case_ping_spec.
    destruct (ToString _); unfold effects_of, world_of; cbn [fst snd];
      (split; [|now left]); intros sock d H; [|contradiction].
    destruct (socket (this w)) as [s|]; cbn in H; [|contradiction].
    destruct H as [H|[]]. now injection H as <- _.
  - intro frame. apply held_stable. intro w. rewrite case_res_spec.
    destruct (Map_get_value _ _) as [[p [t|]]|];
      unfold effects_of, world_of; cbn [fst snd]; (split; [|now left]);
      intros sock d H; cbn in H; intuition discriminate.
  - intro n. apply held_stable. intro w. split; [|now left].
    intros sock d H. cbn in H. intuition discriminate.
  - intro b. apply held_stable. intro w. split; [|now left].
    intros sock d H. cbn in H. contradiction.
Qed.

(** X24: the client writes to the socket it holds, and to no other.  Every
    line an event makes the client write goes to the socket the client held
    when the event arrived, whichever socket the event came from: the
    [hello] sent on a [connect] event, the [pong] and the [pair-request]
    sent on received data, as well as what [request], [sendEvent] and
    [sendInvokeResponse] send.  A client that holds no socket writes
    nothing. *)
Theorem writes_go_to_the_held_socket
        (ev : Event) (w : World) (sock : nat) (data : jsstring) :
  In (SocketWrite sock data) (effects_of (step ev w)) ->
  socket (this w) = Some sock.
Proof.
  intro H.
  assert (Hsend : forall frame, In (SocketWrite sock data) (effects_of (send frame w)) ->
                                socket (this w) = Some sock).
  { intros frame Hin. rewrite send_spec in Hin. unfold effects_of in Hin. cbn in Hin.
    destruct (socket (this w)) as [s|]; cbn in Hin; [|contradiction].
    destruct Hin as [Hin|[]]. now injection Hin as <- _. }
  destruct ev; unfold step in H.
  - unfold bind in H. rewrite connect_spec in H. cbv zeta in H.
    destruct (connected (this w)); unfold effects_of in H; cbn in H; [contradiction|].
    destruct (tls (opts (this w))); intuition discriminate.
  - apply In_writes in H. rewrite close_spec in H. cbv zeta in H.
    unfold effects_of, writes in H. cbn [snd] in H. rewrite flat_map_app in H.
    fold (writes (rejectEffects (newError (js "bridge client closed"))
                                (pendingRpc (this w)))) in H.
    rewrite writes_rejectEffects, app_nil_r in H.
    destruct (socket (this w)); contradiction.
  - unfold bind in H. rewrite request_spec in H. cbv zeta in H.
    unfold effects_of in H. cbn in H. destruct H as [H|H]; [discriminate H|].
    destruct (socket (this w)) as [s|]; cbn in H; [|contradiction].
    destruct H as [H|[]]. now injection H as <- _.
  - now apply (Hsend _ H).
  - now apply (Hsend _ H).
  - rewrite step_listening_spec in H.
    destruct (mem sock0 (listeners (rt w))); [|contradiction].
    apply (Hsend (helloFrame (opts (this w)))).
    rewrite sendHello_spec in H. now rewrite send_spec.
  - rewrite step_listening_spec in H.
    destruct (mem sock0 (listeners (rt w))); [|contradiction].
    now apply handleDisconnect_no_write in H.
  - rewrite step_listening_spec in H.
    destruct (mem sock0 (listeners (rt w))); [|contradiction].
    now apply handleDisconnect_no_write in H.
  - fold (step (SockData sock0 chunk) w) in H.
    destruct (mem sock0 (listeners (rt w))) eqn:Hl.
    + rewrite (data_listening_spec _ _ _ Hl) in H.
      match type of H with
      | In _ (effects_of (flush_loop ?n ?w0)) =>
          pose proof (@held_flush_loop (socket (this w)) n w0 []) as Hf
      end.
      destruct Hf as [Hf _].
      { split; [intros s d []|now left]. }
      now apply (Hf sock data).
    + unfold step in H. rewrite step_listening_spec, Hl in H. contradiction.
  - fold (step (SockSecureConnect sock0 cert) w) in H. rewrite step_secure_spec in H.
    destruct (mem sock0 (secureOnce (rt w))); [|contradiction].
    rewrite onSecureConnect_spec in H. cbv zeta in H.
    match type of H with context [if ?b then _ else _] => destruct b end;
      [contradiction|].
    match type of H with context [handleDisconnect ?e ?w0] =>
      pose proof (@handleDisconnect_no_write e w0 sock data) as Hn;
      destruct (handleDisconnect e w0) as [[c w'] ef] end.
    unfold effects_of in *. cbn in *.
    apply in_app_iff in H as [H|[H|[]]]; [now elim Hn|discriminate H].
  - fold (step (TimerFired tm) w) in H. rewrite timer_fired_spec in H.
    destruct (find_timer _ _); unfold effects_of in H; cbn in H;
      intuition discriminate.
Qed.

(** Two sockets opened in a row: when the first one reports its connection,
    the [hello] goes to the second, the one the client holds. *)
Lemma writes_go_to_the_held_socket_witness :
  let w2 := world_of (connect (world_of (connect (boot exampleOptions)))) in
  effects_of (step (SockConnect 1) w2)
  = [SocketWrite 3 (stringify (helloFrame exampleOptions) ++ LF)]
  /\ socket (this w2) = Some 3.
Proof.
  intro w2. split; [reflexivity|].
  apply (@writes_go_to_the_held_socket (SockConnect 1) w2 3
           (stringify (helloFrame exampleOptions) ++ LF)).
  left. reflexivity.
Defined.

(** ** Waiting for the disconnect *)

Lemma notified_app (a b : list Effect) (s : NodeHost.Waiter) :
  NodeHost.notified (a ++ b) s
  = (fst (NodeHost.notified b (fst (NodeHost.notified a s))),
     snd (NodeHost.notified a s) ++ snd (NodeHost.notified b (fst (NodeHost.notified a s)))).
Proof.
  revert s. induction a as [|e a IH]; intro s.
  - cbn. now destruct (NodeHost.notified b s).
  - cbn [app NodeHost.notified]. destruct (is_disconnect_notice e); [|apply IH].
    destruct (NodeHost.onDisconnected s) as [s1 d1].
    rewrite IH. destruct (NodeHost.notified a s1) as [s2 d2]. cbn [fst snd].
    now rewrite app_assoc.
Qed.

Lemma notified_rejectEffects (e : JsError) (m : RpcMap) (s : NodeHost.Waiter) :
  NodeHost.notified (rejectEffects e m) s = (s, []).
Proof.
  revert s. induction m as [|[k p] m IH]; intro s; [reflexivity|].
  cbn [rejectEffects flat_map]. fold (rejectEffects e m).
  rewrite notified_app, IH.
  destruct (timer (snd (k, p))); reflexivity.
Qed.

(** X25: the loop of the runner never misses a disconnect.  A disconnect
    reported while nobody waits is remembered, and the next
    [waitForDisconnect()] returns at once; a disconnect reported to a
    waiting promise resolves it; several disconnects in a row count as one.
    A [connect] attempt that fails on a socket error is such a disconnect:
    the client rejects the promise of [connect] and also calls
    [onDisconnected], so that after the failed attempt the next
    [waitForDisconnect()] of the loop returns at once. *)
Theorem disconnect_is_never_missed (s : NodeHost.Waiter) (p : nat) :
  (NodeHost.disconnectResolve s = None ->
   NodeHost.waitForDisconnect p (fst (NodeHost.onDisconnected s)) = (NodeHost.idle, [p])
   /\ fst (NodeHost.onDisconnected (fst (NodeHost.onDisconnected s)))
      = fst (NodeHost.onDisconnected s))
  /\ (NodeHost.disconnectSignal s = false ->
      NodeHost.onDisconnected (fst (NodeHost.waitForDisconnect p s)) = (NodeHost.idle, [p]))
  /\ (forall (w : World) (sock h : nat) (err : JsError),
         connected (this w) = false ->
         socket (this w) = Some sock ->
         helloReject (this w) = Some h ->
         let effs := effects_of (handleDisconnect (Some err) w) in
         In (HelloReject h err) effs
         /\ NodeHost.notified effs NodeHost.idle = (NodeHost.mkWaiter None true, [])
         /\ NodeHost.waitForDisconnect p (fst (NodeHost.notified effs NodeHost.idle))
            = (NodeHost.idle, [p])).
Proof.
  split.
  { intro H. unfold NodeHost.onDisconnected. rewrite H. cbn. split; reflexivity. }
  split.
  { intro H. unfold NodeHost.waitForDisconnect. rewrite H. reflexivity. }
  intros w sock h err Hc Hs Hh effs.
  assert (E : effs = HelloReject h err
                     :: rejectEffects err (pendingRpc (this w))
                     ++ [Notify (onDisconnected (Some err))]).
  { unfold effs. rewrite handleDisconnect_effects.
    unfold disconnectEffects, helloRejectEffects. rewrite Hc, Hs, Hh. reflexivity. }
  assert (Hn : NodeHost.notified effs NodeHost.idle = (NodeHost.mkWaiter None true, [])).
  { rewrite E. cbn [NodeHost.notified is_disconnect_notice].
    rewrite notified_app, notified_rejectEffects. reflexivity. }
  split; [rewrite E; now left|].
  split; [exact Hn|]. rewrite Hn. reflexivity.
Qed.

(** The gateway is down: the socket of the first attempt fails. *)
Lemma disconnect_is_never_missed_witness :
  let w := world_of (connect (boot exampleOptions)) in
  let err := newError (js "connect ECONNREFUSED") in
  effects_of (step (SockError 1 err) w)
  = [HelloReject 0 err; Notify (onDisconnected (Some err))]
  /\ NodeHost.waitForDisconnect 7
       (fst (NodeHost.notified (effects_of (handleDisconnect (Some err) w)) NodeHost.idle))
     = (NodeHost.idle, [7]).
Proof.
  intros w err. split; [reflexivity|].
  destruct (disconnect_is_never_missed NodeHost.idle 7) as [_ [_ H]].
  destruct (H w 1 0 err eq_refl eq_refl eq_refl) as [_ [_ H3]].
  exact H3.
Defined.


(** ** Objects the runner builds *)

Lemma has_key_get (k : jsstring) (ms : list (jsstring * JValue)) :
  has_key k ms = is_some (obj_get k ms).
Proof.
  induction ms as [|[k' v'] r IH]; [reflexivity|].
  cbn. destruct (jseqb k' k); [reflexivity|exact IH].
Qed.

Lemma obj_get_set_same (k : jsstring) (v : JValue) (ms : list (jsstring * JValue)) :
  obj_get k (obj_set k v ms) = Some v.
Proof.
  induction ms as [|[k' v'] r IH]; cbn.
  - now rewrite jseqb_refl.
  - destruct (jseqb k' k) eqn:E; cbn; [now rewrite jseqb_refl|now rewrite E].
Qed.

Lemma obj_get_set_other (k k' : jsstring) (v : JValue) (ms : list (jsstring * JValue)) :
  k' <> k -> obj_get k' (obj_set k v ms) = obj_get k' ms.
Proof.
  intro Hne. induction ms as [|[k0 v0] r IH]; cbn.
  - now rewrite (jseqb_neq (not_eq_sym Hne)).
  - destruct (jseqb k0 k) eqn:E; cbn.
    + apply jseqb_eq in E. subst k0. now rewrite (jseqb_neq (not_eq_sym Hne)).
    + destruct (jseqb k0 k'); [reflexivity|exact IH].
Qed.

Lemma obj_get_insert_index (i : N) (k k' : jsstring) (v : JValue)
      (ms : list (jsstring * JValue)) :
  obj_get k ms = None ->
  obj_get k' (NodeHost.insert_index i k v ms)
  = if jseqb k k' then Some v else obj_get k' ms.
Proof.
  induction ms as [|[k0 v0] r IH]; intro Hk; cbn [NodeHost.insert_index].
  - reflexivity.
  - cbn [obj_get] in Hk. destruct (jseqb k0 k) eqn:E0; [discriminate|].
    destruct (NodeHost.array_index k0) as [j|]; [destruct (j <? i)%N|]; try reflexivity.
    cbn [obj_get]. rewrite (IH Hk).
    destruct (jseqb k0 k') eqn:E1; [|reflexivity].
    apply jseqb_eq in E1. subst k'.
    now rewrite jseqb_sym, E0.
Qed.

Lemma obj_get_app_fresh (k k' : jsstring) (v : JValue) (ms : list (jsstring * JValue)) :
  obj_get k ms = None ->
  obj_get k' (ms ++ [(k, v)]) = if jseqb k k' then Some v else obj_get k' ms.
Proof.
  induction ms as [|[k0 v0] r IH]; intro Hk; cbn [app obj_get].
  - reflexivity.
  - cbn [obj_get] in Hk. destruct (jseqb k0 k) eqn:E0; [discriminate|].
    rewrite (IH Hk).
    destruct (jseqb k0 k') eqn:E1; [|reflexivity].
    apply jseqb_eq in E1. subst k'.
    now rewrite jseqb_sym, E0.
Qed.

(** Reading after [define]. *)
Lemma obj_get_define (k k' : jsstring) (v : JValue) (ms : list (jsstring * JValue)) :
  obj_get k' (NodeHost.define k v ms) = if jseqb k k' then Some v else obj_get k' ms.
Proof.
  unfold NodeHost.define. rewrite has_key_get.
  destruct (obj_get k ms) as [old|] eqn:Hk; cbn [is_some].
  - destruct (jseqb k k') eqn:E.
    + apply jseqb_eq in E. subst k'. apply obj_get_set_same.
    + apply obj_get_set_other. intro H. subst k'. now rewrite jseqb_refl in E.
  - destruct (NodeHost.array_index k) as [i|].
    + now apply obj_get_insert_index.
    + now apply obj_get_app_fresh.
Qed.

(** An assignment to one key leaves the own properties under the other
    keys as they are. *)
Lemma own_assign_other (k k' : jsstring) (v : JValue) (o : NodeHost.Object_) :
  k' <> k ->
  obj_get k' (NodeHost.own (NodeHost.assign k v o)) = obj_get k' (NodeHost.own o).
Proof.
  intro Hne. unfold NodeHost.assign.
  destruct (jseqb k (js "__proto__") && negb (has_key k (NodeHost.own o))
            && NodeHost.reaches_setter (NodeHost.prototype o)).
  - destruct v; reflexivity.
  - cbn [NodeHost.own]. rewrite obj_get_define.
    now rewrite (jseqb_neq (not_eq_sym Hne)).
Qed.

Lemma own_assign_same (k : jsstring) (v : JValue) (o : NodeHost.Object_) :
  k <> js "__proto__" ->
  obj_get k (NodeHost.own (NodeHost.assign k v o)) = Some v.
Proof.
  intro Hne. unfold NodeHost.assign. rewrite (jseqb_neq Hne). cbn [andb NodeHost.own].
  now rewrite obj_get_define, jseqb_refl.
Qed.

(** With a string for value, an assignment keeps the prototype, and it
    creates no own property [__proto__]. *)
Lemma assign_string (k s : jsstring) (o : NodeHost.Object_) :
  NodeHost.prototype o = NodeHost.ObjectPrototype ->
  NodeHost.prototype (NodeHost.assign k (JStr s) o) = NodeHost.ObjectPrototype
  /\ (obj_get (js "__proto__") (NodeHost.own o) = None ->
      obj_get (js "__proto__") (NodeHost.own (NodeHost.assign k (JStr s) o)) = None).
Proof.
  intro Hp. unfold NodeHost.assign. rewrite Hp. cbn [NodeHost.reaches_setter].
  rewrite andb_true_r.
  destruct (jseqb k (js "__proto__")) eqn:Ek; cbn [andb].
  - apply jseqb_eq in Ek. subst k. rewrite has_key_get.
    destruct (obj_get (js "__proto__") (NodeHost.own o)) as [old|] eqn:Hg;
      cbn [is_some negb NodeHost.prototype NodeHost.own].
    + split; [reflexivity|discriminate].
    + split; [exact Hp|]. intros _. exact Hg.
  - cbn [NodeHost.prototype NodeHost.own]. split; [first [exact Hp|reflexivity]|].
    intro Hg. rewrite obj_get_define, Ek. exact Hg.
Qed.

(** The copy of [process.env] holds each variable with its value. *)
Lemma spread_get (k : jsstring) (processEnv : NodeHost.Env) :
  NoDup (map fst processEnv) ->
  obj_get k (NodeHost.own (NodeHost.spread processEnv))
  = option_map JStr (NodeHost.env_get k processEnv).
Proof.
  unfold NodeHost.spread. cbn [NodeHost.own].
  induction processEnv as [|[k0 v0] r IH] using rev_ind; intro Hnd; [reflexivity|].
  rewrite fold_left_app. cbn [fold_left fst snd].
  rewrite map_app in Hnd. cbn [map fst] in Hnd.
  apply NoDup_remove in Hnd. rewrite app_nil_r in Hnd. destruct Hnd as [Hnd Hfresh].
  rewrite obj_get_define, (IH Hnd).
  assert (Hget : forall l : NodeHost.Env,
             NodeHost.env_get k (l ++ [(k0, v0)])
             = match NodeHost.env_get k l with
               | Some v => Some v
               | None => if jseqb k0 k then Some v0 else None
               end).
  { induction l as [|[a b] l IHl]; cbn; [reflexivity|].
    destruct (jseqb a k); [reflexivity|exact IHl]. }
  rewrite Hget.
  destruct (jseqb k0 k) eqn:E.
  - apply jseqb_eq in E. subst k0.
    assert (Hnone : forall l : NodeHost.Env,
               ~ In k (map fst l) -> NodeHost.env_get k l = None).
    { induction l as [|[a b] l IHl]; cbn; [reflexivity|].
      intro Hn. rewrite jseqb_neq by (intro; subst; apply Hn; now left).
      apply IHl. intro; apply Hn; now right. }
    now rewrite (Hnone r Hfresh).
  - destruct (NodeHost.env_get k r); reflexivity.
Qed.

(** ** Environment overrides *)

Lemma applyOverrides_app
      (toUpperCase : jsstring -> jsstring) (a b : list (jsstring * JValue))
      (merged : NodeHost.Object_) :
  NodeHost.applyOverrides toUpperCase (a ++ b) merged
  = NodeHost.applyOverrides toUpperCase b (NodeHost.applyOverrides toUpperCase a merged).
Proof.
  revert merged. induction a as [|[r v] a IH]; intro m; [reflexivity|].
  cbn [app NodeHost.applyOverrides]. cbv zeta.
  destruct (is_empty (trim r)); [apply IH|].
  destruct (NodeHost.blocked toUpperCase (trim r)); apply IH.
Qed.

(** What the loop leaves under a key that no entry of the overrides may
    set. *)
Lemma applyOverrides_untouched
      (toUpperCase : jsstring -> jsstring) (k : jsstring)
      (entries : list (jsstring * JValue)) (merged : NodeHost.Object_) :
  (forall rawKey value, In (rawKey, value) entries ->
                        trim rawKey = k ->
                        k = [] \/ NodeHost.blocked toUpperCase k = true) ->
  obj_get k (NodeHost.own (NodeHost.applyOverrides toUpperCase entries merged))
  = obj_get k (NodeHost.own merged).
Proof.
  revert merged. induction entries as [|[rawKey value] rest IH]; intros merged H;
    [reflexivity|].
  cbn [NodeHost.applyOverrides]. cbv zeta.
  assert (Hrest : forall m,
             obj_get k (NodeHost.own (NodeHost.applyOverrides toUpperCase rest m))
             = obj_get k (NodeHost.own m)).
  { intro m. apply IH. intros r v Hin Ek. apply (H r v); [now right|exact Ek]. }
  destruct (is_empty (trim rawKey)) eqn:Ee; [apply Hrest|].
  destruct (NodeHost.blocked toUpperCase (trim rawKey)) eqn:Eb; [apply Hrest|].
  rewrite Hrest. apply own_assign_other. intro Ek.
  destruct (H rawKey value (or_introl eq_refl) (eq_sym Ek)) as [Hk|Hk].
  - rewrite <- Ek, Hk in Ee. discriminate.
  - rewrite <- Ek, Hk in Eb. discriminate.
Qed.

(** Overrides whose values are strings leave the prototype alone. *)
Lemma applyOverrides_strings
      (toUpperCase : jsstring -> jsstring)
      (entries : list (jsstring * JValue)) (merged : NodeHost.Object_) :
  (forall rawKey value, In (rawKey, value) entries -> exists s, value = JStr s) ->
  NodeHost.prototype merged = NodeHost.ObjectPrototype ->
  NodeHost.prototype (NodeHost.applyOverrides toUpperCase entries merged)
  = NodeHost.ObjectPrototype
  /\ (obj_get (js "__proto__") (NodeHost.own merged) = None ->
      obj_get (js "__proto__")
              (NodeHost.own (NodeHost.applyOverrides toUpperCase entries merged)) = None).
Proof.
  revert merged. induction entries as [|[rawKey value] rest IH]; intros merged Hs Hp.
  - cbn. auto.
  - cbn [NodeHost.applyOverrides]. cbv zeta.
    assert (Hrest : forall r v, In (r, v) rest -> exists s, v = JStr s)
      by (intros r v Hin; apply (Hs r v); now right).
    destruct (is_empty (trim rawKey)); [now apply IH|].
    destruct (NodeHost.blocked toUpperCase (trim rawKey)); [now apply IH|].
    destruct (Hs rawKey value (or_introl eq_refl)) as [s ->].
    destruct (@assign_string (trim rawKey) s merged Hp) as [Hp1 Hg1].
    destruct (IH _ Hrest Hp1) as [Hp2 Hg2].
    split; [exact Hp2|]. intro Hg. apply Hg2, Hg1, Hg.
Qed.

(** X26: no override reaches a blocked variable.  For whatever case mapping
    [toUpperCase] is and whatever value the overrides are, [sanitizeEnv]
    never changes or adds an own variable whose upper-cased name is PATH,
    NODE_OPTIONS, PYTHONHOME, PYTHONPATH, PERL5LIB, PERL5OPT or RUBYOPT, or
    starts with DYLD_ or LD_: under such a name the result holds what
    [process.env] holds, and so it does under a name that no entry trims to.
    Any other name that is not blank and not [__proto__] is set, trimmed, to
    the value of the last entry that trims to it.  When the values of the overrides are
    strings the prototype of the result is [Object.prototype], and a name
    [__proto__] that [process.env] lacks stays absent.  Without overrides,
    or with overrides that are falsy, the result is [undefined]. *)
Theorem sanitizeEnv_blocks
        (toUpperCase : jsstring -> jsstring) (processEnv : NodeHost.Env) (overrides : JValue) :
  NoDup (map fst processEnv) ->
  NodeHost.sanitizeEnv toUpperCase processEnv None = None
  /\ (truthy overrides = false ->
      NodeHost.sanitizeEnv toUpperCase processEnv (Some overrides) = None)
  /\ (truthy overrides = true ->
      exists merged,
        NodeHost.sanitizeEnv toUpperCase processEnv (Some overrides) = Some merged
        /\ (forall k, NodeHost.blocked toUpperCase k = true ->
                      obj_get k (NodeHost.own merged)
                      = option_map JStr (NodeHost.env_get k processEnv))
        /\ (forall k, (forall rawKey value,
                          In (rawKey, value) (NodeHost.Object_entries overrides) ->
                          trim rawKey <> k) ->
                      obj_get k (NodeHost.own merged)
                      = option_map JStr (NodeHost.env_get k processEnv))
        /\ (forall before rawKey value after,
               NodeHost.Object_entries overrides = before ++ (rawKey, value) :: after ->
               (forall r v, In (r, v) after -> trim r <> trim rawKey) ->
               trim rawKey <> [] ->
               NodeHost.blocked toUpperCase (trim rawKey) = false ->
               trim rawKey <> js "__proto__" ->
               obj_get (trim rawKey) (NodeHost.own merged) = Some value)
        /\ ((forall rawKey value,
                In (rawKey, value) (NodeHost.Object_entries overrides) ->
                exists s, value = JStr s) ->
            NodeHost.prototype merged = NodeHost.ObjectPrototype
            /\ (NodeHost.env_get (js "__proto__") processEnv = None ->
                obj_get (js "__proto__") (NodeHost.own merged) = None))).
Proof.
  intro Hnd. split; [reflexivity|].
  split; [intro Hf; unfold NodeHost.sanitizeEnv; now rewrite Hf|].
  intro Ht. unfold NodeHost.sanitizeEnv. rewrite Ht.
  eexists. split; [reflexivity|].
  split.
  { intros k Hk. rewrite <- (@spread_get k _ Hnd). apply applyOverrides_untouched.
    intros r v _ _. now right. }
  split.
  { intros k Hk. rewrite <- (@spread_get k _ Hnd). apply applyOverrides_untouched.
    intros r v Hin Ek. now elim (Hk r v Hin). }
  split.
  { intros before rawKey value after -> Hlast Hne Hb Hp.
    rewrite applyOverrides_app. cbn [NodeHost.applyOverrides]. cbv zeta.
    destruct (is_empty (trim rawKey)) eqn:Ee;
      [apply is_empty_true in Ee; now elim Hne|].
    rewrite Hb. rewrite applyOverrides_untouched.
    - now apply own_assign_same.
    - intros r v Hin Ek. now elim (Hlast r v Hin). }
  intro Hs.
  destruct (@applyOverrides_strings toUpperCase (NodeHost.Object_entries overrides)
                                    (NodeHost.spread processEnv) Hs eq_refl) as [Hp Hg].
  split; [exact Hp|]. intro Hn. apply Hg.
  rewrite (@spread_get _ _ Hnd), Hn. reflexivity.
Qed.

Lemma sanitizeEnv_blocks_witness :
  exists merged,
    NodeHost.sanitizeEnv NodeHost.asciiUpper [(js "PATH", js "/usr/bin")]
                         (Some (JObj [(js "FOO", JStr (js "0"));
                                      (js " Ld_Preload ", JStr (js "/tmp/x.so"));
                                      (js " FOO", JStr (js "1"));
                                      (js "BAR", JStr (js "2"))]))
    = Some merged
    /\ obj_get (js "Ld_Preload") (NodeHost.own merged) = None
    /\ obj_get (js "PATH") (NodeHost.own merged) = Some (JStr (js "/usr/bin"))
    /\ obj_get (js "FOO") (NodeHost.own merged) = Some (JStr (js "1")).
Proof.
  destruct (@sanitizeEnv_blocks
              NodeHost.asciiUpper [(js "PATH", js "/usr/bin")]
              (JObj [(js "FOO", JStr (js "0")); (js " Ld_Preload ", JStr (js "/tmp/x.so"));
                     (js " FOO", JStr (js "1")); (js "BAR", JStr (js "2"))]))
    as [_ [_ H]].
  - repeat constructor. intros [].
  - destruct (H eq_refl) as [merged [E [Hb [_ [Hl _]]]]].
    exists merged. split; [exact E|]. split; [|split].
    + now rewrite (Hb (js "Ld_Preload")).
    + now rewrite (Hb (js "PATH")).
    + apply (Hl [(js "FOO", JStr (js "0")); (js " Ld_Preload ", JStr (js "/tmp/x.so"))]
                (js " FOO") (JStr (js "1")) [(js "BAR", JStr (js "2"))]);
        [reflexivity| |discriminate|reflexivity|discriminate].
      intros r v [Hin|[]]. injection Hin as <- _. discriminate.
Defined.
(** ** Running a command *)

Lemma clip_nothing (data : list (NodeHost.RunCommand.Target * list N)) :
  NodeHost.RunCommand.clip 0 data = [].
Proof. destruct data as [|[t c] r]; reflexivity. Qed.

(** The chunks that fit are the first bytes of what was written. *)
Lemma clip_bytes (room : N) (data : list (NodeHost.RunCommand.Target * list N)) :
  NodeHost.RunCommand.bytes (NodeHost.RunCommand.clip room data)
  = firstn (N.to_nat room) (NodeHost.RunCommand.bytes data).
Proof.
  revert room. induction data as [|[t c] r IH]; intro room.
  - cbn. now rewrite firstn_nil.
  - cbn [NodeHost.RunCommand.clip].
    destruct (N.eqb_spec room 0) as [->|Hr].
    + reflexivity.
    + destruct (N.ltb_spec room (N.of_nat (List.length c))) as [Hlt|Hge].
      * unfold NodeHost.RunCommand.bytes. cbn [map snd List.concat].
        rewrite app_nil_r, firstn_app.
        replace (N.to_nat room - List.length c) with 0 by lia.
        cbn [firstn]. now rewrite app_nil_r.
      * unfold NodeHost.RunCommand.bytes in *. cbn [map snd List.concat].
        rewrite IH, firstn_app.
        rewrite (@firstn_all2 _ (N.to_nat room) c) by lia.
        f_equal. f_equal. lia.
Qed.

Lemma clip_fits (room : N) (data : list (NodeHost.RunCommand.Target * list N)) :
  (N.of_nat (List.length (NodeHost.RunCommand.bytes (NodeHost.RunCommand.clip room data)))
   = N.min room (N.of_nat (List.length (NodeHost.RunCommand.bytes data))))%N.
Proof.
  rewrite clip_bytes, length_firstn. lia.
Qed.

(** A callback other than that of a chunk leaves the output alone. *)
Lemma on_keeps_output (utf8 : list N -> jsstring) (e : NodeHost.RunCommand.ChildEvent)
      (s : NodeHost.RunCommand.Locals) :
  (forall t c, e <> NodeHost.RunCommand.Data t c) ->
  let s' := NodeHost.RunCommand.on utf8 e s in
  NodeHost.RunCommand.l_stdout s' = NodeHost.RunCommand.l_stdout s
  /\ NodeHost.RunCommand.l_stderr s' = NodeHost.RunCommand.l_stderr s
  /\ NodeHost.RunCommand.outputLen s' = NodeHost.RunCommand.outputLen s
  /\ NodeHost.RunCommand.l_truncated s' = NodeHost.RunCommand.l_truncated s.
Proof.
  intros He. destruct e as [t c| |m|code]; cbn.
  - now elim (He t c).
  - destruct (NodeHost.RunCommand.pending s); cbn; auto.
  - unfold NodeHost.RunCommand.finalize.
    destruct (NodeHost.RunCommand.settled s); cbn; auto.
  - unfold NodeHost.RunCommand.finalize.
    destruct (NodeHost.RunCommand.settled s); cbn; auto.
Qed.

(** The output after a run of callbacks, from any state of the locals. *)
Lemma run_output (utf8 : list N -> jsstring) (events : list NodeHost.RunCommand.ChildEvent) :
  forall s : NodeHost.RunCommand.Locals,
    let room := (NodeHost.RunCommand.OUTPUT_CAP - NodeHost.RunCommand.outputLen s)%N in
    let data := NodeHost.RunCommand.chunks events in
    let kept := NodeHost.RunCommand.clip room data in
    let s' := fold_left (fun s e => NodeHost.RunCommand.on utf8 e s) events s in
    NodeHost.RunCommand.l_stdout s'
    = NodeHost.RunCommand.l_stdout s
      ++ flat_map utf8 (NodeHost.RunCommand.to NodeHost.RunCommand.Stdout kept)
    /\ NodeHost.RunCommand.l_stderr s'
       = NodeHost.RunCommand.l_stderr s
         ++ flat_map utf8 (NodeHost.RunCommand.to NodeHost.RunCommand.Stderr kept)
    /\ (NodeHost.RunCommand.outputLen s'
        = NodeHost.RunCommand.outputLen s
          + N.of_nat (List.length (NodeHost.RunCommand.bytes kept)))%N
    /\ (NodeHost.RunCommand.l_truncated s = true -> NodeHost.RunCommand.l_truncated s' = true)
    /\ (NodeHost.RunCommand.l_truncated s' = false -> kept = data)
    /\ ((room < N.of_nat (List.length (NodeHost.RunCommand.bytes data)))%N ->
        NodeHost.RunCommand.l_truncated s' = true)
    /\ ((N.of_nat (List.length (NodeHost.RunCommand.bytes data)) < room)%N ->
        NodeHost.RunCommand.l_truncated s' = NodeHost.RunCommand.l_truncated s).
Proof.
  induction events as [|e rest IH]; intro s; cbv zeta.
  - cbn [fold_left NodeHost.RunCommand.chunks NodeHost.RunCommand.clip
         NodeHost.RunCommand.to NodeHost.RunCommand.bytes flat_map map List.concat List.length].
    rewrite !app_nil_r, N.add_0_r. repeat split; auto. lia.
  - cbn [fold_left].
    specialize (IH (NodeHost.RunCommand.on utf8 e s)). cbv zeta in IH.
    destruct IH as (Io & Ie & Il & Im & It & Iv & Iu).
    assert (Hother : (forall t c, e <> NodeHost.RunCommand.Data t c) ->
                     NodeHost.RunCommand.chunks (e :: rest) = NodeHost.RunCommand.chunks rest).
    { intro He. destruct e as [t c| | |]; [now elim (He t c)|reflexivity..]. }
    destruct e as [t c| |m|code].
    2: destruct (@on_keeps_output utf8 NodeHost.RunCommand.TimerFired s ltac:(discriminate))
         as (Ko & Ke & Kl & Kt).
    3: destruct (@on_keeps_output utf8 (NodeHost.RunCommand.ChildError m) s
                                  ltac:(discriminate)) as (Ko & Ke & Kl & Kt).
    4: destruct (@on_keeps_output utf8 (NodeHost.RunCommand.ChildExit code) s
                                  ltac:(discriminate)) as (Ko & Ke & Kl & Kt).
    2-4: rewrite Hother by discriminate;
      rewrite Ko, Ke, Kl, Kt in *; repeat split; assumption.
    revert Io Ie Il Im It Iv Iu.
    cbn [NodeHost.RunCommand.on NodeHost.RunCommand.chunks NodeHost.RunCommand.clip].
    unfold NodeHost.RunCommand.onChunk.
    destruct (N.leb_spec NodeHost.RunCommand.OUTPUT_CAP (NodeHost.RunCommand.outputLen s))
      as [Hfull|Hroom].
    + cbn [NodeHost.RunCommand.l_stdout NodeHost.RunCommand.l_stderr
           NodeHost.RunCommand.outputLen NodeHost.RunCommand.l_truncated].
      replace (NodeHost.RunCommand.OUTPUT_CAP - NodeHost.RunCommand.outputLen s)%N
        with 0%N by lia.
      cbn [N.eqb]. rewrite clip_nothing. intros Io Ie Il Im It Iv Iu.
      rewrite (Im eq_refl). repeat split; auto; [discriminate|lia].
    + cbv zeta.
      set (room := (NodeHost.RunCommand.OUTPUT_CAP - NodeHost.RunCommand.outputLen s)%N).
      assert (Hpos : (0 < room)%N) by (unfold room; lia).
      destruct (N.eqb_spec room 0) as [Hz|_]; [lia|].
      destruct (N.ltb_spec room (N.of_nat (List.length c))) as [Hover|Hfits];
        cbn [NodeHost.RunCommand.l_stdout NodeHost.RunCommand.l_stderr
             NodeHost.RunCommand.outputLen NodeHost.RunCommand.l_truncated].
      * rewrite length_firstn.
        replace (NodeHost.RunCommand.OUTPUT_CAP
                 - (NodeHost.RunCommand.outputLen s
                    + N.of_nat (Nat.min (N.to_nat room) (List.length c))))%N
          with 0%N by (unfold room in *; lia).
        rewrite clip_nothing. intros Io Ie Il Im It Iv Iu.
        rewrite (Im eq_refl).
        unfold NodeHost.RunCommand.bytes in *.
        cbn [NodeHost.RunCommand.to flat_map map snd fst List.concat List.length app] in *.
        rewrite app_nil_r in *. rewrite ?length_firstn.
        rewrite Io, Ie, Il. destruct t; cbn [flat_map app]; rewrite ?app_nil_r;
          repeat split; auto; try discriminate;
            rewrite ?length_firstn, ?length_app; lia.
      * replace (NodeHost.RunCommand.OUTPUT_CAP
                 - (NodeHost.RunCommand.outputLen s + N.of_nat (List.length c)))%N
          with (room - N.of_nat (List.length c))%N by (unfold room; lia).
        intros Io Ie Il Im It Iv Iu.
        unfold NodeHost.RunCommand.bytes in *.
        cbn [NodeHost.RunCommand.to flat_map map snd fst List.concat] in *.
        rewrite length_app in *.
        rewrite Io, Ie, Il.
        destruct t; cbn [flat_map app]; rewrite <- ?app_assoc;
          (repeat split; auto; rewrite ?length_app; try lia;
           [now intros H; rewrite (It H)|intro H; apply Iv; lia|intro H; apply Iu; lia]).
Qed.

(** X27: what [runCommand] keeps of the child's output.  Whatever the
    callbacks and their order, the bytes kept are the first 200000 bytes the
    child wrote on its two pipes taken together; [stdout] and [stderr] are
    the decodings, chunk by chunk, of the kept chunks of each pipe, where the
    chunk that crosses the limit is cut and the later ones are dropped;
    [outputLen] is the count of the kept bytes.  The flag [truncated] is
    raised whenever more than 200000 bytes came and never when fewer came,
    and while it is down nothing was cut. *)
Theorem runCommand_caps_output
        (utf8 : list N -> jsstring) (timeoutMs : option jsstring)
        (events : list NodeHost.RunCommand.ChildEvent) :
  let s := NodeHost.RunCommand.runCommand utf8 timeoutMs events in
  let data := NodeHost.RunCommand.chunks events in
  let kept := NodeHost.RunCommand.clip NodeHost.RunCommand.OUTPUT_CAP data in
  let total := N.of_nat (List.length (NodeHost.RunCommand.bytes data)) in
  NodeHost.RunCommand.l_stdout s
  = flat_map utf8 (NodeHost.RunCommand.to NodeHost.RunCommand.Stdout kept)
  /\ NodeHost.RunCommand.l_stderr s
     = flat_map utf8 (NodeHost.RunCommand.to NodeHost.RunCommand.Stderr kept)
  /\ NodeHost.RunCommand.bytes kept
     = firstn (N.to_nat NodeHost.RunCommand.OUTPUT_CAP) (NodeHost.RunCommand.bytes data)
  /\ NodeHost.RunCommand.outputLen s = N.min NodeHost.RunCommand.OUTPUT_CAP total
  /\ (NodeHost.RunCommand.l_truncated s = false -> kept = data)
  /\ ((NodeHost.RunCommand.OUTPUT_CAP < total)%N -> NodeHost.RunCommand.l_truncated s = true)
  /\ ((total < NodeHost.RunCommand.OUTPUT_CAP)%N -> NodeHost.RunCommand.l_truncated s = false).
Proof.
  cbv zeta. unfold NodeHost.RunCommand.runCommand.
  pose proof (@run_output utf8 events (NodeHost.RunCommand.start timeoutMs)) as H.
  cbv zeta in H.
  replace (NodeHost.RunCommand.OUTPUT_CAP
           - NodeHost.RunCommand.outputLen (NodeHost.RunCommand.start timeoutMs))%N
    with NodeHost.RunCommand.OUTPUT_CAP in H by reflexivity.
  destruct H as (Ho & He & Hl & _ & Ht & Hv & Hu).
  split; [exact Ho|]. split; [exact He|]. split; [apply clip_bytes|].
  split; [rewrite Hl; rewrite clip_fits; reflexivity|].
  split; [exact Ht|]. split; [exact Hv|exact Hu].
Qed.

Lemma runCommand_caps_output_witness :
  let events := [NodeHost.RunCommand.Data NodeHost.RunCommand.Stdout [104; 105]%N;
                 NodeHost.RunCommand.Data NodeHost.RunCommand.Stderr [33]%N;
                 NodeHost.RunCommand.ChildExit (Some 0%N);
                 NodeHost.RunCommand.Data NodeHost.RunCommand.Stdout [10]%N] in
  let s := NodeHost.RunCommand.runCommand (@id jsstring) None events in
  NodeHost.RunCommand.l_truncated s = false
  /\ NodeHost.RunCommand.l_stdout s = [104; 105; 10]%N
  /\ NodeHost.RunCommand.outputLen s = 4%N.
Proof.
  cbv zeta.
  destruct (runCommand_caps_output
              (@id jsstring) None
              [NodeHost.RunCommand.Data NodeHost.RunCommand.Stdout [104; 105]%N;
               NodeHost.RunCommand.Data NodeHost.RunCommand.Stderr [33]%N;
               NodeHost.RunCommand.ChildExit (Some 0%N);
               NodeHost.RunCommand.Data NodeHost.RunCommand.Stdout [10]%N])
    as (Ho & _ & _ & Hl & Ht & _ & Hu).
  split; [apply Hu; reflexivity|].
  split; [|exact Hl].
  rewrite Ho, (Ht (Hu eq_refl)). reflexivity.
Defined.

(** While no event finishes the call, nothing is resolved. *)
Lemma run_unsettled (utf8 : list N -> jsstring) (events : list NodeHost.RunCommand.ChildEvent) :
  forall s : NodeHost.RunCommand.Locals,
    forallb (fun e => negb (NodeHost.RunCommand.finishes e)) events = true ->
    let s' := fold_left (fun s e => NodeHost.RunCommand.on utf8 e s) events s in
    NodeHost.RunCommand.resolved s' = NodeHost.RunCommand.resolved s
    /\ NodeHost.RunCommand.settled s' = NodeHost.RunCommand.settled s
    /\ NodeHost.RunCommand.timer s' = NodeHost.RunCommand.timer s
    /\ NodeHost.RunCommand.l_timedOut s'
       = NodeHost.RunCommand.l_timedOut s
         || (NodeHost.RunCommand.pending s && NodeHost.RunCommand.fires events)
    /\ NodeHost.RunCommand.pending s'
       = NodeHost.RunCommand.pending s && negb (NodeHost.RunCommand.fires events)
    /\ NodeHost.RunCommand.kills s'
       = NodeHost.RunCommand.kills s
         + (if NodeHost.RunCommand.pending s && NodeHost.RunCommand.fires events
            then 1 else 0).
Proof.
  induction events as [|e rest IH]; intros s Hn; cbv zeta.
  - cbn. rewrite andb_false_r, orb_false_r, andb_true_r, Nat.add_0_r.
    repeat split; reflexivity.
  - cbn [forallb] in Hn. apply andb_true_iff in Hn. destruct Hn as [He Hrest].
    cbn [fold_left].
    destruct (IH (NodeHost.RunCommand.on utf8 e s) Hrest) as (Ir & Is & It & Io & Ip & Ik).
    rewrite Ir, Is, It, Io, Ip, Ik. clear IH Ir Is It Io Ip Ik.
    unfold NodeHost.RunCommand.fires. cbn [existsb].
    destruct e as [t c| |m|code]; try discriminate He.
    + cbn [NodeHost.RunCommand.on]. unfold NodeHost.RunCommand.onChunk.
      destruct (NodeHost.RunCommand.OUTPUT_CAP <=? NodeHost.RunCommand.outputLen s)%N;
        cbn; repeat split; auto.
    + cbn [NodeHost.RunCommand.on orb].
      destruct (NodeHost.RunCommand.pending s) eqn:Ep; cbn.
      * rewrite orb_true_r. repeat split; auto.
      * rewrite Ep. cbn. repeat split; auto.
Qed.

(** Once settled, always settled, and nothing more is resolved. *)
Lemma run_settled (utf8 : list N -> jsstring) (events : list NodeHost.RunCommand.ChildEvent) :
  forall s : NodeHost.RunCommand.Locals,
    NodeHost.RunCommand.settled s = true ->
    NodeHost.RunCommand.pending s = false ->
    let s' := fold_left (fun s e => NodeHost.RunCommand.on utf8 e s) events s in
    NodeHost.RunCommand.resolved s' = NodeHost.RunCommand.resolved s
    /\ NodeHost.RunCommand.settled s' = true
    /\ NodeHost.RunCommand.pending s' = false
    /\ NodeHost.RunCommand.l_timedOut s' = NodeHost.RunCommand.l_timedOut s
    /\ NodeHost.RunCommand.kills s' = NodeHost.RunCommand.kills s.
Proof.
  induction events as [|e rest IH]; intros s Hs Hp; cbv zeta; [cbn; repeat split; auto|].
  cbn [fold_left].
  assert (Hstep : NodeHost.RunCommand.resolved (NodeHost.RunCommand.on utf8 e s)
                  = NodeHost.RunCommand.resolved s
                  /\ NodeHost.RunCommand.settled (NodeHost.RunCommand.on utf8 e s) = true
                  /\ NodeHost.RunCommand.pending (NodeHost.RunCommand.on utf8 e s) = false
                  /\ NodeHost.RunCommand.l_timedOut (NodeHost.RunCommand.on utf8 e s)
                     = NodeHost.RunCommand.l_timedOut s
                  /\ NodeHost.RunCommand.kills (NodeHost.RunCommand.on utf8 e s)
                     = NodeHost.RunCommand.kills s).
  { destruct e as [t c| |m|code]; cbn [NodeHost.RunCommand.on].
    - unfold NodeHost.RunCommand.onChunk.
      destruct (NodeHost.RunCommand.OUTPUT_CAP <=? NodeHost.RunCommand.outputLen s)%N;
        cbn; repeat split; auto.
    - rewrite Hp. repeat split; auto.
    - unfold NodeHost.RunCommand.finalize. rewrite Hs. repeat split; auto.
    - unfold NodeHost.RunCommand.finalize. rewrite Hs. repeat split; auto. }
  destruct Hstep as (Sr & Ss & Sp & St & Sk).
  destruct (IH _ Ss Sp) as (Ir & Is & Ip & It & Ik).
  rewrite Ir, Is, Ip, It, Ik. repeat split; auto.
Qed.

(** X28: the promise of [runCommand] is resolved once, by the first exit or
    error of the child.  While neither has come nothing is resolved, also
    after the timer fired.  The first exit or error resolves the promise
    with the output gathered until then; what comes later changes neither
    the result nor the count of resolutions.  [timedOut] tells whether a
    positive timeout was given and the timer fired before; the child is
    killed once in that case and never otherwise, and the timer is no longer
    pending afterwards.  [success] holds exactly for an exit with code 0
    before the timer fired. *)
Theorem runCommand_resolves_once
        (utf8 : list N -> jsstring) (timeoutMs : option jsstring)
        (events : list NodeHost.RunCommand.ChildEvent) :
  (forallb (fun e => negb (NodeHost.RunCommand.finishes e)) events = true ->
   NodeHost.RunCommand.resolved (NodeHost.RunCommand.runCommand utf8 timeoutMs events) = [])
  /\ (forall before e after,
         events = before ++ e :: after ->
         forallb (fun x => negb (NodeHost.RunCommand.finishes x)) before = true ->
         NodeHost.RunCommand.finishes e = true ->
         let s := NodeHost.RunCommand.runCommand utf8 timeoutMs before in
         let final := NodeHost.RunCommand.runCommand utf8 timeoutMs events in
         let fired := NodeHost.RunCommand.positive timeoutMs
                      && NodeHost.RunCommand.fires before in
         exists r,
           NodeHost.RunCommand.resolved final = [r]
           /\ NodeHost.RunCommand.stdout r = NodeHost.RunCommand.l_stdout s
           /\ NodeHost.RunCommand.stderr r = NodeHost.RunCommand.l_stderr s
           /\ NodeHost.RunCommand.truncated r = NodeHost.RunCommand.l_truncated s
           /\ NodeHost.RunCommand.timedOut r = fired
           /\ NodeHost.RunCommand.exitCode r
              = match e with NodeHost.RunCommand.ChildExit code => code | _ => None end
           /\ NodeHost.RunCommand.error r
              = match e with NodeHost.RunCommand.ChildError m => Some m | _ => None end
           /\ (NodeHost.RunCommand.success r = true
               <-> e = NodeHost.RunCommand.ChildExit (Some 0%N) /\ fired = false)
           /\ NodeHost.RunCommand.pending final = false
           /\ NodeHost.RunCommand.kills final = if fired then 1 else 0).
Proof.
  split.
  - intro Hn. unfold NodeHost.RunCommand.runCommand.
    destruct (@run_unsettled utf8 events (NodeHost.RunCommand.start timeoutMs) Hn)
      as (Hr & _).
    exact Hr.
  - intros before e after -> Hn He. cbv zeta.
    unfold NodeHost.RunCommand.runCommand. rewrite fold_left_app. cbn [fold_left].
    destruct (@run_unsettled utf8 before (NodeHost.RunCommand.start timeoutMs) Hn)
      as (Hr & Hs & Ht & Ho & Hp & Hk).
    set (s := fold_left (fun s e => NodeHost.RunCommand.on utf8 e s) before
                        (NodeHost.RunCommand.start timeoutMs)) in *.
    cbn [NodeHost.RunCommand.start NodeHost.RunCommand.resolved NodeHost.RunCommand.settled
         NodeHost.RunCommand.timer NodeHost.RunCommand.l_timedOut NodeHost.RunCommand.pending
         NodeHost.RunCommand.kills orb Nat.add] in Hr, Hs, Ht, Ho, Hp, Hk.
    set (armed := NodeHost.RunCommand.positive timeoutMs) in *.
    assert (Hfin : forall code err,
               NodeHost.RunCommand.finalize code err s
               = NodeHost.RunCommand.mkLocals
                   (NodeHost.RunCommand.l_stdout s) (NodeHost.RunCommand.l_stderr s)
                   (NodeHost.RunCommand.outputLen s) (NodeHost.RunCommand.l_truncated s)
                   (armed && NodeHost.RunCommand.fires before) true armed false
                   (if armed && NodeHost.RunCommand.fires before then 1 else 0)
                   [NodeHost.RunCommand.mkRunResult
                      code (armed && NodeHost.RunCommand.fires before)
                      (match code with Some 0%N => true | _ => false end
                       && negb (armed && NodeHost.RunCommand.fires before)
                       && NodeHost.RunCommand.no_error err)
                      (NodeHost.RunCommand.l_stdout s) (NodeHost.RunCommand.l_stderr s)
                      err (NodeHost.RunCommand.l_truncated s)]).
    { intros code err. unfold NodeHost.RunCommand.finalize.
      rewrite Hs, Hr, Ht, Ho, Hp, Hk. cbn [app].
      destruct armed; reflexivity. }
    assert (Hgoal : forall code err,
               NodeHost.RunCommand.on utf8 e s = NodeHost.RunCommand.finalize code err s ->
               code = match e with NodeHost.RunCommand.ChildExit c => c | _ => None end ->
               err = match e with NodeHost.RunCommand.ChildError m => Some m | _ => None end ->
               exists r,
                 NodeHost.RunCommand.resolved
                   (fold_left (fun s e => NodeHost.RunCommand.on utf8 e s) after
                              (NodeHost.RunCommand.on utf8 e s)) = [r]
                 /\ NodeHost.RunCommand.stdout r = NodeHost.RunCommand.l_stdout s
                 /\ NodeHost.RunCommand.stderr r = NodeHost.RunCommand.l_stderr s
                 /\ NodeHost.RunCommand.truncated r = NodeHost.RunCommand.l_truncated s
                 /\ NodeHost.RunCommand.timedOut r = armed && NodeHost.RunCommand.fires before
                 /\ NodeHost.RunCommand.exitCode r
                    = match e with NodeHost.RunCommand.ChildExit c => c | _ => None end
                 /\ NodeHost.RunCommand.error r
                    = match e with NodeHost.RunCommand.ChildError m => Some m | _ => None end
                 /\ (NodeHost.RunCommand.success r = true
                     <-> e = NodeHost.RunCommand.ChildExit (Some 0%N)
                         /\ armed && NodeHost.RunCommand.fires before = false)
                 /\ NodeHost.RunCommand.pending
                      (fold_left (fun s e => NodeHost.RunCommand.on utf8 e s) after
                                 (NodeHost.RunCommand.on utf8 e s)) = false
                 /\ NodeHost.RunCommand.kills
                      (fold_left (fun s e => NodeHost.RunCommand.on utf8 e s) after
                                 (NodeHost.RunCommand.on utf8 e s))
                    = if armed && NodeHost.RunCommand.fires before then 1 else 0).
    { intros code err Hon Hcode Herr. rewrite Hon, Hfin.
      match goal with
      | |- context [fold_left _ after ?s1] =>
          destruct (@run_settled utf8 after s1 eq_refl eq_refl) as (Ar & _ & Ap & _ & Ak)
      end.
      rewrite Ar, Ap, Ak. eexists. split; [reflexivity|].
      cbn [NodeHost.RunCommand.stdout NodeHost.RunCommand.stderr NodeHost.RunCommand.truncated
           NodeHost.RunCommand.timedOut NodeHost.RunCommand.exitCode NodeHost.RunCommand.error
           NodeHost.RunCommand.success NodeHost.RunCommand.resolved NodeHost.RunCommand.pending
           NodeHost.RunCommand.kills].
      do 4 (split; [reflexivity|]).
      split; [exact Hcode|]. split; [exact Herr|].
      split; [|split; reflexivity].
      split.
      - intro Hsucc. apply andb_true_iff in Hsucc. destruct Hsucc as [Hsucc _].
        apply andb_true_iff in Hsucc. destruct Hsucc as [Hc Hf].
        apply negb_true_iff in Hf. split; [|exact Hf].
        destruct e as [t c| |m|c]; subst code; try discriminate Hc.
        destruct c as [[|p]|]; try discriminate Hc. reflexivity.
      - intros [-> Hf]. subst code err. rewrite Hf. reflexivity. }
    destruct e as [t c| |m|code]; try discriminate He.
    + apply (Hgoal None (Some m)); reflexivity.
    + apply (Hgoal code None); reflexivity.
Qed.

Lemma runCommand_resolves_once_witness :
  exists r,
    NodeHost.RunCommand.resolved
      (NodeHost.RunCommand.runCommand
         (@id jsstring) (Some (js "500"))
         [NodeHost.RunCommand.Data NodeHost.RunCommand.Stdout [111; 107]%N;
          NodeHost.RunCommand.TimerFired;
          NodeHost.RunCommand.ChildExit (Some 0%N);
          NodeHost.RunCommand.ChildError (js "late")]) = [r]
    /\ NodeHost.RunCommand.timedOut r = true
    /\ NodeHost.RunCommand.stdout r = [111; 107]%N
    /\ NodeHost.RunCommand.exitCode r = Some 0%N.
Proof.
  destruct (proj2 (runCommand_resolves_once
                     (@id jsstring) (Some (js "500"))
                     [NodeHost.RunCommand.Data NodeHost.RunCommand.Stdout [111; 107]%N;
                      NodeHost.RunCommand.TimerFired;
                      NodeHost.RunCommand.ChildExit (Some 0%N);
                      NodeHost.RunCommand.ChildError (js "late")])
                  [NodeHost.RunCommand.Data NodeHost.RunCommand.Stdout [111; 107]%N;
                   NodeHost.RunCommand.TimerFired]
                  (NodeHost.RunCommand.ChildExit (Some 0%N))
                  [NodeHost.RunCommand.ChildError (js "late")]
                  eq_refl eq_refl eq_refl)
    as (r & Hr & Hso & _ & _ & Ht & Hc & _).
  exists r. split; [exact Hr|]. split; [exact Ht|]. split; [exact Hso|exact Hc].
Defined.

(** ** Looking up executables *)

Section WhichFacts.

Variable win32 : bool.
Variable getenv : jsstring -> option jsstring.
Variable path_join : jsstring -> jsstring -> jsstring.
Variable existsSync : jsstring -> bool.
Variable toLowerCase : jsstring -> jsstring.

(** With the directories at hand, [resolveExecutable] returns. *)
Lemma resolveExecutable_on (bin : jsstring) (env : option NodeHost.Object_)
      (dirs : list jsstring) :
  NodeHost.resolveEnvPath win32 getenv env = Normal dirs ->
  NodeHost.resolveExecutable win32 getenv path_join existsSync toLowerCase bin env
  = Normal (if NodeHost.includes 47 bin || NodeHost.includes 92 bin then None
            else find existsSync
                      (NodeHost.candidates win32 getenv path_join toLowerCase bin dirs)).
Proof.
  intro Hd. unfold NodeHost.resolveExecutable. rewrite Hd.
  destruct (NodeHost.includes 47 bin || NodeHost.includes 92 bin); reflexivity.
Qed.

(** What the loop of [handleSystemWhich] leaves in [found]. *)
Lemma findAll_get (env : option NodeHost.Object_) (dirs : list jsstring)
      (bins : list jsstring) :
  NodeHost.resolveEnvPath win32 getenv env = Normal dirs ->
  forall found : NodeHost.Object_,
    NodeHost.prototype found = NodeHost.ObjectPrototype ->
    obj_get (js "__proto__") (NodeHost.own found) = None ->
    exists found',
      NodeHost.findAll win32 getenv path_join existsSync toLowerCase bins env found
      = Normal found'
      /\ NodeHost.prototype found' = NodeHost.ObjectPrototype
      /\ obj_get (js "__proto__") (NodeHost.own found') = None
      /\ forall k,
          obj_get k (NodeHost.own found')
          = if existsb (jseqb k) bins && negb (jseqb k (js "__proto__"))
               && negb (NodeHost.includes 47 k || NodeHost.includes 92 k)
            then match find existsSync
                            (NodeHost.candidates win32 getenv path_join toLowerCase k dirs) with
                 | Some p => if is_empty p then obj_get k (NodeHost.own found)
                             else Some (JStr p)
                 | None => obj_get k (NodeHost.own found)
                 end
            else obj_get k (NodeHost.own found).
Proof.
  intro Hd. induction bins as [|bin rest IH]; intros found Hp Hg.
  - exists found. repeat split; auto.
  - cbn [NodeHost.findAll]. rewrite (resolveExecutable_on bin env Hd).
    remember (NodeHost.includes 47 bin || NodeHost.includes 92 bin) as sep eqn:Es.
    set (hit := find existsSync
                     (NodeHost.candidates win32 getenv path_join toLowerCase bin dirs)).
    assert (Hskip :
              (sep = true \/ hit = None \/ hit = Some []) ->
              exists found',
                NodeHost.findAll win32 getenv path_join existsSync toLowerCase rest env found
                = Normal found'
                /\ NodeHost.prototype found' = NodeHost.ObjectPrototype
                /\ obj_get (js "__proto__") (NodeHost.own found') = None
                /\ forall k,
                    obj_get k (NodeHost.own found')
                    = if existsb (jseqb k) (bin :: rest) && negb (jseqb k (js "__proto__"))
                         && negb (NodeHost.includes 47 k || NodeHost.includes 92 k)
                      then match find existsSync
                                      (NodeHost.candidates win32 getenv path_join
                                                           toLowerCase k dirs) with
                           | Some p => if is_empty p then obj_get k (NodeHost.own found)
                                       else Some (JStr p)
                           | None => obj_get k (NodeHost.own found)
                           end
                      else obj_get k (NodeHost.own found)).
    { intro Hwhy. destruct (IH found Hp Hg) as (f' & Hf & Hp' & Hg' & Hk).
      exists f'. split; [exact Hf|]. split; [exact Hp'|]. split; [exact Hg'|].
      intro k. rewrite (Hk k). cbn [existsb].
      destruct (jseqb k bin) eqn:Ekb; [|reflexivity].
      apply jseqb_eq in Ekb. subst k. cbn [orb].
      rewrite <- Es. fold hit.
      destruct Hwhy as [Hw|[Hw|Hw]]; rewrite Hw; cbn [negb is_empty];
        rewrite ?andb_false_r;
        destruct (existsb (jseqb bin) rest);
        destruct (jseqb bin (js "__proto__")); destruct sep; reflexivity. }
    destruct sep; [apply Hskip; now left|].
    destruct hit as [p|] eqn:Ehit; [|apply Hskip; right; now left].
    destruct p as [|c t]; [apply Hskip; right; now right|].
    cbn [is_empty].
    destruct (@assign_string bin (c :: t) found Hp) as [Hp1 Hg1].
    destruct (IH _ Hp1 (Hg1 Hg)) as (f' & Hf & Hp' & Hg' & Hk).
    exists f'. split; [exact Hf|]. split; [exact Hp'|]. split; [exact Hg'|].
    intro k. rewrite (Hk k). cbn [existsb].
    destruct (jseqb k bin) eqn:Ekb.
    + apply jseqb_eq in Ekb. subst k. cbn [orb]. rewrite <- Es. fold hit. rewrite Ehit.
      cbn [is_empty negb andb].
      destruct (jseqb bin (js "__proto__")) eqn:Epr; cbn [negb andb].
      * rewrite ?andb_false_r. cbn [andb]. apply jseqb_eq in Epr.
        rewrite Epr in *. rewrite (Hg1 Hg). now rewrite Hg.
      * rewrite own_assign_same
          by (intro H; rewrite H, jseqb_refl in Epr; discriminate).
        destruct (existsb (jseqb bin) rest); reflexivity.
    + cbn [orb].
      rewrite own_assign_other
        by (intro H; subst k; rewrite jseqb_refl in Ekb; discriminate).
      reflexivity.
Qed.

Lemma trimAll_strings (names : list jsstring) :
  NodeHost.trimAll (map JStr names) = Normal (map trim names).
Proof.
  induction names as [|n r IH]; [reflexivity|].
  cbn [map NodeHost.trimAll]. now rewrite IH.
Qed.

Lemma trimAll_throws (items : list JValue) :
  (exists x, In x items /\ forall s, x <> JStr s) ->
  exists e, NodeHost.trimAll items = Throw e /\ err_class e = TypeError_.
Proof.
  induction items as [|x r IH]; intros [y [Hin Hy]]; [destruct Hin|].
  destruct Hin as [->|Hin].
  - destruct y; try (now eexists; split; reflexivity). now elim (Hy s).
  - destruct (IH (ex_intro _ y (conj Hin Hy))) as [e [He Hc]].
    destruct x; try (now eexists; split; reflexivity).
    exists e. cbn [NodeHost.trimAll]. now rewrite He.
Qed.

Lemma existsb_jseqb (k : jsstring) (l : list jsstring) :
  existsb (jseqb k) l = true <-> In k l.
Proof.
  rewrite existsb_exists. split.
  - intros [x [Hin He]]. apply jseqb_eq in He. now subst x.
  - intro Hin. exists k. split; [exact Hin|apply jseqb_refl].
Qed.

End WhichFacts.

(** X29: what [handleSystemWhich] finds.  Given the directories of the
    search path, the answer is the object with the one property [bins],
    which maps exactly those requested names, trimmed, that are not blank,
    hold neither a slash nor a backslash, are not [__proto__] and have a
    candidate that exists, each to the first such candidate in the order of
    the directories and, within a directory, of the extensions, provided
    that path is not empty.  So every path in the answer exists and is
    [path.join] of a directory of the search path and the name with one of
    the extensions.  A list of names with an item that is no string makes
    the function throw a [TypeError]. *)
Theorem handleSystemWhich_finds
        (win32 : bool) (getenv : jsstring -> option jsstring)
        (path_join : jsstring -> jsstring -> jsstring) (existsSync : jsstring -> bool)
        (toLowerCase : jsstring -> jsstring)
        (params : JValue) (items : list JValue) (env : option NodeHost.Object_)
        (dirs : list jsstring) :
  getField "bins" params = Some (JArr items) ->
  NodeHost.resolveEnvPath win32 getenv env = Normal dirs ->
  ((exists x, In x items /\ forall s, x <> JStr s) ->
   exists e,
     NodeHost.handleSystemWhich win32 getenv path_join existsSync toLowerCase params env
     = Throw e
     /\ err_class e = TypeError_)
  /\ (forall names,
         items = map JStr names ->
         exists found,
           NodeHost.handleSystemWhich win32 getenv path_join existsSync toLowerCase params env
           = Normal (JObj [(js "bins", JObj found)])
           /\ (forall bin path,
                  obj_get bin found = Some path
                  <-> In bin (map trim names)
                      /\ bin <> []
                      /\ bin <> js "__proto__"
                      /\ NodeHost.includes 47 bin = false
                      /\ NodeHost.includes 92 bin = false
                      /\ exists p,
                          find existsSync
                               (NodeHost.candidates win32 getenv path_join toLowerCase bin dirs)
                          = Some p
                          /\ p <> [] /\ path = JStr p)
           /\ (forall bin path,
                  obj_get bin found = Some path ->
                  exists p dir ext,
                    path = JStr p
                    /\ existsSync p = true
                    /\ In dir dirs
                    /\ In ext (NodeHost.extensions win32 getenv toLowerCase)
                    /\ p = path_join dir (bin ++ ext))).
Proof.
  intros Hbins Hd. split.
  - intro Hbad. destruct (@trimAll_throws items Hbad) as [e [He Hc]].
    exists e. unfold NodeHost.handleSystemWhich. rewrite Hbins, He. now split.
  - intros names ->.
    unfold NodeHost.handleSystemWhich. rewrite Hbins, trimAll_strings. cbv zeta.
    set (bins := filter (fun b => negb (is_empty b)) (map trim names)).
    destruct (@findAll_get win32 getenv path_join existsSync toLowerCase env dirs bins Hd
                           (NodeHost.mkObject [] NodeHost.ObjectPrototype)
                           eq_refl eq_refl)
      as (found & Hf & _ & _ & Hk).
    rewrite Hf. exists (NodeHost.own found). split; [reflexivity|].
    assert (Hin : forall k, existsb (jseqb k) bins = true <-> In k (map trim names) /\ k <> []).
    { intro k. rewrite existsb_jseqb. unfold bins. rewrite filter_In.
      split; intros [H1 H2]; (split; [exact H1|]).
      - intro Hk0. subst k. discriminate H2.
      - destruct k; [now elim H2|reflexivity]. }
    assert (Hiff : forall bin path,
               obj_get bin (NodeHost.own found) = Some path
               <-> In bin (map trim names)
                   /\ bin <> []
                   /\ bin <> js "__proto__"
                   /\ NodeHost.includes 47 bin = false
                   /\ NodeHost.includes 92 bin = false
                   /\ exists p,
                       find existsSync
                            (NodeHost.candidates win32 getenv path_join toLowerCase bin dirs)
                       = Some p
                       /\ p <> [] /\ path = JStr p).
    { intros bin path. rewrite (Hk bin). cbn [NodeHost.own obj_get].
      destruct (existsb (jseqb bin) bins) eqn:Eb.
      - apply Hin in Eb. destruct Eb as [Eb1 Eb2].
        destruct (jseqb bin (js "__proto__")) eqn:Ep; cbn [negb andb].
        + apply jseqb_eq in Ep. split; [discriminate|]. intros (_ & _ & Hn & _). now elim Hn.
        + assert (Hne : bin <> js "__proto__")
            by (intro H; rewrite H, jseqb_refl in Ep; discriminate).
          destruct (NodeHost.includes 47 bin) eqn:E47; cbn [orb negb].
          { split; [discriminate|]. intros (_ & _ & _ & H & _). discriminate H. }
          destruct (NodeHost.includes 92 bin) eqn:E92; cbn [orb negb].
          { split; [discriminate|]. intros (_ & _ & _ & _ & H & _). discriminate H. }
          destruct (find existsSync
                         (NodeHost.candidates win32 getenv path_join toLowerCase bin dirs))
            as [p|]; [destruct p as [|c t]; cbn [is_empty]|].
          * split; [discriminate|]. intros (_ & _ & _ & _ & _ & p & Hp & Hpn & _).
            injection Hp as <-. now elim Hpn.
          * split.
            { intro H. injection H as <-. repeat split; auto.
              exists (c :: t). repeat split; auto. discriminate. }
            { intros (_ & _ & _ & _ & _ & p & Hp & _ & ->). now injection Hp as <-. }
          * split; [discriminate|]. intros (_ & _ & _ & _ & _ & p & Hp & _). discriminate Hp.
      - cbn [andb]. split; [discriminate|]. intros (H1 & H2 & _).
        assert (existsb (jseqb bin) bins = true) by (apply Hin; now split).
        congruence. }
    split; [exact Hiff|].
    intros bin path Hget. apply Hiff in Hget.
    destruct Hget as (_ & _ & _ & _ & _ & p & Hp & _ & ->).
    apply find_some in Hp. destruct Hp as [Hcand Hex].
    unfold NodeHost.candidates in Hcand. apply in_flat_map in Hcand.
    destruct Hcand as [dir [Hdir Hc]]. apply in_map_iff in Hc.
    destruct Hc as [ext [<- Hext]].
    exists (path_join dir (bin ++ ext)), dir, ext. repeat split; auto.
Qed.

Lemma handleSystemWhich_finds_witness :
  exists found,
    NodeHost.handleSystemWhich
      false
      (fun name => if jseqb name (js "PATH") then Some (js "/bin:/usr/bin") else None)
      (fun dir file => dir ++ js "/" ++ file)
      (fun p => jseqb p (js "/usr/bin/git"))
      (fun s => s)
      (JObj [(js "bins", JArr [JStr (js " git "); JStr (js "a/b")])])
      None
    = Normal (JObj [(js "bins", JObj found)])
    /\ obj_get (js "git") found = Some (JStr (js "/usr/bin/git"))
    /\ obj_get (js "a/b") found = None.
Proof.
  destruct (@handleSystemWhich_finds
              false
              (fun name => if jseqb name (js "PATH") then Some (js "/bin:/usr/bin") else None)
              (fun dir file => dir ++ js "/" ++ file)
              (fun p => jseqb p (js "/usr/bin/git"))
              (fun s => s)
              (JObj [(js "bins", JArr [JStr (js " git "); JStr (js "a/b")])])
              [JStr (js " git "); JStr (js "a/b")]
              None
              [js "/bin"; js "/usr/bin"]
              eq_refl eq_refl) as [_ H].
  destruct (H [js " git "; js "a/b"] eq_refl) as (found & Hf & Hiff & _).
  exists found. split; [exact Hf|]. split.
  - apply Hiff. split; [now left|]. split; [discriminate|]. split; [discriminate|].
    split; [reflexivity|]. split; [reflexivity|].
    exists (js "/usr/bin/git"). split; [reflexivity|]. split; [discriminate|reflexivity].
  - destruct (obj_get (js "a/b") found) as [v|] eqn:E; [|reflexivity].
    apply Hiff in E. destruct E as (_ & _ & _ & E47 & _). discriminate E47.
Defined.

(** ** Handling an invoke frame *)

Section InvokeFacts.

Variables Approvals Resolution AllowlistEntry : Type.
Variable pf : NodeHost.Platform.
Variable xa : NodeHost.ExecApprovals Approvals Resolution AllowlistEntry.
Variable aw : NodeHost.Awaited.

Lemma fst_andThen (A B : Type) (m : NodeHost.H Approvals AllowlistEntry A)
      (k : A -> NodeHost.H Approvals AllowlistEntry B) :
  fst (NodeHost.andThen m k)
  = fst m ++ match snd m with Normal a => fst (k a) | _ => [] end.
Proof.
  destruct m as [acts [a|e|]]; cbn; [destruct (k a); reflexivity|..];
    now rewrite app_nil_r.
Qed.

Lemma snd_andThen (A B : Type) (m : NodeHost.H Approvals AllowlistEntry A)
      (k : A -> NodeHost.H Approvals AllowlistEntry B) :
  snd (NodeHost.andThen m k)
  = match snd m with
    | Normal a => snd (k a)
    | Throw e => Throw e
    | Unfinished => Unfinished
    end.
Proof.
  destruct m as [acts [a|e|]]; cbn; [destruct (k a); reflexivity|reflexivity..].
Qed.

Lemma silent_app (a b : list (NodeHost.Action Approvals AllowlistEntry)) :
  NodeHost.silent a -> NodeHost.silent b -> NodeHost.silent (a ++ b).
Proof.
  intros Ha Hb res Hin. apply in_app_or in Hin. destruct Hin; [eapply Ha|eapply Hb]; eauto.
Qed.

Lemma silent_nil : NodeHost.silent (@nil (NodeHost.Action Approvals AllowlistEntry)).
Proof. intros res []. Qed.

Lemma silent_await (A : Type) (c : Completion A) :
  NodeHost.silent (fst (@NodeHost.await Approvals AllowlistEntry A c)).
Proof. apply silent_nil. Qed.

(** The answer to a frame carries its id. *)
Lemma answer_id (frame : JValue) (rest : list (string * option JValue)) :
  ~ In (js "id") (map (fun f => js (fst f)) rest) ->
  ~ In (js "type") (map (fun f => js (fst f)) rest) ->
  let res := JObj (props (("type", Some (JStr (js "invoke-res")))
                            :: ("id", getField "id" frame) :: rest)) in
  getField "type" res = Some (JStr (js "invoke-res"))
  /\ getField "id" res = getField "id" frame.
Proof.
  intros Hid Hty. cbv zeta. unfold getField at 1 3. split.
  - reflexivity.
  - cbn [props]. cbn [obj_get].
    replace (jseqb (js "type") (js "id")) with false by reflexivity.
    destruct (getField "id" frame) as [v|].
    + cbn [obj_get]. now rewrite jseqb_refl.
    + now apply obj_get_props_fresh.
Qed.

Lemma answers_refuse (frame : JValue) (code message : jsstring) :
  NodeHost.answers frame (@NodeHost.refuse Approvals AllowlistEntry frame code message).
Proof.
  unfold NodeHost.answers, NodeHost.refuse, NodeHost.does. cbn [fst snd].
  eexists [], _. split; [reflexivity|]. split; [apply silent_nil|].
  apply answer_id; cbn; intros [H|[H|[]]]; discriminate H.
Qed.

Lemma answers_respond (frame payload : JValue) :
  NodeHost.answers frame (@NodeHost.respond Approvals AllowlistEntry frame payload).
Proof.
  unfold NodeHost.answers, NodeHost.respond, NodeHost.does. cbn [fst snd].
  eexists [], _. split; [reflexivity|]. split; [apply silent_nil|].
  apply answer_id; cbn; intros [H|[H|[]]]; discriminate H.
Qed.

(** Calls that do not answer, then a function that answers. *)
Lemma answers_andThen (A : Type) (frame : JValue)
      (m : NodeHost.H Approvals AllowlistEntry A)
      (k : A -> NodeHost.H Approvals AllowlistEntry unit) :
  NodeHost.silent (fst m) ->
  (forall a, snd m = Normal a -> NodeHost.answers frame (k a)) ->
  NodeHost.answers frame (NodeHost.andThen m k).
Proof.
  intros Hs Hk. unfold NodeHost.answers. rewrite fst_andThen, snd_andThen.
  destruct (snd m) as [a|e|] eqn:Em.
  - specialize (Hk a eq_refl). unfold NodeHost.answers in Hk.
    destruct (snd (k a)).
    + destruct Hk as (before & res & Hacts & Hb & Hres).
      exists (fst m ++ before), res. rewrite Hacts, app_assoc.
      split; [reflexivity|]. split; [now apply silent_app|exact Hres].
    + now apply silent_app.
    + now apply silent_app.
  - rewrite app_nil_r. exact Hs.
  - rewrite app_nil_r. exact Hs.
Qed.

Lemma silent_event (event : jsstring) (payload : NodeHost.ExecEventPayload) :
  NodeHost.silent (fst (@NodeHost.sendExecEvent Approvals AllowlistEntry event payload)).
Proof.
  intros res [H|[]]. discriminate H.
Qed.

Lemma answers_deny (frame : JValue) (key id cmdText why message : jsstring) :
  NodeHost.answers frame
    (@NodeHost.deny Approvals AllowlistEntry frame key id cmdText why message).
Proof.
  unfold NodeHost.deny. apply answers_andThen; [apply silent_event|].
  intros _ _. apply answers_refuse.
Qed.


Lemma In_andThen (A B : Type) (x : NodeHost.Action Approvals AllowlistEntry)
      (m : NodeHost.H Approvals AllowlistEntry A)
      (k : A -> NodeHost.H Approvals AllowlistEntry B) :
  In x (fst (NodeHost.andThen m k)) ->
  In x (fst m) \/ exists a, snd m = Normal a /\ In x (fst (k a)).
Proof.
  rewrite fst_andThen. intro Hin. apply in_app_or in Hin.
  destruct Hin as [Hin|Hin]; [now left|].
  destruct (snd m) as [a|e|]; [right; eauto|destruct Hin..].
Qed.

End InvokeFacts.

(** Where a call can come from in a sequence of steps. *)
Ltac hunt H :=
  repeat match type of H with
         | In _ (fst (NodeHost.andThen _ _)) =>
             apply In_andThen in H; destruct H as [H|[? [_ H]]]
         | In _ (fst (NodeHost.await _)) => destruct H
         | In _ (fst (NodeHost.pure _)) => destruct H
         | In _ (fst (NodeHost.does _)) => destruct H as [H|[]]; try discriminate H
         | In _ (fst (NodeHost.sendExecEvent _ _)) => destruct H as [H|[]]; try discriminate H
         | In _ (fst (NodeHost.refuse _ _ _)) => destruct H as [H|[]]; try discriminate H
         | In _ (fst (NodeHost.respond _ _)) => destruct H as [H|[]]; try discriminate H
         | In _ (fst (NodeHost.deny _ _ _ _ _ _)) => unfold NodeHost.deny in H
         | In _ (fst (if ?c then _ else _)) => destruct c
         | In _ (fst (match ?c with _ => _ end)) => destruct c
         | _ => progress cbv beta zeta in H
         end.

Section InvokeCalls.

Variables Approvals Resolution AllowlistEntry : Type.
Variable pf : NodeHost.Platform.
Variable xa : NodeHost.ExecApprovals Approvals Resolution AllowlistEntry.
Variable aw : NodeHost.Awaited.

(** Reading the parameters neither answers nor starts a command. *)
Lemma prepare_calls (params : JValue) (items : list JValue)
      (x : NodeHost.Action Approvals AllowlistEntry) :
  In x (fst (NodeHost.prepare pf xa aw params items)) -> x = NodeHost.SkillBinsCurrent.
Proof.
  intro Hin. unfold NodeHost.prepare in Hin. hunt Hin; now subst.
Qed.


Lemma asks_andThen (A : Type) (frame : JValue)
      (m : NodeHost.H Approvals AllowlistEntry A)
      (k : A -> NodeHost.H Approvals AllowlistEntry (option bool)) :
  NodeHost.silent (fst m) ->
  (forall a, snd m = Normal a -> NodeHost.asks frame (k a)) ->
  NodeHost.asks frame (NodeHost.andThen m k).
Proof.
  intros Hs Hk. unfold NodeHost.asks. rewrite fst_andThen, snd_andThen.
  destruct (snd m) as [a|e|] eqn:Em.
  - specialize (Hk a eq_refl). unfold NodeHost.asks in Hk.
    destruct (snd (k a)) as [[b|]|e|]; try (now apply silent_app).
    destruct Hk as (before & res & Hacts & Hb & Hres).
    exists (fst m ++ before), res. rewrite Hacts, app_assoc.
    split; [reflexivity|]. split; [now apply silent_app|exact Hres].
  - rewrite app_nil_r. exact Hs.
  - rewrite app_nil_r. exact Hs.
Qed.

Lemma asks_pure (frame : JValue) (b : bool) :
  NodeHost.asks frame (@NodeHost.pure Approvals AllowlistEntry _ (Some b)).
Proof. apply silent_nil. Qed.

Lemma asks_deny (frame : JValue) (key id cmdText why message : jsstring) :
  NodeHost.asks frame
    (NodeHost.andThen (@NodeHost.deny Approvals AllowlistEntry frame key id cmdText why message)
                      (fun _ => NodeHost.pure None)).
Proof.
  pose proof (@answers_deny Approvals AllowlistEntry frame key id cmdText why message) as H.
  unfold NodeHost.answers in H. unfold NodeHost.asks.
  rewrite fst_andThen, snd_andThen.
  destruct (snd (NodeHost.deny frame key id cmdText why message)) as [[]|e|] eqn:E;
    cbn [NodeHost.pure fst snd]; rewrite app_nil_r; exact H.
Qed.

Lemma silent_does (a : NodeHost.Action Approvals AllowlistEntry) :
  (forall res, a <> NodeHost.Client (SendInvokeResponse res)) ->
  NodeHost.silent (fst (NodeHost.does a)).
Proof.
  intros Ha res [H|[]]. now apply (Ha res).
Qed.

(** The block that asks the user answers exactly when it ends the call. *)
Lemma asks_askUser (frame params : JValue)
      (p : NodeHost.Prepared Approvals Resolution AllowlistEntry) :
  NodeHost.asks frame (NodeHost.askUser xa aw frame params p).
Proof.
  unfold NodeHost.askUser. cbv zeta.
  apply asks_andThen; [apply silent_does; discriminate|]. intros _ _.
  apply asks_andThen; [apply silent_await|]. intros decision _.
  destruct decision as [d|].
  - destruct (jseqb d (js "deny")); [apply asks_deny|].
    destruct (is_empty d).
    + destruct (jseqb _ (js "full")); [apply asks_pure|].
      destruct (jseqb _ (js "allowlist")); [|apply asks_deny].
      destruct (_ || _); [apply asks_pure|apply asks_deny].
    + destruct (jseqb d (js "allow-once")); [apply asks_pure|].
      destruct (jseqb d (js "allow-always")); [|apply asks_pure].
      destruct (jseqb _ (js "allowlist")); [|apply asks_pure].
      destruct (NodeHost.orString _ _) as [[|c t]|]; try apply asks_pure.
      apply asks_andThen; [apply silent_does; discriminate|]. intros _ _. apply asks_pure.
  - destruct (jseqb _ (js "full")); [apply asks_pure|].
    destruct (jseqb _ (js "allowlist")); [|apply asks_deny].
    destruct (_ || _); [apply asks_pure|apply asks_deny].
Qed.

Lemma answers_await (frame : JValue) (c : Completion unit) :
  (forall u, c <> Normal u) ->
  NodeHost.answers frame (@NodeHost.await Approvals AllowlistEntry unit c).
Proof.
  intro Hc. unfold NodeHost.answers, NodeHost.await. cbn [fst snd].
  destruct c as [u|e|]; [now elim (Hc u)|apply silent_nil..].
Qed.

Lemma answers_asked (frame : JValue)
      (m : NodeHost.H Approvals AllowlistEntry (option bool))
      (body : bool -> NodeHost.H Approvals AllowlistEntry unit) :
  NodeHost.asks frame m ->
  (forall b, NodeHost.answers frame (body b)) ->
  NodeHost.answers frame
    (NodeHost.andThen m (fun asked => match asked with
                                      | None => NodeHost.pure tt
                                      | Some b => body b
                                      end)).
Proof.
  intros Hm Hb. unfold NodeHost.answers, NodeHost.asks in *.
  rewrite fst_andThen, snd_andThen.
  destruct (snd m) as [[b|]|e|].
  - specialize (Hb b). destruct (snd (body b)).
    + destruct Hb as (before & res & Hacts & Hs & Hres).
      exists (fst m ++ before), res. rewrite Hacts, app_assoc.
      split; [reflexivity|]. split; [now apply silent_app|exact Hres].
    + now apply silent_app.
    + now apply silent_app.
  - cbn [NodeHost.pure fst snd]. now rewrite app_nil_r.
  - now rewrite app_nil_r.
  - now rewrite app_nil_r.
Qed.

Lemma silent_prepare (params : JValue) (items : list JValue) :
  NodeHost.silent (fst (NodeHost.prepare pf xa aw params items)).
Proof.
  intros res Hin. apply prepare_calls in Hin. discriminate Hin.
Qed.

Lemma answers_runIt (frame params : JValue)
      (p : NodeHost.Prepared Approvals Resolution AllowlistEntry) :
  NodeHost.answers frame (NodeHost.runIt aw frame params p).
Proof.
  unfold NodeHost.runIt.
  apply answers_andThen; [apply silent_event|]. intros _ _.
  apply answers_andThen; [apply silent_await|]. intros cwd _.
  apply answers_andThen; [apply silent_does; discriminate|]. intros _ _.
  apply answers_andThen; [apply silent_await|]. intros result _. cbv zeta.
  apply answers_andThen; [apply silent_event|]. intros _ _.
  apply answers_respond.
Qed.

Lemma answers_systemWhich (frame : JValue) :
  NodeHost.answers frame (@NodeHost.systemWhich Approvals AllowlistEntry pf frame).
Proof.
  unfold NodeHost.systemWhich. cbv zeta.
  match goal with
  | |- NodeHost.answers _ (match ?attempt with _ => _ end) => destruct attempt
  end.
  - apply answers_respond.
  - apply answers_refuse.
  - apply answers_await. discriminate.
Qed.

Lemma answers_guard (frame params : JValue)
      (p : NodeHost.Prepared Approvals Resolution AllowlistEntry) :
  NodeHost.answers frame (NodeHost.guard xa aw frame params p).
Proof.
  unfold NodeHost.guard. cbv zeta.
  destruct (jseqb _ (js "deny")); [apply answers_deny|].
  apply answers_asked;
    [destruct (NodeHost.requiresAsk xa p); [apply asks_askUser|apply asks_pure]|].
  intro approvedByAsk.
  destruct (_ && _); [apply answers_deny|].
  apply answers_andThen;
    [destruct (NodeHost.p_allowlistMatch p);
     [apply silent_does; discriminate|apply silent_nil]|].
  intros _ _.
  destruct (getField "needsScreenRecording" _) as [[|[|]|n0|s0|i0|m0]|];
    try apply answers_runIt; apply answers_deny.
Qed.

Lemma answers_systemRun (frame params : JValue) :
  NodeHost.answers frame (NodeHost.systemRun pf xa aw frame params).
Proof.
  unfold NodeHost.systemRun.
  assert (Hno : NodeHost.answers frame
                  (@NodeHost.refuse Approvals AllowlistEntry frame (js "INVALID_REQUEST")
                                    (js "command required")))
    by apply answers_refuse.
  destruct params as [|b|n|s|items|ms];
    try (apply answers_await; discriminate);
    destruct (getField "command" _) as [[|b'|n'|s'|[|first more]|ms']|]; try exact Hno.
  all: apply answers_andThen; [apply silent_prepare|]; intros p _; apply answers_guard.
Qed.

(** The answer of [handleInvoke]. *)
Lemma answers_handleInvoke (frame : JValue) :
  NodeHost.answers frame (NodeHost.handleInvoke pf xa aw frame).
Proof.
  unfold NodeHost.handleInvoke.
  destruct frame as [|b|n|s|items|ms]; try (apply answers_await; discriminate).
  all: destruct (ToString _) as [command|]; [|apply answers_await; discriminate].
  all: destruct (jseqb command (js "system.which")); [apply answers_systemWhich|].
  all: destruct (negb _); [apply answers_refuse|].
  all: destruct (NodeHost.decodeParams _) as [params|e|];
    [apply answers_systemRun|apply answers_refuse|apply answers_await; discriminate].
Qed.


(** *** Which calls start a command *)

Lemma askUser_starts_nothing (frame params : JValue)
      (p : NodeHost.Prepared Approvals Resolution AllowlistEntry) :
  NodeHost.idle_run (fst (NodeHost.askUser xa aw frame params p)).
Proof.
  intros argv cwd env t Hin. unfold NodeHost.askUser in Hin. hunt Hin.
Qed.

(** When the block that asks the user lets the function go on. *)
Lemma askUser_passed (frame params : JValue)
      (p : NodeHost.Prepared Approvals Resolution AllowlistEntry) (b : bool) :
  snd (NodeHost.askUser xa aw frame params p) = Normal (Some b) ->
  exists d,
    NodeHost.decided aw = Normal d
    /\ d <> Some (js "deny")
    /\ (d = None \/ d = Some [] ->
        NodeHost.askFallback xa (NodeHost.p_approvals p) = js "full"
        \/ (NodeHost.askFallback xa (NodeHost.p_approvals p) = js "allowlist"
            /\ is_some (NodeHost.p_allowlistMatch p) || NodeHost.p_skillAllow p = true))
    /\ (b = true ->
        d = Some (js "allow-once") \/ d = Some (js "allow-always")
        \/ d = None \/ d = Some []).
Proof.
  unfold NodeHost.askUser. cbv zeta. rewrite !snd_andThen.
  cbn [NodeHost.does NodeHost.await snd].
  destruct (NodeHost.decided aw) as [d|e|]; [|discriminate..].
  intro H. exists d. split; [reflexivity|].
  assert (Hfall :
            forall m : NodeHost.H Approvals AllowlistEntry (option bool),
              m = (if jseqb (NodeHost.askFallback xa (NodeHost.p_approvals p)) (js "full")
                   then NodeHost.pure (Some true)
                   else if jseqb (NodeHost.askFallback xa (NodeHost.p_approvals p))
                                 (js "allowlist")
                        then if is_some (NodeHost.p_allowlistMatch p) || NodeHost.p_skillAllow p
                             then NodeHost.pure (Some true)
                             else NodeHost.andThen
                                    (NodeHost.deny frame (NodeHost.p_sessionKey p)
                                                   (NodeHost.randomUUID aw) (NodeHost.p_cmdText p)
                                                   (js "approval-required")
                                                   (js "SYSTEM_RUN_DENIED: approval required"))
                                    (fun _ => NodeHost.pure None)
                        else NodeHost.andThen
                               (NodeHost.deny frame (NodeHost.p_sessionKey p)
                                              (NodeHost.randomUUID aw) (NodeHost.p_cmdText p)
                                              (js "approval-required")
                                              (js "SYSTEM_RUN_DENIED: approval required"))
                               (fun _ => NodeHost.pure None)) ->
              snd m = Normal (Some b) ->
              NodeHost.askFallback xa (NodeHost.p_approvals p) = js "full"
              \/ (NodeHost.askFallback xa (NodeHost.p_approvals p) = js "allowlist"
                  /\ is_some (NodeHost.p_allowlistMatch p) || NodeHost.p_skillAllow p = true)).
  { intros m -> Hm.
    destruct (jseqb _ (js "full")) eqn:Ef; [left; now apply jseqb_eq|].
    destruct (jseqb _ (js "allowlist")) eqn:Ea; [|discriminate Hm].
    destruct (_ || _) eqn:Eo; [|discriminate Hm].
    right. split; [now apply jseqb_eq|reflexivity]. }
  destruct d as [d|].
  - destruct (jseqb d (js "deny")) eqn:Ed; [discriminate H|].
    split; [intro Hd; injection Hd as ->; discriminate Ed|].
    destruct (is_empty d) eqn:Ee.
    + destruct d; [|discriminate Ee].
      split; [intros _; eapply Hfall; [reflexivity|exact H]|].
      intros _. now right; right; right.
    + split; [intros [Hd|Hd]; [discriminate Hd|injection Hd as ->; discriminate Ee]|].
      intros ->.
      destruct (jseqb d (js "allow-once")) eqn:Eo;
        [left; f_equal; now apply jseqb_eq|].
      destruct (jseqb d (js "allow-always")) eqn:Ea;
        [right; left; f_equal; now apply jseqb_eq|].
      discriminate H.
  - split; [discriminate|].
    split; [intros _; eapply Hfall; [reflexivity|exact H]|].
    intros _. now right; right; left.
Qed.

(** The calls of [runIt] up to the start of the command. *)
Lemma runIt_starts (frame params : JValue)
      (p : NodeHost.Prepared Approvals Resolution AllowlistEntry)
      (argv : list jsstring) (cwd : option jsstring) (env : option NodeHost.Object_)
      (t : option JValue) :
  In (NodeHost.Run argv cwd env t) (fst (NodeHost.runIt aw frame params p)) ->
  argv = NodeHost.p_argv p
  /\ env = NodeHost.p_env p
  /\ exists payload post,
      fst (NodeHost.runIt aw frame params p)
      = NodeHost.Client (SendEvent (js "exec.started") (Some payload))
          :: NodeHost.Run argv cwd env t :: post.
Proof.
  intro Hin.
  assert (Hargs : argv = NodeHost.p_argv p /\ env = NodeHost.p_env p
                  /\ NodeHost.trimmed (getField "cwd" params) = Normal cwd
                  /\ t = NodeHost.orUndefined (getField "timeoutMs" params)).
  { unfold NodeHost.runIt in Hin.
    apply In_andThen in Hin. destruct Hin as [Hin|[[] [_ Hin]]]; [hunt Hin|].
    apply In_andThen in Hin. destruct Hin as [Hin|[cwd0 [Hcwd Hin]]]; [hunt Hin|].
    cbn [NodeHost.await snd] in Hcwd.
    hunt Hin. injection Hin as <- <- <- <-. now repeat split. }
  destruct Hargs as (Ha & He & Hc & Ht). subst argv env t.
  split; [reflexivity|]. split; [reflexivity|].
  unfold NodeHost.runIt. rewrite fst_andThen.
  cbn [NodeHost.sendExecEvent NodeHost.does fst snd app].
  rewrite fst_andThen. cbn [NodeHost.await fst snd app]. rewrite Hc.
  rewrite fst_andThen. cbn [NodeHost.does fst snd app].
  eexists _, _. reflexivity.
Qed.

(** What holds when the guarded part starts a command. *)
Lemma guard_starts (frame params : JValue)
      (p : NodeHost.Prepared Approvals Resolution AllowlistEntry)
      (argv : list jsstring) (cwd : option jsstring) (env : option NodeHost.Object_)
      (t : option JValue) :
  In (NodeHost.Run argv cwd env t) (fst (NodeHost.guard xa aw frame params p)) ->
  argv = NodeHost.p_argv p
  /\ env = NodeHost.p_env p
  /\ NodeHost.security xa (NodeHost.p_approvals p) <> js "deny"
  /\ getField "needsScreenRecording" params <> Some (JBool true)
  /\ (NodeHost.requiresAsk xa p = true ->
      exists d,
        NodeHost.decided aw = Normal d
        /\ d <> Some (js "deny")
        /\ (d = None \/ d = Some [] ->
            NodeHost.askFallback xa (NodeHost.p_approvals p) = js "full"
            \/ (NodeHost.askFallback xa (NodeHost.p_approvals p) = js "allowlist"
                /\ is_some (NodeHost.p_allowlistMatch p) || NodeHost.p_skillAllow p = true)))
  /\ (NodeHost.security xa (NodeHost.p_approvals p) = js "allowlist" ->
      is_some (NodeHost.p_allowlistMatch p) = true
      \/ NodeHost.p_skillAllow p = true
      \/ (NodeHost.requiresAsk xa p = true
          /\ (NodeHost.decided aw = Normal (Some (js "allow-once"))
              \/ NodeHost.decided aw = Normal (Some (js "allow-always"))
              \/ ((NodeHost.decided aw = Normal None
                   \/ NodeHost.decided aw = Normal (Some []))
                  /\ NodeHost.askFallback xa (NodeHost.p_approvals p) = js "full"))))
  /\ exists pre post,
      fst (NodeHost.guard xa aw frame params p)
      = pre ++ NodeHost.Run argv cwd env t :: post
      /\ (exists payload,
             In (NodeHost.Client (SendEvent (js "exec.started") (Some payload))) pre)
      /\ (NodeHost.requiresAsk xa p = true ->
          exists request,
            In (NodeHost.RequestExecApproval (NodeHost.p_approvals p) request) pre)
      /\ (NodeHost.requiresAsk xa p = false ->
          forall a request, ~ In (NodeHost.RequestExecApproval a request) pre).
Proof.
  intro Hin. unfold NodeHost.guard in *. cbv zeta in *.
  destruct (jseqb (NodeHost.security xa (NodeHost.p_approvals p)) (js "deny")) eqn:Ed;
    [hunt Hin|].
  rewrite fst_andThen.
  apply In_andThen in Hin. destruct Hin as [Hin|[asked [Hasked Hin]]].
  { destruct (NodeHost.requiresAsk xa p); [|destruct Hin].
    now apply askUser_starts_nothing in Hin. }
  rewrite Hasked.
  destruct asked as [approvedByAsk|]; [|destruct Hin].
  destruct (jseqb (NodeHost.security xa (NodeHost.p_approvals p)) (js "allowlist")
            && negb (is_some (NodeHost.p_allowlistMatch p))
            && negb (NodeHost.p_skillAllow p)
            && negb approvedByAsk) eqn:Eg; [hunt Hin|].
  rewrite fst_andThen.
  apply In_andThen in Hin. destruct Hin as [Hin|[[] [Hrec Hin]]].
  { destruct (NodeHost.p_allowlistMatch p); hunt Hin. }
  rewrite Hrec.
  assert (Hscreen : getField "needsScreenRecording" params <> Some (JBool true)
                    /\ match getField "needsScreenRecording" params with
                       | Some (JBool true) =>
                           NodeHost.deny frame (NodeHost.p_sessionKey p)
                                         (NodeHost.randomUUID aw) (NodeHost.p_cmdText p)
                                         (js "permission:screenRecording")
                                         (js "PERMISSION_MISSING: screenRecording")
                       | _ => NodeHost.runIt aw frame params p
                       end = NodeHost.runIt aw frame params p).
  { destruct (getField "needsScreenRecording" params) as [[|[|]|n0|s0|i0|m0]|];
      try (split; [discriminate|reflexivity]).
    hunt Hin. }
  destruct Hscreen as [Hscreen Hsame]. rewrite Hsame in *.
  destruct (runIt_starts _ _ _ _ _ _ _ Hin) as (Hargv & Henv & payload & post & Hshape).
  split; [exact Hargv|]. split; [exact Henv|].
  split; [intro Hs; rewrite Hs in Ed; discriminate Ed|].
  split; [exact Hscreen|].
  split; [|split].
  - intro Hreq. rewrite Hreq in Hasked.
    destruct (askUser_passed _ _ _ Hasked) as (d & Hd & Hnd & Hf & _).
    exists d. auto.
  - intro Hsec. rewrite Hsec in Eg.
    replace (jseqb (js "allowlist") (js "allowlist")) with true in Eg by reflexivity.
    cbn [andb] in Eg.
    destruct (is_some (NodeHost.p_allowlistMatch p)) eqn:Em; [now left|].
    destruct (NodeHost.p_skillAllow p) eqn:Es; [now right; left|].
    destruct approvedByAsk; [|discriminate Eg].
    destruct (NodeHost.requiresAsk xa p) eqn:Hreq; [|discriminate Hasked].
    right; right. split; [reflexivity|].
    destruct (askUser_passed _ _ _ Hasked) as (d & Hd & _ & Hf & Hb).
    rewrite Hd.
    destruct (Hb eq_refl) as [->|[->|Hfalsy]]; [now left|now right; left|].
    right; right.
    destruct (Hf Hfalsy) as [Hfull|[_ Himp]]; [|rewrite Em, Es in Himp; discriminate Himp].
    split; [|exact Hfull]. destruct Hfalsy as [->| ->]; [now left|now right].
  - rewrite Hshape.
    match goal with
    | |- exists pre post0, ?stage ++ ?rec ++ ?started :: ?run :: post = _ /\ _ =>
        exists (stage ++ rec ++ [started]), post
    end.
    split; [now rewrite <- !app_assoc|].
    split; [exists payload; apply in_or_app; right; apply in_or_app; right; now left|].
    split.
    + intro Hreq. rewrite Hreq. unfold NodeHost.askUser. cbv zeta.
      eexists. apply in_or_app. left. rewrite fst_andThen.
      cbn [NodeHost.does fst]. now left.
    + intros Hreq a request Hr. rewrite Hreq in Hr.
      apply in_app_or in Hr. destruct Hr as [Hr|Hr]; [destruct Hr|].
      apply in_app_or in Hr. destruct Hr as [Hr|[Hr|[]]]; [|discriminate Hr].
      destruct (NodeHost.p_allowlistMatch p); [destruct Hr as [Hr|[]]; discriminate Hr|].
      destruct Hr.
Qed.

(** What holds when [system.run] starts a command. *)
Lemma systemRun_starts (frame params : JValue)
      (argv : list jsstring) (cwd : option jsstring) (env : option NodeHost.Object_)
      (t : option JValue) :
  In (NodeHost.Run argv cwd env t) (fst (NodeHost.systemRun pf xa aw frame params)) ->
  exists items p,
    getField "command" params = Some (JArr items)
    /\ snd (NodeHost.prepare pf xa aw params items) = Normal p
    /\ fst (NodeHost.systemRun pf xa aw frame params)
       = fst (NodeHost.prepare pf xa aw params items)
         ++ fst (NodeHost.guard xa aw frame params p)
    /\ In (NodeHost.Run argv cwd env t) (fst (NodeHost.guard xa aw frame params p)).
Proof.
  intro Hin.
  assert (Hnn : params <> JNull).
  { intro Hn. subst params. destruct Hin. }
  assert (Hbody :
            NodeHost.systemRun pf xa aw frame params
            = match getField "command" params with
              | Some (JArr (first :: more)) =>
                  NodeHost.andThen (NodeHost.prepare pf xa aw params (first :: more))
                                   (NodeHost.guard xa aw frame params)
              | _ => NodeHost.refuse frame (js "INVALID_REQUEST") (js "command required")
              end).
  { destruct params; [now elim Hnn|reflexivity..]. }
  rewrite Hbody in *. clear Hbody.
  destruct (getField "command" params) as [[|b'|n'|s'|[|first more]|ms']|] eqn:Ec;
    try (hunt Hin; fail).
  apply In_andThen in Hin. destruct Hin as [Hin|[p [Hp Hin]]].
  { apply prepare_calls in Hin. discriminate Hin. }
  exists (first :: more), p. split; [reflexivity|]. split; [exact Hp|].
  split; [|exact Hin]. rewrite fst_andThen, Hp. reflexivity.
Qed.

End InvokeCalls.

(** X30: how [handleInvoke] answers and when it starts a command.  A call
    that returns has sent one answer, as its last call to the client: an
    [invoke-res] frame with the id of the frame handled.  A call that throws
    or waits for ever has sent none.  A command is started only for a
    [system.run] frame whose parameters decode and can be read, and then
    only if the security of the agent is not [deny], the parameters do not
    ask for screen recording, and, under the security [allowlist], the
    command matches the allowlist, or is a skill binary, or was allowed by
    the user or by the fallback [full].  Where the approvals require asking,
    the request for approval was made before the command is started and the
    user did not answer [deny], a missing decision being made up for by the
    fallback; where they do not, no request was made.  The event
    [exec.started] is sent before the command is started. *)
Theorem handleInvoke_answers_and_guards
        (Approvals Resolution AllowlistEntry : Type)
        (pf : NodeHost.Platform)
        (xa : NodeHost.ExecApprovals Approvals Resolution AllowlistEntry)
        (aw : NodeHost.Awaited) (frame : JValue) :
  let out := NodeHost.handleInvoke pf xa aw frame in
  (match snd out with
   | Normal _ =>
       exists before res,
         fst out = before ++ [NodeHost.Client (SendInvokeResponse res)]
         /\ (forall r, ~ In (NodeHost.Client (SendInvokeResponse r)) before)
         /\ getField "type" res = Some (JStr (js "invoke-res"))
         /\ getField "id" res = getField "id" frame
   | _ => forall r, ~ In (NodeHost.Client (SendInvokeResponse r)) (fst out)
   end)
  /\ forall argv cwd env timeoutMs,
      In (NodeHost.Run argv cwd env timeoutMs) (fst out) ->
      exists params items p,
        ToString (nullish (getField "command" frame) (JStr [])) = Some (js "system.run")
        /\ NodeHost.decodeParams (getField "paramsJSON" frame) = Normal params
        /\ getField "command" params = Some (JArr items)
        /\ snd (NodeHost.prepare pf xa aw params items) = Normal p
        /\ argv = NodeHost.p_argv p
        /\ env = NodeHost.p_env p
        /\ NodeHost.security xa (NodeHost.p_approvals p) <> js "deny"
        /\ getField "needsScreenRecording" params <> Some (JBool true)
        /\ (NodeHost.requiresAsk xa p = true ->
            exists d,
              NodeHost.decided aw = Normal d
              /\ d <> Some (js "deny")
              /\ (d = None \/ d = Some [] ->
                  NodeHost.askFallback xa (NodeHost.p_approvals p) = js "full"
                  \/ (NodeHost.askFallback xa (NodeHost.p_approvals p) = js "allowlist"
                      /\ is_some (NodeHost.p_allowlistMatch p) || NodeHost.p_skillAllow p
                         = true)))
        /\ (NodeHost.security xa (NodeHost.p_approvals p) = js "allowlist" ->
            is_some (NodeHost.p_allowlistMatch p) = true
            \/ NodeHost.p_skillAllow p = true
            \/ (NodeHost.requiresAsk xa p = true
                /\ (NodeHost.decided aw = Normal (Some (js "allow-once"))
                    \/ NodeHost.decided aw = Normal (Some (js "allow-always"))
                    \/ ((NodeHost.decided aw = Normal None
                         \/ NodeHost.decided aw = Normal (Some []))
                        /\ NodeHost.askFallback xa (NodeHost.p_approvals p) = js "full"))))
        /\ exists pre post,
            fst out = pre ++ NodeHost.Run argv cwd env timeoutMs :: post
            /\ (exists payload,
                   In (NodeHost.Client (SendEvent (js "exec.started") (Some payload))) pre)
            /\ (NodeHost.requiresAsk xa p = true ->
                exists request,
                  In (NodeHost.RequestExecApproval (NodeHost.p_approvals p) request) pre)
            /\ (NodeHost.requiresAsk xa p = false ->
                forall a request, ~ In (NodeHost.RequestExecApproval a request) pre).
Proof.
  cbv zeta. split; [exact (answers_handleInvoke pf xa aw frame)|].
  intros argv cwd env t Hin.
  assert (Hbody :
            NodeHost.handleInvoke pf xa aw frame
            = match ToString (nullish (getField "command" frame) (JStr [])) with
              | Some command =>
                  if jseqb command (js "system.which")
                  then @NodeHost.systemWhich Approvals AllowlistEntry pf frame
                  else if negb (jseqb command (js "system.run"))
                       then NodeHost.refuse frame (js "UNAVAILABLE")
                                            (js "command not supported")
                       else match NodeHost.decodeParams (getField "paramsJSON" frame) with
                            | Normal params => NodeHost.systemRun pf xa aw frame params
                            | Throw err =>
                                NodeHost.refuse frame (js "INVALID_REQUEST")
                                                (NodeHost.String_error err)
                            | Unfinished => NodeHost.await Unfinished
                            end
              | None =>
                  NodeHost.await
                    (Throw (mkError TypeError_
                                    (js "Cannot convert object to primitive value")))
              end).
  { destruct frame; [destruct Hin|reflexivity..]. }
  rewrite Hbody in *. clear Hbody.
  destruct (ToString (nullish (getField "command" frame) (JStr []))) as [command|];
    [|destruct Hin].
  destruct (jseqb command (js "system.which")).
  { unfold NodeHost.systemWhich in Hin. hunt Hin. }
  destruct (jseqb command (js "system.run")) eqn:Ec; cbn [negb] in *; [|hunt Hin].
  apply jseqb_eq in Ec. subst command.
  destruct (NodeHost.decodeParams (getField "paramsJSON" frame)) as [params|e|];
    [|hunt Hin..].
  destruct (@systemRun_starts _ _ _ pf xa aw frame params argv cwd env t Hin)
    as (items & p & Hc & Hp & Hacts & Hg).
  destruct (@guard_starts _ _ _ xa aw frame params p argv cwd env t Hg)
    as (Hargv & Henv & Hsec & Hscreen & Hask & Hallow & pre & post & Hshape & Hst & Hrq & Hnrq).
  exists params, items, p.
  do 4 (split; [reflexivity || assumption|]).
  do 6 (split; [assumption|]).
  exists (fst (NodeHost.prepare pf xa aw params items) ++ pre), post.
  split; [rewrite Hacts, Hshape; now rewrite <- app_assoc|].
  split; [destruct Hst as [payload Hst]; exists payload; apply in_or_app; now right|].
  split.
  - intro Hreq. destruct (Hrq Hreq) as [request Hr]. exists request.
    apply in_or_app. now right.
  - intros Hreq a request Hr. apply in_app_or in Hr. destruct Hr as [Hr|Hr].
    + apply prepare_calls in Hr. discriminate Hr.
    + exact (Hnrq Hreq a request Hr).
Qed.

Lemma handleInvoke_answers_and_guards_witness :
  let pf := NodeHost.mkPlatform false (fun _ => None) (fun dir file => dir ++ js "/" ++ file)
                                (fun _ => false) (fun s => s) NodeHost.asciiUpper [] in
  let xa := @NodeHost.mkExecApprovals
              unit unit unit
              (fun _ => js "allowlist") (fun _ => js "on-miss") (fun _ => js "deny")
              (fun _ => false) (fun _ => None) (fun _ => None) (fun _ => None)
              (fun _ => tt) (fun _ _ _ => None) (fun _ _ => None) in
  let aw := NodeHost.mkAwaited
              (js "run-1") (Normal []) (Normal (Some (js "allow-once")))
              (Normal (NodeHost.RunCommand.mkRunResult (Some 0%N) false true (js "ok") []
                                                       None false)) in
  let frame := JObj [(js "type", JStr (js "invoke")); (js "id", JStr (js "7"));
                     (js "command", JStr (js "system.run"));
                     (js "paramsJSON", JStr (jsq "{'command':['ls','-l']}"))] in
  exists params items p pre post request,
    NodeHost.decodeParams (getField "paramsJSON" frame) = Normal params
    /\ snd (NodeHost.prepare pf xa aw params items) = Normal p
    /\ [js "ls"; js "-l"] = NodeHost.p_argv p
    /\ NodeHost.security xa (NodeHost.p_approvals p) <> js "deny"
    /\ fst (NodeHost.handleInvoke pf xa aw frame)
       = pre ++ NodeHost.Run [js "ls"; js "-l"] None None None :: post
    /\ In (NodeHost.RequestExecApproval (NodeHost.p_approvals p) request) pre.
Proof.
  cbv zeta.
  match goal with
  | |- exists params items p pre post request,
        NodeHost.decodeParams (getField "paramsJSON" ?frame) = _
        /\ snd (NodeHost.prepare ?pf ?xa ?aw _ _) = _ /\ _ =>
      destruct (proj2 (@handleInvoke_answers_and_guards unit unit unit pf xa aw frame)
                      [js "ls"; js "-l"] None None None)
        as (params & items & p & _ & Hd & Hc & Hp & Hargv & _ & Hsec & _ & _ & _
            & pre & post & Hshape & _ & Hrq & _)
  end.
  - vm_compute. right. right. left. reflexivity.
  - assert (Hreq : NodeHost.requiresAsk
                     (@NodeHost.mkExecApprovals
                        unit unit unit
                        (fun _ => js "allowlist") (fun _ => js "on-miss") (fun _ => js "deny")
                        (fun _ => false) (fun _ => None) (fun _ => None) (fun _ => None)
                        (fun _ => tt) (fun _ _ _ => None) (fun _ _ => None)) p = true).
    { pose proof Hd as Hd'. vm_compute in Hd'. injection Hd' as <-.
      pose proof Hc as Hc'. vm_compute in Hc'. injection Hc' as <-.
      pose proof Hp as Hp'. vm_compute in Hp'. injection Hp' as <-.
      reflexivity. }
    destruct (Hrq Hreq) as [request Hr].
    exists params, items, p, pre, post, request.
    split; [exact Hd|]. split; [exact Hp|]. split; [exact Hargv|].
    split; [exact Hsec|]. split; [exact Hshape|exact Hr].
Defined.
